(** * miniclaw control plane: routing, sessions, agent runner, subagents

    A shallow embedding of the control-plane code of the repository
    (binding manager, session manager, tool registry, agent runner,
    gateway completion callback, subagent registry and announce queue),
    together with the properties of its specification.

    Conventions of the embedding.
    - A JavaScript string is a [string]; one [ascii] stands for one code
      unit, so the strings of the embedding are those whose code units are
      below 256, and [.length], [.slice] and [.trim] act on them exactly
      as the engine does.
    - A JavaScript number that holds a count, a priority or a time stamp
      in milliseconds is a [Z].
    - An optional field is an [option]; truthiness tests ([if (x)],
      [x || y], [!x]) are written out with [truthy] and [orElse].
    - [Date.now()] and [randomUUID()] are read from explicit arguments.
    - An asynchronous function is a state transformer; what other tasks
      do while it is suspended at an [await] is supplied by the
      environment. *)

From Stdlib Require Import ZArith List Bool Ascii String DecimalString Sorted Permutation Lia.
From stdpp Require Import base option list gmap strings.

Local Open Scope string_scope.
Local Open Scope Z_scope.

(** ** JavaScript primitives *)

Module JS.

(** The double quote character, written by code so that no literal has
    to escape it. *)
Definition dq : string := String (ascii_of_nat 34) EmptyString.

(** [`${n}`] for an integral number. *)
Definition numToString (n : Z) : string := NilZero.string_of_int (Z.to_int n).

(** [s.length] *)
Definition len (s : string) : Z := Z.of_nat (String.length s).

(** [s.slice(0, n)] for a constant [n >= 0]. *)
Definition slice0 (n : nat) (s : string) : string := String.substring 0 n s.

(** [s.startsWith(p)] *)
Definition startsWith (p s : string) : bool := String.prefix p s.

(** White space and line terminators removed by [String.prototype.trim],
    among the code units below 256: TAB, LF, VT, FF, CR, SPACE and the
    no-break space U+00A0. *)
Definition isWhite (c : ascii) : bool :=
  let n := nat_of_ascii c in
  ((9 <=? n)%nat && (n <=? 13)%nat) || (n =? 32)%nat || (n =? 160)%nat.

Fixpoint trimStart (s : string) : string :=
  match s with
  | EmptyString => EmptyString
  | String c s' => if isWhite c then trimStart s' else s
  end.

(** [trimEnd] drops the trailing white space: a white character is kept
    exactly when something non-white follows it. *)
Fixpoint trimEnd (s : string) : string :=
  match s with
  | EmptyString => EmptyString
  | String c s' =>
      match trimEnd s' with
      | EmptyString => if isWhite c then EmptyString else String c EmptyString
      | r => String c r
      end
  end.

(** [s.trim()] *)
Definition trim (s : string) : string := trimEnd (trimStart s).

(** Truthiness of a string: only the empty string is falsy. *)
Definition nonEmpty (s : string) : bool :=
  match s with EmptyString => false | _ => true end.

(** Truthiness of an optional string field: [undefined] and [""] are falsy. *)
Definition truthy (o : option string) : bool :=
  match o with Some s => nonEmpty s | None => false end.

(** An optional string as a guard reads as its value when truthy. *)
Definition truthyStr (o : option string) : option string :=
  match o with Some s => if nonEmpty s then Some s else None | None => None end.

(** [a || b] on optional strings with a string default. *)
Definition orElse (o : option string) (d : string) : string :=
  match o with Some s => if nonEmpty s then s else d | None => d end.

(** Truthiness of an optional number: [undefined], [0] are falsy. *)
Definition truthyNum (o : option Z) : bool :=
  match o with Some n => negb (n =? 0) | None => false end.

(** [lines.join('\n')] *)
Definition nl : string := String (ascii_of_nat 10) EmptyString.

(** The no-break space U+00A0. *)
Definition nbsp : string := String (ascii_of_nat 160) EmptyString.

Fixpoint join (sep : string) (l : list string) : string :=
  match l with
  | [] => ""
  | [x] => x
  | x :: l' => x ++ sep ++ join sep l'
  end.

(** [Array.prototype.sort(cmp)]: the sort is stable, and for a comparator
    that is a consistent ordering every stable sort returns the same
    array; the embedding takes insertion from the right, which places an
    element before the first one that compares strictly greater. *)
Section Sort.
Context {A : Type} (cmp : A -> A -> Z).

Fixpoint insertSorted (x : A) (l : list A) : list A :=
  match l with
  | [] => [x]
  | y :: l' => if cmp x y <=? 0 then x :: y :: l' else y :: insertSorted x l'
  end.

Fixpoint sort (l : list A) : list A :=
  match l with
  | [] => []
  | x :: l' => insertSorted x (sort l')
  end.
End Sort.

End JS.

(** ** Routing: bindings and [resolveRoute] *)

Module Routing.

Inductive PeerKind := dm | group | channelPeer.

Definition PeerKind_eqb (a b : PeerKind) : bool :=
  match a, b with
  | dm, dm | group, group | channelPeer, channelPeer => true
  | _, _ => false
  end.

Record RoutePeer := mkPeer { kind : PeerKind; peerId : string }.

Record BindingMatch := mkMatch {
  channel : string;
  accountId : option string;
  peer : option RoutePeer;
  guildId : option string;
  teamId : option string
}.

Record Binding := mkBinding {
  id : string;
  agentId : string;
  match_ : BindingMatch;
  priority : option Z;
  createdAt : Z;
  updatedAt : Z
}.

(** [RouteInput] has the fields of [BindingMatch]. *)
Definition RouteInput := BindingMatch.

Inductive MatchedBy := ByPeer | ByGuild | ByTeam | ByAccount | ByChannel | ByDefault.

Record RouteResult := mkResult {
  resAgentId : string;
  matchedBy : MatchedBy;
  binding : option Binding
}.

(** [priority ?? 100] *)
Definition effPriority (b : Binding) : Z :=
  match priority b with Some p => p | None => 100 end.

(** The comparator [(a, b) => (a.priority ?? 100) - (b.priority ?? 100)]. *)
Definition byPriority (a b : Binding) : Z := effPriority a - effPriority b.

(** [store.bindings.sort(byPriority)] *)
Definition listBindings (store : list Binding) : list Binding :=
  JS.sort byPriority store.

(** The order the comparator sorts into. *)
Definition ascending (a b : Binding) : Prop := effPriority a <= effPriority b.

(** [x === y] on two optional strings the second of which is known to be
    present. *)
Definition optStrEq (o : option string) (s : string) : bool :=
  match o with Some t => String.eqb t s | None => false end.

Definition isSome {A} (o : option A) : bool :=
  match o with Some _ => true | None => false end.

(** The predicates handed to [find], one per tier. *)
Definition peerPred (p : RoutePeer) (b : Binding) : bool :=
  match peer (match_ b) with
  | Some q => PeerKind_eqb (kind q) (kind p) && String.eqb (peerId q) (peerId p)
  | None => false
  end.

Definition guildPred (g : string) (b : Binding) : bool :=
  optStrEq (guildId (match_ b)) g.

Definition teamPred (t : string) (b : Binding) : bool :=
  optStrEq (teamId (match_ b)) t.

Definition unconstrained (b : Binding) : bool :=
  negb (isSome (peer (match_ b)))
  && negb (JS.truthy (guildId (match_ b)))
  && negb (JS.truthy (teamId (match_ b))).

Definition accountPred (a : string) (b : Binding) : bool :=
  optStrEq (accountId (match_ b)) a && unconstrained b.

Definition channelPred (b : Binding) : bool :=
  (optStrEq (accountId (match_ b)) "*" || negb (JS.truthy (accountId (match_ b))))
  && unconstrained b.

Definition hit (by_ : MatchedBy) (b : Binding) : RouteResult :=
  mkResult (agentId b) by_ (Some b).

(** [find] guarded by the truthiness of the input field it reads. *)
Definition findIf {A} (guard : option A) (p : A -> Binding -> bool)
    (l : list Binding) : option Binding :=
  match guard with Some a => List.find (p a) l | None => None end.

Definition resolveRoute (store : list Binding) (input : RouteInput)
    (defaultAgentId : string) : RouteResult :=
  let bindings := listBindings store in
  let channelBindings :=
    List.filter (fun b => String.eqb (channel (match_ b)) (channel input)) bindings in
  match findIf (peer input) peerPred channelBindings with
  | Some b => hit ByPeer b
  | None =>
  match findIf (JS.truthyStr (guildId input)) guildPred channelBindings with
  | Some b => hit ByGuild b
  | None =>
  match findIf (JS.truthyStr (teamId input)) teamPred channelBindings with
  | Some b => hit ByTeam b
  | None =>
  match findIf (JS.truthyStr (accountId input)) accountPred channelBindings with
  | Some b => hit ByAccount b
  | None =>
  match List.find channelPred channelBindings with
  | Some b => hit ByChannel b
  | None => mkResult defaultAgentId ByDefault None
  end end end end end.

(** *** The routing rule as the specification words it

    Each tier names the bindings that qualify; the winner of a tier is
    the qualifying binding with the lowest priority number, the earliest
    inserted one among equals; the first tier with a winner decides. *)

Definition sameChannel (input : RouteInput) (b : Binding) : bool :=
  String.eqb (channel (match_ b)) (channel input).

Definition tierQualifies (input : RouteInput) (t : MatchedBy) (b : Binding) : bool :=
  sameChannel input b &&
  match t with
  | ByPeer => match peer input with Some p => peerPred p b | None => false end
  | ByGuild => match JS.truthyStr (guildId input) with Some g => guildPred g b | None => false end
  | ByTeam => match JS.truthyStr (teamId input) with Some g => teamPred g b | None => false end
  | ByAccount => match JS.truthyStr (accountId input) with Some a => accountPred a b | None => false end
  | ByChannel => channelPred b
  | ByDefault => false
  end.

(** The binding with the lowest priority number in [l], the first such
    in the order of [l]. *)
Fixpoint lowest (l : list Binding) : option Binding :=
  match l with
  | [] => None
  | b :: l' =>
      match lowest l' with
      | None => Some b
      | Some c => if effPriority b <=? effPriority c then Some b else Some c
      end
  end.

Definition tierWinner (store : list Binding) (input : RouteInput) (t : MatchedBy)
    : option Binding :=
  lowest (List.filter (tierQualifies input t) store).

Fixpoint firstTier (store : list Binding) (input : RouteInput)
    (tiers : list MatchedBy) (defaultAgentId : string) : RouteResult :=
  match tiers with
  | [] => mkResult defaultAgentId ByDefault None
  | t :: rest =>
      match tierWinner store input t with
      | Some b => hit t b
      | None => firstTier store input rest defaultAgentId
      end
  end.

Definition resolveSpec (store : list Binding) (input : RouteInput)
    (defaultAgentId : string) : RouteResult :=
  firstTier store input [ByPeer; ByGuild; ByTeam; ByAccount; ByChannel] defaultAgentId.

(** The place of a tier in the order in which [resolveRoute] tries them. *)
Definition tierRank (t : MatchedBy) : nat :=
  match t with
  | ByPeer => 0
  | ByGuild => 1
  | ByTeam => 2
  | ByAccount => 3
  | ByChannel => 4
  | ByDefault => 5
  end.

(** No stored binding qualifies in a tier that is tried before [t]. *)
Definition nothingBefore (store : list Binding) (input : RouteInput) (t : MatchedBy) : Prop :=
  forall t' c, (tierRank t' < tierRank t)%nat -> In c store -> tierQualifies input t' c = false.

End Routing.

(** ** Session manager: the session index and the transcripts *)

Module Sessions.

Inductive Role := system | user | assistant | tool.

Definition Role_eqb (a b : Role) : bool :=
  match a, b with
  | system, system | user, user | assistant, assistant | tool, tool => true
  | _, _ => false
  end.

(** One element of [tool_calls]; its [type] is the constant ['function']
    and [arguments] is the JSON text of the input. *)
Record WireToolCall := mkWire {
  wireId : string;
  wireName : string;
  wireArguments : string
}.

(** [LLMMessage] of the model client. *)
Record LLMMessage := mkMsg {
  role : Role;
  content : string;
  tool_call_id : option string;
  tool_calls : option (list WireToolCall)
}.

(** [TranscriptMessage]: one line of a transcript file. *)
Record TranscriptMessage := mkEntry {
  eRole : Role;
  eContent : string;
  timestamp : Z;
  eToolCallId : option string;
  eToolCalls : option (list WireToolCall)
}.

(** [{ ...msg, timestamp }] *)
Definition stamp (m : LLMMessage) (now : Z) : TranscriptMessage :=
  mkEntry (role m) (content m) now (tool_call_id m) (tool_calls m).

Record SessionEntry := mkSession {
  sessionId : string;
  sessionKey : string;
  agentId : string;
  title : option string;
  displayName : option string;
  subject : option string;
  createdAt : Z;
  updatedAt : Z;
  messageCount : Z;
  channel : option string
}.

(** The state behind a [SessionManager]: [sessions.json], an object keyed
    by sessionId whose properties keep their insertion order, and the
    transcript files, keyed by sessionId. *)
Record t := mkSM {
  sessions : list (string * SessionEntry);
  transcripts : gmap string (list TranscriptMessage)
}.

Definition empty : t := mkSM [] ∅.

(** [obj[k]] *)
Fixpoint objGet {V} (k : string) (o : list (string * V)) : option V :=
  match o with
  | [] => None
  | (k', v) :: o' => if String.eqb k' k then Some v else objGet k o'
  end.

(** [obj[k] = v]: an existing property keeps its place, a new one goes last. *)
Fixpoint objSet {V} (k : string) (v : V) (o : list (string * V)) : list (string * V) :=
  match o with
  | [] => [(k, v)]
  | (k', v') :: o' => if String.eqb k' k then (k, v) :: o' else (k', v') :: objSet k v o'
  end.

(** [delete obj[k]] *)
Fixpoint objDelete {V} (k : string) (o : list (string * V)) : list (string * V) :=
  match o with
  | [] => []
  | (k', v') :: o' => if String.eqb k' k then o' else (k', v') :: objDelete k o'
  end.

(** [Object.values(obj)] *)
Definition objValues {V} (o : list (string * V)) : list V := List.map snd o.

Definition inferChannel (sessionKey : string) : string :=
  if JS.startsWith "telegram:" sessionKey then "telegram"
  else if JS.startsWith "web:" sessionKey then "web"
  else if JS.startsWith "cron:" sessionKey then "cron"
  else if JS.startsWith "discord:" sessionKey then "discord"
  else if JS.startsWith "slack:" sessionKey then "slack"
  else "websocket".

(** [createSession(sessionKey, agentId, title?, channel?)]; [uuid] is the
    value of [randomUUID()] and [now] that of [Date.now()]. *)
Definition createSession (sessionKey agentId : string) (title channel : option string)
    (uuid : string) (now : Z) (sm : t) : SessionEntry * t :=
  let inferredChannel := JS.orElse channel (inferChannel sessionKey) in
  let entry :=
    mkSession uuid sessionKey agentId
      (Some (JS.orElse title
               ("Session " ++ JS.numToString (Z.of_nat (length (sessions sm)) + 1))))
      None None now now 0 (Some inferredChannel) in
  (entry, mkSM (objSet uuid entry (sessions sm)) (transcripts sm)).

Definition getSession (sessionId : string) (sm : t) : option SessionEntry :=
  objGet sessionId (sessions sm).

Definition findBySessionKey (key : string) (sm : t) : option SessionEntry :=
  List.find (fun s => String.eqb (sessionKey s) key) (objValues (sessions sm)).

Definition getOrCreate (sessionKey agentId : string) (channel : option string)
    (uuid : string) (now : Z) (sm : t) : SessionEntry * t :=
  match findBySessionKey sessionKey sm with
  | Some existing => (existing, sm)
  | None => createSession sessionKey agentId None channel uuid now sm
  end.

(** [deleteSession(sessionId)] removes the index entry and the transcript
    file. *)
Definition deleteSession (sessionId : string) (sm : t) : bool * t :=
  match objGet sessionId (sessions sm) with
  | None => (false, sm)
  | Some _ => (true, mkSM (objDelete sessionId (sessions sm))
                          (delete sessionId (transcripts sm)))
  end.

Definition loadTranscript (sessionId : string) (sm : t) : list TranscriptMessage :=
  default [] (transcripts sm !! sessionId).

(** [appendMessage(sessionId, message)]: append one line to the transcript
    file (created when missing), then update the metadata of the session
    when the index still has it. *)
Definition appendMessage (sessionId : string) (message : TranscriptMessage)
    (now : Z) (sm : t) : t :=
  let files := <[sessionId := (loadTranscript sessionId sm ++ [message])%list]> (transcripts sm) in
  match objGet sessionId (sessions sm) with
  | None => mkSM (sessions sm) files
  | Some s =>
      let count := messageCount s + 1 in
      let title' :=
        if Role_eqb (eRole message) user && (count =? 1)
        then Some (JS.slice0 50 (eContent message)
                   ++ (if 50 <? JS.len (eContent message) then "..." else ""))
        else title s in
      let s' := mkSession (Sessions.sessionId s) (sessionKey s) (agentId s) title'
                  (displayName s) (subject s) (createdAt s) now count (channel s) in
      mkSM (objSet sessionId s' (sessions sm)) files
  end.

(** [toMessages]: a falsy [tool_call_id] is dropped by the conditional
    spread, [tool_calls] is kept whenever present. *)
Definition toMessage (e : TranscriptMessage) : LLMMessage :=
  mkMsg (eRole e) (eContent e) (JS.truthyStr (eToolCallId e)) (eToolCalls e).

Definition toMessages (sessionId : string) (sm : t) : list LLMMessage :=
  List.map toMessage (loadTranscript sessionId sm).

(** How many values of an object satisfy [p]. *)
Definition countIn {V} (p : V -> bool) (o : list (string * V)) : nat :=
  length (List.filter p (objValues o)).

(** The invariant of the specification: at most one entry per sessionKey. *)
Definition keyCount (k : string) (sm : t) : nat :=
  length (List.filter (fun s => String.eqb (sessionKey s) k) (objValues (sessions sm))).

Definition atMostOnePerKey (sm : t) : Prop :=
  forall k : string, (keyCount k sm <= 1)%nat.

(** The sessions of the index by id and key. *)
Definition index (sm : t) : list (string * string) :=
  List.map (fun kv => (fst kv, sessionKey (snd kv))) (sessions sm).

(** The calls that change the session files, as data: [getOrCreate] on an
    incoming message or from a send tool, [createSession] from a cron
    fire, the spawn tool or the sessions API, [appendMessage], and
    [deleteSession] from the API. *)
Inductive Op :=
| GetOrCreate (sessionKey agentId : string) (channel : option string) (uuid : string) (now : Z)
| CreateSession (sessionKey agentId : string) (title channel : option string)
                (uuid : string) (now : Z)
| AppendMessage (sessionId : string) (message : TranscriptMessage) (now : Z)
| DeleteSession (sessionId : string).

Definition applyOp (sm : t) (op : Op) : t :=
  match op with
  | GetOrCreate k a c u n => snd (getOrCreate k a c u n sm)
  | CreateSession k a ti c u n => snd (createSession k a ti c u n sm)
  | AppendMessage sid m n => appendMessage sid m n sm
  | DeleteSession sid => snd (deleteSession sid sm)
  end.

(** A [createSession] whose key no session of the store has yet. *)
Definition createsFreshKey (sm : t) (op : Op) : bool :=
  match op with
  | CreateSession k _ _ _ _ _ =>
      match findBySessionKey k sm with Some _ => false | None => true end
  | _ => true
  end.

Fixpoint allCreateFresh (sm : t) (ops : list Op) : bool :=
  match ops with
  | [] => true
  | op :: rest => createsFreshKey sm op && allCreateFresh (applyOp sm op) rest
  end.

End Sessions.

(** ** Tool registry *)

Module Tools.

(** A JSON value is represented by its [JSON.stringify] text. *)
Definition Json := string.

(** A tool object. Its [description] and [inputSchema] document the tool
    for the model and are read by neither the registry filter, the lookup
    by name nor the runner; what [execute] does is supplied by the
    environment of a run. The embedding keeps the name, so it tells tools
    apart by their names only. *)
Record Tool := mkTool { name : string }.

Record ToolCall := mkCall {
  callId : string;
  callName : string;
  input : Json
}.

Definition bashTool := mkTool "bash".
Definition readTool := mkTool "read".
Definition writeTool := mkTool "write".
Definition cronTool := mkTool "cron".
Definition webFetchTool := mkTool "web_fetch".
Definition subagentSpawnTool := mkTool "subagent_spawn".
Definition telegramSendTool := mkTool "telegram_send".
Definition sessionSendTool := mkTool "session_send".
Definition skillTool := mkTool "skill".

Definition builtinTools : list Tool :=
  [bashTool; readTool; writeTool; cronTool; webFetchTool; subagentSpawnTool;
   telegramSendTool; sessionSendTool; skillTool].

Definition SUBAGENT_DENIED_TOOLS : gset string := {[ "subagent_spawn" ]}.

(** [getAllTools(options)]; [composioTools] is the module variable filled
    by [initTools]. *)
Definition getAllTools (composioTools : list Tool) (isSubagent : bool) : list Tool :=
  let allTools := (builtinTools ++ composioTools)%list in
  if isSubagent
  then List.filter (fun t => negb (bool_decide (name t ∈ SUBAGENT_DENIED_TOOLS))) allTools
  else allTools.

(** [getToolByName(name)] calls [getAllTools()] without options. *)
Definition getToolByName (composioTools : list Tool) (n : string) : option Tool :=
  List.find (fun t => String.eqb (name t) n) (getAllTools composioTools false).

(** One element of the array handed to the model; [type] is ['function']. *)
Record ToolSchema := mkSchema { fnName : string }.

Definition getToolSchemas (composioTools : list Tool) (isSubagent : bool) : list ToolSchema :=
  List.map (fun t => mkSchema (name t)) (getAllTools composioTools isSubagent).

End Tools.

(** ** Model client: what one call of [llm.chat] can produce *)

Module LLM.

Record LLMResponse := mkResponse {
  content : string;
  toolCalls : list Tools.ToolCall;
  finishReason : string
}.

(** What the client reports through [StreamCallbacks] while the response
    streams in. *)
Inductive StreamEvent :=
| Chunk (text : string)
| ToolCallAssembled (name : string) (input : Tools.Json).

(** How the promise of [chat] settles: a response, a rejection with an
    [AbortError], or a rejection with another error. *)
Inductive ChatOutcome :=
| Responded (response : LLMResponse)
| Aborted
| Failed (message : string).

End LLM.

(** ** Skills prompt *)

Module Skills.

Record Skill := mkSkill {
  name : string;
  description : string;
  keywords : option string;
  prompt : string;
  path : string
}.

Definition escapeChar (c : ascii) : string :=
  if Ascii.eqb c "&" then "&amp;"
  else if Ascii.eqb c "<" then "&lt;"
  else if Ascii.eqb c ">" then "&gt;"
  else if Ascii.eqb c (ascii_of_nat 34) then "&quot;"
  else if Ascii.eqb c "'" then "&apos;"
  else String c EmptyString.

(** The five [replace] calls of [escapeXml] act on distinct characters and
    none of the later ones matches inside an entity written by an earlier
    one, so together they map each character on its own. *)
Fixpoint escapeXml (s : string) : string :=
  match s with
  | EmptyString => EmptyString
  | String c s' => escapeChar c ++ escapeXml s'
  end.

Definition skillLines (skill : Skill) : list string :=
  List.app
    ["  <skill>";
     "    <name>" ++ escapeXml (name skill) ++ "</name>";
     "    <description>" ++ escapeXml (description skill) ++ "</description>"]
    (List.app
       (match JS.truthyStr (keywords skill) with
        | Some k => ["    <keywords>" ++ escapeXml k ++ "</keywords>"]
        | None => []
        end)
       ["  </skill>"]).

Definition buildSkillsPrompt (skills : list Skill) : string :=
  match skills with
  | [] => ""
  | _ =>
      JS.join JS.nl
        (List.app ["" ; "" ; "<available_skills>"]
           (List.app (List.concat (List.map skillLines skills))
                     ["</available_skills>"]))
  end.

End Skills.

(** ** Agent runner *)

Module Runner.

Import Sessions.

Record ToolContext := mkCtx {
  ctxSessionKey : option string;
  ctxChannel : option string;
  ctxTo : option string;
  ctxAgentId : option string
}.

Inductive Source := FromUser | FromCron | FromSubagentAnnounce.

(** [AgentCallbacks]; a callback acts on the state [Ob] of whoever
    observes the run. *)
Record AgentCallbacks (Ob : Type) := mkCallbacks {
  onChunk : option (string -> Ob -> Ob);
  onToolCall : option (string -> Tools.Json -> Ob -> Ob);
  onToolResult : option (string -> string -> Ob -> Ob);
  onComplete : option (string -> Ob -> Ob)
}.
Arguments mkCallbacks {Ob}.
Arguments onChunk {Ob}.
Arguments onToolCall {Ob}.
Arguments onToolResult {Ob}.
Arguments onComplete {Ob}.

Definition noCallbacks {Ob} : AgentCallbacks Ob := mkCallbacks None None None None.

(** The fields of an [AgentRunner] that a run only reads. *)
Record Config := mkConfig {
  sessionId : option string;
  systemPrompt : string;
  isSubagent : bool;
  extraSystemPrompt : option string;
  toolContext : option ToolContext;
  skills : list Skills.Skill
}.

(** What happens in other tasks while the runner is suspended:
    [runner.inject(text)] by the gateway, and [sm.appendMessage] on some
    session by a send tool ([sendToSession]). *)
Inductive External :=
| Inject (text : string)
| SideAppend (sessionId : string) (entry : TranscriptMessage).

(** An [await] that rejects. *)
Inductive Rejection :=
| AbortError
| Error (message : string).

(** How the promise of [tool.execute(toolCall.input, this.toolContext)]
    settles: with the output string, or rejected (the runner has no
    [catch] around the call). *)
Inductive Settlement :=
| Output (output : string)
| Rejects (r : Rejection).

(** The environment of a run. The number is the index of the suspension
    point (the [await]) at which the answer is read. A tool is taken at
    [await tool.execute(...)]: the promise settles or rejects, and until
    then the tool may have acted on what the observer of the run watches
    (the session_send tool reaches the channels through
    [gatewayRef.sendToSession]); what a tool appends to the session files
    is among the writes of other tasks during that suspension. The reads
    and writes of the session files succeed. *)
Record Env (Ob : Type) := mkEnv {
  chat : nat -> list LLMMessage -> list Tools.ToolSchema
         -> list LLM.StreamEvent * LLM.ChatOutcome;
  execute : nat -> Tools.Tool -> Tools.Json -> option ToolContext -> Ob -> Settlement * Ob;
  meanwhile : nat -> list External;
  clock : nat -> Z;
  composioTools : list Tools.Tool
}.
Arguments mkEnv {Ob}.
Arguments chat {Ob}.
Arguments execute {Ob}.
Arguments meanwhile {Ob}.
Arguments clock {Ob}.
Arguments composioTools {Ob}.

(** A tool that returns [output] and leaves the observer alone. *)
Definition returns {Ob} (output : string) (o : Ob) : Settlement * Ob := (Output output, o).

(** A tool that throws before it has done anything. *)
Definition throws {Ob} (message : string) (o : Ob) : Settlement * Ob :=
  (Rejects (Error message), o).

(** The mutable state a run acts on: the fields [messages],
    [injectedMessages] and [isRunning] of the runner, the session files,
    the observer, the count of suspensions so far, and the calls made on
    the model client, the latest last: the conversation each was given
    and how it settled. *)
Record State (Ob : Type) := mkState {
  messages : list LLMMessage;
  injectedMessages : list string;
  isRunning : bool;
  sm : Sessions.t;
  obs : Ob;
  tick : nat;
  llmCalls : list (list LLMMessage * LLM.ChatOutcome)
}.
Arguments mkState {Ob}.
Arguments messages {Ob}.
Arguments injectedMessages {Ob}.
Arguments isRunning {Ob}.
Arguments sm {Ob}.
Arguments obs {Ob}.
Arguments tick {Ob}.
Arguments llmCalls {Ob}.

Definition maxIterations : nat := 10.

Section Run.
Context {Ob : Type}.
Variable env : Env Ob.
Variable cfg : Config.
Variable callbacks : AgentCallbacks Ob.

Definition setMessages (ms : list LLMMessage) (st : State Ob) : State Ob :=
  mkState ms (injectedMessages st) (isRunning st) (sm st) (obs st) (tick st) (llmCalls st).

Definition setInjected (q : list string) (st : State Ob) : State Ob :=
  mkState (messages st) q (isRunning st) (sm st) (obs st) (tick st) (llmCalls st).

Definition setRunning (b : bool) (st : State Ob) : State Ob :=
  mkState (messages st) (injectedMessages st) b (sm st) (obs st) (tick st) (llmCalls st).

Definition setSm (s : Sessions.t) (st : State Ob) : State Ob :=
  mkState (messages st) (injectedMessages st) (isRunning st) s (obs st) (tick st) (llmCalls st).

Definition setObs (o : Ob) (st : State Ob) : State Ob :=
  mkState (messages st) (injectedMessages st) (isRunning st) (sm st) o (tick st) (llmCalls st).

(** [this.messages.push(m)] *)
Definition pushMessage (m : LLMMessage) (st : State Ob) : State Ob :=
  setMessages (messages st ++ [m])%list st.

(** [this.persistMessage({ ...m, timestamp: Date.now() })] *)
Definition persistMessage (m : LLMMessage) (st : State Ob) : State Ob :=
  match sessionId cfg with
  | None => st
  | Some sid =>
      let now := clock env (tick st) in
      setSm (appendMessage sid (stamp m now) now (sm st)) st
  end.

(** Push to the conversation, then persist. *)
Definition record (m : LLMMessage) (st : State Ob) : State Ob :=
  persistMessage m (pushMessage m st).

(** [runner.inject(message)] *)
Definition inject (message : string) (st : State Ob) : State Ob :=
  setInjected (injectedMessages st ++ [message])%list st.

Definition applyExternal (st : State Ob) (e : External) : State Ob :=
  match e with
  | Inject text => inject text st
  | SideAppend sid entry => setSm (appendMessage sid entry (timestamp entry) (sm st)) st
  end.

(** One suspension: the other tasks run, then the runner resumes. *)
Definition suspend (st : State Ob) : State Ob :=
  let st' := List.fold_left applyExternal (meanwhile env (tick st)) st in
  mkState (messages st') (injectedMessages st') (isRunning st') (sm st') (obs st')
          (S (tick st')) (llmCalls st').

Definition notify (f : option (Ob -> Ob)) (st : State Ob) : State Ob :=
  match f with Some g => setObs (g (obs st)) st | None => st end.

Definition streamCallback (st : State Ob) (e : LLM.StreamEvent) : State Ob :=
  match e with
  | LLM.Chunk text => notify (option_map (fun f => f text) (onChunk callbacks)) st
  | LLM.ToolCallAssembled n i =>
      notify (option_map (fun f => f n i) (onToolCall callbacks)) st
  end.

Definition toolSchemas : list Tools.ToolSchema :=
  Tools.getToolSchemas (composioTools env) (isSubagent cfg).

(** [await this.llm.chat(this.messages, toolSchemas, {onChunk, onToolCall}, signal)] *)
Definition callLLM (st : State Ob) : LLM.ChatOutcome * State Ob :=
  let '(events, outcome) := chat env (tick st) (messages st) toolSchemas in
  let st1 := mkState (messages st) (injectedMessages st) (isRunning st) (sm st) (obs st)
                     (tick st) (llmCalls st ++ [(messages st, outcome)])%list in
  let st2 := List.fold_left streamCallback events st1 in
  (outcome, suspend st2).

Definition interruptMsg (injected : string) : LLMMessage :=
  mkMsg user ("[INTERRUPT] New message from user: " ++ injected) None None.

Definition wire (tc : Tools.ToolCall) : WireToolCall :=
  mkWire (Tools.callId tc) (Tools.callName tc) (Tools.input tc).

(** The assistant message that declares the tool calls of a response. *)
Definition assistantToolMsg (response : LLM.LLMResponse) : LLMMessage :=
  mkMsg assistant (LLM.content response) None
        (Some (List.map wire (LLM.toolCalls response))).

Definition assistantTextMsg (text : string) : LLMMessage :=
  mkMsg assistant text None None.

Definition unknownToolMsg (tc : Tools.ToolCall) : LLMMessage :=
  mkMsg tool ("Error: Unknown tool " ++ Tools.callName tc) (Some (Tools.callId tc)) None.

Definition toolResultMsg (tc : Tools.ToolCall) (output : string) : LLMMessage :=
  mkMsg tool output (Some (Tools.callId tc)) None.

(** [await tool.execute(toolCall.input, this.toolContext)]: how the
    promise settles, and the state when the runner resumes or the
    rejection leaves the loop. *)
Definition runTool (t : Tools.Tool) (toolCall : Tools.ToolCall) (st : State Ob)
    : Settlement * State Ob :=
  let '(settled, o) := execute env (tick st) t (Tools.input toolCall) (toolContext cfg) (obs st) in
  (settled, suspend (setObs o st)).

(** [for (const toolCall of response.toolCalls) { ... }]. A rejected
    [await] ends the loop: the calls that follow are not looked at. *)
Fixpoint executeTools (calls : list Tools.ToolCall) (st : State Ob)
    : option Rejection * State Ob :=
  match calls with
  | [] => (None, st)
  | toolCall :: rest =>
      match Tools.getToolByName (composioTools env) (Tools.callName toolCall) with
      | None => executeTools rest (record (unknownToolMsg toolCall) st)
      | Some t =>
          match runTool t toolCall st with
          | (Rejects r, st1) => (Some r, st1)
          | (Output output, st1) =>
              let st2 := notify (option_map (fun f => f (Tools.callName toolCall) output)
                                            (onToolResult callbacks)) st1 in
              executeTools rest (record (toolResultMsg toolCall output) st2)
          end
      end
  end.

(** How one pass through a loop body ends: at [continue] or at the end
    of the body, with the values of [emptyRetries] and [finalResponse];
    at [break]; or with a rejected [await]. *)
Inductive Control :=
| Continue (emptyRetries : nat) (finalResponse : string)
| Break (finalResponse : string)
| Raise (r : Rejection).

(** How a loop ends: it runs to its end with the values of [iterations]
    and [finalResponse], or an [await] in it rejects. *)
Inductive LoopExit :=
| Done (iterations : nat) (finalResponse : string)
| Rejected (r : Rejection).

(** The head of the main loop body: one injected message, if any, is
    shifted from the queue and pushed to the conversation. *)
Definition takeInjected (st : State Ob) : State Ob :=
  match injectedMessages st with
  | injected :: rest => pushMessage (interruptMsg injected) (setInjected rest st)
  | [] => st
  end.

(** The body of the main loop after [iterations++]. *)
Definition mainIteration (emptyRetries : nat) (finalResponse : string) (st : State Ob)
    : Control * State Ob :=
  match callLLM (takeInjected st) with
  | (LLM.Aborted, st2) => (Raise AbortError, st2)
  | (LLM.Failed e, st2) => (Raise (Error e), st2)
  | (LLM.Responded response, st2) =>
      let finalResponse :=
        if JS.nonEmpty (LLM.content response) then LLM.content response
        else finalResponse in
      let afterReply (st3 : State Ob) :=
        match injectedMessages st3 with
        | _ :: _ => (Continue emptyRetries finalResponse, st3)
        | [] => (Break finalResponse, st3)
        end in
      match LLM.toolCalls response with
      | _ :: _ =>
          match executeTools (LLM.toolCalls response)
                             (record (assistantToolMsg response) st2) with
          | (Some r, st3) => (Raise r, st3)
          | (None, st3) => (Continue emptyRetries finalResponse, st3)
          end
      | [] =>
          if JS.nonEmpty (LLM.content response) then
            afterReply (record (assistantTextMsg (LLM.content response)) st2)
          else if (emptyRetries <? 2)%nat then
            (Continue (S emptyRetries) finalResponse, st2)
          else afterReply st2
      end
  end.

(** The main loop, [while (iterations < maxIterations) { ... }].
    [None] means that [fuel] ran out before the loop ended. *)
Fixpoint mainLoop (fuel : nat) (iterations emptyRetries : nat) (finalResponse : string)
    (st : State Ob) : option (LoopExit * State Ob) :=
  match fuel with
  | 0%nat => None
  | S fuel' =>
      if (iterations <? maxIterations)%nat then
        match mainIteration emptyRetries finalResponse st with
        | (Continue emptyRetries' finalResponse', st') =>
            mainLoop fuel' (S iterations) emptyRetries' finalResponse' st'
        | (Break finalResponse', st') => Some (Done (S iterations) finalResponse', st')
        | (Raise r, st') => Some (Rejected r, st')
        end
      else Some (Done iterations finalResponse, st)
  end.

(** The body of the second loop after [iterations++], for the injected
    message at the head of the queue. *)
Definition drainIteration (finalResponse : string) (injected : string)
    (rest : list string) (st : State Ob) : Control * State Ob :=
  match callLLM (record (interruptMsg injected) (setInjected rest st)) with
  | (LLM.Aborted, st2) => (Raise AbortError, st2)
  | (LLM.Failed e, st2) => (Raise (Error e), st2)
  | (LLM.Responded response, st2) =>
      let finalResponse :=
        if JS.nonEmpty (LLM.content response) then LLM.content response
        else finalResponse in
      let st3 :=
        if JS.nonEmpty (LLM.content response)
        then record (assistantTextMsg (LLM.content response)) st2
        else st2 in
      match LLM.toolCalls response with
      | _ :: _ =>
          match executeTools (LLM.toolCalls response)
                             (record (assistantToolMsg response) st3) with
          | (Some r, st4) => (Raise r, st4)
          | (None, st4) => (Continue 0 finalResponse, st4)
          end
      | [] => (Continue 0 finalResponse, st3)
      end
  end.

(** The second loop,
    [while (this.injectedMessages.length > 0 && iterations < maxIterations)]. *)
Fixpoint drainLoop (fuel : nat) (iterations : nat) (finalResponse : string)
    (st : State Ob) : option (LoopExit * State Ob) :=
  match fuel with
  | 0%nat => None
  | S fuel' =>
      match injectedMessages st with
      | [] => Some (Done iterations finalResponse, st)
      | injected :: rest =>
          if (iterations <? maxIterations)%nat then
            match drainIteration finalResponse injected rest st with
            | (Continue _ finalResponse', st') =>
                drainLoop fuel' (S iterations) finalResponse' st'
            | (Break finalResponse', st') => Some (Done (S iterations) finalResponse', st')
            | (Raise r, st') => Some (Rejected r, st')
            end
          else Some (Done iterations finalResponse, st)
      end
  end.

(** The sync at the head of [run]: entries of the transcript beyond the
    length of the conversation are appended to it. *)
Definition syncTranscript (st : State Ob) : State Ob :=
  match sessionId cfg with
  | None => st
  | Some sid =>
      let transcript := toMessages sid (sm st) in
      if (length (messages st) <? length transcript)%nat
      then setMessages (messages st ++ List.skipn (length (messages st)) transcript)%list st
      else st
  end.

Definition fullSystemPrompt : string :=
  let base := systemPrompt cfg ++ Skills.buildSkillsPrompt (skills cfg) in
  match JS.truthyStr (extraSystemPrompt cfg) with
  | Some extra => extra ++ JS.nl ++ JS.nl ++ base
  | None => base
  end.

Definition inputMsg (source : Source) (userMessage : string) : LLMMessage :=
  match source with
  | FromCron =>
      mkMsg user
        ("[SCHEDULED TASK] Execute the following scheduled task and send the result to the user:"
         ++ JS.nl ++ JS.nl ++ userMessage) None None
  | FromSubagentAnnounce => mkMsg user ("[SUBAGENT RESULT] " ++ userMessage) None None
  | FromUser => mkMsg user userMessage None None
  end.

(** What [run] does before its loops. *)
Definition prepare (userMessage : string) (source : Source) (st : State Ob) : State Ob :=
  let st1 := syncTranscript (setRunning true st) in
  let st2 :=
    match messages st1 with
    | [] => record (mkMsg system fullSystemPrompt None None) st1
    | _ => st1
    end in
  record (inputMsg source userMessage) st2.

(** How the promise of [run] settles. *)
Inductive Completion :=
| Returned (text : string)
| Thrown (message : string).

Definition finish (exit : LoopExit) (st : State Ob) : Completion * State Ob :=
  match exit with
  | Done _ finalResponse =>
      let finalResponse :=
        if JS.nonEmpty (JS.trim finalResponse) then finalResponse else "(done)" in
      let st1 := notify (option_map (fun f => f finalResponse) (onComplete callbacks)) st in
      (Returned finalResponse, setRunning false st1)
  | Rejected AbortError => (Returned "(aborted)", setRunning false st)
  | Rejected (Error e) => (Thrown e, setRunning false st)
  end.

(** [run(userMessage, { source, callbacks })]. The loops are given one
    unit of fuel more than [maxIterations]. *)
Definition run (userMessage : string) (source : Source) (st : State Ob)
    : option (Completion * State Ob) :=
  match mainLoop (S maxIterations) 0 0 "" (prepare userMessage source st) with
  | None => None
  | Some (Done iterations finalResponse, st1) =>
      match drainLoop (S maxIterations) iterations finalResponse st1 with
      | None => None
      | Some (exit, st2) => Some (finish exit st2)
      end
  | Some (exit, st1) => Some (finish exit st1)
  end.

(** *** The steps a loop is made of

    Every change a loop of [run] makes to the state is one of these; the
    flag tells the second loop ([true]) from the main loop. *)
Inductive step (second : bool) : State Ob -> State Ob -> Prop :=
| step_take (st : State Ob) (injected : string) (rest : list string) :
    second = false -> injectedMessages st = injected :: rest ->
    step second st (pushMessage (interruptMsg injected) (setInjected rest st))
| step_takeRecord (st : State Ob) (injected : string) (rest : list string) :
    second = true -> injectedMessages st = injected :: rest ->
    step second st (record (interruptMsg injected) (setInjected rest st))
| step_record (st : State Ob) (m : LLMMessage) :
    role m <> user -> step second st (record m st)
| step_call (st : State Ob) :
    step second st (snd (callLLM st))
| step_suspend (st : State Ob) :
    step second st (suspend st)
| step_tool (st : State Ob) (t : Tools.Tool) (input : Tools.Json) :
    step second st
         (setObs (snd (execute env (tick st) t input (toolContext cfg) (obs st))) st)
| step_toolResult (st : State Ob) (name output : string) :
    step second st
         (notify (option_map (fun f => f name output) (onToolResult callbacks)) st).

End Run.

(** A model that answers every call with a response. *)
Definition responds {Ob} (env : Env Ob) : Prop :=
  forall n ms ts, exists r, snd (chat env n ms ts) = LLM.Responded r.

(** A model whose responses never carry text. *)
Definition silent {Ob} (env : Env Ob) : Prop :=
  forall n ms ts, exists r, snd (chat env n ms ts) = LLM.Responded r /\ LLM.content r = "".

(** Tools that settle: no call of [tool.execute] rejects. *)
Definition toolsSettle {Ob} (env : Env Ob) : Prop :=
  forall n t input ctx o, exists output, fst (execute env n t input ctx o) = Output output.

(** Some call of [tool.execute] with the tool context of the runner
    rejects with [r]. *)
Definition rejectedByTool {Ob} (env : Env Ob) (cfg : Config) (r : Rejection) : Prop :=
  exists n t input o, fst (execute env n t input (toolContext cfg) o) = Rejects r.

(** What the exit of a loop that starts at [it] iterations with [calls0]
    calls made may be: the calls made are within the iterations left; an
    exit at the end of the loop has made one call per iteration; with a
    model that responds the loop runs to its end unless a tool rejects,
    and a silent model then leaves [finalResponse] as it was. *)
Definition exitWithin {Ob} (env : Env Ob) (cfg : Config) (it : nat) (calls0 calls1 : nat)
    (fr : string) (exit : LoopExit) : Prop :=
  (calls1 <= calls0 + (maxIterations - it))%nat
  /\ (forall it' fr', exit = Done it' fr' ->
        (it <= it')%nat /\ (it' <= Nat.max it maxIterations)%nat
        /\ calls1 = (calls0 + (it' - it))%nat)
  /\ (responds env -> forall r, exit = Rejected r -> rejectedByTool env cfg r)
  /\ (silent env -> forall it' fr', exit = Done it' fr' -> fr' = fr).

(** The conversation only grows from [x] to [y], and every call made on
    the model in between was given the conversation of [x] and possibly
    more. *)
Definition extends {Ob} (x y : State Ob) : Prop :=
  (exists ext, messages y = (messages x ++ ext)%list)
  /\ (exists new, llmCalls y = (llmCalls x ++ new)%list
                  /\ List.Forall (fun c => exists ext, fst c = (messages x ++ ext)%list) new).

(** The conversation after the sync at the head of [run]. *)
Definition synced {Ob} (sid : string) (st : State Ob) : list LLMMessage :=
  (messages st ++ List.skipn (length (messages st)) (toMessages sid (sm st)))%list.

(** The transcript of session [sid] only grows from [x] to [y]. *)
Definition grows {Ob} (sid : string) (x y : State Ob) : Prop :=
  exists added,
    loadTranscript sid (sm y) = (loadTranscript sid (sm x) ++ added)%list.

(** The transcript of [sid] holds an assistant entry with this content. *)
Definition hasEntry {Ob} (sid : string) (text : string) (st : State Ob) : Prop :=
  exists e, In e (loadTranscript sid (sm st)) /\ eRole e = assistant /\ eContent e = text.

(** A call on the model whose response carries text is matched by an
    assistant entry with that text in the transcript. *)
Definition answeredIn {Ob} (sid : string) (st : State Ob)
    (c : list LLMMessage * LLM.ChatOutcome) : Prop :=
  forall r, snd c = LLM.Responded r -> JS.nonEmpty (LLM.content r) = true ->
            hasEntry sid (LLM.content r) st.

(** From [x] to [y] the transcript grows and every call made in between
    is answered in the transcript of [y]. *)
Definition answered {Ob} (sid : string) (x y : State Ob) : Prop :=
  grows sid x y
  /\ exists new, llmCalls y = (llmCalls x ++ new)%list /\ List.Forall (answeredIn sid y) new.

(** The value of [finalResponse] after one pass through a loop body is
    the one before it or the text of an assistant entry of the transcript. *)
Definition finalFrom {Ob} (sid : string) (fr : string) (c : Control) (st : State Ob) : Prop :=
  match c with
  | Continue _ fr' | Break fr' => fr' = fr \/ hasEntry sid fr' st
  | Raise _ => True
  end.

(** A transcript line without its time stamp. *)
Definition unstamp (e : TranscriptMessage) : LLMMessage :=
  mkMsg (eRole e) (eContent e) (eToolCallId e) (eToolCalls e).

Definition isUser (m : LLMMessage) : bool := Role_eqb (role m) user.

(** An account of what a loop did from [x] to [y]: [conv] was added to
    the conversation and [added] to the transcript of [sid]; the user
    entries of [conv] are the interrupt entries of the messages [drained]
    from the head of the queue, to whose tail [arrived] while the loop ran.
    In the main loop ([second = false]) the transcript received the entries
    of [conv] that are not user entries; in the second loop it received all
    of [conv]. *)
Definition accounted {Ob} (sid : string) (second : bool) (x y : State Ob) : Prop :=
  exists conv added drained arrived,
    messages y = (messages x ++ conv)%list
    /\ loadTranscript sid (sm y) = (loadTranscript sid (sm x) ++ added)%list
    /\ List.map unstamp added
       = (if second then conv else List.filter (fun m => negb (isUser m)) conv)
    /\ List.filter isUser conv = List.map interruptMsg drained
    /\ (drained ++ injectedMessages y)%list = (injectedMessages x ++ arrived)%list.

(** The session index has the same sessions in [x] and [y]. *)
Definition sameIndex {Ob} (x y : State Ob) : Prop := index (sm y) = index (sm x).

(** An environment in which no other task writes to a transcript during
    the run; messages may still be injected. *)
Definition injectOnly {Ob} (env : Env Ob) : Prop :=
  forall n e, In e (meanwhile env n) -> exists text, e = Inject text.

Definition isInject (e : External) : bool :=
  match e with Inject _ => true | SideAppend _ _ => false end.

(** The same environment with the writes of other tasks to the session
    files left out: the model, the tools, the clock and the messages
    injected are as they were. *)
Definition withoutSideWrites {Ob} (env : Env Ob) : Env Ob :=
  mkEnv (chat env) (execute env) (fun n => List.filter isInject (meanwhile env n))
        (clock env) (composioTools env).

(** Two states of a runner that differ at most in the session files. *)
Definition sameRunner {Ob} (x y : State Ob) : Prop :=
  messages x = messages y /\ injectedMessages x = injectedMessages y
  /\ isRunning x = isRunning y /\ obs x = obs y /\ tick x = tick y
  /\ llmCalls x = llmCalls y.

(** [bindSession(sessionId)]: the history replaces the conversation when
    it is not empty. *)
Definition bindSession {Ob} (sid : string) (cfg : Config) (st : State Ob) : Config * State Ob :=
  let history := toMessages sid (sm st) in
  (mkConfig (Some sid) (systemPrompt cfg) (isSubagent cfg) (extraSystemPrompt cfg)
            (toolContext cfg) (skills cfg),
   match history with
   | [] => st
   | _ => setMessages history st
   end).

End Runner.

(** ** Gateway: the completion callback and the cron fire *)

Module Gateway.

Import Sessions Runner.

Record Message := mkMessage {
  id : string;
  channel : string;
  from : string;
  text : string;
  timestamp : Z;
  sessionKey : string;
  sessionId : option string;
  agentId : option string
}.

Record ToolCallSummary := mkSummary {
  name : string;
  input : option Tools.Json
}.

Record ChannelReply := mkReply {
  replyText : string;
  toolCalls : option (list ToolCallSummary)
}.

(** Calls made on channel objects: [channel.send(sessionKey, reply)] on
    the channel registered under a name, and the streaming helpers of the
    websocket channel. *)
Inductive ChannelOp :=
| ChannelSend (channelName sessionKey : string) (reply : ChannelReply)
| WsSendChunk (sessionKey text : string)
| WsSendToolCall (sessionKey name : string) (input : Tools.Json)
| WsSendToolResult (sessionKey name output : string).

(** What the callbacks of [processMessage] act on: its local array
    [toolCalls] and the channels. *)
Record Observer := mkObserver {
  collected : list ToolCallSummary;
  ops : list ChannelOp
}.

Definition addOp (op : ChannelOp) (o : Observer) : Observer :=
  mkObserver (collected o) (ops o ++ [op])%list.

(** [ChannelRegistry.send]: an unknown channel name is logged and nothing
    is sent. *)
Definition channelsSend (registered : gset string) (channelName sessionKey : string)
    (reply : ChannelReply) (o : Observer) : Observer :=
  if bool_decide (channelName ∈ registered)
  then addOp (ChannelSend channelName sessionKey reply) o
  else o.

Definition isWebsocket (msg : Message) : bool := String.eqb (channel msg) "websocket".

(** The callbacks object that [processMessage] hands to [agent.run]. *)
Definition callbacks (registered : gset string) (msg : Message) : AgentCallbacks Observer :=
  mkCallbacks
    (Some (fun text o =>
       if isWebsocket msg then addOp (WsSendChunk (sessionKey msg) text) o else o))
    (Some (fun name input o =>
       let o1 := mkObserver (collected o ++ [mkSummary name (Some input)])%list (ops o) in
       if isWebsocket msg then addOp (WsSendToolCall (sessionKey msg) name input) o1 else o1))
    (Some (fun name output o =>
       if isWebsocket msg then addOp (WsSendToolResult (sessionKey msg) name output) o else o))
    (Some (fun text o =>
       if String.eqb (JS.trim text) "NO_REPLY" || String.eqb (JS.trim text) "(done)"
       then o
       else channelsSend registered (channel msg) (sessionKey msg)
                         (mkReply text (Some (collected o))) o)).

Definition sourceOf (msg : Message) : Source :=
  if String.eqb (from msg) "cron" then FromCron
  else if String.eqb (from msg) "subagent-announce" then FromSubagentAnnounce
  else FromUser.

(** [processMessage] from the point where the runner has been looked up
    or created and given its tool context: the fresh [toolCalls] array, the
    call of [agent.run] with the callbacks, and the [catch] that reports an
    error on the channel. *)
Definition processMessageRun (registered : gset string) (env : Env Observer) (cfg : Config)
    (msg : Message) (st : State Observer) : option (State Observer) :=
  let st0 := setObs (mkObserver [] (ops (obs st))) st in
  match run env cfg (callbacks registered msg) (text msg) (sourceOf msg) st0 with
  | None => None
  | Some (Returned _, st1) => Some st1
  | Some (Thrown e, st1) =>
      Some (setObs (channelsSend registered (channel msg) (sessionKey msg)
                                 (mkReply ("Error: " ++ e) None) (obs st1)) st1)
  end.

Definition isChannelSend (op : ChannelOp) : bool :=
  match op with ChannelSend _ _ _ => true | _ => false end.

(** From [x] to [y] the calls made on channels all satisfy [P]. *)
Definition addedOnly (P : ChannelOp -> Prop) (x y : State Observer) : Prop :=
  exists added,
    ops (obs y) = (ops (obs x) ++ added)%list /\ List.Forall P added.

(** From [x] to [y] no [channel.send] was called: the calls on channels
    made in between are streaming helpers. *)
Definition quiet (x y : State Observer) : Prop :=
  addedOnly (fun op => isChannelSend op = false) x y.

(** One call [gatewayRef.sendToSession(sessionKey, channel, text)] made
    by a tool. *)
Record GatewaySend := mkSend {
  sendSessionKey : string;
  sendChannel : string;
  sendText : string
}.

(** What [sendToSession] does on the channels:
    [channels.send(channel, sessionKey, { text })], a reply without a
    [toolCalls] field. (The line it appends to the transcript is a write
    to the session files.) *)
Definition deliver (registered : gset string) (s : GatewaySend) (o : Observer) : Observer :=
  channelsSend registered (sendChannel s) (sendSessionKey s) (mkReply (sendText s) None) o.

(** The tools reach the channels through the gateway reference only:
    what a call of [tool.execute] does to the observer is a sequence of
    [sendToSession] calls, possibly none. *)
Definition sendsThroughGateway (registered : gset string) (env : Env Observer) : Prop :=
  forall n t input ctx o, exists sends,
    snd (execute env n t input ctx o)
    = List.fold_left (fun o' s => deliver registered s o') sends o.

(** No tool sends anything: every call of [tool.execute] leaves the
    channels alone. *)
Definition sendsNothing (env : Env Observer) : Prop :=
  forall n t input ctx o, snd (execute env n t input ctx o) = o.

(** A [channel.send] as [sendToSession] makes it, for a tool. *)
Definition isToolSend (op : ChannelOp) : bool :=
  match op with
  | ChannelSend _ _ reply => match toolCalls reply with None => true | Some _ => false end
  | _ => false
  end.

(** From [x] to [y] every [channel.send] was the send of a tool: the
    calls on channels made in between are streaming helpers and sends
    that tools made through [sendToSession]. *)
Definition onlyToolsSent (x y : State Observer) : Prop :=
  addedOnly (fun op => isChannelSend op = false \/ isToolSend op = true) x y.

Record CronJob := mkJob {
  jobId : string;
  schedule : string;
  message : string;
  enabled : bool;
  jobCreatedAt : Z;
  lastRun : option Z;
  jobChannel : option string;
  jobTo : option string;
  jobName : option string;
  jobDescription : option string;
  jobAgentId : option string
}.

Definition cronSystemPrompt (deliveryInstruction : string) : string :=
  JS.join JS.nl
    ["You are a cron task executor. Your ONLY job is to execute the scheduled task and deliver the result.";
     "";
     "RULES:";
     "1. Execute the task using the appropriate tools (web_search, web_fetch, bash, etc.).";
     "2. After getting results, you MUST deliver them. " ++ deliveryInstruction;
     "3. Be concise. Summarize findings in a clear, readable format.";
     "4. Do NOT ask questions. Do NOT wait for user input. Just execute and deliver.";
     "5. NEVER end your turn without having called a send tool to deliver results."].

Definition cronSessionKey (job : CronJob) : string := "cron:" ++ jobId job.

Definition cronSessionTitle (job : CronJob) : string :=
  JS.orElse (jobName job)
    ("Cron: " ++ JS.slice0 40 (message job)
     ++ (if 40 <? JS.len (message job) then "..." else "")).

(** [new AgentRunner(config)]: the prompt of the agent, or the built-in
    default. *)
Definition newRunner (DEFAULT_SYSTEM_PROMPT : string) (agentPrompt : option string)
    (isSubagent : bool) (extraSystemPrompt : option string)
    (skills : list Skills.Skill) : Config :=
  mkConfig None (JS.orElse agentPrompt DEFAULT_SYSTEM_PROMPT) isSubagent
           extraSystemPrompt None skills.

(** A runner that has just been constructed, in front of the session
    files [sm]. *)
Definition freshState {Ob} (sm : Sessions.t) (o : Ob) (tick : nat) : State Ob :=
  mkState [] [] false sm o tick [].

(** [runCronJob(job)]. [agentId] is the agent the job resolves to and
    [agentPrompt] the system prompt of its configuration, [skills] what
    [loadSkills] finds, [uuid] the id drawn for the session. *)
Definition runCronJob (env : Env unit) (DEFAULT_SYSTEM_PROMPT : string)
    (agentId : string) (agentPrompt : option string) (skills : list Skills.Skill)
    (job : CronJob) (uuid : string) (sm : Sessions.t) (tick : nat)
    : option (Completion * State unit) :=
  let deliveryChannel := JS.orElse (jobChannel job) "telegram" in
  let deliveryInstruction :=
    if String.eqb deliveryChannel "telegram"
    then "Use the telegram_send tool to deliver results to the user."
    else "Use the session_send tool to deliver results to the user's web session." in
  let runner := newRunner DEFAULT_SYSTEM_PROMPT agentPrompt false
                          (Some (cronSystemPrompt deliveryInstruction)) skills in
  let '(session, sm1) :=
    createSession (cronSessionKey job) agentId (Some (cronSessionTitle job)) (Some "cron")
                  uuid (clock env tick) sm in
  let '(bound, st) := bindSession (Sessions.sessionId session) runner (freshState sm1 tt tick) in
  let cfg := mkConfig (Runner.sessionId bound) (systemPrompt bound) (isSubagent bound)
               (extraSystemPrompt bound)
               (Some (mkCtx (Some (cronSessionKey job)) (Some deliveryChannel)
                            (jobTo job) (Some agentId)))
               (Runner.skills bound) in
  run env cfg noCallbacks (message job) FromCron st.

End Gateway.

(** ** Announce queue: debounce and collect *)

Module Announce.

Import Sessions.

Inductive Cleanup := CleanupDelete | CleanupKeep.

Record Outcome := mkOutcome {
  status : string;
  error : option string
}.

Record AnnounceParams := mkParams {
  childSessionKey : string;
  childRunId : string;
  requesterSessionKey : string;
  requesterChannel : string;
  task : string;
  label : option string;
  startedAt : option Z;
  endedAt : option Z;
  outcome : option Outcome;
  cleanup : Cleanup
}.

Record QueuedAnnounce := mkQueued {
  params : AnnounceParams;
  findings : string;
  enqueuedAt : Z
}.

(** [debounceTimer] holds the handle of the last timeout set for the
    queue, here its number. *)
Record AnnounceQueue := mkQueue {
  items : list QueuedAnnounce;
  debounceTimer : option nat;
  draining : bool
}.

Definition DEBOUNCE_MS : Z := 2000.

(** A timeout waiting in the event loop, set by [enqueueAnnounce]: at
    [due] it calls [drainQueue(timerKey, timerChannel)]. *)
Record Timer := mkTimer {
  handle : nat;
  due : Z;
  timerKey : string;
  timerChannel : string
}.

(** One call of [gatewayRef.triggerAgent]. *)
Record TriggerCall := mkTrigger {
  trigKey : string;
  trigChannel : string;
  trigMessage : string
}.

(** A [drainQueue] suspended at [await gatewayRef.triggerAgent(...)];
    the promise settles at [settlesAt]. *)
Record InFlight := mkInFlight {
  flightKey : string;
  settlesAt : Z
}.

(** The module state and what surrounds it: the map [ANNOUNCE_QUEUES],
    the timeouts waiting in the event loop, whether a gateway reference
    has been set, the calls made on it so far, and the drains that wait
    for one. *)
Record t := mkState {
  queues : gmap string AnnounceQueue;
  timers : list Timer;
  nextHandle : nat;
  hasGateway : bool;
  triggered : list TriggerCall;
  inFlight : list InFlight
}.

Definition init (hasGateway : bool) : t := mkState ∅ [] 0%nat hasGateway [] [].

Definition getLastAssistantMessage (sessionKey : string) (sm : Sessions.t) : option string :=
  match findBySessionKey sessionKey sm with
  | None => None
  | Some session =>
      let assistantMessages :=
        List.filter (fun m => Role_eqb (eRole m) assistant)
                    (loadTranscript (sessionId session) sm) in
      match List.rev assistantMessages with
      | [] => None
      | lastOne :: _ => Some (eContent lastOne)
      end
  end.

Definition formatDuration (ms : Z) : string :=
  let seconds := ms / 1000 in
  if seconds <? 60 then JS.numToString seconds ++ "s"
  else
    let minutes := seconds / 60 in
    let remainingSeconds := Z.rem seconds 60 in
    if minutes <? 60 then JS.numToString minutes ++ "m" ++ JS.numToString remainingSeconds ++ "s"
    else
      let hours := minutes / 60 in
      let remainingMinutes := Z.rem minutes 60 in
      JS.numToString hours ++ "h" ++ JS.numToString remainingMinutes ++ "m".

Definition durationOf (p : AnnounceParams) : string :=
  match endedAt p, startedAt p with
  | Some e, Some s =>
      if negb (e =? 0) && negb (s =? 0) then formatDuration (e - s) else "unknown"
  | _, _ => "unknown"
  end.

Definition statusIs (p : AnnounceParams) (s : string) : bool :=
  match outcome p with Some o => String.eqb (status o) s | None => false end.

Definition taskLabel (p : AnnounceParams) : string :=
  JS.orElse (label p) (JS.slice0 50 (task p)).

Definition orNoOutput (findings : string) : string :=
  if JS.nonEmpty findings then findings else "(no output)".

Definition buildTriggerMessage (p : AnnounceParams) (findings : string) : string :=
  let statusLabel :=
    if statusIs p "ok" then "completed successfully"
    else if statusIs p "error" then
      "failed: " ++ JS.orElse (match outcome p with Some o => error o | None => None end)
                              "unknown error"
    else "finished with unknown status" in
  JS.join JS.nl
    ["A background task " ++ JS.dq ++ taskLabel p ++ JS.dq ++ " just " ++ statusLabel ++ ".";
     "";
     "Findings:";
     orNoOutput findings;
     "";
     "Duration: " ++ durationOf p;
     "";
     "Summarize this naturally for the user. Keep it brief (1-2 sentences).";
     "Flow it into the conversation naturally.";
     "Do not mention technical details like duration or that this was a background task.";
     "You can respond with NO_REPLY if no announcement is needed."].

(** The three lines pushed for the item at index [i]. *)
Definition taskBlock (i : nat) (item : QueuedAnnounce) : list string :=
  let statusLabel := if statusIs (params item) "ok" then "completed" else "failed" in
  ["--- Task " ++ JS.numToString (Z.of_nat i + 1) ++ ": " ++ JS.dq
     ++ taskLabel (params item) ++ JS.dq ++ " (" ++ statusLabel ++ ") ---";
   orNoOutput (findings item);
   ""].

Fixpoint taskBlocks (i : nat) (l : list QueuedAnnounce) : list string :=
  match l with
  | [] => []
  | item :: rest => List.app (taskBlock i item) (taskBlocks (S i) rest)
  end.

Definition collectedHeader (n : nat) : string :=
  "[" ++ JS.numToString (Z.of_nat n) ++ " background tasks completed]".

Definition buildCollectedTriggerMessage (l : list QueuedAnnounce) : string :=
  JS.join JS.nl
    (List.app
       [collectedHeader (length l);
        "";
        "Below are the results from multiple parallel tasks. Summarize them together for the user.";
        "Keep it concise and natural. Do not list them mechanically.";
        ""]
       (List.app (taskBlocks 0 l)
          ["Summarize all findings together in a natural, conversational way.";
           "If user asked for a comparison table, create one."])).

Definition setQueue (k : string) (q : AnnounceQueue) (st : t) : t :=
  mkState (<[k := q]> (queues st)) (timers st) (nextHandle st) (hasGateway st)
          (triggered st) (inFlight st).

(** [clearTimeout(h)] *)
Definition clearTimeout (h : nat) (l : list Timer) : list Timer :=
  List.filter (fun tm => negb (Nat.eqb (handle tm) h)) l.

(** [enqueueAnnounce(params, findings)] at time [now]. *)
Definition enqueueAnnounce (now : Z) (p : AnnounceParams) (f : string) (st : t) : t :=
  let key := requesterSessionKey p in
  let queue := default (mkQueue [] None false) (queues st !! key) in
  let items' := (items queue ++ [mkQueued p f now])%list in
  let timers1 :=
    match debounceTimer queue with
    | Some h => clearTimeout h (timers st)
    | None => timers st
    end in
  let h := nextHandle st in
  mkState (<[key := mkQueue items' (Some h) (draining queue)]> (queues st))
          (timers1 ++ [mkTimer h (now + DEBOUNCE_MS) key (requesterChannel p)])%list
          (S h) (hasGateway st) (triggered st) (inFlight st).

(** [drainQueue(sessionKey, channel)] up to its [await]: the guard, the
    flag, the message and the call on the gateway, whose promise settles
    [duration] later. Without a gateway reference the [finally] block runs
    at once. *)
Definition drainQueue (now : Z) (duration : Z) (sessionKey channel : string) (st : t) : t :=
  match queues st !! sessionKey with
  | None => st
  | Some queue =>
      if draining queue then st
      else
        match items queue with
        | [] => st
        | first :: more =>
            if negb (hasGateway st) then
              setQueue sessionKey (mkQueue (items queue) None false) st
            else
              let triggerMsg :=
                match more with
                | [] => buildTriggerMessage (params first) (findings first)
                | _ => buildCollectedTriggerMessage (items queue)
                end in
              mkState (<[sessionKey := mkQueue [] None true]> (queues st))
                      (timers st) (nextHandle st) (hasGateway st)
                      (triggered st ++ [mkTrigger sessionKey channel triggerMsg])%list
                      (inFlight st ++ [mkInFlight sessionKey (now + duration)])%list
        end
  end.

(** The [finally] block of [drainQueue], run when the awaited call has
    settled. *)
Definition drainFinally (sessionKey : string) (st : t) : t :=
  match queues st !! sessionKey with
  | None => st
  | Some queue =>
      match items queue with
      | [] => mkState (delete sessionKey (queues st)) (timers st) (nextHandle st)
                      (hasGateway st) (triggered st) (inFlight st)
      | _ => setQueue sessionKey (mkQueue (items queue) (debounceTimer queue) false) st
      end
  end.

(** *** The event loop

    What waits in the event loop is a timeout or a drain to resume. The
    loop takes the earliest; at equal times a drain resumes before a
    timeout fires, and timeouts fire in the order they were set. *)
Inductive Pending :=
| PTimer (tm : Timer)
| PResume (f : InFlight).

Definition pendingTime (p : Pending) : Z :=
  match p with PTimer tm => due tm | PResume f => settlesAt f end.

Fixpoint earliestOf (best : Pending) (l : list Pending) : Pending :=
  match l with
  | [] => best
  | p :: l' => earliestOf (if pendingTime p <? pendingTime best then p else best) l'
  end.

Definition earliest (st : t) : option Pending :=
  match (List.map PResume (inFlight st) ++ List.map PTimer (timers st))%list with
  | [] => None
  | p :: l => Some (earliestOf p l)
  end.

Definition removeFlight (k : string) (l : list InFlight) : list InFlight :=
  List.filter (fun f => negb (String.eqb (flightKey f) k)) l.

(** Run one pending task. [duration n] is the time the [n]-th call of
    [triggerAgent] takes. *)
Definition runPending (duration : nat -> Z) (p : Pending) (st : t) : t :=
  match p with
  | PTimer tm =>
      let st1 := mkState (queues st) (clearTimeout (handle tm) (timers st)) (nextHandle st)
                         (hasGateway st) (triggered st) (inFlight st) in
      drainQueue (due tm) (duration (length (triggered st))) (timerKey tm) (timerChannel tm) st1
  | PResume f =>
      let st1 := mkState (queues st) (timers st) (nextHandle st) (hasGateway st)
                         (triggered st) (removeFlight (flightKey f) (inFlight st)) in
      drainFinally (flightKey f) st1
  end.

(** Let time pass up to [now]: run, earliest first, what is due by then. *)
Fixpoint advance (fuel : nat) (duration : nat -> Z) (now : Z) (st : t) : t :=
  match fuel with
  | 0%nat => st
  | S fuel' =>
      match earliest st with
      | None => st
      | Some p =>
          if pendingTime p <=? now
          then advance fuel' duration now (runPending duration p st)
          else st
      end
  end.

(** A timeout that fires starts at most one drain and sets no timeout,
    and a drain that resumes starts nothing, so this many steps reach
    every task that is due. *)
Definition advanceTo (duration : nat -> Z) (now : Z) (st : t) : t :=
  advance (2 * length (timers st) + length (inFlight st)) duration now st.

(** A state in which one requester has a queue and a gateway reference
    is set. *)
Definition single (k : string) (q : AnnounceQueue) (tms : list Timer) (h : nat)
    (trig : list TriggerCall) (fl : list InFlight) : t :=
  mkState {[ k := q ]} tms h true trig fl.

(** A subagent completion at time [now]: the event loop has run what was
    due, then [runAnnounceFlow] enqueues. *)
Definition completionAt (duration : nat -> Z) (now : Z) (p : AnnounceParams)
    (f : string) (st : t) : t :=
  enqueueAnnounce now p f (advanceTo duration now st).

(** [runAnnounceFlow(params)] *)
Definition runAnnounceFlow (now : Z) (p : AnnounceParams) (sm : Sessions.t) (st : t)
    : bool * t :=
  let f := default "" (getLastAssistantMessage (childSessionKey p) sm) in
  (true, enqueueAnnounce now p f st).

End Announce.

(** ** Subagent registry and the spawn tool *)

Module Subagent.

Import Sessions Runner.

Inductive Status := ok | error | timeout.

Record SubagentOutcome := mkOutcome {
  status : Status;
  errorText : option string
}.

Record SubagentRunRecord := mkRecord {
  runId : string;
  childSessionKey : string;
  requesterSessionKey : string;
  task : string;
  label : option string;
  cleanup : Announce.Cleanup;
  createdAt : Z;
  startedAt : option Z;
  endedAt : option Z;
  outcome : option SubagentOutcome;
  archiveAtMs : option Z;
  cleanupCompletedAt : option Z;
  cleanupHandled : option bool
}.

(** The registry: the map [runs] (mirrored in [registry.json] by
    [persist]) and whether the sweeper interval is set. *)
Record Registry := mkRegistry {
  runs : gmap string SubagentRunRecord;
  sweeper : bool
}.

Definition ARCHIVE_AFTER_MINUTES : Z := 60.

Definition emptyRegistry : Registry := mkRegistry ∅ false.

(** [!entry.archiveAtMs || entry.archiveAtMs > now] is false. *)
Definition expired (now : Z) (entry : SubagentRunRecord) : bool :=
  match archiveAtMs entry with
  | Some a => negb (a =? 0) && (a <=? now)
  | None => false
  end.

(** [sweep()], run by the interval every 60 s while the sweeper is set. *)
Definition sweep (now : Z) (reg : Registry) : Registry :=
  let runs' := filter (fun kv => expired now kv.2 = false) (runs reg) in
  mkRegistry runs' (if bool_decide (size runs' = 0%nat) then false else sweeper reg).

Record RegisterParams := mkRegister {
  regRunId : string;
  regChildSessionKey : string;
  regRequesterSessionKey : string;
  regTask : string;
  regLabel : option string;
  regCleanup : Announce.Cleanup;
  archiveAfterMinutes : option Z
}.

Definition register (now : Z) (p : RegisterParams) (reg : Registry) : Registry :=
  let archiveMinutes := default ARCHIVE_AFTER_MINUTES (archiveAfterMinutes p) in
  let archiveAt := if 0 <? archiveMinutes then Some (now + archiveMinutes * 60000) else None in
  let record :=
    mkRecord (regRunId p) (regChildSessionKey p) (regRequesterSessionKey p) (regTask p)
             (regLabel p) (regCleanup p) now (Some now) None None archiveAt None (Some false) in
  mkRegistry (<[regRunId p := record]> (runs reg))
             (if JS.truthyNum archiveAt then true else sweeper reg).

Definition markStarted (now : Z) (id : string) (reg : Registry) : Registry :=
  match runs reg !! id with
  | None => reg
  | Some r =>
      let r' := mkRecord (runId r) (childSessionKey r) (requesterSessionKey r) (task r)
                  (label r) (cleanup r) (createdAt r) (Some now) (endedAt r) (outcome r)
                  (archiveAtMs r) (cleanupCompletedAt r) (cleanupHandled r) in
      mkRegistry (<[id := r']> (runs reg)) (sweeper reg)
  end.

(** [markCompleted(runId, outcome)]; no caller registers a completion
    callback, so the lookup in [completionCallbacks] finds none. *)
Definition markCompleted (now : Z) (id : string) (o : SubagentOutcome) (reg : Registry)
    : Registry :=
  match runs reg !! id with
  | None => reg
  | Some r =>
      let r' := mkRecord (runId r) (childSessionKey r) (requesterSessionKey r) (task r)
                  (label r) (cleanup r) (createdAt r) (startedAt r) (Some now) (Some o)
                  (archiveAtMs r) (cleanupCompletedAt r) (cleanupHandled r) in
      mkRegistry (<[id := r']> (runs reg)) (sweeper reg)
  end.

Definition finalizeCleanup (now : Z) (id : string) (didAnnounce : bool) (reg : Registry)
    : Registry :=
  match runs reg !! id with
  | None => reg
  | Some r =>
      match cleanup r with
      | Announce.CleanupDelete => mkRegistry (delete id (runs reg)) (sweeper reg)
      | Announce.CleanupKeep =>
          let r' :=
            if didAnnounce
            then mkRecord (runId r) (childSessionKey r) (requesterSessionKey r) (task r)
                   (label r) (cleanup r) (createdAt r) (startedAt r) (endedAt r) (outcome r)
                   (archiveAtMs r) (Some now) (cleanupHandled r)
            else mkRecord (runId r) (childSessionKey r) (requesterSessionKey r) (task r)
                   (label r) (cleanup r) (createdAt r) (startedAt r) (endedAt r) (outcome r)
                   (archiveAtMs r) (cleanupCompletedAt r) (Some false) in
          mkRegistry (<[id := r']> (runs reg)) (sweeper reg)
      end
  end.

Record PendingSubagent := mkPending {
  pendingRunId : string;
  pendingTask : string;
  pendingLabel : option string;
  pendingChildSessionKey : string
}.

(** The singletons the spawn tool works on, next to the session files. *)
Record World := mkWorld {
  registry : Registry;
  announce : Announce.t;
  pendingSubagents : gmap string PendingSubagent
}.

Record SpawnInput := mkSpawnInput {
  inputTask : string;
  inputLabel : option string;
  inputCleanup : option Announce.Cleanup
}.

(** What [execute] has set up when it starts the background run. *)
Record Spawned := mkSpawned {
  spawnedRunId : string;
  spawnedChildSessionKey : string;
  spawnedRequesterSessionKey : string;
  spawnedRequesterChannel : string;
  spawnedCleanup : Announce.Cleanup;
  spawnedRunner : Config
}.

Definition childSessionKeyOf (runId : string) : string := "subagent:" ++ runId.

(** The lines of the template of [buildSubagentSystemPrompt]. *)
Definition subagentPromptLines (requesterSessionKey childSessionKey task : string)
    (label : option string) : list string :=
  ["# Subagent Context";
   "";
   "You are a **subagent** spawned by the main agent for a specific task.";
   "";
   "## Your Role";
   "- You were created to handle: " ++ task;
   "- Complete this task. That's your entire purpose.";
   "- You are NOT the main agent. Don't try to be.";
   "";
   "## Rules";
   "1. **Stay focused** - Do your assigned task, nothing else";
   "2. **Complete the task** - Your final message will be reported to the main agent";
   "3. **Don't initiate** - No heartbeats, no proactive actions";
   "4. **Be ephemeral** - You may be terminated after completion";
   "";
   "## Session Context";
   "- Label: " ++ JS.orElse label "(none)";
   "- Requester: " ++ requesterSessionKey;
   "- Your session: " ++ childSessionKey;
   ""].

Definition buildSubagentSystemPrompt (requesterSessionKey childSessionKey task : string)
    (label : option string) : string :=
  JS.join JS.nl (subagentPromptLines requesterSessionKey childSessionKey task label).

(** [subagentSpawnTool.execute(input, context)] up to the point where it
    starts the background run: the child session, the registry record, the
    pending entry and the runner bound to the child session. [runUuid] and
    [sessionUuid] are the two values drawn from [randomUUID()],
    [agentPrompt] the prompt of the default agent. [None] is the error
    result for a task that is empty after trimming. *)
Definition spawn (now : Z) (runUuid sessionUuid : string) (DEFAULT_SYSTEM_PROMPT : string)
    (agentPrompt : option string) (skills : list Skills.Skill)
    (input : SpawnInput) (context : option ToolContext)
    (sm : Sessions.t) (w : World) : option (Spawned * State unit * World) :=
  if negb (JS.nonEmpty (JS.trim (inputTask input))) then None
  else
    let task := inputTask input in
    let cleanup := default Announce.CleanupDelete (inputCleanup input) in
    let childKey := childSessionKeyOf runUuid in
    let requesterKey :=
      JS.orElse (match context with Some c => ctxSessionKey c | None => None end) "unknown" in
    let requesterChannel :=
      JS.orElse (match context with Some c => ctxChannel c | None => None end) "websocket" in
    let '(_, sm1) :=
      createSession childKey "default"
        (Some (JS.orElse (inputLabel input) ("Subagent: " ++ JS.slice0 30 task ++ "...")))
        None sessionUuid now sm in
    let extra := buildSubagentSystemPrompt requesterKey childKey task (inputLabel input) in
    let reg1 := register now (mkRegister runUuid childKey requesterKey task (inputLabel input)
                                         cleanup None) (registry w) in
    let pending1 := <[runUuid := mkPending runUuid task (inputLabel input) childKey]>
                      (pendingSubagents w) in
    let runner := Gateway.newRunner DEFAULT_SYSTEM_PROMPT agentPrompt true (Some extra) skills in
    let st0 := Gateway.freshState sm1 tt 0%nat in
    let '(runner1, st1) :=
      match findBySessionKey childKey sm1 with
      | Some childSession => bindSession (Sessions.sessionId childSession) runner st0
      | None => (runner, st0)
      end in
    Some (mkSpawned runUuid childKey requesterKey requesterChannel cleanup runner1,
          st1, mkWorld reg1 (announce w) pending1).

(** [runSubagentInBackground(...)]: mark started, run the agent on the
    task, mark completed, announce, and in [finally] drop the pending
    entry and finalize the cleanup. *)
Definition runSubagentInBackground (env : Env unit) (sp : Spawned) (task : string)
    (label : option string) (st : State unit) (w : World)
    : option (State unit * World) :=
  let id := spawnedRunId sp in
  let startedAt := clock env (tick st) in
  let reg1 := markStarted startedAt id (registry w) in
  let logOnly := mkCallbacks None (Some (fun _ _ (o : unit) => o)) None None in
  match run env (spawnedRunner sp) logOnly task FromUser st with
  | None => None
  | Some (result, st1) =>
      let endedAt := clock env (tick st1) in
      let o :=
        match result with
        | Returned _ => mkOutcome ok None
        | Thrown e => mkOutcome error (Some e)
        end in
      let announced :=
        match result with
        | Returned _ => Announce.mkOutcome "ok" None
        | Thrown e => Announce.mkOutcome "error" (Some e)
        end in
      let reg2 := markCompleted endedAt id o reg1 in
      let params :=
        Announce.mkParams (spawnedChildSessionKey sp) id (spawnedRequesterSessionKey sp)
          (spawnedRequesterChannel sp) task label (Some startedAt) (Some endedAt)
          (Some announced) (spawnedCleanup sp) in
      let '(_, ann1) := Announce.runAnnounceFlow endedAt params (sm st1) (announce w) in
      Some (st1, mkWorld (finalizeCleanup endedAt id true reg2) ann1
                         (delete id (pendingSubagents w)))
  end.

End Subagent.

(** ** Concrete configurations used to exercise the definitions *)

Module Scenarios.

Definition onTelegram : Routing.BindingMatch :=
  Routing.mkMatch "telegram" None None None None.

(** Three channel-default bindings on one channel, stored in the order
    high number, no number, low number. *)
Definition bindHigh : Routing.Binding := Routing.mkBinding "b1" "slow" onTelegram (Some 150) 1 1.
Definition bindUnset : Routing.Binding := Routing.mkBinding "b2" "plain" onTelegram None 2 2.
Definition bindLow : Routing.Binding := Routing.mkBinding "b3" "fast" onTelegram (Some 5) 3 3.

Definition threeBindings : list Routing.Binding := [bindHigh; bindUnset; bindLow].

(** A model that answers every call with the text "done" and no tool
    call; nothing happens in other tasks; the clock shows 1000 ms per
    suspension. *)
Definition quietEnv {Ob} : Runner.Env Ob :=
  Runner.mkEnv
    (fun _ _ _ => ([LLM.Chunk "done"], LLM.Responded (LLM.mkResponse "done" [] "stop")))
    (fun _ _ _ _ => Runner.returns "")
    (fun _ => [])
    (fun n => 1000 * Z.of_nat n)
    [].

(** A model that only ever asks for the bash tool. *)
Definition loopingEnv {Ob} : Runner.Env Ob :=
  Runner.mkEnv
    (fun n _ _ =>
       ([LLM.ToolCallAssembled "bash" "{}"],
        LLM.Responded
          (LLM.mkResponse "" [Tools.mkCall ("call_" ++ JS.numToString (Z.of_nat n)) "bash" "{}"]
                          "tool_calls")))
    (fun _ _ _ _ => Runner.returns "ok")
    (fun _ => [])
    (fun n => 1000 * Z.of_nat n)
    [].

(** A model that asks for the session_send tool with a number where the
    text belongs. The tool calls [text?.trim()] before its [try] block,
    which throws a [TypeError], so the promise of [execute] rejects. *)
Definition countInput : Tools.Json := "{" ++ JS.dq ++ "text" ++ JS.dq ++ ":5}".

Definition badSendEnv {Ob} : Runner.Env Ob :=
  Runner.mkEnv
    (fun n _ _ =>
       ([LLM.ToolCallAssembled "session_send" countInput],
        LLM.Responded
          (LLM.mkResponse "" [Tools.mkCall "call_0" "session_send" countInput] "tool_calls")))
    (fun _ t input _ =>
       if String.eqb (Tools.name t) "session_send" && String.eqb input countInput
       then Runner.throws "text?.trim is not a function"
       else Runner.returns "")
    (fun _ => [])
    (fun n => 1000 * Z.of_nat n)
    [].

(** A runner bound to the session with id [s1]. *)
Definition plainConfig : Runner.Config :=
  Runner.mkConfig (Some "s1") "You are Mini-Claw." false None None [].

Definition idle : Runner.State unit := Gateway.freshState Sessions.empty tt 0.

(** A model that first asks for the session_send tool and then answers
    "done". While the tool runs (the suspension with index 1), the gateway
    appends an assistant entry to the transcript of the runner's own
    session, as [sendToSession] does. *)
Definition pushedEntry : Sessions.TranscriptMessage :=
  Sessions.mkEntry Sessions.assistant "pushed to the web UI" 1500 None None.

Definition sideChannelEnv {Ob} : Runner.Env Ob :=
  Runner.mkEnv
    (fun n _ _ =>
       match n with
       | 0%nat =>
           ([LLM.ToolCallAssembled "session_send" "{}"],
            LLM.Responded (LLM.mkResponse "" [Tools.mkCall "call_0" "session_send" "{}"]
                                          "tool_calls"))
       | _ => ([LLM.Chunk "done"], LLM.Responded (LLM.mkResponse "done" [] "stop"))
       end)
    (fun _ _ _ _ => Runner.returns "Message sent")
    (fun n => match n with 1%nat => [Runner.SideAppend "s1" pushedEntry] | _ => [] end)
    (fun n => 1000 * Z.of_nat n)
    [].

(** A subagent runner, and a model that asks it for the spawn tool
    although the schemas it was offered do not list that tool. The spawn
    tool answers "accepted". *)
Definition subagentConfig : Runner.Config :=
  Runner.mkConfig (Some "s1") "You are Mini-Claw." true (Some "# Subagent Context") None [].

Definition nestingEnv {Ob} : Runner.Env Ob :=
  Runner.mkEnv
    (fun n _ _ =>
       match n with
       | 0%nat =>
           ([LLM.ToolCallAssembled "subagent_spawn" "{}"],
            LLM.Responded (LLM.mkResponse "" [Tools.mkCall "call_0" "subagent_spawn" "{}"]
                                          "tool_calls"))
       | _ => ([LLM.Chunk "ok"], LLM.Responded (LLM.mkResponse "ok" [] "stop"))
       end)
    (fun _ t _ _ =>
       Runner.returns (if String.eqb (Tools.name t) "subagent_spawn" then "accepted" else ""))
    (fun _ => [])
    (fun n => 1000 * Z.of_nat n)
    [].

(** An announce trigger arrives on the websocket channel and the model
    answers it with the sentinel, padded with a no-break space and a line
    break. *)
Definition noReplyEnv {Ob} : Runner.Env Ob :=
  Runner.mkEnv
    (fun _ _ _ =>
       ([LLM.Chunk "NO_REPLY"; LLM.Chunk (JS.nbsp ++ JS.nl)],
        LLM.Responded (LLM.mkResponse ("NO_REPLY" ++ JS.nbsp ++ JS.nl) [] "stop")))
    (fun _ _ _ _ => Runner.returns "")
    (fun _ => [])
    (fun n => 1000 * Z.of_nat n)
    [].

Definition announceMessage : Gateway.Message :=
  Gateway.mkMessage "trigger-1" "websocket" "subagent-announce"
                    "A background task just completed successfully." 5000 "websocket:abc"
                    None None.

Definition registeredChannels : gset string := {[ "websocket"; "cron" ]}.

Definition gatewayIdle : Runner.State Gateway.Observer :=
  Gateway.freshState Sessions.empty (Gateway.mkObserver [] []) 0.

(** The session files with the web session [s1] that [processMessage]
    has created for the key [websocket:abc] (its title is the default,
    [Session 1]), and a gateway in front of them. *)
Definition webStore : Sessions.t :=
  snd (Sessions.getOrCreate "websocket:abc" "default" (Some "websocket") "s1" 100
                            Sessions.empty).

Definition gatewayBound : Runner.State Gateway.Observer :=
  Gateway.freshState webStore (Gateway.mkObserver [] []) 0.

(** A turn that delivers its result through the session_send tool and
    then answers with the sentinel. The tool, called for the session
    [s1], appends the text to the transcript of that session and calls
    [sendToSession], which appends it once more and calls [channels.send]
    for the websocket channel; both lines reach the transcript while the
    runner is suspended on the tool (the suspension with index 1). *)
Definition deliveredText : string := "Task A found 3 results.".

Definition deliveredInput : Tools.Json :=
  "{" ++ JS.dq ++ "text" ++ JS.dq ++ ":" ++ JS.dq ++ deliveredText ++ JS.dq ++ ","
      ++ JS.dq ++ "session_id" ++ JS.dq ++ ":" ++ JS.dq ++ "s1" ++ JS.dq ++ "}".

(** [JSON.stringify({ success: true, session_id: sessionId,
    session_title: session.title, persisted: true })] for the session
    [s1]. *)
Definition deliveredOutput : string :=
  "{" ++ JS.dq ++ "success" ++ JS.dq ++ ":true," ++ JS.dq ++ "session_id" ++ JS.dq ++ ":"
      ++ JS.dq ++ "s1" ++ JS.dq ++ "," ++ JS.dq ++ "session_title" ++ JS.dq ++ ":"
      ++ JS.dq ++ "Session 1" ++ JS.dq ++ "," ++ JS.dq ++ "persisted" ++ JS.dq ++ ":true}".

Definition deliveringEnv : Runner.Env Gateway.Observer :=
  Runner.mkEnv
    (fun n _ _ =>
       match n with
       | 0%nat =>
           ([LLM.ToolCallAssembled "session_send" deliveredInput],
            LLM.Responded
              (LLM.mkResponse "" [Tools.mkCall "call_0" "session_send" deliveredInput]
                              "tool_calls"))
       | _ => ([LLM.Chunk "NO_REPLY"], LLM.Responded (LLM.mkResponse "NO_REPLY" [] "stop"))
       end)
    (fun _ t _ _ o =>
       if String.eqb (Tools.name t) "session_send"
       then (Runner.Output deliveredOutput,
             Gateway.deliver registeredChannels
                             (Gateway.mkSend "websocket:abc" "websocket" deliveredText) o)
       else Runner.returns "" o)
    (fun n =>
       match n with
       | 1%nat =>
           [Runner.SideAppend "s1"
              (Sessions.mkEntry Sessions.assistant deliveredText 1500 None None);
            Runner.SideAppend "s1"
              (Sessions.mkEntry Sessions.assistant deliveredText 1501 None None)]
       | _ => []
       end)
    (fun n => 1000 * Z.of_nat n)
    [].

(** The user steers while the first tool runs: the model asks for bash,
    a message is injected at the suspension with index 1, and the model
    then answers with a summary. *)
Definition steerEnv {Ob} : Runner.Env Ob :=
  Runner.mkEnv
    (fun n _ _ =>
       match n with
       | 0%nat =>
           ([LLM.ToolCallAssembled "bash" "{}"],
            LLM.Responded (LLM.mkResponse "" [Tools.mkCall "call_0" "bash" "{}"] "tool_calls"))
       | _ => ([LLM.Chunk "summary"], LLM.Responded (LLM.mkResponse "summary" [] "stop"))
       end)
    (fun _ _ _ _ => Runner.returns "a.txt")
    (fun n => match n with 1%nat => [Runner.Inject "just summarise"] | _ => [] end)
    (fun n => 1000 * Z.of_nat n)
    [].

(** Two subagent runs of one requester. *)
Definition paramsA : Announce.AnnounceParams :=
  Announce.mkParams "subagent:a" "a" "websocket:abc" "websocket" "search A" (Some "A")
                    (Some 1) (Some 100) (Some (Announce.mkOutcome "ok" None))
                    Announce.CleanupDelete.

Definition paramsB : Announce.AnnounceParams :=
  Announce.mkParams "subagent:b" "b" "websocket:abc" "websocket" "search B" (Some "B")
                    (Some 1) (Some 3000) (Some (Announce.mkOutcome "ok" None))
                    Announce.CleanupDelete.

(** A gateway whose [triggerAgent] takes ten seconds: it runs a whole
    turn of the parent agent. *)
Definition slowTrigger : nat -> Z := fun _ => 10000.

(** A completes at 0 ms and B at 3000 ms; the state at 100 s. *)
Definition lateSecond : Announce.t :=
  Announce.advanceTo slowTrigger 100000
    (Announce.completionAt slowTrigger 3000 paramsB "b-done"
       (Announce.completionAt slowTrigger 0 paramsA "a-done" (Announce.init true))).

(** The main agent, in the session [websocket:abc], spawns a subagent
    with [cleanup = delete]; the run draws the ids [run-1] and [sess-1]. *)
Definition spawnContext : Runner.ToolContext :=
  Runner.mkCtx (Some "websocket:abc") (Some "websocket") (Some "abc") (Some "default").

Definition emptyWorld : Subagent.World :=
  Subagent.mkWorld Subagent.emptyRegistry (Announce.init true) ∅.

Definition spawnedDelete : option (Subagent.Spawned * Runner.State unit * Subagent.World) :=
  Subagent.spawn 1000 "run-1" "sess-1" "You are Mini-Claw." None []
                 (Subagent.mkSpawnInput "search A" (Some "A") (Some Announce.CleanupDelete))
                 (Some spawnContext) Sessions.empty emptyWorld.

(** The subagent has run, announced and finalized its cleanup. *)
Definition afterSubagent : option (Runner.State unit * Subagent.World) :=
  match spawnedDelete with
  | Some (sp, st, w) => Subagent.runSubagentInBackground quietEnv sp "search A" (Some "A") st w
  | None => None
  end.

(** The announce queue of that world 100 s later, the gateway answering
    within 500 ms. *)
Definition afterAnnounce : option Announce.t :=
  match afterSubagent with
  | Some (_, w) => Some (Announce.advanceTo (fun _ => 500) 100000 (Subagent.announce w))
  | None => None
  end.

Definition job1 : Gateway.CronJob :=
  Gateway.mkJob "job1" "* * * * *" "say hello" true 0 None (Some "telegram") (Some "123")
                None None None.

(** The session files after a cron fire of [job] on [sm] that draws
    [uuid]. *)
Definition afterCronFire (job : Gateway.CronJob) (uuid : string) (sm : Sessions.t)
    : Sessions.t :=
  match Gateway.runCronJob quietEnv "You are Mini-Claw." "default" None [] job uuid sm 0 with
  | Some (_, st) => Runner.sm st
  | None => sm
  end.

Definition afterFirstFire : Sessions.t := afterCronFire job1 "uuid-1" Sessions.empty.
Definition afterSecondFire : Sessions.t := afterCronFire job1 "uuid-2" afterFirstFire.

End Scenarios.

(** ** More string primitives *)

Module Str.

(** A relative index as [slice] reads it: counted from the end when
    negative, and kept within the string. *)
Definition relIndex (len k : Z) : Z :=
  if k <? 0 then Z.max (len + k) 0 else Z.min k len.

(** [s.slice(start, end)] *)
Definition slice (start stop : Z) (s : string) : string :=
  let len := JS.len s in
  let from := relIndex len start in
  let to := relIndex len stop in
  String.substring (Z.to_nat from) (Z.to_nat (to - from)) s.

(** [s.slice(start)] *)
Definition sliceFrom (start : Z) (s : string) : string := slice start (JS.len s) s.

(** The largest index [i <= start] with [s[i] = c]. *)
Fixpoint lastIndexUpTo (c : ascii) (start : nat) (s : string) {struct s} : option nat :=
  match s with
  | EmptyString => None
  | String d s' =>
      match start with
      | O => if Ascii.eqb d c then Some O else None
      | S start' =>
          match lastIndexUpTo c start' s' with
          | Some i => Some (S i)
          | None => if Ascii.eqb d c then Some O else None
          end
      end
  end.

(** [s.lastIndexOf(c, position)] for a search string of one character:
    a negative position counts as 0, and [-1] reports that there is no
    occurrence at or before the position. *)
Definition lastIndexOf (c : ascii) (position : Z) (s : string) : Z :=
  match lastIndexUpTo c (Z.to_nat position) s with
  | Some i => Z.of_nat i
  | None => -1
  end.

(** [s.replace(pattern, replacement)] for a string pattern and a
    replacement without [$]: the first occurrence is replaced. *)
Fixpoint replaceFirst (pattern replacement s : string) : string :=
  if String.prefix pattern s
  then replacement ++ String.substring (String.length pattern) (String.length s) s
  else match s with
       | EmptyString => EmptyString
       | String c s' => String c (replaceFirst pattern replacement s')
       end.

(** [s.split(c)] for a separator of one character. *)
Fixpoint split (c : ascii) (s : string) : list string :=
  match s with
  | EmptyString => [""]
  | String d s' =>
      if Ascii.eqb d c then "" :: split c s'
      else match split c s' with
           | first :: rest => String d first :: rest
           | [] => [String d ""]
           end
  end.

(** The characters of a string. *)
Definition chars (s : string) : list ascii := list_ascii_of_string s.

(** A string of white space only. *)
Definition allWhite (s : string) : bool := forallb JS.isWhite (chars s).

End Str.

(** ** Telegram channel: splitting a long reply, and the chat of a session *)

Module Telegram.

Definition lf : ascii := ascii_of_nat 10.
Definition space : ascii := ascii_of_nat 32.

(** The split point chosen in one pass of the loop of [splitMessage]. On
    integers [splitAt < maxLength / 2] is [2 * splitAt < maxLength]. *)
Definition splitPoint (remaining : string) (maxLength : Z) : Z :=
  let splitAt := Str.lastIndexOf lf maxLength remaining in
  let splitAt :=
    if (splitAt =? -1) || (2 * splitAt <? maxLength)
    then Str.lastIndexOf space maxLength remaining
    else splitAt in
  if (splitAt =? -1) || (2 * splitAt <? maxLength) then maxLength else splitAt.

(** The loop [while (remaining.length > 0) { ... }] of [splitMessage].
    [None] means that [fuel] ran out before the loop ended. *)
Fixpoint splitLoop (fuel : nat) (maxLength : Z) (remaining : string)
    (chunks : list string) : option (list string) :=
  match fuel with
  | O => None
  | S fuel' =>
      if 0 <? JS.len remaining then
        if JS.len remaining <=? maxLength then Some (chunks ++ [remaining])%list
        else
          let splitAt := splitPoint remaining maxLength in
          splitLoop fuel' maxLength
                    (JS.trimStart (Str.sliceFrom splitAt remaining))
                    (chunks ++ [Str.slice 0 splitAt remaining])%list
      else Some chunks
  end.

(** [splitMessage(text, maxLength)]; the loop is given one unit of fuel
    per character of the text and one more. *)
Definition splitMessage (text : string) (maxLength : Z) : option (list string) :=
  if JS.len text <=? maxLength then Some [text]
  else splitLoop (S (String.length text)) maxLength text [].

(** [`telegram:${chatId}`], the session key [handleMessage] builds. *)
Definition sessionKeyOf (chatId : string) : string := "telegram:" ++ chatId.

(** [sessionKey.replace('telegram:', '')], the chat [send] and
    [sendTyping] address. *)
Definition chatIdOf (sessionKey : string) : string :=
  Str.replaceFirst "telegram:" "" sessionKey.

(** What [splitMessage] makes of a text: the chunks in order, each
    followed in the text by white space that is dropped. *)
Inductive rebuilds : list string -> string -> Prop :=
| rebuilds_end (gap : string) :
    Str.allWhite gap = true -> rebuilds [] gap
| rebuilds_chunk (chunk gap rest : string) (chunks : list string) :
    Str.allWhite gap = true -> rebuilds chunks rest ->
    rebuilds (chunk :: chunks) (chunk ++ gap ++ rest).

(** What the loop adds to [chunks]: pieces within the limit, none of
    them empty, all but the last at least half the limit long, which
    rebuild what remained. *)
Definition wellSplit (maxLength : Z) (remaining : string) (added : list string) : Prop :=
  List.Forall (fun c => 1 <= JS.len c <= maxLength) added
  /\ (forall c, In c (removelast added) -> maxLength <= 2 * JS.len c)
  /\ rebuilds added remaining.

End Telegram.

(** ** Binding manager: the stored bindings and their maintenance *)

Module Bindings.

Import Routing.

(** [createBinding(config)]; [uuid] is the value of [randomUUID()], of
    which the first eight characters become the id, and [now] that of
    [Date.now()]. *)
Definition createBinding (agentId : string) (match_ : BindingMatch) (priority : option Z)
    (uuid : string) (now : Z) (store : list Binding) : Binding * list Binding :=
  let binding := mkBinding (JS.slice0 8 uuid) agentId match_ priority now now in
  (binding, (store ++ [binding])%list).

(** [getBinding(id)] *)
Definition getBinding (id : string) (store : list Binding) : option Binding :=
  List.find (fun b => String.eqb (Routing.id b) id) store.

(** [bindings.findIndex(b => b.id === id)] *)
Fixpoint findIndex (id : string) (store : list Binding) : option nat :=
  match store with
  | [] => None
  | b :: rest =>
      if String.eqb (Routing.id b) id then Some O
      else option_map S (findIndex id rest)
  end.

(** The fields an update may carry,
    [Partial<Omit<Binding, 'id' | 'createdAt'>>]. *)
Record BindingUpdates := mkUpdates {
  newAgentId : option string;
  newMatch : option BindingMatch;
  newPriority : option Z;
  newUpdatedAt : option Z
}.

(** [{ ...binding, ...updates, updatedAt: Date.now() }] *)
Definition updated (b : Binding) (updates : BindingUpdates) (now : Z) : Binding :=
  mkBinding (Routing.id b)
            (default (agentId b) (newAgentId updates))
            (default (Routing.match_ b) (newMatch updates))
            (match newPriority updates with Some p => Some p | None => priority b end)
            (createdAt b)
            now.

(** [bindings[index] = value] for an index inside the array. *)
Fixpoint setAt (index : nat) (value : Binding) (store : list Binding) : list Binding :=
  match store, index with
  | [], _ => []
  | _ :: rest, O => value :: rest
  | b :: rest, S i => b :: setAt i value rest
  end.

(** [bindings.splice(index, 1)] *)
Fixpoint removeAt (index : nat) (store : list Binding) : list Binding :=
  match store, index with
  | [], _ => []
  | _ :: rest, O => rest
  | b :: rest, S i => b :: removeAt i rest
  end.

(** [updateBinding(id, updates)] *)
Definition updateBinding (id : string) (updates : BindingUpdates) (now : Z)
    (store : list Binding) : option Binding * list Binding :=
  match findIndex id store with
  | None => (None, store)
  | Some index =>
      match List.nth_error store index with
      | Some b =>
          let b' := updated b updates now in
          (Some b', setAt index b' store)
      | None => (None, store)
      end
  end.

(** [deleteBinding(id)] *)
Definition deleteBinding (id : string) (store : list Binding) : bool * list Binding :=
  match findIndex id store with
  | None => (false, store)
  | Some index => (true, removeAt index store)
  end.

(** The lower of two candidates, the left one at equal numbers. *)
Definition lower (a c : option Binding) : option Binding :=
  match a, c with
  | None, _ => c
  | Some x, None => Some x
  | Some x, Some y => if effPriority x <=? effPriority y then Some x else Some y
  end.

End Bindings.

(** ** Gateway: from an incoming message to the agent and its tool context *)

Module Dispatch.

Import Gateway.

(** The route input [processMessage] builds: the channel of the message
    and nothing else. *)
Definition routeInputOf (msg : Message) : Routing.RouteInput :=
  Routing.mkMatch (channel msg) None None None None.

Definition routeOf (store : list Routing.Binding) (defaultAgentId : string)
    (msg : Message) : Routing.RouteResult :=
  Routing.resolveRoute store (routeInputOf msg) defaultAgentId.

(** [msg.agentId || routeResult.agentId] *)
Definition agentIdOf (store : list Routing.Binding) (defaultAgentId : string)
    (msg : Message) : string :=
  JS.orElse (agentId msg) (Routing.resAgentId (routeOf store defaultAgentId msg)).

(** [msg.sessionId || msg.sessionKey], the key under which the runner is
    cached. *)
Definition runnerKeyOf (msg : Message) : string :=
  JS.orElse (sessionId msg) (sessionKey msg).

(** [sessionKey.split(':').slice(1).join(':')] *)
Definition toOf (sessionKey : string) : string :=
  JS.join ":" (List.skipn 1 (Str.split ":" sessionKey)).

(** The tool context [processMessage] sets on the runner. *)
Definition toolContextOf (msg : Message) (agentId : string) : Runner.ToolContext :=
  Runner.mkCtx (Some (sessionKey msg)) (Some (channel msg))
               (if negb (String.eqb (from msg) "cron") then Some (toOf (sessionKey msg))
                else None)
               (Some agentId).

End Dispatch.

(** ** Turns of the runner: models and replies *)

Module Turns.

Import Sessions Runner Gateway.

(** A model whose every response is empty: no text and no tool call. *)
Definition mute {Ob} (env : Env Ob) : Prop :=
  forall n ms ts, exists r,
    snd (chat env n ms ts) = LLM.Responded r
    /\ LLM.content r = "" /\ LLM.toolCalls r = [].

(** No message is injected while the run is suspended. *)
Definition notSteered {Ob} (env : Env Ob) : Prop :=
  forall n text, ~ In (Inject text) (meanwhile env n).

(** The tool message [m] answers the tool call [tc]. *)
Definition answersCall (tc : Tools.ToolCall) (m : LLMMessage) : Prop :=
  role m = tool /\ tool_call_id m = Some (Tools.callId tc) /\ tool_calls m = None.

(** [text.trim() === 'NO_REPLY' || text.trim() === '(done)'] *)
Definition suppressed (text : string) : bool :=
  String.eqb (JS.trim text) "NO_REPLY" || String.eqb (JS.trim text) "(done)".

(** The one [channel.send] of a turn: the reply with the text and the
    tool calls collected, on the channel of the message when it is
    registered. *)
Definition replyOps (registered : gset string) (msg : Message) (text : string)
    (toolCalls : option (list ToolCallSummary)) : list ChannelOp :=
  if bool_decide (channel msg ∈ registered)
  then [ChannelSend (channel msg) (sessionKey msg) (mkReply text toolCalls)]
  else [].

(** A model that answers nothing at all, and one whose calls all fail. *)
Definition muteEnv {Ob} : Env Ob :=
  mkEnv (fun _ _ _ => ([], LLM.Responded (LLM.mkResponse "" [] "stop")))
        (fun _ _ _ _ => returns "")
        (fun _ => [])
        (fun n => 1000 * Z.of_nat n)
        [].

Definition failingEnv {Ob} : Env Ob :=
  mkEnv (fun _ _ _ => ([], LLM.Failed "OpenAI API error: 401 unauthorized"))
        (fun _ _ _ _ => returns "")
        (fun _ => [])
        (fun n => 1000 * Z.of_nat n)
        [].

End Turns.

(** ** Session files: what the index records about a transcript *)

Module Bookkeeping.

Import Sessions.

(** An operation that may create a session draws an id under which the
    store has neither a session nor a transcript file. *)
Definition drawsFreshId (sm : t) (op : Op) : bool :=
  match op with
  | GetOrCreate _ _ _ uuid _ | CreateSession _ _ _ _ uuid _ =>
      match objGet uuid (sessions sm), transcripts sm !! uuid with
      | None, None => true
      | _, _ => false
      end
  | _ => true
  end.

Fixpoint allDrawFresh (sm : t) (ops : list Op) : bool :=
  match ops with
  | [] => true
  | op :: rest => drawsFreshId sm op && allDrawFresh (applyOp sm op) rest
  end.

(** The [messageCount] of every session is the number of lines of its
    transcript. *)
Definition countsMatch (sm : t) : Prop :=
  forall sid s, objGet sid (sessions sm) = Some s ->
                messageCount s = Z.of_nat (length (loadTranscript sid sm)).

(** What the operations keep: the counts, and one property per id. *)
Definition tidy (sm : t) : Prop :=
  countsMatch sm /\ List.NoDup (List.map fst (sessions sm)).

End Bookkeeping.

(** ** Sending to a session: [sendToSession] and the session_send tool *)

Module SendTools.

Import Sessions Gateway.

(** The transcript line of a message sent to a session. *)
Definition sentEntry (text : string) (now : Z) : TranscriptMessage :=
  mkEntry assistant text now None None.

(** [Gateway.sendToSession(sessionKey, channel, text)] *)
Definition sendToSession (registered : gset string) (sessionKey channel text : string)
    (now : Z) (sm : Sessions.t) (o : Observer) : Sessions.t * Observer :=
  let sm1 :=
    match findBySessionKey sessionKey sm with
    | Some session => appendMessage (Sessions.sessionId session) (sentEntry text now) now sm
    | None => sm
    end in
  (sm1, channelsSend registered channel sessionKey (mkReply text None) o).

(** The object the session_send tool hands to [JSON.stringify] once it
    has a text and a session id. *)
Inductive SendResult :=
| SessionNotFound (sessionId : string)
| Sent (sessionId : string) (sessionTitle : option string).

(** [sessionSendTool.execute] from the point where the text and the
    session id have been found present: the lookup of the session, the
    line appended to its transcript, and the call of [sendToSession] when a
    gateway reference is set ([gateway] holds its registered channels).
    [now] and [later] are the two readings of the clock. *)
Definition sessionSend (gateway : option (gset string)) (text sessionId : string)
    (now later : Z) (sm : Sessions.t) (o : Observer) : SendResult * Sessions.t * Observer :=
  match getSession sessionId sm with
  | None => (SessionNotFound sessionId, sm, o)
  | Some session =>
      let sm1 := appendMessage sessionId (sentEntry text now) now sm in
      let '(sm2, o2) :=
        match gateway with
        | Some registered =>
            sendToSession registered (Sessions.sessionKey session)
                          (JS.orElse (Sessions.channel session) "websocket")
                          text later sm1 o
        | None => (sm1, o)
        end in
      (Sent sessionId (title session), sm2, o2)
  end.

(** A store with one web session, [s1]. *)
Definition oneWebSession : Sessions.t :=
  snd (createSession "web:1" "default" None None "s1" 100 Sessions.empty).

End SendTools.

(** ** Cron service: the stored jobs and their timers *)

Module Cron.

Import Gateway.

(** The fields an update may carry,
    [Partial<Omit<CronJob, 'id' | 'createdAt'>>]. *)
Record Updates := mkUpdates {
  newSchedule : option string;
  newMessage : option string;
  newEnabled : option bool;
  newLastRun : option Z;
  newChannel : option string;
  newTo : option string;
  newName : option string;
  newDescription : option string;
  newAgentId : option string
}.

Definition noUpdates : Updates := mkUpdates None None None None None None None None None.

Definition enabledOnly (b : bool) : Updates :=
  mkUpdates None None (Some b) None None None None None None.

Definition lastRunOnly (now : Z) : Updates :=
  mkUpdates None None None (Some now) None None None None None.

Definition over {A} (new : option A) (old : option A) : option A :=
  match new with Some v => Some v | None => old end.

(** [Object.assign(job, updates)] *)
Definition assign (job : CronJob) (u : Updates) : CronJob :=
  mkJob (jobId job)
        (default (schedule job) (newSchedule u))
        (default (message job) (newMessage u))
        (default (enabled job) (newEnabled u))
        (jobCreatedAt job)
        (over (newLastRun u) (lastRun job))
        (over (newChannel u) (jobChannel job))
        (over (newTo u) (jobTo job))
        (over (newName u) (jobName job))
        (over (newDescription u) (jobDescription job))
        (over (newAgentId u) (jobAgentId job)).

(** The options of [add]. *)
Record Opts := mkOpts {
  optChannel : option string;
  optTo : option string;
  optName : option string;
  optDescription : option string;
  optAgentId : option string
}.

(** A [CronJobRunner] that has been started: the cron expression it was
    built with, and the job object its callback closes over. *)
Record Runner := mkRunner {
  cronTime : string;
  jobRef : nat
}.

(** The service with its store. Job objects live in [heap] under their
    reference; [jobs] is the array of the store, holding references;
    [ticking] holds the runners that have been started and not stopped,
    under their handle; [runners] is the map of the service from job id to
    runner. The calls of the service are taken one at a time, and what
    [save] writes to disk is left out. *)
Record t := mkService {
  heap : gmap nat CronJob;
  jobs : list nat;
  nextRef : nat;
  ticking : gmap nat Runner;
  nextRunner : nat;
  runners : gmap string nat
}.

(** [new CronService(storePath)] *)
Definition create : t := mkService ∅ [] 0%nat ∅ 0%nat ∅.

(** The job objects of the array, as they are now. *)
Definition getAll (st : t) : list CronJob :=
  omap (fun ref => heap st !! ref) (jobs st).

(** The ids of the jobs of the array. *)
Definition ids (st : t) : list string := List.map jobId (getAll st).

Definition hasId (st : t) (id : string) (ref : nat) : bool :=
  match heap st !! ref with
  | Some job => String.eqb (jobId job) id
  | None => false
  end.

(** [this.jobs.find(j => j.id === id)], as a reference. *)
Definition find (id : string) (st : t) : option nat :=
  List.find (hasId st id) (jobs st).

(** [store.get(id)] *)
Definition get (id : string) (st : t) : option CronJob :=
  match find id st with
  | Some ref => heap st !! ref
  | None => None
  end.

(** [store.add(job)]: the object is new. *)
Definition storeAdd (job : CronJob) (st : t) : nat * t :=
  let ref := nextRef st in
  (ref, mkService (<[ref := job]> (heap st)) (jobs st ++ [ref])%list (S ref)
                  (ticking st) (nextRunner st) (runners st)).

(** [jobs.splice(jobs.findIndex(p), 1)] *)
Fixpoint removeFirst (p : nat -> bool) (l : list nat) : list nat :=
  match l with
  | [] => []
  | ref :: rest => if p ref then rest else ref :: removeFirst p rest
  end.

(** [store.remove(id)] *)
Definition storeRemove (id : string) (st : t) : bool * t :=
  match find id st with
  | None => (false, st)
  | Some _ =>
      (true, mkService (heap st) (removeFirst (hasId st id) (jobs st)) (nextRef st)
                       (ticking st) (nextRunner st) (runners st))
  end.

(** [store.update(id, updates)] *)
Definition storeUpdate (id : string) (u : Updates) (st : t) : bool * t :=
  match find id st with
  | None => (false, st)
  | Some ref =>
      match heap st !! ref with
      | None => (false, st)
      | Some job =>
          (true, mkService (<[ref := assign job u]> (heap st)) (jobs st) (nextRef st)
                           (ticking st) (nextRunner st) (runners st))
      end
  end.

Section Service.

(** Whether [new CronJobRunner(schedule, ...)] accepts the expression;
    it throws otherwise. *)
Variable validSchedule : string -> bool.

(** [scheduleJob(job)] for the job object [ref]. *)
Definition scheduleJob (ref : nat) (st : t) : t :=
  match heap st !! ref with
  | None => st
  | Some job =>
      if validSchedule (schedule job)
      then mkService (heap st) (jobs st) (nextRef st)
                     (<[nextRunner st := mkRunner (schedule job) ref]> (ticking st))
                     (S (nextRunner st))
                     (<[jobId job := nextRunner st]> (runners st))
      else st
  end.

(** [runner.stop(); this.runners.delete(id)] for the runner of [id], if
    there is one. *)
Definition stopRunner (id : string) (st : t) : t :=
  match runners st !! id with
  | None => st
  | Some h =>
      mkService (heap st) (jobs st) (nextRef st) (delete h (ticking st)) (nextRunner st)
                (delete id (runners st))
  end.

(** [store.load()]: [content] is what the store file holds, if it
    exists and parses; the parsed jobs are new objects, which replace
    the array. *)
Definition load (content : option (list CronJob)) (st : t) : list nat * t :=
  match content with
  | None => ([], st)
  | Some parsed =>
      let st1 :=
        List.fold_left (fun s job => snd (storeAdd job s)) parsed
                       (mkService (heap st) [] (nextRef st) (ticking st) (nextRunner st)
                                  (runners st)) in
      (jobs st1, st1)
  end.

Definition scheduleIfEnabled (st : t) (ref : nat) : t :=
  match heap st !! ref with
  | Some job => if enabled job then scheduleJob ref st else st
  | None => st
  end.

(** [start()] *)
Definition start (content : option (list CronJob)) (st : t) : t :=
  let '(refs, st1) := load content st in
  List.fold_left scheduleIfEnabled refs st1.

(** [stop()] *)
Definition stop (st : t) : t :=
  mkService (heap st) (jobs st) (nextRef st)
            (map_fold (fun _ h live => delete h live) (ticking st) (runners st))
            (nextRunner st) ∅.

(** [add(schedule, message, opts)]; [uuid] is the value of [uuid()]. *)
Definition add (schedule message : string) (opts : Opts) (uuid : string) (now : Z)
    (st : t) : nat * t :=
  let job := mkJob (JS.slice0 8 uuid) schedule message true now None
                   (optChannel opts) (optTo opts) (optName opts) (optDescription opts)
                   (optAgentId opts) in
  let '(ref, st1) := storeAdd job st in
  (ref, scheduleJob ref st1).

(** [remove(id)] *)
Definition remove (id : string) (st : t) : bool * t :=
  storeRemove id (stopRunner id st).

(** [update(id, updates)] *)
Definition update (id : string) (u : Updates) (st : t) : option nat * t :=
  match find id st, get id st with
  | Some ref, Some job =>
      let needsReschedule :=
        match newSchedule u with
        | Some s => JS.nonEmpty s && negb (String.eqb s (schedule job))
        | None => false
        end in
      let '(ok, st1) := storeUpdate id u st in
      if negb ok then (None, st1)
      else
        match find id st1, get id st1 with
        | Some ref', Some updated =>
            if needsReschedule || Routing.isSome (newEnabled u)
            then
              let st2 := stopRunner id st1 in
              (Some ref', if enabled updated then scheduleJob ref' st2 else st2)
            else (Some ref', st1)
        | _, _ => (None, st1)
        end
  | _, _ => (None, st)
  end.

(** [duplicate(id)] *)
Definition duplicate (id : string) (uuid : string) (now : Z) (st : t) : option nat * t :=
  match get id st with
  | None => (None, st)
  | Some job =>
      let '(ref, st1) :=
        add (schedule job) (message job)
            (mkOpts (jobChannel job) (jobTo job)
                    (match JS.truthyStr (jobName job) with
                     | Some n => Some (n ++ " (Copy)")
                     | None => None
                     end)
                    (jobDescription job) (jobAgentId job))
            uuid now st in
      (Some ref, st1)
  end.

(** [enable(id)] *)
Definition enable (id : string) (st : t) : bool * t :=
  match find id st with
  | None => (false, st)
  | Some ref =>
      let st1 := snd (storeUpdate id (enabledOnly true) st) in
      (true, match runners st1 !! id with
             | Some _ => st1
             | None => scheduleJob ref st1
             end)
  end.

(** [disable(id)] *)
Definition disable (id : string) (st : t) : bool * t :=
  storeUpdate id (enabledOnly false) (stopRunner id st).

(** A tick of the runner [h]: the callback records the run on the job
    with the id of its job object, and will hand that object to the
    handler. *)
Definition tick (h : nat) (now : Z) (st : t) : option nat * t :=
  match ticking st !! h with
  | None => (None, st)
  | Some r =>
      match heap st !! jobRef r with
      | None => (None, st)
      | Some job => (Some (jobRef r), snd (storeUpdate (jobId job) (lastRunOnly now) st))
      end
  end.

(** The job the handler receives at a tick of the runner [h]: the job
    object of the runner, as it is once the run has been recorded. *)
Definition handed (h : nat) (now : Z) (st : t) : option CronJob :=
  match tick h now st with
  | (Some ref, st1) => heap st1 !! ref
  | (None, _) => None
  end.

(** The calls made on a service. *)
Inductive Op :=
| Add (schedule message : string) (opts : Opts) (uuid : string) (now : Z)
| Remove (id : string)
| Update (id : string) (u : Updates)
| Duplicate (id : string) (uuid : string) (now : Z)
| Enable (id : string)
| Disable (id : string)
| Tick (h : nat) (now : Z)
| Stop.

Definition applyOp (st : t) (op : Op) : t :=
  match op with
  | Add s m o u n => snd (add s m o u n st)
  | Remove id => snd (remove id st)
  | Update id u => snd (update id u st)
  | Duplicate id u n => snd (duplicate id u n st)
  | Enable id => snd (enable id st)
  | Disable id => snd (disable id st)
  | Tick h n => snd (tick h n st)
  | Stop => stop st
  end.

End Service.

(** The id an operation draws for a new job is the id of no stored
    job. *)
Definition drawsFreshId (st : t) (op : Op) : bool :=
  match op with
  | Add _ _ _ uuid _ | Duplicate _ uuid _ =>
      negb (List.existsb (String.eqb (JS.slice0 8 uuid)) (ids st))
  | _ => true
  end.

Fixpoint allDrawFresh (validSchedule : string -> bool) (st : t) (ops : list Op) : bool :=
  match ops with
  | [] => true
  | op :: rest =>
      drawsFreshId st op && allDrawFresh validSchedule (applyOp validSchedule st op) rest
  end.

(** Every runner that ticks belongs to a job of the store that is
    enabled. *)
Definition runnersServeEnabledJobs (st : t) : Prop :=
  forall h r, ticking st !! h = Some r ->
    exists job, heap st !! jobRef r = Some job
                /\ In (jobRef r) (jobs st)
                /\ enabled job = true.

(** What the operations keep. The references of the array are distinct
    and name objects; the ids of the jobs are distinct; every runner that
    ticks is the one registered under the id of its job, which is stored
    and enabled; and every registered runner ticks for the job of its
    id. *)
Record sound (st : t) : Prop := mkSound {
  refsLive : forall ref, In ref (jobs st) -> is_Some (heap st !! ref);
  refsBelow : forall ref, is_Some (heap st !! ref) -> (ref < nextRef st)%nat;
  refsDistinct : List.NoDup (jobs st);
  idsDistinct : List.NoDup (ids st);
  tickingServes : forall h r, ticking st !! h = Some r ->
    exists job, heap st !! jobRef r = Some job
                /\ In (jobRef r) (jobs st)
                /\ enabled job = true
                /\ runners st !! jobId job = Some h;
  registeredTicks : forall id h, runners st !! id = Some h ->
    exists r job, ticking st !! h = Some r
                  /\ heap st !! jobRef r = Some job
                  /\ jobId job = id;
  handlesBelow : forall h, is_Some (ticking st !! h) -> (h < nextRunner st)%nat
}.

(** The job object [ref] has a runner: one is registered under the id
    of the job, ticks, and closes over the object. *)
Definition served (st : t) (ref : nat) (job : CronJob) : Prop :=
  exists h r, runners st !! jobId job = Some h
              /\ ticking st !! h = Some r
              /\ jobRef r = ref.

(** Every enabled job of the store whose schedule is accepted has a
    runner. *)
Definition enabledJobsAreServed (validSchedule : string -> bool) (st : t) : Prop :=
  forall ref job, In ref (jobs st) -> heap st !! ref = Some job ->
    enabled job = true -> validSchedule (schedule job) = true ->
    served st ref job.

(** Whether [update] stops the runner of the job and starts a new one:
    [needsReschedule || updates.enabled !== undefined]. *)
Definition reschedules (job : CronJob) (u : Updates) : bool :=
  match newSchedule u with
  | Some s => JS.nonEmpty s && negb (String.eqb s (schedule job))
  | None => false
  end || Routing.isSome (newEnabled u).

Definition isStop (op : Op) : bool :=
  match op with Stop => true | _ => false end.

(** Any expression but the empty one passes, for the examples. *)
Definition anySchedule (s : string) : bool := JS.nonEmpty s.

Definition hourly : CronJob :=
  mkJob "job-a" "0 * * * *" "check the server" true 10 None (Some "telegram") (Some "7")
        None None None.

Definition messageOnly (m : string) : Updates :=
  mkUpdates None (Some m) None None None None None None None.

Definition paused : CronJob :=
  mkJob "job-b" "0 9 * * *" "send the report" false 20 None None None (Some "report")
        None None.

End Cron.

(** ** Announce queues: what happens to them over time *)

Module Debounce.

Import Announce.

(** What happens to the queues: a subagent completes and its result is
    enqueued, a timeout of the event loop fires, or the call a drain
    awaits settles. *)
Inductive Event :=
| Completion (now : Z) (p : AnnounceParams) (f : string)
| Fires (tm : Timer)
| Settles (fl : InFlight).

(** A timeout fires only while it waits in the event loop, and a call
    settles only while a drain awaits it. *)
Definition possible (st : t) (e : Event) : Prop :=
  match e with
  | Completion _ _ _ => True
  | Fires tm => In tm (timers st)
  | Settles fl => In fl (inFlight st)
  end.

Definition happen (duration : nat -> Z) (st : t) (e : Event) : t :=
  match e with
  | Completion now p f => enqueueAnnounce now p f st
  | Fires tm => runPending duration (PTimer tm) st
  | Settles fl => runPending duration (PResume fl) st
  end.

Fixpoint allPossible (duration : nat -> Z) (st : t) (es : list Event) : Prop :=
  match es with
  | [] => True
  | e :: rest => possible st e /\ allPossible duration (happen duration st e) rest
  end.

(** The timeouts waiting for the requester [k]. *)
Definition ofKey (k : string) (l : list Timer) : list Timer :=
  List.filter (fun tm => String.eqb (timerKey tm) k) l.

(** Every requester has at most one timeout waiting, and a timeout that
    waits is the one its queue remembers, which holds items. *)
Definition oneTimerEach (st : t) : Prop :=
  forall k,
    (length (ofKey k (timers st)) <= 1)%nat
    /\ forall tm, In tm (ofKey k (timers st)) ->
         exists q, queues st !! k = Some q
                   /\ debounceTimer q = Some (handle tm)
                   /\ items q <> [].

End Debounce.

(** ** Agent manager: the stored agents and the default one *)

Module Agents.

Record AgentConfig := mkAgent {
  agentId : string;
  name : string;
  description : option string;
  model : string;
  baseUrl : option string;
  systemPrompt : option string;
  createdAt : Z;
  updatedAt : Z
}.

(** The content of [agents.json]. [agents] is an object used as a map
    from agent id to agent. *)
Record AgentStore := mkStore {
  agents : gmap string AgentConfig;
  defaultAgentId : option string
}.

(** The names every object inherits: [store.agents[id]] is truthy for
    them whatever the store holds, so a map describes the object only
    for the other ids. *)
Definition inheritedNames : list string :=
  ["constructor"; "__proto__"; "hasOwnProperty"; "isPrototypeOf"; "propertyIsEnumerable";
   "toLocaleString"; "toString"; "valueOf"; "__defineGetter__"; "__defineSetter__";
   "__lookupGetter__"; "__lookupSetter__"].

Definition plain (id : string) : bool :=
  negb (List.existsb (String.eqb id) inheritedNames).

(** [ensureDirs()]: the store a new manager finds, or writes when there
    is none; [envModel] is [process.env.LLM_MODEL]. *)
Definition ensureDirs (envModel : option string) (created updated : Z)
    (stored : option AgentStore) : AgentStore :=
  match stored with
  | Some store => store
  | None =>
      mkStore {[ "default" := mkAgent "default" "Default Agent" (Some "The default assistant")
                                      (JS.orElse envModel "gpt-4o") None None
                                      created updated ]}
              (Some "default")
  end.

(** The argument of [createAgent]. *)
Record NewAgent := mkNew {
  newName : string;
  newModel : string;
  newDescription : option string;
  newBaseUrl : option string;
  newSystemPrompt : option string
}.

(** [createAgent(config)]; [uuid] is the value of [randomUUID()]. *)
Definition createAgent (config : NewAgent) (uuid : string) (now : Z) (store : AgentStore)
    : AgentConfig * AgentStore :=
  let id := JS.slice0 8 uuid in
  let agent := mkAgent id (newName config) (newDescription config) (newModel config)
                       (newBaseUrl config) (newSystemPrompt config) now now in
  (agent, mkStore (<[id := agent]> (agents store)) (defaultAgentId store)).

(** [getAgent(agentId)] *)
Definition getAgent (id : string) (store : AgentStore) : option AgentConfig :=
  agents store !! id.

(** [getDefaultAgent()] *)
Definition getDefaultAgent (store : AgentStore) : option AgentConfig :=
  match JS.truthyStr (defaultAgentId store) with
  | None => None
  | Some id => agents store !! id
  end.

(** [setDefaultAgent(agentId)] *)
Definition setDefaultAgent (id : string) (store : AgentStore) : bool * AgentStore :=
  match agents store !! id with
  | None => (false, store)
  | Some _ => (true, mkStore (agents store) (Some id))
  end.

(** The fields an update may carry; an [updatedAt] among them is
    overwritten by the time of the update. *)
Record AgentUpdates := mkUpdates {
  setName : option string;
  setDescription : option string;
  setModel : option string;
  setBaseUrl : option string;
  setSystemPrompt : option string
}.

Definition over {A} (new old : option A) : option A :=
  match new with Some v => Some v | None => old end.

(** [updateAgent(agentId, updates)] *)
Definition updateAgent (id : string) (u : AgentUpdates) (now : Z) (store : AgentStore)
    : option AgentConfig * AgentStore :=
  match agents store !! id with
  | None => (None, store)
  | Some agent =>
      let agent' := mkAgent (agentId agent)
                            (default (name agent) (setName u))
                            (over (setDescription u) (description agent))
                            (default (model agent) (setModel u))
                            (over (setBaseUrl u) (baseUrl agent))
                            (over (setSystemPrompt u) (systemPrompt agent))
                            (createdAt agent) now in
      (Some agent', mkStore (<[id := agent']> (agents store)) (defaultAgentId store))
  end.

(** [deleteAgent(agentId)] *)
Definition deleteAgent (id : string) (store : AgentStore) : bool * AgentStore :=
  match agents store !! id with
  | None => (false, store)
  | Some _ =>
      if bool_decide (defaultAgentId store = Some id) then (false, store)
      else (true, mkStore (delete id (agents store)) (defaultAgentId store))
  end.

(** The calls that write the store. *)
Inductive Op :=
| Create (config : NewAgent) (uuid : string) (now : Z)
| SetDefault (id : string)
| Update (id : string) (u : AgentUpdates) (now : Z)
| Delete (id : string).

Definition applyOp (store : AgentStore) (op : Op) : AgentStore :=
  match op with
  | Create config uuid now => snd (createAgent config uuid now store)
  | SetDefault id => snd (setDefaultAgent id store)
  | Update id u now => snd (updateAgent id u now store)
  | Delete id => snd (deleteAgent id store)
  end.

(** The ids of a call are plain, and the id drawn for a new agent is not
    empty. *)
Definition plainCall (op : Op) : bool :=
  match op with
  | Create _ uuid _ => JS.nonEmpty (JS.slice0 8 uuid) && plain (JS.slice0 8 uuid)
  | SetDefault id | Update id _ _ | Delete id => plain id
  end.

(** The gateway's choice of agent when no binding matches,
    [am.getDefaultAgent()?.agentId || 'default']. *)
Definition fallbackAgentId (store : AgentStore) : string :=
  JS.orElse (option_map agentId (getDefaultAgent store)) "default".

(** What the calls keep: every agent is stored under its own id, which is
    not empty, and the default id names a stored agent. *)
Definition kept (store : AgentStore) : Prop :=
  (forall id a, agents store !! id = Some a -> agentId a = id /\ JS.nonEmpty id = true)
  /\ exists id, defaultAgentId store = Some id /\ is_Some (agents store !! id).

Definition researcher : NewAgent :=
  mkNew "Researcher" "gpt-4o-mini" None None (Some "You look things up.").

End Agents.

(** ** Config manager: the providers and the default one *)

Module Providers.

Inductive Format := openai | claude.

Record ProviderConfig := mkProvider {
  id : string;
  name : string;
  baseUrl : string;
  apiKey : string;
  format : Format;
  models : list string;
  isDefault : option bool;
  createdAt : Z;
  updatedAt : Z
}.

(** [ProviderStore]; [providers] is an object used as a map, described
    by a map for plain ids (see [Agents.plain]). *)
Record ProviderStore := mkStore {
  providers : gmap string ProviderConfig;
  defaultProviderId : option string
}.

(** The config file and the defaults. [file] is the [providers] field of
    [config.json], if the file exists and can be read, and if it has the
    field. [shared] is the object [DEFAULT_CONFIG.providers]: a config
    built from the defaults by [{ ...DEFAULT_CONFIG }] shares it, so that
    what is written into such a config stays in the defaults. *)
Record t := mkState {
  file : option (option ProviderStore);
  shared : ProviderStore
}.

(** No config file yet, and the defaults as the module defines them. *)
Definition fresh : t := mkState None (mkStore ∅ None).

(** [load().providers], and whether it is the shared object. *)
Definition load (st : t) : ProviderStore * bool :=
  match file st with
  | Some (Some store) => (store, false)
  | _ => (shared st, true)
  end.

(** [save(config)] for a config with the providers [store]. *)
Definition save (store : ProviderStore) (isShared : bool) (st : t) : t :=
  mkState (Some (Some store)) (if isShared then store else shared st).

(** [getDefaultProvider()] *)
Definition getDefaultProvider (st : t) : option ProviderConfig :=
  let store := fst (load st) in
  match JS.truthyStr (defaultProviderId store) with
  | None => None
  | Some d =>
      match providers store !! d with
      | Some p => Some (mkProvider (id p) (name p) (baseUrl p) (apiKey p) (format p)
                                   (models p) (Some true) (createdAt p) (updatedAt p))
      | None => None
      end
  end.

(** The argument of [addProvider],
    [Omit<ProviderConfig, 'createdAt' | 'updatedAt'>]. *)
Record NewProvider := mkNew {
  newId : string;
  newName : string;
  newBaseUrl : string;
  newApiKey : string;
  newFormat : Format;
  newModels : list string;
  newIsDefault : option bool
}.

(** [addProvider(provider)] *)
Definition addProvider (provider : NewProvider) (now : Z) (st : t) : ProviderConfig * t :=
  let '(store, isShared) := load st in
  let newProvider :=
    mkProvider (newId provider) (newName provider) (newBaseUrl provider)
               (newApiKey provider) (newFormat provider) (newModels provider)
               (newIsDefault provider) now now in
  if (size (<[newId provider := newProvider]> (providers store)) =? 1)%nat
  then
    let first := mkProvider (newId provider) (newName provider) (newBaseUrl provider)
                            (newApiKey provider) (newFormat provider) (newModels provider)
                            (Some true) now now in
    (first, save (mkStore (<[newId provider := first]> (providers store))
                          (Some (newId provider))) isShared st)
  else
    (newProvider, save (mkStore (<[newId provider := newProvider]> (providers store))
                                (defaultProviderId store)) isShared st).

(** [Partial<ProviderConfig>]; an [updatedAt] among the updates is
    overwritten by the time of the update. *)
Record ProviderUpdates := mkUpdates {
  setId : option string;
  setName : option string;
  setBaseUrl : option string;
  setApiKey : option string;
  setFormat : option Format;
  setModels : option (list string);
  setIsDefault : option bool;
  setCreatedAt : option Z
}.

(** [updateProvider(id, updates)] *)
Definition updateProvider (key : string) (u : ProviderUpdates) (now : Z) (st : t)
    : option ProviderConfig * t :=
  let '(store, isShared) := load st in
  match providers store !! key with
  | None => (None, st)
  | Some p =>
      let p' := mkProvider (default (id p) (setId u))
                           (default (name p) (setName u))
                           (default (baseUrl p) (setBaseUrl u))
                           (default (apiKey p) (setApiKey u))
                           (default (format p) (setFormat u))
                           (default (models p) (setModels u))
                           (match setIsDefault u with Some b => Some b | None => isDefault p end)
                           (default (createdAt p) (setCreatedAt u))
                           now in
      (Some p', save (mkStore (<[key := p']> (providers store)) (defaultProviderId store))
                     isShared st)
  end.

(** [deleteProvider(id)] *)
Definition deleteProvider (key : string) (st : t) : bool * t :=
  let '(store, isShared) := load st in
  match providers store !! key with
  | None => (false, st)
  | Some _ =>
      if bool_decide (defaultProviderId store = Some key) then (false, st)
      else (true, save (mkStore (delete key (providers store)) (defaultProviderId store))
                       isShared st)
  end.

(** [setDefaultProvider(id)] *)
Definition setDefaultProvider (key : string) (st : t) : bool * t :=
  let '(store, isShared) := load st in
  match providers store !! key with
  | None => (false, st)
  | Some _ => (true, save (mkStore (providers store) (Some key)) isShared st)
  end.

(** The provider of [init(options)]. *)
Record InitProvider := mkInit {
  initName : string;
  initBaseUrl : string;
  initApiKey : string;
  initFormat : Format;
  initModels : list string
}.

(** [init(options)]: the config is built from the defaults whatever the
    file holds. *)
Definition init (provider : option InitProvider) (now : Z) (st : t) : t :=
  match provider with
  | Some o =>
      save (mkStore (<["default" := mkProvider "default" (initName o) (initBaseUrl o)
                                               (initApiKey o) (initFormat o) (initModels o)
                                               (Some true) now now]>
                       (providers (shared st)))
                    (Some "default"))
           true st
  | None => save (shared st) true st
  end.

(** The calls that write the config. *)
Inductive Op :=
| Add (provider : NewProvider) (now : Z)
| Update (key : string) (u : ProviderUpdates) (now : Z)
| Delete (key : string)
| SetDefault (key : string)
| Init (provider : option InitProvider) (now : Z).

Definition applyOp (st : t) (op : Op) : t :=
  match op with
  | Add provider now => snd (addProvider provider now st)
  | Update key u now => snd (updateProvider key u now st)
  | Delete key => snd (deleteProvider key st)
  | SetDefault key => snd (setDefaultProvider key st)
  | Init provider now => init provider now st
  end.

(** The ids of a call are plain, and a provider is added under an id that
    is not empty. *)
Definition plainCall (op : Op) : bool :=
  match op with
  | Add provider _ => JS.nonEmpty (newId provider) && Agents.plain (newId provider)
  | Update key _ _ | Delete key | SetDefault key => Agents.plain key
  | Init _ _ => true
  end.

(** What the calls keep of a store: the ids are not empty, and a store
    that holds a provider names a stored one as the default. *)
Definition kept (store : ProviderStore) : Prop :=
  (forall key p, providers store !! key = Some p -> JS.nonEmpty key = true)
  /\ (providers store <> ∅ ->
      exists d, defaultProviderId store = Some d /\ is_Some (providers store !! d)).

Definition keptAll (st : t) : Prop :=
  kept (shared st) /\ forall store, file st = Some (Some store) -> kept store.

Definition local : NewProvider :=
  mkNew "a1b2c3d4" "Local" "http://localhost:11434/v1" "none" openai ["llama3"] None.

Definition hosted : NewProvider :=
  mkNew "e5f6a7b8" "Hosted" "https://api.example.com/v1" "sk-1" claude ["claude-3"] None.

End Providers.

(** ** Followup queue *)

Module Followup.

Import Gateway.

Inductive QueueMode := steer | collect.

Record QueuedMessage := mkQueued {
  qId : string;
  qSessionKey : string;
  qText : string;
  qTimestamp : Z;
  qChannel : string
}.

(** [FollowupQueue]; [steerCallback] tells whether [onSteer] has set
    one. *)
Record t := mkQueue {
  queues : gmap string (list QueuedMessage);
  mode : QueueMode;
  steerCallback : bool
}.

(** [new FollowupQueue()] *)
Definition create : t := mkQueue ∅ steer false.

Definition setMode (m : QueueMode) (q : t) : t := mkQueue (queues q) m (steerCallback q).

Definition onSteer (q : t) : t := mkQueue (queues q) (mode q) true.

Definition queuedOf (msg : Message) : QueuedMessage :=
  mkQueued (id msg) (sessionKey msg) (text msg) (timestamp msg) (channel msg).

(** [enqueue(msg)]: the queue afterwards, and the call made on the steer
    callback, if any. *)
Definition enqueue (msg : Message) (q : t) : t * option (string * QueuedMessage) :=
  match mode q with
  | steer =>
      (q, if steerCallback q then Some (sessionKey msg, queuedOf msg) else None)
  | collect =>
      (mkQueue (<[sessionKey msg :=
                    (default [] (queues q !! sessionKey msg) ++ [queuedOf msg])%list]>
                  (queues q))
               (mode q) (steerCallback q),
       None)
  end.

(** [drain(sessionKey)] *)
Definition drain (k : string) (q : t) : list QueuedMessage * t :=
  (default [] (queues q !! k), mkQueue (delete k (queues q)) (mode q) (steerCallback q)).

(** [peek(sessionKey)] *)
Definition peek (k : string) (q : t) : list QueuedMessage :=
  default [] (queues q !! k).

(** [clear(sessionKey)] *)
Definition clear (k : string) (q : t) : t :=
  mkQueue (delete k (queues q)) (mode q) (steerCallback q).

Definition enqueueAll (msgs : list Message) (q : t) : t :=
  List.fold_left (fun q msg => fst (enqueue msg q)) msgs q.

(** The messages of [msgs] for the session [k], as queued. *)
Definition forSession (k : string) (msgs : list Message) : list QueuedMessage :=
  List.map queuedOf (List.filter (fun msg => String.eqb (sessionKey msg) k) msgs).

End Followup.

(** ** Skills prompt: escaping *)

Module Xml.

(** [str.replace(/c/g, by)] for a pattern of one character. *)
Fixpoint replaceAll (c : ascii) (replacement : string) (s : string) : string :=
  match s with
  | EmptyString => EmptyString
  | String x s' =>
      (if Ascii.eqb x c then replacement else String x EmptyString)
      ++ replaceAll c replacement s'
  end.

(** [escapeXml(str)], as its five passes. *)
Definition escapeXml (str : string) : string :=
  replaceAll "'" "&apos;"
    (replaceAll (ascii_of_nat 34) "&quot;"
       (replaceAll ">" "&gt;"
          (replaceAll "<" "&lt;"
             (replaceAll "&" "&amp;" str)))).

(** The characters that open or close a tag or an attribute value. *)
Definition markup (c : ascii) : bool :=
  Ascii.eqb c "<" || Ascii.eqb c ">" || Ascii.eqb c (ascii_of_nat 34) || Ascii.eqb c "'".

End Xml.

(** ** WebSocket channel: who receives a reply *)

Module WebSocket.

Import Gateway.

Inductive ReadyState := OPEN | CLOSING | CLOSED.

(** A connection: the variables of the ['connection'] callback, the
    state of the socket, and whether its ['close'] handler has run. *)
Record Connection := mkConnection {
  clientId : string;
  subscribedKeys : gset string;
  currentKey : string;
  readyState : ReadyState;
  closeHandled : bool
}.

(** The channel: the map [clients] from session key to socket, here the
    number of the connection, and the connections made so far. *)
Record t := mkChannel {
  clients : gmap string nat;
  connections : gmap nat Connection;
  nextConnection : nat
}.

Definition create : t := mkChannel ∅ ∅ 0%nat.

(** What a socket sends in, as the ['message'] handler reads it after
    [JSON.parse]. *)
Inductive Incoming :=
| SwitchSession (sessionKey : string)
| UserMessage (text : string) (sessionId agentId : option string)
| Other.

(** The ['connection'] callback; [uuid] is the value of [uuid()]. *)
Definition connect (uuid : string) (st : t) : t :=
  let n := nextConnection st in
  mkChannel (<[uuid := n]> (clients st))
            (<[n := mkConnection uuid {[ uuid ]} uuid OPEN false]> (connections st))
            (S n).

(** The ['message'] handler of the connection [n]: the channel
    afterwards and the message handed to the message handler, if any;
    [uuid] and [now] are the values of [uuid()] and [Date.now()]. *)
Definition receive (n : nat) (data : Incoming) (uuid : string) (now : Z) (st : t)
    : t * option Message :=
  match connections st !! n with
  | None => (st, None)
  | Some c =>
      match data with
      | SwitchSession key =>
          if JS.nonEmpty key
          then (mkChannel (<[key := n]> (clients st))
                          (<[n := mkConnection (clientId c) ({[ key ]} ∪ subscribedKeys c) key
                                               (readyState c) (closeHandled c)]>
                             (connections st))
                          (nextConnection st),
                None)
          else (st, None)
      | UserMessage text sessionId agentId =>
          if JS.nonEmpty text
          then (st, Some (mkMessage uuid "websocket" (clientId c) text now (currentKey c)
                                    sessionId agentId))
          else (st, None)
      | Other => (st, None)
      end
  end.

(** The socket of the connection [n] starts to close. *)
Definition closing (n : nat) (st : t) : t :=
  match connections st !! n with
  | None => st
  | Some c =>
      mkChannel (clients st)
                (<[n := mkConnection (clientId c) (subscribedKeys c) (currentKey c) CLOSING
                                     (closeHandled c)]> (connections st))
                (nextConnection st)
  end.

(** The ['close'] handler of the connection [n]. *)
Definition close (n : nat) (st : t) : t :=
  match connections st !! n with
  | None => st
  | Some c =>
      mkChannel (filter (fun kv => fst kv ∉ subscribedKeys c) (clients st))
                (<[n := mkConnection (clientId c) (subscribedKeys c) (currentKey c) CLOSED
                                     true]> (connections st))
                (nextConnection st)
  end.

(** [stop()] *)
Definition stop (st : t) : t := mkChannel ∅ (connections st) (nextConnection st).

Definition isOpen (st : t) (n : nat) : bool :=
  match connections st !! n with
  | Some c => match readyState c with OPEN => true | _ => false end
  | None => false
  end.

(** [send(sessionKey, reply)]: the connections the reply is sent to, one
    entry for each frame, in no particular order. *)
Definition send (sessionKey : string) (st : t) : list nat :=
  match clients st !! sessionKey with
  | Some n =>
      if isOpen st n then [n]
      else if String.eqb sessionKey "broadcast"
           then List.filter (isOpen st) (List.map snd (map_to_list (clients st)))
           else []
  | None =>
      if String.eqb sessionKey "broadcast"
      then List.filter (isOpen st) (List.map snd (map_to_list (clients st)))
      else []
  end.

(** What happens to the channel. *)
Inductive Event :=
| Connects (uuid : string)
| Receives (n : nat) (data : Incoming) (uuid : string) (now : Z)
| StartsClosing (n : nat)
| Closes (n : nat)
| Stops.

(** A socket sends data in and closes only before its ['close'] handler
    has run. *)
Definition possible (st : t) (e : Event) : bool :=
  match e with
  | Receives n _ _ _ | StartsClosing n | Closes n =>
      match connections st !! n with
      | Some c => negb (closeHandled c)
      | None => false
      end
  | Connects _ | Stops => true
  end.

Definition happen (st : t) (e : Event) : t :=
  match e with
  | Connects uuid => connect uuid st
  | Receives n data uuid now => fst (receive n data uuid now st)
  | StartsClosing n => closing n st
  | Closes n => close n st
  | Stops => stop st
  end.

Fixpoint allPossible (st : t) (es : list Event) : bool :=
  match es with
  | [] => true
  | e :: rest => possible st e && allPossible (happen st e) rest
  end.

(** Every entry of [clients] names a connection whose ['close'] handler
    has not run and which has subscribed to the key. *)
Definition subscribersOnly (st : t) : Prop :=
  (forall k n, clients st !! k = Some n ->
     exists c, connections st !! n = Some c
               /\ k ∈ subscribedKeys c /\ closeHandled c = false)
  /\ forall n, is_Some (connections st !! n) -> (n < nextConnection st)%nat.

End WebSocket.

(** ** Model client: reading an OpenAI stream *)

Module Stream.

Import Tools LLM.

(** What the loop reads of one element of [delta.tool_calls]. *)
Record ToolCallDelta := mkToolDelta {
  tcIndex : option Z;
  tcId : option string;
  tcName : option string;
  tcArguments : option string
}.

(** What the loop reads of one parsed line: [finish_reason],
    [delta.content] and the elements of [delta.tool_calls] it gets
    through before anything throws. *)
Record Delta := mkDelta {
  finish : option string;
  deltaContent : option string;
  deltaToolCalls : list ToolCallDelta
}.

Record Buffer := mkBuffer {
  bufId : string;
  bufName : string;
  bufArgs : string
}.

(** The variables of [parseOpenAIStream]: [content], the map
    [toolCallBuffers] in the order its keys were set, [finishReason], and
    the calls made on the stream callbacks so far. *)
Record Acc := mkAcc {
  accContent : string;
  buffers : list (Z * Buffer);
  accFinish : string;
  reported : list StreamEvent
}.

Definition start : Acc := mkAcc "" [] "" [].

Definition has (idx : Z) (l : list (Z * Buffer)) : bool :=
  List.existsb (fun kv => fst kv =? idx) l.

(** Change the buffer of [idx] in place. *)
Fixpoint update (idx : Z) (f : Buffer -> Buffer) (l : list (Z * Buffer)) : list (Z * Buffer) :=
  match l with
  | [] => []
  | (k, buf) :: rest =>
      if k =? idx then (k, f buf) :: rest else (k, buf) :: update idx f rest
  end.

Definition orKeep (new : option string) (old : string) : string :=
  match JS.truthyStr new with Some v => v | None => old end.

(** The body of the loop over [delta.tool_calls]. *)
Definition applyToolDelta (bufs : list (Z * Buffer)) (tc : ToolCallDelta) : list (Z * Buffer) :=
  let idx := default 0 (tcIndex tc) in
  let bufs1 :=
    if has idx bufs then bufs
    else (bufs ++ [(idx, mkBuffer (JS.orElse (tcId tc) "") "" "")])%list in
  update idx
         (fun buf => mkBuffer (orKeep (tcId tc) (bufId buf))
                              (orKeep (tcName tc) (bufName buf))
                              (bufArgs buf ++ orKeep (tcArguments tc) ""))
         bufs1.

Definition lf : ascii := ascii_of_nat 10.

(** [chunk.split('\n').filter(l => l.startsWith('data: '))], each line
    without its first six characters. *)
Definition dataLines (chunk : string) : list string :=
  List.map (Str.sliceFrom 6) (List.filter (String.prefix "data: ") (Str.split lf chunk)).

Section Parse.

(** [JSON.parse(data)] and what the loop reads of the result; [None]
    when nothing is read before something throws. *)
Variable parse : string -> option Delta.

(** [JSON.parse] of the arguments of a tool call. *)
Variable parseArgs : string -> option Json.

(** One line of data. *)
Definition onData (acc : Acc) (data : string) : Acc :=
  if String.eqb data "[DONE]" then acc
  else
    match parse data with
    | None => acc
    | Some d =>
        let finishReason := orKeep (finish d) (accFinish acc) in
        let '(content, events) :=
          match JS.truthyStr (deltaContent d) with
          | Some text => (accContent acc ++ text, (reported acc ++ [Chunk text])%list)
          | None => (accContent acc, reported acc)
          end in
        mkAcc content (List.fold_left applyToolDelta (deltaToolCalls d) (buffers acc))
              finishReason events
    end.

(** One read of the body. *)
Definition onRead (acc : Acc) (chunk : string) : Acc :=
  List.fold_left onData (dataLines chunk) acc.

(** The loop over the buffers once the body has ended. *)
Definition assemble (bufs : list (Z * Buffer)) : list ToolCall :=
  omap (fun kv =>
          let buf := snd kv in
          if JS.nonEmpty (bufName buf)
          then match parseArgs (if JS.nonEmpty (bufArgs buf) then bufArgs buf else "{}") with
               | Some input => Some (mkCall (bufId buf) (bufName buf) input)
               | None => None
               end
          else None)
       bufs.

(** [parseOpenAIStream(response, callbacks)] for a body that arrives in
    the given reads: the response, and the calls made on the callbacks. *)
Definition parseOpenAIStream (reads : list string) : LLMResponse * list StreamEvent :=
  let acc := List.fold_left onRead reads start in
  let calls := assemble (buffers acc) in
  (mkResponse (accContent acc) calls (accFinish acc),
   (reported acc
    ++ List.map (fun c => ToolCallAssembled (callName c) (input c)) calls)%list).

End Parse.

(** The texts handed to [onChunk], in order. *)
Definition chunksOf (events : list StreamEvent) : list string :=
  omap (fun e => match e with Chunk text => Some text | _ => None end) events.

(** The tool calls handed to [onToolCall], in order. *)
Definition callsOf (events : list StreamEvent) : list (string * Json) :=
  omap (fun e => match e with ToolCallAssembled n i => Some (n, i) | _ => None end) events.

(** What holds of the variables of the loop: only chunks have been
    reported, none of them empty, and [content] is what they add up
    to. *)
Definition streamed (acc : Acc) : Prop :=
  exists texts,
    reported acc = List.map Chunk texts
    /\ accContent acc = String.concat "" texts
    /\ List.Forall (fun text => JS.nonEmpty text = true) texts.

(** A read that ends with a line end. *)
Definition wholeLines (read : string) : Prop :=
  exists body, read = body ++ String lf "".

(** A line parser for the examples: the data is the text of the
    delta. *)
Definition textOnly (data : string) : option Delta :=
  Some (mkDelta None (Some data) []).

End Stream.

(** ** Subagent registry: records and the sweeper *)

Module Lifecycle.

Import Subagent.

(** [restore()], called by the constructor: [content] is what
    [registry.json] holds, if it exists and can be read. *)
Definition restore (content : option (gmap string SubagentRunRecord)) : Registry :=
  match content with
  | None => emptyRegistry
  | Some data =>
      mkRegistry data
                 (List.existsb (fun kv => JS.truthyNum (archiveAtMs (snd kv)))
                               (map_to_list data))
  end.

(** [delete(runId)] *)
Definition delete (id : string) (reg : Registry) : bool * Registry :=
  match runs reg !! id with
  | Some _ => (true, mkRegistry (base.delete id (runs reg)) (sweeper reg))
  | None => (false, reg)
  end.

(** What is done to the registry; [Sweeps] is a run of the interval. *)
Inductive Op :=
| Registers (now : Z) (p : RegisterParams)
| Starts (now : Z) (id : string)
| Completes (now : Z) (id : string) (o : SubagentOutcome)
| Finalizes (now : Z) (id : string) (didAnnounce : bool)
| Deletes (id : string)
| Sweeps (now : Z).

Definition applyOp (reg : Registry) (op : Op) : Registry :=
  match op with
  | Registers now p => register now p reg
  | Starts now id => markStarted now id reg
  | Completes now id o => markCompleted now id o reg
  | Finalizes now id b => finalizeCleanup now id b reg
  | Deletes id => snd (delete id reg)
  | Sweeps now => sweep now reg
  end.

(** Every record with an archive time has the sweeper set. *)
Definition swept (reg : Registry) : Prop :=
  forall id r, runs reg !! id = Some r -> JS.truthyNum (archiveAtMs r) = true ->
               sweeper reg = true.

Definition research : RegisterParams :=
  mkRegister "run-1" "subagent:run-1" "websocket:abc" "look it up" None Announce.CleanupKeep
             None.

End Lifecycle.

(** * Properties *)

(** ** Routing *)

Module RoutingFacts.

Import Routing.

Lemma insertSorted_perm (x : Binding) (l : list Binding) :
  Permutation (JS.insertSorted byPriority x l) (x :: l).
Proof.
  induction l as [|y l IH]; simpl; [reflexivity|].
  destruct (byPriority x y <=? 0); [reflexivity|].
  rewrite IH. apply perm_swap.
Qed.

Lemma listBindings_perm (store : list Binding) :
  Permutation (listBindings store) store.
Proof.
  unfold listBindings. induction store as [|x l IH]; simpl; [reflexivity|].
  rewrite insertSorted_perm. now constructor.
Qed.

Lemma insertSorted_sorted (x : Binding) (l : list Binding) :
  StronglySorted ascending l -> StronglySorted ascending (JS.insertSorted byPriority x l).
Proof.
  induction 1 as [|y l Hs IH Hall]; simpl.
  - repeat constructor.
  - destruct (Z.leb_spec (byPriority x y) 0) as [Hle|Hgt].
    + constructor; [now constructor|].
      unfold byPriority in Hle. constructor; [unfold ascending; lia|].
      eapply List.Forall_impl; [|exact Hall]. unfold ascending. intros; lia.
    + constructor; [exact IH|].
      eapply Permutation_Forall; [symmetry; apply insertSorted_perm|].
      constructor; [|exact Hall]. unfold byPriority in Hgt. unfold ascending. lia.
Qed.

Lemma listBindings_sorted (store : list Binding) :
  StronglySorted ascending (listBindings store).
Proof.
  unfold listBindings. induction store as [|x l IH]; simpl; [constructor|].
  now apply insertSorted_sorted.
Qed.

(** Stability: bindings of one priority keep their stored order. *)
Lemma insertSorted_stable (k : Z) (x : Binding) (l : list Binding) :
  StronglySorted ascending l ->
  List.filter (fun b => effPriority b =? k) (JS.insertSorted byPriority x l)
  = List.filter (fun b => effPriority b =? k) (x :: l).
Proof.
  induction 1 as [|y l Hs IH Hall]; [reflexivity|].
  cbn [JS.insertSorted].
  destruct (Z.leb_spec (byPriority x y) 0) as [Hle|Hgt]; [reflexivity|].
  cbn [List.filter] in *. rewrite IH.
  unfold byPriority in Hgt.
  destruct (Z.eqb_spec (effPriority y) k), (Z.eqb_spec (effPriority x) k);
    try reflexivity; lia.
Qed.

Lemma listBindings_stable (k : Z) (store : list Binding) :
  List.filter (fun b => effPriority b =? k) (listBindings store)
  = List.filter (fun b => effPriority b =? k) store.
Proof.
  unfold listBindings. induction store as [|x l IH]; [reflexivity|].
  cbn [JS.sort].
  rewrite insertSorted_stable by apply listBindings_sorted.
  cbn [List.filter]. now rewrite IH.
Qed.

(** The first hit of [find] in a sorted list has the least priority among
    the hits. *)
Lemma find_sorted_least (p : Binding -> bool) (l : list Binding) (c b : Binding) :
  StronglySorted ascending l -> List.find p l = Some c -> In b l -> p b = true ->
  effPriority c <= effPriority b.
Proof.
  induction 1 as [|y l Hs IH Hall]; simpl; [easy|].
  intros Hfind Hin Hp. destruct (p y) eqn:Hy.
  - injection Hfind as <-. destruct Hin as [->|Hin]; [lia|].
    rewrite List.Forall_forall in Hall. now apply Hall.
  - destruct Hin as [->|Hin]; [congruence|]. now apply IH.
Qed.

Lemma find_insertSorted (p : Binding -> bool) (x : Binding) (l : list Binding) :
  StronglySorted ascending l ->
  List.find p (JS.insertSorted byPriority x l)
  = if p x then
      match List.find p l with
      | None => Some x
      | Some c => if effPriority x <=? effPriority c then Some x else Some c
      end
    else List.find p l.
Proof.
  induction 1 as [|y l Hs IH Hall]; simpl.
  - now destruct (p x).
  - destruct (Z.leb_spec (byPriority x y) 0) as [Hle|Hgt]; unfold byPriority in *.
    + simpl. destruct (p x) eqn:Hx; [|reflexivity].
      destruct (p y) eqn:Hy.
      * destruct (Z.leb_spec (effPriority x) (effPriority y)); [reflexivity|lia].
      * destruct (List.find p l) as [c|] eqn:Hc; [|reflexivity].
        apply find_some in Hc as [Hin _]. rewrite List.Forall_forall in Hall.
        specialize (Hall c Hin). unfold ascending in Hall.
        destruct (Z.leb_spec (effPriority x) (effPriority c)); [reflexivity|lia].
    + simpl. destruct (p y) eqn:Hy.
      * destruct (p x); [|reflexivity].
        destruct (Z.leb_spec (effPriority x) (effPriority y)); [lia|reflexivity].
      * exact IH.
Qed.

(** [find] on the sorted list picks the lowest priority number, the
    earliest stored among equals. *)
Lemma find_listBindings (p : Binding -> bool) (store : list Binding) :
  List.find p (listBindings store) = lowest (List.filter p store).
Proof.
  induction store as [|x l IH]; [reflexivity|].
  change (listBindings (x :: l)) with (JS.insertSorted byPriority x (listBindings l)).
  rewrite find_insertSorted by apply listBindings_sorted.
  rewrite IH. simpl. destruct (p x); reflexivity.
Qed.

Lemma find_filter (p q : Binding -> bool) (l : list Binding) :
  List.find p (List.filter q l) = List.find (fun b => q b && p b) l.
Proof.
  induction l as [|y l IH]; [reflexivity|]. simpl.
  destruct (q y); simpl; [destruct (p y); auto|exact IH].
Qed.

Lemma tier_find (input : RouteInput) (p : Binding -> bool) (store : list Binding) :
  List.find p (List.filter (fun b => String.eqb (channel (match_ b)) (channel input))
                           (listBindings store))
  = lowest (List.filter (fun b => sameChannel input b && p b) store).
Proof. rewrite find_filter. apply find_listBindings. Qed.

Lemma lowest_filter_false (store : list Binding) (q : Binding -> bool) :
  (forall b, q b = false) -> lowest (List.filter q store) = None.
Proof.
  intros H. induction store as [|x l IH]; [reflexivity|]. simpl. now rewrite H.
Qed.

Lemma filter_ext_tier (store : list Binding) (q r : Binding -> bool) :
  (forall b, q b = r b) -> List.filter q store = List.filter r store.
Proof. intros H. apply List.filter_ext. exact H. Qed.

Lemma tierWinner_guarded {A} (input : RouteInput) (t : MatchedBy) (guard : option A)
    (pred : A -> Binding -> bool) (store : list Binding) :
  (forall b, tierQualifies input t b
             = sameChannel input b && match guard with Some a => pred a b | None => false end) ->
  findIf guard pred
    (List.filter (fun b => String.eqb (channel (match_ b)) (channel input)) (listBindings store))
  = tierWinner store input t.
Proof.
  intros H. unfold tierWinner. rewrite (filter_ext_tier _ _ _ H).
  destruct guard as [a|]; simpl.
  - apply tier_find.
  - symmetry. apply lowest_filter_false. intros b. apply andb_false_r.
Qed.

(** C7: [resolveRoute] returns what the tier rule of the specification
    prescribes: the tiers peer, guild, team, account and channel default
    are tried in this order among the bindings of the channel of the input,
    the winner of a tier is its binding with the lowest priority number
    (an absent priority counting as 100), the earliest stored among equal
    numbers, and without any winner the default agent is returned with
    [matchedBy = default]. *)
Theorem C7_resolveRoute_follows_tier_order :
  forall (store : list Binding) (input : RouteInput) (defaultAgentId : string),
    resolveRoute store input defaultAgentId = resolveSpec store input defaultAgentId.
Proof.
  intros store input d. unfold resolveRoute, resolveSpec, firstTier.
  rewrite (tierWinner_guarded input ByPeer (peer input) peerPred) by reflexivity.
  rewrite (tierWinner_guarded input ByGuild (JS.truthyStr (guildId input)) guildPred)
    by reflexivity.
  rewrite (tierWinner_guarded input ByTeam (JS.truthyStr (teamId input)) teamPred)
    by reflexivity.
  rewrite (tierWinner_guarded input ByAccount (JS.truthyStr (accountId input)) accountPred)
    by reflexivity.
  rewrite tier_find.
  change (lowest (List.filter (fun b => sameChannel input b && channelPred b) store))
    with (tierWinner store input ByChannel).
  destruct (tierWinner store input ByPeer); [reflexivity|].
  destruct (tierWinner store input ByGuild); [reflexivity|].
  destruct (tierWinner store input ByTeam); [reflexivity|].
  destruct (tierWinner store input ByAccount); [reflexivity|].
  destruct (tierWinner store input ByChannel); reflexivity.
Qed.

(** [resolveRoute] written as the tier rule. *)
Lemma resolveRoute_firstTier (store : list Binding) (input : RouteInput) (d : string) :
  resolveRoute store input d
  = firstTier store input [ByPeer; ByGuild; ByTeam; ByAccount; ByChannel] d.
Proof.
  unfold resolveRoute, firstTier.
  rewrite (tierWinner_guarded input ByPeer (peer input) peerPred) by reflexivity.
  rewrite (tierWinner_guarded input ByGuild (JS.truthyStr (guildId input)) guildPred)
    by reflexivity.
  rewrite (tierWinner_guarded input ByTeam (JS.truthyStr (teamId input)) teamPred)
    by reflexivity.
  rewrite (tierWinner_guarded input ByAccount (JS.truthyStr (accountId input)) accountPred)
    by reflexivity.
  rewrite tier_find.
  change (lowest (List.filter (fun b => sameChannel input b && channelPred b) store))
    with (tierWinner store input ByChannel).
  destruct (tierWinner store input ByPeer); [reflexivity|].
  destruct (tierWinner store input ByGuild); [reflexivity|].
  destruct (tierWinner store input ByTeam); [reflexivity|].
  destruct (tierWinner store input ByAccount); [reflexivity|].
  destruct (tierWinner store input ByChannel); reflexivity.
Qed.

(** [lowest] returns an element of the list with the least number. *)
Lemma lowest_least (l : list Binding) (w : Binding) :
  lowest l = Some w -> In w l /\ forall b, In b l -> effPriority w <= effPriority b.
Proof.
  revert w. induction l as [|x l IH]; [discriminate|]. intros w. cbn [lowest].
  destruct (lowest l) as [c|] eqn:Hc.
  - destruct (IH c eq_refl) as [Hin Hmin].
    destruct (Z.leb_spec (effPriority x) (effPriority c)) as [Hle|Hgt]; intros [= <-].
    + split; [now left|]. intros b [<-|Hb]; [lia|]. specialize (Hmin b Hb). lia.
    + split; [now right|]. intros b [<-|Hb]; [lia|]. now apply Hmin.
  - intros [= <-]. split; [now left|]. intros b [<-|Hb]; [lia|].
    destruct l as [|y l']; [destruct Hb|]. cbn [lowest] in Hc.
    destruct (lowest l'); [destruct (_ <=? _)|]; discriminate.
Qed.

Lemma lowest_found (l : list Binding) (b : Binding) :
  In b l -> exists w, lowest l = Some w.
Proof.
  destruct l as [|x l]; [intros []|]. intros _. cbn [lowest].
  destruct (lowest l); [destruct (_ <=? _)|]; eauto.
Qed.

(** The winner of a tier: a stored binding that qualifies, with the
    least number among those that qualify. *)
Lemma tierWinner_least (store : list Binding) (input : RouteInput) (t : MatchedBy)
    (b : Binding) :
  In b store -> tierQualifies input t b = true ->
  exists w,
    tierWinner store input t = Some w
    /\ In w store /\ tierQualifies input t w = true
    /\ effPriority w <= effPriority b.
Proof.
  intros Hin Hq. unfold tierWinner.
  assert (Hb : In b (List.filter (tierQualifies input t) store))
    by (apply List.filter_In; now split).
  destruct (lowest_found _ _ Hb) as [w Hw]. exists w. split; [exact Hw|].
  destruct (lowest_least _ _ Hw) as [Hwin Hmin].
  apply List.filter_In in Hwin as [Hws Hwq]. repeat split; auto.
Qed.

Lemma tierWinner_none (store : list Binding) (input : RouteInput) (t : MatchedBy) :
  (forall c, In c store -> tierQualifies input t c = false) ->
  tierWinner store input t = None.
Proof.
  intros H. unfold tierWinner.
  induction store as [|x l IH]; [reflexivity|]. cbn [List.filter].
  rewrite (H x) by now left. apply IH. intros c Hc. apply H. now right.
Qed.

(** The tier rule answers with the winner of the tier it names. *)
Lemma firstTier_winner (store : list Binding) (input : RouteInput) (tiers : list MatchedBy)
    (d : string) (w : Binding) :
  binding (firstTier store input tiers d) = Some w ->
  tierWinner store input (matchedBy (firstTier store input tiers d)) = Some w.
Proof.
  induction tiers as [|t tiers IH]; cbn [firstTier]; [discriminate|].
  destruct (tierWinner store input t) as [c|] eqn:Hc; [|exact IH].
  cbn [hit binding matchedBy]. intros [= <-]. exact Hc.
Qed.

(** C10: a binding without a priority is ordered as if its priority were
    100. [listBindings] returns the stored bindings sorted ascending by
    [priority ?? 100], bindings of equal number in their stored order.
    Hence in routing: when a stored binding [b] qualifies in a tier and no
    stored binding qualifies in a tier tried before it, [resolveRoute]
    answers from that tier with a stored binding [w] that qualifies in it
    and whose number, 100 if absent, is at most that of [b]; so if [b] has
    a number below 100 the winner is not a binding without a number, and if
    [b] has no number the winner is not a binding with a number above
    100. And whatever binding [resolveRoute] answers with, it is a stored
    binding that qualifies in the tier named by [matchedBy] and has the
    least number, 100 if absent, among the stored bindings that qualify in
    that tier. *)
Theorem C10_absent_priority_counts_as_100 :
  forall (store : list Binding),
    Permutation (listBindings store) store
    /\ StronglySorted ascending (listBindings store)
    /\ (forall k : Z,
          List.filter (fun b => effPriority b =? k) (listBindings store)
          = List.filter (fun b => effPriority b =? k) store)
    /\ (forall b : Binding, priority b = None -> effPriority b = 100)
    /\ (forall (input : RouteInput) (defaultAgentId : string) (t : MatchedBy) (b : Binding),
          In b store -> tierQualifies input t b = true -> nothingBefore store input t ->
          exists w,
            resolveRoute store input defaultAgentId = mkResult (agentId w) t (Some w)
            /\ In w store /\ tierQualifies input t w = true
            /\ effPriority w <= effPriority b
            /\ (forall n, priority b = Some n -> n < 100 -> priority w <> None)
            /\ (priority b = None -> forall m, priority w = Some m -> m <= 100))
    /\ (forall (input : RouteInput) (defaultAgentId : string) (w : Binding),
          let route := resolveRoute store input defaultAgentId in
          binding route = Some w ->
          In w store /\ tierQualifies input (matchedBy route) w = true
          /\ forall b, In b store -> tierQualifies input (matchedBy route) b = true ->
                       effPriority w <= effPriority b).
Proof.
  intros store.
  split; [apply listBindings_perm|].
  split; [apply listBindings_sorted|].
  split; [intros k; apply listBindings_stable|].
  split; [intros b Hb; unfold effPriority; now rewrite Hb|].
  split.
  2: { intros input d w route Hw. subst route. rewrite resolveRoute_firstTier in *.
       apply firstTier_winner in Hw.
       set (t := matchedBy (firstTier store input [ByPeer; ByGuild; ByTeam; ByAccount; ByChannel] d))
         in *.
       unfold tierWinner in Hw. destruct (lowest_least _ _ Hw) as [Hin Hmin].
       apply List.filter_In in Hin as [Hws Hwq]. split; [exact Hws|]. split; [exact Hwq|].
       intros b Hb Hq. apply Hmin. apply List.filter_In. now split. }
  intros input d t b Hin Hq Hfirst.
  destruct (tierWinner_least store input t b Hin Hq) as (w & Hw & Hws & Hwq & Hle).
  exists w. split; [|split; [exact Hws|split; [exact Hwq|split; [exact Hle|split]]]].
  - rewrite resolveRoute_firstTier.
    assert (Hnone : forall t', (tierRank t' < tierRank t)%nat ->
                               tierWinner store input t' = None).
    { intros t' Hlt. apply tierWinner_none. intros c Hc. now apply (Hfirst t' c). }
    destruct t; cbn [firstTier];
      rewrite ?(Hnone ByPeer), ?(Hnone ByGuild), ?(Hnone ByTeam), ?(Hnone ByAccount)
        by (cbn; lia);
      try (rewrite Hw; reflexivity).
    unfold tierQualifies in Hq. now rewrite andb_false_r in Hq.
  - intros n Hn Hlt Hnone. unfold effPriority in Hle. rewrite Hn, Hnone in Hle. lia.
  - intros Hnone m Hm. unfold effPriority in Hle. rewrite Hm, Hnone in Hle. exact Hle.
Qed.

(** The theorem at three channel-default bindings stored as 150, unset,
    5: the route is decided in the channel tier, by the binding with 5,
    which has the least number of the three. *)
Lemma C10_witness :
  (exists w,
     resolveRoute Scenarios.threeBindings Scenarios.onTelegram "main"
     = mkResult (agentId w) ByChannel (Some w)
     /\ In w Scenarios.threeBindings /\ tierQualifies Scenarios.onTelegram ByChannel w = true
     /\ effPriority w <= effPriority Scenarios.bindLow
     /\ (forall n, priority Scenarios.bindLow = Some n -> n < 100 -> priority w <> None)
     /\ (priority Scenarios.bindLow = None -> forall m, priority w = Some m -> m <= 100))
  /\ (In Scenarios.bindLow Scenarios.threeBindings
      /\ tierQualifies Scenarios.onTelegram ByChannel Scenarios.bindLow = true
      /\ forall b, In b Scenarios.threeBindings ->
                   tierQualifies Scenarios.onTelegram ByChannel b = true ->
                   effPriority Scenarios.bindLow <= effPriority b).
Proof.
  destruct (C10_absent_priority_counts_as_100 Scenarios.threeBindings)
    as (_ & _ & _ & _ & Hroute & Hleast).
  split.
  - apply (Hroute Scenarios.onTelegram "main" ByChannel Scenarios.bindLow).
    + simpl. auto.
    + reflexivity.
    + intros t' c Hlt Hin.
      destruct Hin as [<-|[<-|[<-|[]]]]; destruct t'; cbn in Hlt; try lia; reflexivity.
  - apply (Hleast Scenarios.onTelegram "main" Scenarios.bindLow). reflexivity.
Defined.

End RoutingFacts.

(** ** Session store *)

Module SessionsFacts.

Import Sessions.

Section Counting.
Context {V : Type} (p : V -> bool).

Lemma count_objSet_le (k : string) (v : V) (o : list (string * V)) :
  (countIn p (objSet k v o) <= countIn p o + (if p v then 1 else 0))%nat.
Proof.
  unfold countIn, objValues.
  induction o as [|[k' v'] o IH]; simpl.
  - destruct (p v); simpl; lia.
  - destruct (String.eqb k' k); simpl.
    + destruct (p v), (p v'); simpl; lia.
    + destruct (p v'); simpl; lia.
Qed.

Lemma count_objSet_same (k : string) (v v0 : V) (o : list (string * V)) :
  objGet k o = Some v0 -> p v = p v0 -> countIn p (objSet k v o) = countIn p o.
Proof.
  unfold countIn, objValues.
  induction o as [|[k' v'] o IH]; simpl; [discriminate|].
  intros Hget Hp. destruct (String.eqb k' k); simpl.
  - injection Hget as ->. rewrite Hp. now destruct (p v0).
  - destruct (p v'); simpl; rewrite IH; auto.
Qed.

Lemma count_objDelete_le (k : string) (o : list (string * V)) :
  (countIn p (objDelete k o) <= countIn p o)%nat.
Proof.
  unfold countIn, objValues.
  induction o as [|[k' v'] o IH]; simpl; [lia|].
  destruct (String.eqb k' k); simpl; destruct (p v'); simpl; lia.
Qed.
End Counting.

Lemma find_none_count (k : string) (sm : t) :
  findBySessionKey k sm = None -> keyCount k sm = 0%nat.
Proof.
  unfold findBySessionKey, keyCount. generalize (objValues (sessions sm)).
  induction l as [|s l IH]; simpl; [reflexivity|].
  destruct (String.eqb (sessionKey s) k); [discriminate|exact IH].
Qed.

Lemma empty_unique : atMostOnePerKey empty.
Proof. intros k. unfold keyCount. simpl. lia. Qed.

(** [createSession] keeps the invariant when the key is new to the
    store, whatever id is drawn. *)
Lemma createSession_unique (key agent : string) (ti ch : option string) (uuid : string)
    (now : Z) (sm : t) :
  findBySessionKey key sm = None -> atMostOnePerKey sm ->
  atMostOnePerKey (snd (createSession key agent ti ch uuid now sm)).
Proof.
  intros Hnone Hinv k. unfold createSession, keyCount. cbn [snd sessions].
  eapply Nat.le_trans; [apply (count_objSet_le (fun s => String.eqb (sessionKey s) k))|].
  cbn [sessionKey]. destruct (String.eqb_spec key k) as [->|Hne].
  - apply find_none_count in Hnone. unfold keyCount in Hnone.
    unfold countIn. rewrite Hnone. lia.
  - specialize (Hinv k). unfold keyCount in Hinv. unfold countIn. lia.
Qed.

Lemma getOrCreate_unique (key agent : string) (ch : option string) (uuid : string)
    (now : Z) (sm : t) :
  atMostOnePerKey sm -> atMostOnePerKey (snd (getOrCreate key agent ch uuid now sm)).
Proof.
  intros Hinv. unfold getOrCreate.
  destruct (findBySessionKey key sm) eqn:Hfind; [exact Hinv|].
  now apply createSession_unique.
Qed.

(** [appendMessage] leaves the keys of the index as they are. *)
Lemma appendMessage_keyCount (sid : string) (m : TranscriptMessage) (now : Z) (sm : t)
    (k : string) :
  keyCount k (appendMessage sid m now sm) = keyCount k sm.
Proof.
  unfold appendMessage, keyCount.
  destruct (objGet sid (sessions sm)) as [s|] eqn:Hget; cbn [sessions]; [|reflexivity].
  apply (count_objSet_same (fun s => String.eqb (sessionKey s) k) sid _ s); auto.
Qed.

Lemma appendMessage_unique (sid : string) (m : TranscriptMessage) (now : Z) (sm : t) :
  atMostOnePerKey sm -> atMostOnePerKey (appendMessage sid m now sm).
Proof. intros Hinv k. rewrite appendMessage_keyCount. apply Hinv. Qed.

Lemma deleteSession_unique (sid : string) (sm : t) :
  atMostOnePerKey sm -> atMostOnePerKey (snd (deleteSession sid sm)).
Proof.
  intros Hinv k. unfold deleteSession.
  destruct (objGet sid (sessions sm)); cbn [snd]; [|apply Hinv].
  unfold keyCount. cbn [sessions].
  eapply Nat.le_trans; [apply (count_objDelete_le (fun s => String.eqb (sessionKey s) k))|].
  apply Hinv.
Qed.

Lemma applyOp_unique (sm : t) (op : Op) :
  createsFreshKey sm op = true -> atMostOnePerKey sm -> atMostOnePerKey (applyOp sm op).
Proof.
  destruct op; simpl; intros Hfresh Hinv.
  - now apply getOrCreate_unique.
  - apply createSession_unique; [|exact Hinv].
    destruct (findBySessionKey sessionKey0 sm); [discriminate|reflexivity].
  - now apply appendMessage_unique.
  - now apply deleteSession_unique.
Qed.

(** C2, as the code has it: the store holds at most one session per
    sessionKey in every state reached from the empty store by
    [getOrCreate], [appendMessage], [deleteSession] and those
    [createSession] calls whose key no session of the store has at the
    time of the call (a spawn with a new run id, the first fire of a cron
    job); [getOrCreate] keeps the invariant on every store. *)
Theorem C2_unique_keys_without_repeated_create :
  forall (ops : list Op),
    allCreateFresh empty ops = true ->
    atMostOnePerKey (List.fold_left applyOp ops empty)
    /\ (forall key agent ch uuid now,
          atMostOnePerKey
            (snd (getOrCreate key agent ch uuid now (List.fold_left applyOp ops empty)))).
Proof.
  intros ops Hfresh.
  assert (Hinv : atMostOnePerKey (List.fold_left applyOp ops empty)).
  { revert Hfresh. generalize empty_unique. generalize empty.
    induction ops as [|op ops IH]; intros sm Hinv Hfresh; simpl in *; [exact Hinv|].
    apply andb_true_iff in Hfresh as [Hop Hrest].
    apply IH; [now apply applyOp_unique|exact Hrest]. }
  split; [exact Hinv|]. intros. now apply getOrCreate_unique.
Qed.

(** The theorem at a message on telegram, a cron fire, a spawn and a
    second message on telegram. *)
Lemma C2_witness :
  atMostOnePerKey
    (List.fold_left applyOp
       [GetOrCreate "telegram:7" "default" (Some "telegram") "u1" 10;
        CreateSession "cron:job1" "default" (Some "Cron: say hello") (Some "cron") "u2" 20;
        CreateSession "subagent:r1" "default" (Some "Subagent: x...") None "u3" 30;
        GetOrCreate "telegram:7" "default" (Some "telegram") "u4" 40] empty).
Proof.
  refine (proj1 (C2_unique_keys_without_repeated_create _ _)).
  vm_compute. reflexivity.
Defined.

(** C2 fails as stated: after two fires of one cron job the store holds
    two sessions with the key of the job, although the store satisfied the
    invariant after the first fire. *)
Lemma C2_counterexample :
  atMostOnePerKey Scenarios.afterFirstFire
  /\ keyCount "cron:job1" Scenarios.afterSecondFire = 2%nat
  /\ ~ atMostOnePerKey Scenarios.afterSecondFire.
Proof.
  assert (H2 : keyCount "cron:job1" Scenarios.afterSecondFire = 2%nat)
    by (vm_compute; reflexivity).
  split; [|split; [exact H2|]].
  - intros k. unfold keyCount.
    replace (objValues (sessions Scenarios.afterFirstFire))
      with [mkSession "uuid-1" "cron:job1" "default" (Some "Cron: say hello") None None
                      0 1000 3 (Some "cron")] by (vm_compute; reflexivity).
    cbn [List.filter sessionKey]. destruct (String.eqb "cron:job1" k); simpl; lia.
  - intros Hinv. specialize (Hinv "cron:job1"). rewrite H2 in Hinv. lia.
Qed.

End SessionsFacts.

(** ** Agent runner *)

Module RunnerFacts.

Import Sessions Runner.

Section Loops.
Context {Ob : Type}.
Variable env : Env Ob.
Variable cfg : Config.
Variable callbacks : AgentCallbacks Ob.

Abbreviation step := (step env cfg callbacks).
Abbreviation steps b := (rtc (step b)).

Lemma steps_then (b : bool) (x y z : State Ob) :
  steps b x y -> step b y z -> steps b x z.
Proof. intros Hxy Hyz. eapply rtc_r; eauto. Qed.

(** Running a tool is two steps: what the tool does, and the
    suspension. *)
Lemma runTool_steps (b : bool) (t : Tools.Tool) (tc : Tools.ToolCall) (st : State Ob) :
  steps b st (snd (runTool env cfg t tc st)).
Proof.
  unfold runTool.
  pose proof (step_tool env cfg callbacks b st t (Tools.input tc)) as H1.
  destruct (execute env (tick st) t (Tools.input tc) (toolContext cfg) (obs st)) as [settled o].
  cbn [snd] in *.
  eapply rtc_l; [exact H1|]. apply rtc_once. apply step_suspend.
Qed.

Lemma executeTools_steps (b : bool) (calls : list Tools.ToolCall) (st : State Ob) :
  steps b st (snd (executeTools env cfg callbacks calls st)).
Proof.
  revert st. induction calls as [|tc calls IH]; intros st; cbn [executeTools];
    [apply rtc_refl|].
  destruct (Tools.getToolByName _ _) as [t|].
  - pose proof (runTool_steps b t tc st) as Hrun.
    destruct (runTool env cfg t tc st) as [[output|r] st1]; cbn [snd] in *; [|exact Hrun].
    etrans; [exact Hrun|]. etrans; [|apply IH].
    eapply rtc_l; [apply step_toolResult|].
    apply rtc_once. apply step_record. simpl. discriminate.
  - etrans; [|apply IH]. apply rtc_once. apply step_record. simpl. discriminate.
Qed.

Lemma takeInjected_steps (st : State Ob) :
  steps false st (takeInjected st).
Proof.
  unfold takeInjected. destruct (injectedMessages st) eqn:Hq; [apply rtc_refl|].
  apply rtc_once. now apply step_take.
Qed.

Lemma mainIteration_steps (er : nat) (fr : string) (st st' : State Ob) (c : Control) :
  mainIteration env cfg callbacks er fr st = (c, st') -> steps false st st'.
Proof.
  unfold mainIteration. intros H.
  pose proof (takeInjected_steps st) as H1.
  pose proof (step_call env cfg callbacks false (takeInjected st)) as H2.
  destruct (callLLM env cfg callbacks (takeInjected st)) as [outcome st2].
  simpl in H2. pose proof (steps_then _ _ _ _ H1 H2) as H3. clear H1 H2.
  destruct outcome as [response| |e]; try (injection H as _ <-; exact H3).
  destruct (LLM.toolCalls response) as [|tc calls].
  - destruct (JS.nonEmpty (LLM.content response)).
    + assert (H4 : steps false st (record env cfg (assistantTextMsg (LLM.content response)) st2)).
      { eapply steps_then; [exact H3|]. apply step_record. simpl. discriminate. }
      destruct (injectedMessages (record env cfg _ st2)); injection H as _ <-; exact H4.
    + destruct (er <? 2)%nat; [injection H as _ <-; exact H3|].
      destruct (injectedMessages st2); injection H as _ <-; exact H3.
  - assert (H4 : steps false st
                   (snd (executeTools env cfg callbacks (tc :: calls)
                           (record env cfg (assistantToolMsg response) st2)))).
    { etrans; [exact H3|].
      etrans; [|apply (executeTools_steps false (tc :: calls))].
      apply rtc_once. apply step_record. simpl. discriminate. }
    destruct (executeTools env cfg callbacks (tc :: calls) _) as [[r|] st3];
      injection H as _ <-; exact H4.
Qed.

Lemma drainIteration_steps (fr injected : string) (rest : list string)
    (st st' : State Ob) (c : Control) :
  injectedMessages st = injected :: rest ->
  drainIteration env cfg callbacks fr injected rest st = (c, st') -> steps true st st'.
Proof.
  unfold drainIteration. intros Hq H.
  pose proof (step_takeRecord env cfg callbacks true st injected rest eq_refl Hq) as H1.
  pose proof (step_call env cfg callbacks true
                (record env cfg (interruptMsg injected) (setInjected rest st))) as H2.
  destruct (callLLM env cfg callbacks _) as [outcome st2].
  simpl in H2. assert (H3 : steps true st st2) by (eapply rtc_l; [exact H1|now apply rtc_once]).
  clear H1 H2.
  destruct outcome as [response| |e]; try (injection H as _ <-; exact H3).
  set (st3 := if JS.nonEmpty (LLM.content response)
              then record env cfg (assistantTextMsg (LLM.content response)) st2 else st2) in *.
  assert (H4 : steps true st st3).
  { subst st3. destruct (JS.nonEmpty (LLM.content response)); [|exact H3].
    eapply steps_then; [exact H3|]. apply step_record. simpl. discriminate. }
  destruct (LLM.toolCalls response) as [|tc calls]; [injection H as _ <-; exact H4|].
  assert (H5 : steps true st
                 (snd (executeTools env cfg callbacks (tc :: calls)
                         (record env cfg (assistantToolMsg response) st3)))).
  { etrans; [exact H4|].
    etrans; [|apply (executeTools_steps true (tc :: calls))].
    apply rtc_once. apply step_record. simpl. discriminate. }
  destruct (executeTools env cfg callbacks (tc :: calls) _) as [[r|] st4];
    injection H as _ <-; exact H5.
Qed.

Lemma mainLoop_steps (fuel it er : nat) (fr : string) (st st' : State Ob) (exit : LoopExit) :
  mainLoop env cfg callbacks fuel it er fr st = Some (exit, st') -> steps false st st'.
Proof.
  revert it er fr st. induction fuel as [|fuel IH]; intros it er fr st; simpl; [discriminate|].
  destruct (it <? maxIterations)%nat; [|intros [= _ <-]; apply rtc_refl].
  destruct (mainIteration env cfg callbacks er fr st) as [c st1] eqn:Hit.
  apply mainIteration_steps in Hit.
  destruct c as [er' fr'|fr'|r].
  - intros H. etrans; [exact Hit|]. eapply IH; exact H.
  - intros [= _ <-]. exact Hit.
  - intros [= _ <-]. exact Hit.
Qed.

Lemma drainLoop_steps (fuel it : nat) (fr : string) (st st' : State Ob) (exit : LoopExit) :
  drainLoop env cfg callbacks fuel it fr st = Some (exit, st') -> steps true st st'.
Proof.
  revert it fr st. induction fuel as [|fuel IH]; intros it fr st; simpl; [discriminate|].
  destruct (injectedMessages st) as [|injected rest] eqn:Hq;
    [intros [= _ <-]; apply rtc_refl|].
  destruct (it <? maxIterations)%nat; [|intros [= _ <-]; apply rtc_refl].
  destruct (drainIteration env cfg callbacks fr injected rest st) as [c st1] eqn:Hit.
  apply (drainIteration_steps _ _ _ _ _ _ Hq) in Hit.
  destruct c as [er' fr'|fr'|r].
  - intros H. etrans; [exact Hit|]. eapply IH; exact H.
  - intros [= _ <-]. exact Hit.
  - intros [= _ <-]. exact Hit.
Qed.

(** A reflexive and transitive relation that holds along every step
    holds from the start of a loop to its end. *)
Lemma steps_within (b : bool) (R : State Ob -> State Ob -> Prop) :
  (forall x, R x x) -> (forall x y z, R x y -> R y z -> R x z) ->
  (forall x y, step b x y -> R x y) ->
  forall x y, steps b x y -> R x y.
Proof.
  intros Hrefl Htrans Hstep x y H. induction H as [|x y z Hxy _ IH]; [apply Hrefl|].
  eapply Htrans; [apply Hstep; exact Hxy|exact IH].
Qed.

End Loops.

(** *** Calls on the model client *)

Section Calls.
Context {Ob : Type}.
Variable env : Env Ob.
Variable cfg : Config.
Variable callbacks : AgentCallbacks Ob.

Lemma persistMessage_llmCalls (m : LLMMessage) (st : State Ob) :
  llmCalls (persistMessage env cfg m st) = llmCalls st.
Proof. unfold persistMessage. now destruct (sessionId cfg). Qed.

Lemma record_llmCalls (m : LLMMessage) (st : State Ob) :
  llmCalls (record env cfg m st) = llmCalls st.
Proof. unfold record. now rewrite persistMessage_llmCalls. Qed.

Lemma externals_llmCalls (es : list External) (st : State Ob) :
  llmCalls (List.fold_left applyExternal es st) = llmCalls st.
Proof.
  revert st. induction es as [|e es IH]; intros st; simpl; [reflexivity|].
  rewrite IH. now destruct e.
Qed.

Lemma suspend_llmCalls (st : State Ob) : llmCalls (suspend env st) = llmCalls st.
Proof. unfold suspend. simpl. apply externals_llmCalls. Qed.

Lemma notify_llmCalls (f : option (Ob -> Ob)) (st : State Ob) :
  llmCalls (notify f st) = llmCalls st.
Proof. now destruct f. Qed.

Lemma stream_llmCalls (es : list LLM.StreamEvent) (st : State Ob) :
  llmCalls (List.fold_left (streamCallback callbacks) es st) = llmCalls st.
Proof.
  revert st. induction es as [|e es IH]; intros st; simpl; [reflexivity|].
  rewrite IH. destruct e; simpl; apply notify_llmCalls.
Qed.

Lemma runTool_llmCalls (t : Tools.Tool) (tc : Tools.ToolCall) (st : State Ob) :
  llmCalls (snd (runTool env cfg t tc st)) = llmCalls st.
Proof.
  unfold runTool. destruct (execute env _ _ _ _ _) as [settled o]. cbn [snd].
  now rewrite suspend_llmCalls.
Qed.

Lemma executeTools_llmCalls (calls : list Tools.ToolCall) (st : State Ob) :
  llmCalls (snd (executeTools env cfg callbacks calls st)) = llmCalls st.
Proof.
  revert st. induction calls as [|tc calls IH]; intros st; cbn [executeTools];
    [reflexivity|].
  destruct (Tools.getToolByName _ _) as [t|].
  - pose proof (runTool_llmCalls t tc st) as Hrun.
    destruct (runTool env cfg t tc st) as [[output|r] st1]; cbn [snd] in *; [|exact Hrun].
    now rewrite IH, record_llmCalls, notify_llmCalls.
  - now rewrite IH, record_llmCalls.
Qed.

(** A rejection that ends the loop over the tool calls is the rejection
    of a tool. *)
Lemma executeTools_rejected (calls : list Tools.ToolCall) (st : State Ob) (r : Rejection) :
  fst (executeTools env cfg callbacks calls st) = Some r -> rejectedByTool env cfg r.
Proof.
  revert st. induction calls as [|tc calls IH]; intros st; cbn [executeTools];
    [discriminate|].
  destruct (Tools.getToolByName _ _) as [t|]; [|apply IH].
  unfold runTool.
  destruct (execute env (tick st) t (Tools.input tc) (toolContext cfg) (obs st))
    as [settled o] eqn:Hex.
  destruct settled as [output|r']; [apply IH|].
  cbn [fst]. intros [= <-]. exists (tick st), t, (Tools.input tc), (obs st).
  now rewrite Hex.
Qed.

(** When the tools settle, the loop over the tool calls runs to its
    end. *)
Lemma executeTools_settle (calls : list Tools.ToolCall) (st : State Ob) :
  toolsSettle env -> fst (executeTools env cfg callbacks calls st) = None.
Proof.
  intros Hsettle. revert st.
  induction calls as [|tc calls IH]; intros st; cbn [executeTools]; [reflexivity|].
  destruct (Tools.getToolByName _ _) as [t|]; [|apply IH].
  unfold runTool.
  destruct (Hsettle (tick st) t (Tools.input tc) (toolContext cfg) (obs st)) as [output Hout].
  destruct (execute env (tick st) t (Tools.input tc) (toolContext cfg) (obs st))
    as [settled o].
  cbn [fst] in Hout. subst settled. apply IH.
Qed.

Lemma takeInjected_llmCalls (st : State Ob) : llmCalls (takeInjected st) = llmCalls st.
Proof. unfold takeInjected. now destruct (injectedMessages st). Qed.

(** The outcome of a call is what the model answers at this point. *)
Lemma callLLM_outcome (st : State Ob) :
  fst (callLLM env cfg callbacks st)
  = snd (chat env (tick st) (messages st) (toolSchemas env cfg)).
Proof. unfold callLLM. now destruct (chat env _ _ _). Qed.

Lemma callLLM_llmCalls (st : State Ob) :
  llmCalls (snd (callLLM env cfg callbacks st))
  = (llmCalls st ++ [(messages st, fst (callLLM env cfg callbacks st))])%list.
Proof.
  unfold callLLM. destruct (chat env _ _ _) as [events outcome]. cbn [fst snd].
  rewrite suspend_llmCalls, stream_llmCalls. reflexivity.
Qed.

(** One pass through the main loop body makes exactly one call. *)
Lemma mainIteration_llmCalls (er : nat) (fr : string) (st st' : State Ob) (c : Control) :
  mainIteration env cfg callbacks er fr st = (c, st') ->
  length (llmCalls st') = S (length (llmCalls st)).
Proof.
  unfold mainIteration. intros H.
  pose proof (callLLM_llmCalls (takeInjected st)) as Hc.
  rewrite takeInjected_llmCalls in Hc.
  destruct (callLLM env cfg callbacks (takeInjected st)) as [outcome st2]. cbn [fst snd] in Hc.
  assert (H2 : length (llmCalls st2) = S (length (llmCalls st)))
    by (rewrite Hc, length_app; simpl; lia).
  destruct outcome as [response| |e]; try (injection H as _ <-; exact H2).
  destruct (LLM.toolCalls response) as [|tc calls] eqn:Htc.
  - destruct (JS.nonEmpty (LLM.content response)).
    + destruct (injectedMessages (record env cfg _ st2)); injection H as _ <-;
        now rewrite record_llmCalls.
    + destruct (er <? 2)%nat; [injection H as _ <-; exact H2|].
      destruct (injectedMessages st2); injection H as _ <-; exact H2.
  - pose proof (executeTools_llmCalls (tc :: calls)
                  (record env cfg (assistantToolMsg response) st2)) as H3.
    destruct (executeTools env cfg callbacks (tc :: calls) _) as [[r|] st3];
      injection H as _ <-; cbn [snd] in H3; now rewrite H3, record_llmCalls.
Qed.

Lemma drainIteration_llmCalls (fr injected : string) (rest : list string)
    (st st' : State Ob) (c : Control) :
  drainIteration env cfg callbacks fr injected rest st = (c, st') ->
  length (llmCalls st') = S (length (llmCalls st)).
Proof.
  unfold drainIteration. intros H.
  pose proof (callLLM_llmCalls (record env cfg (interruptMsg injected) (setInjected rest st)))
    as Hc.
  rewrite record_llmCalls in Hc. cbn [setInjected llmCalls] in Hc.
  destruct (callLLM env cfg callbacks _) as [outcome st2]. cbn [fst snd] in Hc.
  assert (H2 : length (llmCalls st2) = S (length (llmCalls st)))
    by (rewrite Hc, length_app; simpl; lia).
  destruct outcome as [response| |e]; try (injection H as _ <-; exact H2).
  assert (H3 : llmCalls (if JS.nonEmpty (LLM.content response)
                         then record env cfg (assistantTextMsg (LLM.content response)) st2
                         else st2) = llmCalls st2).
  { destruct (JS.nonEmpty _); [apply record_llmCalls|reflexivity]. }
  destruct (LLM.toolCalls response) as [|tc calls].
  - injection H as _ <-. now rewrite H3.
  - pose proof (executeTools_llmCalls (tc :: calls)
                  (record env cfg (assistantToolMsg response)
                     (if JS.nonEmpty (LLM.content response)
                      then record env cfg (assistantTextMsg (LLM.content response)) st2
                      else st2))) as H4.
    destruct (executeTools env cfg callbacks (tc :: calls) _) as [[r|] st4];
      injection H as _ <-; cbn [snd] in H4; now rewrite H4, record_llmCalls, H3.
Qed.

(** What a responding model and a silent model make of one pass: with a
    model that responds, a pass is only left by the rejection of a tool;
    with a silent model, [finalResponse] stays as it was. *)
Lemma mainIteration_control (er : nat) (fr : string) (st st' : State Ob) (c : Control) :
  mainIteration env cfg callbacks er fr st = (c, st') ->
  (responds env -> forall r, c = Raise r -> rejectedByTool env cfg r)
  /\ (silent env -> forall fr', c = Break fr' \/ (exists er', c = Continue er' fr') -> fr' = fr).
Proof.
  unfold mainIteration. intros H.
  pose proof (callLLM_outcome (takeInjected st)) as Ho.
  destruct (callLLM env cfg callbacks (takeInjected st)) as [outcome st2]. cbn [fst] in Ho.
  split.
  - intros Hresp r Hc.
    destruct (Hresp (tick (takeInjected st)) (messages (takeInjected st)) (toolSchemas env cfg))
      as [resp Hr].
    rewrite Hr in Ho. subst outcome.
    destruct (LLM.toolCalls resp) as [|tc calls].
    + destruct (JS.nonEmpty (LLM.content resp)).
      * destruct (injectedMessages _); injection H as <- _; discriminate.
      * destruct (er <? 2)%nat; [injection H as <- _; discriminate|].
        destruct (injectedMessages _); injection H as <- _; discriminate.
    + pose proof (executeTools_rejected (tc :: calls)
                    (record env cfg (assistantToolMsg resp) st2)) as Hrej.
      destruct (executeTools env cfg callbacks (tc :: calls) _) as [[r'|] st3];
        injection H as <- _; [|discriminate].
      injection Hc as <-. now apply Hrej.
  - intros Hsil fr' Hc.
    destruct (Hsil (tick (takeInjected st)) (messages (takeInjected st)) (toolSchemas env cfg))
      as [resp [Hr Hempty]].
    rewrite Hr in Ho. subst outcome. rewrite Hempty in H. cbn [JS.nonEmpty] in H.
    assert (Hfr : c = Break fr' \/ (exists er', c = Continue er' fr') ->
                  (c = Break fr \/ (exists er', c = Continue er' fr) \/ exists r, c = Raise r) ->
                  fr' = fr).
    { intros [->|[er' ->]] [Hb|[[er'' Hb]|[r Hb]]]; congruence. }
    apply Hfr; [exact Hc|]. clear Hfr Hc.
    destruct (LLM.toolCalls resp) as [|tc calls].
    + destruct (er <? 2)%nat; [injection H as <- _; right; left; eauto|].
      destruct (injectedMessages _); injection H as <- _; [now left|right; left; eauto].
    + destruct (executeTools env cfg callbacks (tc :: calls) _) as [[r'|] st3];
        injection H as <- _; [right; right; eauto|right; left; eauto].
Qed.

Lemma drainIteration_control (fr injected : string) (rest : list string)
    (st st' : State Ob) (c : Control) :
  drainIteration env cfg callbacks fr injected rest st = (c, st') ->
  (responds env -> forall r, c = Raise r -> rejectedByTool env cfg r)
  /\ (silent env -> forall fr', c = Break fr' \/ (exists er', c = Continue er' fr') -> fr' = fr).
Proof.
  unfold drainIteration. intros H.
  set (st1 := record env cfg (interruptMsg injected) (setInjected rest st)) in *.
  pose proof (callLLM_outcome st1) as Ho.
  destruct (callLLM env cfg callbacks st1) as [outcome st2]. cbn [fst] in Ho.
  split.
  - intros Hresp r Hc.
    destruct (Hresp (tick st1) (messages st1) (toolSchemas env cfg)) as [resp Hr].
    rewrite Hr in Ho. subst outcome.
    destruct (LLM.toolCalls resp) as [|tc calls]; [injection H as <- _; discriminate|].
    match type of H with
    | context [executeTools env cfg callbacks ?cs ?x] =>
        pose proof (executeTools_rejected cs x) as Hrej;
        destruct (executeTools env cfg callbacks cs x) as [[r'|] st4]
    end; injection H as <- _; [|discriminate].
    injection Hc as <-. now apply Hrej.
  - intros Hsil fr' Hc.
    destruct (Hsil (tick st1) (messages st1) (toolSchemas env cfg)) as [resp [Hr Hempty]].
    rewrite Hr in Ho. subst outcome. rewrite Hempty in H. cbn [JS.nonEmpty] in H.
    destruct (LLM.toolCalls resp) as [|tc calls].
    + injection H as <- _. destruct Hc as [Hc|[er' Hc]]; congruence.
    + match type of H with
      | context [executeTools env cfg callbacks ?cs ?x] =>
          destruct (executeTools env cfg callbacks cs x) as [[r'|] st4]
      end; injection H as <- _; destruct Hc as [Hc|[er' Hc]]; congruence.
Qed.

(** The main loop ends, whatever the model answers and whatever the
    tools do, once the fuel exceeds the iterations that are left. *)
Lemma mainLoop_total (fuel it er : nat) (fr : string) (st : State Ob) :
  (maxIterations - it < fuel)%nat ->
  exists exit st',
    mainLoop env cfg callbacks fuel it er fr st = Some (exit, st')
    /\ exitWithin env cfg it (length (llmCalls st)) (length (llmCalls st')) fr exit.
Proof.
  revert it er fr st. induction fuel as [|fuel IH]; intros it er fr st Hfuel; [lia|].
  cbn [mainLoop]. destruct (Nat.ltb_spec it maxIterations) as [Hlt|Hge].
  - destruct (mainIteration env cfg callbacks er fr st) as [c st1] eqn:Hit.
    pose proof (mainIteration_llmCalls _ _ _ _ _ Hit) as Hlen.
    destruct (mainIteration_control _ _ _ _ _ Hit) as [Hresp Hsil].
    destruct c as [er' fr'|fr'|r].
    + destruct (IH (S it) er' fr' st1) as (exit & st' & Hrun & Hb & Hd & Hr & Hs); [lia|].
      exists exit, st'. split; [exact Hrun|]. split; [lia|]. split; [|split].
      * intros it' fr'' Heq. destruct (Hd _ _ Heq) as (? & ? & ?). lia.
      * exact Hr.
      * intros Hsilent it' fr'' Heq. rewrite (Hs Hsilent _ _ Heq).
        apply (Hsil Hsilent). right. eauto.
    + exists (Done (S it) fr'), st1. split; [reflexivity|]. split; [lia|]. split; [|split].
      * intros it' fr'' [= <- <-]. lia.
      * discriminate.
      * intros Hsilent it' fr'' [= <- <-]. apply (Hsil Hsilent). now left.
    + exists (Rejected r), st1. split; [reflexivity|]. split; [lia|]. split; [|split].
      * discriminate.
      * intros Hr r' [= <-]. now apply Hresp.
      * discriminate.
  - exists (Done it fr), st. split; [reflexivity|]. split; [lia|]. split; [|split].
    + intros it' fr'' [= <- <-]. lia.
    + discriminate.
    + intros _ it' fr'' [= <- <-]. reflexivity.
Qed.

Lemma drainLoop_total (fuel it : nat) (fr : string) (st : State Ob) :
  (maxIterations - it < fuel)%nat ->
  exists exit st',
    drainLoop env cfg callbacks fuel it fr st = Some (exit, st')
    /\ exitWithin env cfg it (length (llmCalls st)) (length (llmCalls st')) fr exit.
Proof.
  revert it fr st. induction fuel as [|fuel IH]; intros it fr st Hfuel; [lia|].
  cbn [drainLoop].
  assert (Hstop : exists exit st',
             Some (Done it fr, st) = Some (exit, st')
             /\ exitWithin env cfg it (length (llmCalls st)) (length (llmCalls st')) fr exit).
  { exists (Done it fr), st. split; [reflexivity|]. split; [lia|]. split; [|split].
    - intros it' fr'' [= <- <-]. lia.
    - discriminate.
    - intros _ it' fr'' [= <- <-]. reflexivity. }
  destruct (injectedMessages st) as [|injected rest] eqn:Hq; [exact Hstop|].
  destruct (Nat.ltb_spec it maxIterations) as [Hlt|Hge]; [|exact Hstop].
  clear Hstop.
  destruct (drainIteration env cfg callbacks fr injected rest st) as [c st1] eqn:Hit.
  pose proof (drainIteration_llmCalls _ _ _ _ _ _ Hit) as Hlen.
  destruct (drainIteration_control _ _ _ _ _ _ Hit) as [Hresp Hsil].
  destruct c as [er' fr'|fr'|r].
  - destruct (IH (S it) fr' st1) as (exit & st' & Hrun & Hb & Hd & Hr & Hs); [lia|].
    exists exit, st'. split; [exact Hrun|]. split; [lia|]. split; [|split].
    + intros it' fr'' Heq. destruct (Hd _ _ Heq) as (? & ? & ?). lia.
    + exact Hr.
    + intros Hsilent it' fr'' Heq. rewrite (Hs Hsilent _ _ Heq).
      apply (Hsil Hsilent). right. eauto.
  - exists (Done (S it) fr'), st1. split; [reflexivity|]. split; [lia|]. split; [|split].
    + intros it' fr'' [= <- <-]. lia.
    + discriminate.
    + intros Hsilent it' fr'' [= <- <-]. apply (Hsil Hsilent). now left.
  - exists (Rejected r), st1. split; [reflexivity|]. split; [lia|]. split; [|split].
    + discriminate.
    + intros Hr r' [= <-]. now apply Hresp.
    + discriminate.
Qed.

Lemma prepare_llmCalls (userMessage : string) (source : Source) (st : State Ob) :
  llmCalls (prepare env cfg userMessage source st) = llmCalls st.
Proof.
  unfold prepare. rewrite record_llmCalls.
  assert (Hs : forall x : State Ob, llmCalls (syncTranscript cfg x) = llmCalls x).
  { intros x. unfold syncTranscript. destruct (sessionId cfg); [|reflexivity].
    now destruct (_ <? _)%nat. }
  destruct (messages (syncTranscript cfg (setRunning true st)));
    [rewrite record_llmCalls|]; now rewrite Hs.
Qed.

Lemma finish_llmCalls (exit : LoopExit) (st : State Ob) :
  llmCalls (snd (finish callbacks exit st)) = llmCalls st.
Proof.
  destruct exit as [it fr|[|e]]; simpl; [|reflexivity|reflexivity].
  now destruct (onComplete callbacks).
Qed.

Lemma finish_sm (exit : LoopExit) (st : State Ob) :
  sm (snd (finish callbacks exit st)) = sm st.
Proof.
  destruct exit as [it fr|[|e]]; simpl; [|reflexivity|reflexivity].
  now destruct (onComplete callbacks).
Qed.

Lemma trim_done : JS.nonEmpty (JS.trim "(done)") = true.
Proof. reflexivity. Qed.

End Calls.

(** [run] is its two loops and the completion: the main loop ends; if
    it ran to its end the second loop ends too; and [run] settles on what
    [finish] makes of the last exit. *)
Lemma run_phases {Ob} (env : Env Ob) (cfg : Config) (callbacks : AgentCallbacks Ob)
    (userMessage : string) (source : Source) (st : State Ob) :
  exists exit1 mid exit2 last,
    mainLoop env cfg callbacks (S maxIterations) 0 0 "" (prepare env cfg userMessage source st)
    = Some (exit1, mid)
    /\ ((exists it fr, exit1 = Done it fr
                       /\ drainLoop env cfg callbacks (S maxIterations) it fr mid
                          = Some (exit2, last))
        \/ (exists r, exit1 = Rejected r /\ exit2 = Rejected r /\ last = mid))
    /\ run env cfg callbacks userMessage source st = Some (finish callbacks exit2 last).
Proof.
  unfold run.
  destruct (mainLoop_total env cfg callbacks (S maxIterations) 0 0 ""
              (prepare env cfg userMessage source st))
    as (exit1 & mid & Hmain & _); [unfold maxIterations; lia|].
  rewrite Hmain. destruct exit1 as [it fr|r].
  - destruct (drainLoop_total env cfg callbacks (S maxIterations) it fr mid)
      as (exit2 & last & Hdrain & _); [unfold maxIterations; lia|].
    rewrite Hdrain. exists (Done it fr), mid, exit2, last.
    split; [reflexivity|]. split; [left; eauto|reflexivity].
  - exists (Rejected r), mid, (Rejected r), mid.
    split; [reflexivity|]. split; [right; eauto|reflexivity].
Qed.

Lemma silent_responds {Ob} (env : Env Ob) : silent env -> responds env.
Proof. intros H n ms ts. destruct (H n ms ts) as (r & Hr & _). eauto. Qed.

Lemma settle_not_rejected {Ob} (env : Env Ob) (cfg : Config) (r : Rejection) :
  toolsSettle env -> rejectedByTool env cfg r -> False.
Proof.
  intros Hs (n & t & input & o & Hrej).
  destruct (Hs n t input (toolContext cfg) o) as [output Hout]. congruence.
Qed.

(** How [run] settles, read off the exit of its last loop. *)
Lemma finish_result {Ob} (callbacks : AgentCallbacks Ob) (exit : LoopExit) (st : State Ob) :
  fst (finish callbacks exit st)
  = match exit with
    | Done _ fr => Returned (if JS.nonEmpty (JS.trim fr) then fr else "(done)")
    | Rejected AbortError => Returned "(aborted)"
    | Rejected (Error e) => Thrown e
    end.
Proof. now destruct exit as [it fr|[|e]]. Qed.

(** The exit of the last loop of [run], and what is known of it. *)
Lemma run_exit {Ob} (env : Env Ob) (cfg : Config) (callbacks : AgentCallbacks Ob)
    (userMessage : string) (source : Source) (st : State Ob) :
  exists exit last,
    run env cfg callbacks userMessage source st = Some (finish callbacks exit last)
    /\ (length (llmCalls last) <= length (llmCalls st) + 10)%nat
    /\ (responds env -> forall r, exit = Rejected r -> rejectedByTool env cfg r)
    /\ (silent env -> forall it fr, exit = Done it fr -> fr = "").
Proof.
  unfold run.
  pose proof (prepare_llmCalls env cfg userMessage source st) as Hprep.
  destruct (mainLoop_total env cfg callbacks (S maxIterations) 0 0 ""
              (prepare env cfg userMessage source st))
    as (exit & st1 & Hmain & Hb & Hd & Hr & Hs); [unfold maxIterations; lia|].
  rewrite Hmain. rewrite Hprep in Hb, Hd.
  destruct exit as [it fr|r].
  - destruct (Hd it fr eq_refl) as (_ & Hit & Hcalls).
    destruct (drainLoop_total env cfg callbacks (S maxIterations) it fr st1)
      as (exit2 & st2 & Hdrain & Hb2 & Hd2 & Hr2 & Hs2); [unfold maxIterations; lia|].
    rewrite Hdrain. exists exit2, st2. split; [reflexivity|].
    split; [unfold maxIterations in *; lia|]. split; [exact Hr2|].
    intros Hsil it2 fr2 Heq. rewrite (Hs2 Hsil _ _ Heq). exact (Hs Hsil _ _ eq_refl).
  - exists (Rejected r), st1. split; [reflexivity|].
    split; [unfold maxIterations in *; lia|]. split; [exact Hr|discriminate].
Qed.




(** *** The conversation handed to the model *)

Section Conversation.
Context {Ob : Type}.
Variable env : Env Ob.
Variable cfg : Config.
Variable callbacks : AgentCallbacks Ob.

Lemma persistMessage_messages (m : LLMMessage) (st : State Ob) :
  messages (persistMessage env cfg m st) = messages st.
Proof. unfold persistMessage. now destruct (sessionId cfg). Qed.

Lemma record_messages (m : LLMMessage) (st : State Ob) :
  messages (record env cfg m st) = (messages st ++ [m])%list.
Proof. unfold record. now rewrite persistMessage_messages. Qed.

Lemma externals_messages (es : list External) (st : State Ob) :
  messages (List.fold_left applyExternal es st) = messages st.
Proof.
  revert st. induction es as [|e es IH]; intros st; simpl; [reflexivity|].
  rewrite IH. now destruct e.
Qed.

Lemma suspend_messages (st : State Ob) : messages (suspend env st) = messages st.
Proof. unfold suspend. simpl. apply externals_messages. Qed.

Lemma notify_messages (f : option (Ob -> Ob)) (st : State Ob) :
  messages (notify f st) = messages st.
Proof. now destruct f. Qed.

Lemma stream_messages (es : list LLM.StreamEvent) (st : State Ob) :
  messages (List.fold_left (streamCallback callbacks) es st) = messages st.
Proof.
  revert st. induction es as [|e es IH]; intros st; simpl; [reflexivity|].
  rewrite IH. destruct e; simpl; apply notify_messages.
Qed.

Lemma callLLM_messages (st : State Ob) :
  messages (snd (callLLM env cfg callbacks st)) = messages st.
Proof.
  unfold callLLM. destruct (chat env _ _ _) as [events outcome]. cbn [snd].
  rewrite suspend_messages, stream_messages. reflexivity.
Qed.

Lemma extends_refl (x : State Ob) : extends x x.
Proof.
  split; [exists []; now rewrite app_nil_r|].
  exists []. split; [now rewrite app_nil_r|constructor].
Qed.

Lemma extends_trans (x y z : State Ob) : extends x y -> extends y z -> extends x z.
Proof.
  intros [[e1 Hm1] [n1 [Hc1 Hf1]]] [[e2 Hm2] [n2 [Hc2 Hf2]]]. split.
  - exists (e1 ++ e2)%list. now rewrite Hm2, Hm1, app_assoc.
  - exists (n1 ++ n2)%list. split; [now rewrite Hc2, Hc1, app_assoc|].
    apply List.Forall_app. split; [exact Hf1|].
    eapply List.Forall_impl; [|exact Hf2]. intros c [ext Hc].
    exists (e1 ++ ext)%list. now rewrite Hc, Hm1, app_assoc.
Qed.

Lemma extends_push (x y : State Ob) (ext : list LLMMessage) :
  messages y = (messages x ++ ext)%list -> llmCalls y = llmCalls x -> extends x y.
Proof.
  intros Hm Hc. split; [eauto|]. exists []. split; [now rewrite app_nil_r|constructor].
Qed.

Lemma step_extends (b : bool) (x y : State Ob) :
  step env cfg callbacks b x y -> extends x y.
Proof.
  destruct 1.
  - apply (extends_push _ _ [interruptMsg injected]); reflexivity.
  - apply (extends_push _ _ [interruptMsg injected]);
      [now rewrite record_messages|now rewrite record_llmCalls].
  - apply (extends_push _ _ [m]); [now rewrite record_messages|now rewrite record_llmCalls].
  - split; [exists []; now rewrite callLLM_messages, app_nil_r|].
    eexists. split; [apply callLLM_llmCalls|].
    constructor; [|constructor]. exists []. now rewrite app_nil_r.
  - apply (extends_push _ _ []);
      [now rewrite suspend_messages, app_nil_r|now rewrite suspend_llmCalls].
  - apply (extends_push _ _ []); [cbn; now rewrite app_nil_r|reflexivity].
  - apply (extends_push _ _ []);
      [now rewrite notify_messages, app_nil_r|now rewrite notify_llmCalls].
Qed.

Lemma steps_extends (b : bool) (x y : State Ob) :
  rtc (step env cfg callbacks b) x y -> extends x y.
Proof.
  apply steps_within; [apply extends_refl|apply extends_trans|apply step_extends].
Qed.

(** After the sync the conversation is the old one followed by the
    transcript entries beyond its length. *)
Lemma syncTranscript_messages (sid : string) (st : State Ob) :
  sessionId cfg = Some sid -> messages (syncTranscript cfg st) = synced sid st.
Proof.
  intros Hsid. unfold syncTranscript, synced. rewrite Hsid.
  destruct (Nat.ltb_spec (length (messages st)) (length (toMessages sid (sm st))));
    [reflexivity|].
  rewrite List.skipn_all2 by lia. now rewrite app_nil_r.
Qed.

Lemma prepare_messages (sid : string) (userMessage : string) (source : Source)
    (st : State Ob) :
  sessionId cfg = Some sid ->
  exists pre, messages (prepare env cfg userMessage source st) = (synced sid st ++ pre)%list.
Proof.
  intros Hsid. unfold prepare. rewrite record_messages.
  pose proof (syncTranscript_messages sid (setRunning true st) Hsid) as Hs.
  change (synced sid (setRunning true st)) with (synced sid st) in Hs.
  destruct (messages (syncTranscript cfg (setRunning true st))) eqn:Hm.
  - rewrite record_messages, Hm, <- Hs. simpl. eauto.
  - rewrite Hm, <- Hs. eauto.
Qed.

Lemma finish_state (exit : LoopExit) (st : State Ob) :
  messages (snd (finish callbacks exit st)) = messages st.
Proof.
  destruct exit as [it fr|[|e]]; simpl; [|reflexivity|reflexivity].
  now destruct (onComplete callbacks).
Qed.

(** The main loop, entered below the bound, calls the model. *)
Lemma mainLoop_calls (fuel er : nat) (fr : string) (st st' : State Ob) (exit : LoopExit) :
  mainLoop env cfg callbacks fuel 0 er fr st = Some (exit, st') ->
  (length (llmCalls st) < length (llmCalls st'))%nat.
Proof.
  destruct fuel as [|fuel]; [discriminate|]. cbn [mainLoop].
  change (0 <? maxIterations)%nat with true. cbv iota.
  destruct (mainIteration env cfg callbacks er fr st) as [c st1] eqn:Hit.
  apply mainIteration_llmCalls in Hit.
  destruct c as [er' fr'|fr'|r]; [|intros [= _ <-]; lia|intros [= _ <-]; lia].
  intros H. apply mainLoop_steps, steps_extends in H.
  destruct H as [_ [new [Hc _]]]. rewrite Hc, length_app. lia.
Qed.

End Conversation.

(** *** What other tasks write to the session files reaches no call

    After the sync at its head, [run] only writes to the session files.
    So the run goes the same way, the session files apart, when the
    writes of other tasks are left out of the environment. *)

Section Independence.
Context {Ob : Type}.
Variable env : Env Ob.
Variable cfg : Config.
Variable callbacks : AgentCallbacks Ob.

Abbreviation env' := (withoutSideWrites env).

Lemma sameRunner_refl (x : State Ob) : sameRunner x x.
Proof. now repeat split. Qed.

Ltac same_states H x y :=
  destruct x, y; unfold sameRunner in *; cbn in H |- *;
  destruct H as (? & ? & ? & ? & ? & ?); subst.

Lemma sameRunner_pushMessage (m : LLMMessage) (x y : State Ob) :
  sameRunner x y -> sameRunner (pushMessage m x) (pushMessage m y).
Proof. intros H. same_states H x y. now repeat split. Qed.

Lemma sameRunner_setInjected (q : list string) (x y : State Ob) :
  sameRunner x y -> sameRunner (setInjected q x) (setInjected q y).
Proof. intros H. same_states H x y. now repeat split. Qed.

Lemma sameRunner_setObs (o : Ob) (x y : State Ob) :
  sameRunner x y -> sameRunner (setObs o x) (setObs o y).
Proof. intros H. same_states H x y. now repeat split. Qed.

Lemma sameRunner_record (m : LLMMessage) (x y : State Ob) :
  sameRunner x y -> sameRunner (record env cfg m x) (record env' cfg m y).
Proof.
  intros H. unfold record, persistMessage. same_states H x y.
  destruct (sessionId cfg); now repeat split.
Qed.

Lemma sameRunner_externals (es : list External) (x y : State Ob) :
  sameRunner x y ->
  sameRunner (List.fold_left applyExternal es x)
             (List.fold_left applyExternal (List.filter isInject es) y).
Proof.
  revert x y. induction es as [|e es IH]; intros x y H; [exact H|].
  destruct e as [text|sid entry]; cbn [List.filter isInject List.fold_left].
  - apply IH. same_states H x y. now repeat split.
  - apply IH. same_states H x y. now repeat split.
Qed.

Lemma sameRunner_suspend (x y : State Ob) :
  sameRunner x y -> sameRunner (suspend env x) (suspend env' y).
Proof.
  intros H. unfold suspend. cbn [meanwhile withoutSideWrites].
  assert (Ht : tick y = tick x) by (symmetry; apply H). rewrite Ht.
  pose proof (sameRunner_externals (meanwhile env (tick x)) x y H) as He.
  destruct (List.fold_left applyExternal (meanwhile env (tick x)) x) as [m q r s o t l].
  destruct (List.fold_left applyExternal _ y) as [m' q' r' s' o' t' l'].
  unfold sameRunner in *. cbn in *. destruct He as (? & ? & ? & ? & ? & ?). subst.
  now repeat split.
Qed.

Lemma sameRunner_notify (f : option (Ob -> Ob)) (x y : State Ob) :
  sameRunner x y -> sameRunner (notify f x) (notify f y).
Proof. intros H. destruct f as [g|]; [|exact H]. same_states H x y. now repeat split. Qed.

Lemma sameRunner_stream (es : list LLM.StreamEvent) (x y : State Ob) :
  sameRunner x y ->
  sameRunner (List.fold_left (streamCallback callbacks) es x)
             (List.fold_left (streamCallback callbacks) es y).
Proof.
  revert x y. induction es as [|e es IH]; intros x y H; [exact H|]. cbn [List.fold_left].
  apply IH. destruct e; cbn [streamCallback]; now apply sameRunner_notify.
Qed.

Lemma sameRunner_callLLM (x y : State Ob) :
  sameRunner x y ->
  fst (callLLM env cfg callbacks x) = fst (callLLM env' cfg callbacks y)
  /\ sameRunner (snd (callLLM env cfg callbacks x)) (snd (callLLM env' cfg callbacks y)).
Proof.
  intros H. unfold callLLM, toolSchemas. cbn [chat composioTools withoutSideWrites].
  assert (Hm : messages y = messages x) by (symmetry; apply H).
  assert (Ht : tick y = tick x) by (symmetry; apply H).
  rewrite Hm, Ht.
  destruct (chat env (tick x) (messages x) _) as [events outcome]. cbn [fst snd].
  split; [reflexivity|].
  apply sameRunner_suspend, sameRunner_stream.
  same_states H x y. now repeat split.
Qed.

Lemma sameRunner_runTool (t : Tools.Tool) (tc : Tools.ToolCall) (x y : State Ob) :
  sameRunner x y ->
  fst (runTool env cfg t tc x) = fst (runTool env' cfg t tc y)
  /\ sameRunner (snd (runTool env cfg t tc x)) (snd (runTool env' cfg t tc y)).
Proof.
  intros H. unfold runTool. cbn [execute withoutSideWrites].
  assert (Ho : obs y = obs x) by (symmetry; apply H).
  assert (Ht : tick y = tick x) by (symmetry; apply H).
  rewrite Ho, Ht.
  destruct (execute env (tick x) t (Tools.input tc) (toolContext cfg) (obs x)) as [settled o].
  cbn [fst snd]. split; [reflexivity|].
  now apply sameRunner_suspend, sameRunner_setObs.
Qed.

Lemma sameRunner_executeTools (calls : list Tools.ToolCall) (x y : State Ob) :
  sameRunner x y ->
  fst (executeTools env cfg callbacks calls x) = fst (executeTools env' cfg callbacks calls y)
  /\ sameRunner (snd (executeTools env cfg callbacks calls x))
                (snd (executeTools env' cfg callbacks calls y)).
Proof.
  revert x y. induction calls as [|tc calls IH]; intros x y H; cbn [executeTools];
    [now split|].
  cbn [composioTools withoutSideWrites].
  destruct (Tools.getToolByName _ _) as [t|].
  - destruct (sameRunner_runTool t tc x y H) as [Hf Hs].
    destruct (runTool env cfg t tc x) as [sx x1], (runTool env' cfg t tc y) as [sy y1].
    cbn [fst snd] in Hf, Hs. subst sy. destruct sx as [output|r]; [|now split].
    apply IH. now apply sameRunner_record, sameRunner_notify.
  - apply IH. now apply sameRunner_record.
Qed.

Lemma sameRunner_takeInjected (x y : State Ob) :
  sameRunner x y -> sameRunner (takeInjected x) (takeInjected y).
Proof.
  intros H. unfold takeInjected.
  assert (Hq : injectedMessages y = injectedMessages x) by (symmetry; apply H).
  rewrite Hq. destruct (injectedMessages x); [exact H|].
  now apply sameRunner_pushMessage, sameRunner_setInjected.
Qed.

Lemma sameRunner_mainIteration (er : nat) (fr : string) (x y : State Ob) :
  sameRunner x y ->
  fst (mainIteration env cfg callbacks er fr x) = fst (mainIteration env' cfg callbacks er fr y)
  /\ sameRunner (snd (mainIteration env cfg callbacks er fr x))
                (snd (mainIteration env' cfg callbacks er fr y)).
Proof.
  intros H. unfold mainIteration.
  destruct (sameRunner_callLLM _ _ (sameRunner_takeInjected x y H)) as [Hf Hs].
  destruct (callLLM env cfg callbacks (takeInjected x)) as [ox x2],
           (callLLM env' cfg callbacks (takeInjected y)) as [oy y2].
  cbn [fst snd] in Hf, Hs. subst oy.
  destruct ox as [response| |e]; [|now split|now split].
  assert (Hafter : forall x3 y3 : State Ob, sameRunner x3 y3 ->
            forall c1 c2 : Control,
              fst (match injectedMessages x3 with _ :: _ => (c1, x3) | [] => (c2, x3) end)
              = fst (match injectedMessages y3 with _ :: _ => (c1, y3) | [] => (c2, y3) end)
              /\ sameRunner
                   (snd (match injectedMessages x3 with _ :: _ => (c1, x3) | [] => (c2, x3) end))
                   (snd (match injectedMessages y3 with _ :: _ => (c1, y3) | [] => (c2, y3) end))).
  { intros x3 y3 H3 c1 c2.
    assert (Hq : injectedMessages y3 = injectedMessages x3) by (symmetry; apply H3).
    rewrite Hq. destruct (injectedMessages x3); now split. }
  destruct (LLM.toolCalls response) as [|tc calls].
  - destruct (JS.nonEmpty (LLM.content response)).
    + apply Hafter. now apply sameRunner_record.
    + destruct (er <? 2)%nat; [now split|]. now apply Hafter.
  - destruct (sameRunner_executeTools (tc :: calls) _ _
                (sameRunner_record (assistantToolMsg response) x2 y2 Hs)) as [Hf3 Hs3].
    destruct (executeTools env cfg callbacks (tc :: calls) _) as [rx x3],
             (executeTools env' cfg callbacks (tc :: calls) _) as [ry y3].
    cbn [fst snd] in Hf3, Hs3. subst ry. destruct rx; now split.
Qed.

Lemma sameRunner_mainLoop (fuel it er : nat) (fr : string) (x y x' : State Ob)
    (exit : LoopExit) :
  sameRunner x y ->
  mainLoop env cfg callbacks fuel it er fr x = Some (exit, x') ->
  exists y', mainLoop env' cfg callbacks fuel it er fr y = Some (exit, y') /\ sameRunner x' y'.
Proof.
  revert it er fr x y. induction fuel as [|fuel IH]; intros it er fr x y H; [discriminate|].
  cbn [mainLoop]. destruct (it <? maxIterations)%nat; [|intros [= <- <-]; eauto].
  destruct (sameRunner_mainIteration er fr x y H) as [Hf Hs].
  destruct (mainIteration env cfg callbacks er fr x) as [cx x1],
           (mainIteration env' cfg callbacks er fr y) as [cy y1].
  cbn [fst snd] in Hf, Hs. subst cy.
  destruct cx as [er' fr'|fr'|r]; [now apply IH|intros [= <- <-]; eauto|intros [= <- <-]; eauto].
Qed.

Lemma sameRunner_drainIteration (fr injected : string) (rest : list string) (x y : State Ob) :
  sameRunner x y ->
  fst (drainIteration env cfg callbacks fr injected rest x)
  = fst (drainIteration env' cfg callbacks fr injected rest y)
  /\ sameRunner (snd (drainIteration env cfg callbacks fr injected rest x))
                (snd (drainIteration env' cfg callbacks fr injected rest y)).
Proof.
  intros H. unfold drainIteration.
  destruct (sameRunner_callLLM _ _
              (sameRunner_record (interruptMsg injected) _ _
                 (sameRunner_setInjected rest x y H))) as [Hf Hs].
  destruct (callLLM env cfg callbacks _) as [ox x2], (callLLM env' cfg callbacks _) as [oy y2].
  cbn [fst snd] in Hf, Hs. subst oy.
  destruct ox as [response| |e]; [|now split|now split].
  assert (H3 : sameRunner
                 (if JS.nonEmpty (LLM.content response)
                  then record env cfg (assistantTextMsg (LLM.content response)) x2 else x2)
                 (if JS.nonEmpty (LLM.content response)
                  then record env' cfg (assistantTextMsg (LLM.content response)) y2 else y2)).
  { destruct (JS.nonEmpty _); [now apply sameRunner_record|exact Hs]. }
  destruct (LLM.toolCalls response) as [|tc calls]; [now split|].
  destruct (sameRunner_executeTools (tc :: calls) _ _
              (sameRunner_record (assistantToolMsg response) _ _ H3)) as [Hf4 Hs4].
  destruct (executeTools env cfg callbacks (tc :: calls) _) as [rx x4],
           (executeTools env' cfg callbacks (tc :: calls) _) as [ry y4].
  cbn [fst snd] in Hf4, Hs4. subst ry. destruct rx; now split.
Qed.

Lemma sameRunner_drainLoop (fuel it : nat) (fr : string) (x y x' : State Ob)
    (exit : LoopExit) :
  sameRunner x y ->
  drainLoop env cfg callbacks fuel it fr x = Some (exit, x') ->
  exists y', drainLoop env' cfg callbacks fuel it fr y = Some (exit, y') /\ sameRunner x' y'.
Proof.
  revert it fr x y. induction fuel as [|fuel IH]; intros it fr x y H; [discriminate|].
  cbn [drainLoop].
  assert (Hq : injectedMessages y = injectedMessages x) by (symmetry; apply H).
  rewrite Hq. destruct (injectedMessages x) as [|injected rest]; [intros [= <- <-]; eauto|].
  destruct (it <? maxIterations)%nat; [|intros [= <- <-]; eauto].
  destruct (sameRunner_drainIteration fr injected rest x y H) as [Hf Hs].
  destruct (drainIteration env cfg callbacks fr injected rest x) as [cx x1],
           (drainIteration env' cfg callbacks fr injected rest y) as [cy y1].
  cbn [fst snd] in Hf, Hs. subst cy.
  destruct cx as [er' fr'|fr'|r]; [now apply IH|intros [= <- <-]; eauto|intros [= <- <-]; eauto].
Qed.

Lemma sameRunner_finish (exit : LoopExit) (x y : State Ob) :
  sameRunner x y ->
  fst (finish callbacks exit x) = fst (finish callbacks exit y)
  /\ sameRunner (snd (finish callbacks exit x)) (snd (finish callbacks exit y)).
Proof.
  intros H. destruct exit as [it fr|[|e]]; cbn [finish fst snd].
  - split; [reflexivity|].
    pose proof (sameRunner_notify
                  (option_map (fun f => f (if JS.nonEmpty (JS.trim fr) then fr else "(done)"))
                              (onComplete callbacks)) x y H) as Hn.
    destruct (notify _ x), (notify _ y). unfold sameRunner in *. cbn in *.
    destruct Hn as (? & ? & ? & ? & ? & ?). now repeat split.
  - split; [reflexivity|]. same_states H x y. now repeat split.
  - split; [reflexivity|]. same_states H x y. now repeat split.
Qed.

(** The run in the environment without the writes of other tasks settles
    the same way and ends in the same state, the session files apart. *)
Lemma run_withoutSideWrites (userMessage : string) (source : Source) (st st' : State Ob)
    (result : Completion) :
  run env cfg callbacks userMessage source st = Some (result, st') ->
  exists st'',
    run env' cfg callbacks userMessage source st = Some (result, st'')
    /\ sameRunner st' st''.
Proof.
  unfold run.
  change (prepare env' cfg userMessage source st) with (prepare env cfg userMessage source st).
  destruct (mainLoop env cfg callbacks (S maxIterations) 0 0 ""
              (prepare env cfg userMessage source st)) as [[exit1 mid]|] eqn:Hmain;
    [|discriminate].
  destruct (sameRunner_mainLoop _ _ _ _ _ _ _ _ (sameRunner_refl _) Hmain)
    as (mid' & Hmain' & Hmid).
  rewrite Hmain'.
  assert (Hfin : forall exit x y, sameRunner x y ->
            Some (finish callbacks exit x) = Some (result, st') ->
            exists st'', Some (finish callbacks exit y) = Some (result, st'')
                         /\ sameRunner st' st'').
  { intros exit x y Hxy Heq. destruct (sameRunner_finish exit x y Hxy) as [Hf Hs].
    destruct (finish callbacks exit x) as [rx x1], (finish callbacks exit y) as [ry y1].
    cbn [fst snd] in Hf, Hs. injection Heq as <- <-. subst ry. eauto. }
  destruct exit1 as [it fr|r]; [|now apply Hfin].
  destruct (drainLoop env cfg callbacks (S maxIterations) it fr mid) as [[exit2 last]|] eqn:Hdrain;
    [|discriminate].
  destruct (sameRunner_drainLoop _ _ _ _ _ _ _ Hmid Hdrain) as (last' & Hdrain' & Hlast).
  rewrite Hdrain'. now apply Hfin.
Qed.

End Independence.




(** *** Tools offered and tools executed *)

Lemma denied_iff (n : string) :
  bool_decide (n ∈ Tools.SUBAGENT_DENIED_TOOLS) = String.eqb n "subagent_spawn".
Proof.
  unfold Tools.SUBAGENT_DENIED_TOOLS.
  destruct (String.eqb_spec n "subagent_spawn") as [->|Hne].
  - apply bool_decide_eq_true. set_solver.
  - apply bool_decide_eq_false. set_solver.
Qed.

(** The schemas offered to a subagent runner never name the spawn tool,
    whatever tools were loaded dynamically. *)
Lemma subagent_schemas_exclude_spawn (composio : list Tools.Tool) :
  ~ In "subagent_spawn" (List.map Tools.fnName (Tools.getToolSchemas composio true)).
Proof.
  unfold Tools.getToolSchemas, Tools.getAllTools. rewrite List.map_map. cbn [Tools.fnName].
  intros Hin. apply List.in_map_iff in Hin as (t & Hname & Hin).
  apply List.filter_In in Hin as [_ Hkeep]. rewrite denied_iff, Hname in Hkeep. discriminate.
Qed.

(** The lookup by name does not filter: it finds the spawn tool. *)
Lemma getToolByName_spawn (composio : list Tools.Tool) :
  Tools.getToolByName composio "subagent_spawn" = Some Tools.subagentSpawnTool.
Proof. reflexivity. Qed.

(** C5, where the code departs from it: a subagent runner is not offered
    the spawn tool, but when a response of the model names it all the same,
    the loop finds the tool by name, executes it and records its output as
    the tool result (or is left by the rejection of the tool); no
    [Error: Unknown tool subagent_spawn] is recorded. The last two parts
    evaluate a run of a subagent runner whose model asks for the spawn
    tool. *)
Theorem C5_subagent_runner_executes_spawn :
  forall (Ob : Type) (env : Env Ob) (callbacks : AgentCallbacks Ob)
         (sid : option string) (prompt : string) (extra : option string)
         (ctx : option ToolContext) (skills : list Skills.Skill)
         (callId input : string) (st : State Ob),
    let cfg := mkConfig sid prompt true extra ctx skills in
    let call := Tools.mkCall callId "subagent_spawn" input in
    let settled := execute env (tick st) Tools.subagentSpawnTool input ctx (obs st) in
    let resumed := suspend env (setObs (snd settled) st) in
    ~ In "subagent_spawn" (List.map Tools.fnName (toolSchemas env cfg))
    /\ executeTools env cfg callbacks [call] st
       = match fst settled with
         | Output output =>
             (None,
              record env cfg (toolResultMsg call output)
                (notify (option_map (fun f => f "subagent_spawn" output)
                                    (onToolResult callbacks))
                        resumed))
         | Rejects r => (Some r, resumed)
         end
    /\ (exists st',
          run Scenarios.nestingEnv Scenarios.subagentConfig noCallbacks "dig" FromUser
              Scenarios.idle = Some (Returned "ok", st')
          /\ In (mkMsg tool "accepted" (Some "call_0") None) (toMessages "s1" (sm st'))
          /\ ~ In (mkMsg tool "Error: Unknown tool subagent_spawn" (Some "call_0") None)
                  (toMessages "s1" (sm st'))).
Proof.
  intros Ob env callbacks sid prompt extra ctx skills callId input st cfg call settled
         resumed.
  split; [apply subagent_schemas_exclude_spawn|].
  split.
  { subst resumed settled. cbn [executeTools]. rewrite getToolByName_spawn.
    unfold runTool. cbn [Tools.input call toolContext cfg Tools.callName].
    destruct (execute env (tick st) Tools.subagentSpawnTool input ctx (obs st))
      as [[output|r] o]; reflexivity. }
  eexists. split; [vm_compute; reflexivity|].
  split.
  - vm_compute. tauto.
  - vm_compute. intros H.
    repeat (destruct H as [H|H]; [discriminate|]). exact H.
Qed.

(** *** What reaches the transcript *)

Lemma loadTranscript_appendMessage (sid sid' : string) (e : TranscriptMessage) (now : Z)
    (s : Sessions.t) :
  loadTranscript sid (appendMessage sid' e now s)
  = if decide (sid' = sid) then (loadTranscript sid s ++ [e])%list else loadTranscript sid s.
Proof.
  unfold appendMessage.
  destruct (objGet sid' (sessions s)); unfold loadTranscript at 1; cbn [transcripts];
    rewrite lookup_insert; case_decide; subst; reflexivity.
Qed.

Section Transcript.
Context {Ob : Type}.
Variable env : Env Ob.
Variable cfg : Config.
Variable callbacks : AgentCallbacks Ob.
Variable sid : string.

Lemma grows_refl (x : State Ob) : grows sid x x.
Proof. exists []. now rewrite app_nil_r. Qed.

Lemma grows_trans (x y z : State Ob) : grows sid x y -> grows sid y z -> grows sid x z.
Proof. intros [a Ha] [b Hb]. exists (a ++ b)%list. now rewrite Hb, Ha, app_assoc. Qed.

Lemma grows_same (x y : State Ob) : sm y = sm x -> grows sid x y.
Proof. intros H. exists []. now rewrite H, app_nil_r. Qed.

Lemma grows_append (x : State Ob) (sid' : string) (e : TranscriptMessage) (now : Z) :
  grows sid x (setSm (appendMessage sid' e now (sm x)) x).
Proof.
  unfold grows. cbn [sm setSm]. rewrite loadTranscript_appendMessage.
  case_decide; [eauto|]. exists []. now rewrite app_nil_r.
Qed.

Lemma persistMessage_grows (m : LLMMessage) (x : State Ob) :
  grows sid x (persistMessage env cfg m x).
Proof.
  unfold persistMessage. destruct (sessionId cfg); [apply grows_append|apply grows_refl].
Qed.

Lemma record_grows (m : LLMMessage) (x : State Ob) : grows sid x (record env cfg m x).
Proof.
  unfold record. eapply grows_trans; [|apply persistMessage_grows]. now apply grows_same.
Qed.

Lemma externals_grows (es : list External) (x : State Ob) :
  grows sid x (List.fold_left applyExternal es x).
Proof.
  revert x. induction es as [|e es IH]; intros x; simpl; [apply grows_refl|].
  eapply grows_trans; [|apply IH].
  destruct e; [now apply grows_same|apply grows_append].
Qed.

Lemma suspend_grows (x : State Ob) : grows sid x (suspend env x).
Proof.
  unfold suspend. eapply grows_trans; [apply (externals_grows (meanwhile env (tick x)))|].
  now apply grows_same.
Qed.

Lemma notify_sm (f : option (Ob -> Ob)) (x : State Ob) : sm (notify f x) = sm x.
Proof. now destruct f. Qed.

Lemma stream_sm (es : list LLM.StreamEvent) (x : State Ob) :
  sm (List.fold_left (streamCallback callbacks) es x) = sm x.
Proof.
  revert x. induction es as [|e es IH]; intros x; simpl; [reflexivity|].
  rewrite IH. destruct e; simpl; apply notify_sm.
Qed.

Lemma callLLM_grows (x : State Ob) : grows sid x (snd (callLLM env cfg callbacks x)).
Proof.
  unfold callLLM. destruct (chat env _ _ _) as [events outcome]. cbn [snd].
  eapply grows_trans; [|apply suspend_grows]. apply grows_same. now rewrite stream_sm.
Qed.

Lemma step_grows (b : bool) (x y : State Ob) : step env cfg callbacks b x y -> grows sid x y.
Proof.
  destruct 1.
  - now apply grows_same.
  - eapply grows_trans; [|apply record_grows]. now apply grows_same.
  - apply record_grows.
  - apply callLLM_grows.
  - apply suspend_grows.
  - now apply grows_same.
  - apply grows_same, notify_sm.
Qed.

Lemma steps_grows (b : bool) (x y : State Ob) :
  rtc (step env cfg callbacks b) x y -> grows sid x y.
Proof. apply steps_within; [apply grows_refl|apply grows_trans|apply step_grows]. Qed.

Lemma hasEntry_grows (text : string) (x y : State Ob) :
  hasEntry sid text x -> grows sid x y -> hasEntry sid text y.
Proof.
  intros (e & Hin & He) [added Ha]. exists e. split; [|exact He].
  rewrite Ha. apply in_or_app. now left.
Qed.

Hypothesis bound : sessionId cfg = Some sid.

Lemma record_hasEntry (m : LLMMessage) (x : State Ob) :
  role m = assistant -> hasEntry sid (content m) (record env cfg m x).
Proof.
  intros Hrole. unfold record, persistMessage. rewrite bound.
  exists (stamp m (clock env (tick (pushMessage m x)))). split; [|split].
  - cbn [sm setSm]. rewrite loadTranscript_appendMessage.
    rewrite decide_True by reflexivity. apply in_or_app. right. now left.
  - exact Hrole.
  - reflexivity.
Qed.

Lemma answered_refl (x : State Ob) : answered sid x x.
Proof.
  split; [apply grows_refl|]. exists []. split; [now rewrite app_nil_r|constructor].
Qed.

Lemma answered_trans (x y z : State Ob) :
  answered sid x y -> answered sid y z -> answered sid x z.
Proof.
  intros [Hg1 (n1 & Hc1 & Hf1)] [Hg2 (n2 & Hc2 & Hf2)].
  split; [eapply grows_trans; eauto|].
  exists (n1 ++ n2)%list. split; [now rewrite Hc2, Hc1, app_assoc|].
  apply List.Forall_app. split; [|exact Hf2].
  eapply List.Forall_impl; [|exact Hf1].
  intros c Hc r Hr Hne. eapply hasEntry_grows; [now apply Hc|exact Hg2].
Qed.

(** Steps that make no call keep every earlier call answered. *)
Lemma answered_quietly (x y : State Ob) :
  grows sid x y -> llmCalls y = llmCalls x -> answered sid x y.
Proof.
  intros Hg Hc. split; [exact Hg|]. exists []. split; [now rewrite app_nil_r|constructor].
Qed.

(** The reply to one call, once recorded, answers the call. *)
Lemma answered_call (x st2 y : State Ob) (outcome : LLM.ChatOutcome) :
  callLLM env cfg callbacks x = (outcome, st2) ->
  grows sid st2 y -> llmCalls y = llmCalls st2 ->
  (forall r, outcome = LLM.Responded r -> JS.nonEmpty (LLM.content r) = true ->
             hasEntry sid (LLM.content r) y) ->
  answered sid x y.
Proof.
  intros Hcall Hg Hc Hans.
  pose proof (callLLM_grows x) as Hg0. pose proof (callLLM_llmCalls env cfg callbacks x) as Hl.
  rewrite Hcall in Hg0, Hl. cbn [fst snd] in Hg0, Hl.
  split; [eapply grows_trans; eauto|].
  eexists. split; [rewrite Hc; exact Hl|].
  constructor; [|constructor]. intros r Hr. cbn [snd] in Hr. now apply Hans.
Qed.

Lemma mainIteration_answered (er : nat) (fr : string) (st st' : State Ob) (c : Control) :
  mainIteration env cfg callbacks er fr st = (c, st') ->
  answered sid st st' /\ finalFrom sid fr c st'.
Proof.
  unfold mainIteration. intros H.
  assert (Htake : answered sid st (takeInjected st)).
  { apply answered_quietly; [|apply takeInjected_llmCalls].
    apply grows_same. unfold takeInjected. now destruct (injectedMessages st). }
  destruct (callLLM env cfg callbacks (takeInjected st)) as [outcome st2] eqn:Hcall.
  destruct outcome as [response| |e].
  2,3: apply (f_equal snd) in H as Hst; apply (f_equal fst) in H; cbn [fst snd] in *;
       subst c st'; split; [|exact I];
       (eapply answered_trans; [exact Htake|]);
       (eapply answered_call; [exact Hcall|apply grows_refl|reflexivity|discriminate]).
  destruct (LLM.toolCalls response) as [|tc calls] eqn:Htc.
  - destruct (JS.nonEmpty (LLM.content response)) eqn:Hne.
    + set (st3 := record env cfg (assistantTextMsg (LLM.content response)) st2) in *.
      assert (Hent : hasEntry sid (LLM.content response) st3)
        by (apply (record_hasEntry (assistantTextMsg (LLM.content response))); reflexivity).
      assert (Hans : answered sid st st3).
      { eapply answered_trans; [exact Htake|].
        eapply answered_call; [exact Hcall|apply record_grows|apply record_llmCalls|].
        intros r [= <-] _. exact Hent. }
      destruct (injectedMessages st3); injection H as <- <-; (split; [exact Hans|]);
        right; exact Hent.
    + assert (Hans : answered sid st st2).
      { eapply answered_trans; [exact Htake|].
        eapply answered_call; [exact Hcall|apply grows_refl|reflexivity|].
        intros r [= <-] Hr. congruence. }
      destruct (er <? 2)%nat; [injection H as <- <-; split; [exact Hans|now left]|].
      destruct (injectedMessages st2); injection H as <- <-; (split; [exact Hans|now left]).
  - set (st3 := record env cfg (assistantToolMsg response) st2) in *.
    pose proof (steps_grows true _ _ (executeTools_steps env cfg callbacks true (tc :: calls) st3))
      as Hg3.
    pose proof (executeTools_llmCalls env cfg callbacks (tc :: calls) st3) as Hl3.
    destruct (executeTools env cfg callbacks (tc :: calls) st3) as [rej st4].
    cbn [snd] in Hg3, Hl3.
    assert (Hent : JS.nonEmpty (LLM.content response) = true ->
                   hasEntry sid (LLM.content response) st4).
    { intros _. eapply hasEntry_grows; [|exact Hg3].
      apply (record_hasEntry (assistantToolMsg response)). reflexivity. }
    assert (Hans : answered sid st st4).
    { eapply answered_trans; [exact Htake|].
      eapply answered_call; [exact Hcall| | |].
      * eapply grows_trans; [apply record_grows|exact Hg3].
      * rewrite Hl3. apply record_llmCalls.
      * intros r [= <-] Hr. now apply Hent. }
    destruct rej as [r|]; injection H as <- <-; (split; [exact Hans|]); [exact I|].
    cbn [finalFrom]. destruct (JS.nonEmpty (LLM.content response)); [right; auto|now left].
Qed.

Lemma drainIteration_answered (fr injected : string) (rest : list string)
    (st st' : State Ob) (c : Control) :
  drainIteration env cfg callbacks fr injected rest st = (c, st') ->
  answered sid st st' /\ finalFrom sid fr c st'.
Proof.
  unfold drainIteration. intros H.
  set (st1 := record env cfg (interruptMsg injected) (setInjected rest st)) in *.
  assert (Htake : answered sid st st1).
  { apply answered_quietly; [|subst st1; now rewrite record_llmCalls].
    eapply grows_trans; [|apply record_grows]. now apply grows_same. }
  destruct (callLLM env cfg callbacks st1) as [outcome st2] eqn:Hcall.
  destruct outcome as [response| |e].
  2,3: apply (f_equal snd) in H as Hst; apply (f_equal fst) in H; cbn [fst snd] in *;
       subst c st'; split; [|exact I];
       (eapply answered_trans; [exact Htake|]);
       (eapply answered_call; [exact Hcall|apply grows_refl|reflexivity|discriminate]).
  set (st3 := if JS.nonEmpty (LLM.content response)
              then record env cfg (assistantTextMsg (LLM.content response)) st2 else st2) in *.
  assert (H3 : grows sid st2 st3 /\ llmCalls st3 = llmCalls st2
               /\ (JS.nonEmpty (LLM.content response) = true ->
                   hasEntry sid (LLM.content response) st3)).
  { subst st3. destruct (JS.nonEmpty (LLM.content response)).
    - split; [apply record_grows|]. split; [apply record_llmCalls|]. intros _.
      apply (record_hasEntry (assistantTextMsg (LLM.content response))). reflexivity.
    - split; [apply grows_refl|]. split; [reflexivity|discriminate]. }
  destruct H3 as (Hg3 & Hc3 & He3).
  assert (H4 : grows sid st3 st' /\ llmCalls st' = llmCalls st3
               /\ (c = Continue 0 (if JS.nonEmpty (LLM.content response)
                                   then LLM.content response else fr)
                   \/ exists r, c = Raise r)).
  { destruct (LLM.toolCalls response) as [|tc calls].
    - injection H as <- <-. split; [apply grows_refl|]. split; [reflexivity|now left].
    - pose proof (steps_grows true _ _
                    (executeTools_steps env cfg callbacks true (tc :: calls)
                       (record env cfg (assistantToolMsg response) st3))) as Hg.
      pose proof (executeTools_llmCalls env cfg callbacks (tc :: calls)
                    (record env cfg (assistantToolMsg response) st3)) as Hl.
      destruct (executeTools env cfg callbacks (tc :: calls) _) as [rej st4].
      cbn [snd] in Hg, Hl.
      destruct rej as [r|]; injection H as <- <-;
        (split; [eapply grows_trans; [apply record_grows|exact Hg]|]);
        (split; [rewrite Hl; apply record_llmCalls|]); [right; eauto|now left]. }
  destruct H4 as (Hg4 & Hc4 & Hc). split.
  - eapply answered_trans; [exact Htake|].
    eapply answered_call; [exact Hcall|eapply grows_trans; eauto|congruence|].
    intros r [= <-] Hr. eapply hasEntry_grows; [now apply He3|exact Hg4].
  - destruct Hc as [->|[r ->]]; [|exact I].
    cbn [finalFrom]. destruct (JS.nonEmpty (LLM.content response)); [|now left].
    right. eapply hasEntry_grows; [now apply He3|exact Hg4].
Qed.

Lemma mainLoop_answered (fuel it er : nat) (fr : string) (st st' : State Ob)
    (exit : LoopExit) :
  mainLoop env cfg callbacks fuel it er fr st = Some (exit, st') ->
  answered sid st st'
  /\ (forall it' fr', exit = Done it' fr' -> fr' = fr \/ hasEntry sid fr' st').
Proof.
  revert it er fr st. induction fuel as [|fuel IH]; intros it er fr st; [discriminate|].
  cbn [mainLoop]. destruct (it <? maxIterations)%nat.
  2: { intros [= <- <-]. split; [apply answered_refl|]. intros ? ? [= _ <-]. now left. }
  destruct (mainIteration env cfg callbacks er fr st) as [c st1] eqn:Hit.
  apply mainIteration_answered in Hit as [Hans Hfin].
  destruct c as [er' fr'|fr'|r].
  - intros H. pose proof (mainLoop_steps _ _ _ _ _ _ _ _ _ _ H) as Hsteps.
    apply IH in H as [Hans' Hfin']. split; [eapply answered_trans; eauto|].
    intros it' fr'' Heq. destruct (Hfin' _ _ Heq) as [->|He]; [|now right].
    destruct Hfin as [->|He]; [now left|right].
    eapply hasEntry_grows; [exact He|]. eapply steps_grows; exact Hsteps.
  - intros [= <- <-]. split; [exact Hans|]. intros ? ? [= _ <-]. exact Hfin.
  - intros [= <- <-]. split; [exact Hans|]. discriminate.
Qed.

Lemma drainLoop_answered (fuel it : nat) (fr : string) (st st' : State Ob)
    (exit : LoopExit) :
  drainLoop env cfg callbacks fuel it fr st = Some (exit, st') ->
  answered sid st st'
  /\ (forall it' fr', exit = Done it' fr' -> fr' = fr \/ hasEntry sid fr' st').
Proof.
  revert it fr st. induction fuel as [|fuel IH]; intros it fr st; [discriminate|].
  cbn [drainLoop].
  assert (Hstop : forall e s, Some (Done it fr, st) = Some (e, s) ->
            answered sid st s
            /\ (forall it' fr', e = Done it' fr' -> fr' = fr \/ hasEntry sid fr' s)).
  { intros ? ? [= <- <-]. split; [apply answered_refl|]. intros ? ? [= _ <-]. now left. }
  destruct (injectedMessages st) as [|injected rest]; [apply Hstop|].
  destruct (it <? maxIterations)%nat; [|apply Hstop]. clear Hstop.
  destruct (drainIteration env cfg callbacks fr injected rest st) as [c st1] eqn:Hit.
  apply drainIteration_answered in Hit as [Hans Hfin].
  destruct c as [er' fr'|fr'|r].
  - intros H. pose proof (drainLoop_steps _ _ _ _ _ _ _ _ _ H) as Hsteps.
    apply IH in H as [Hans' Hfin']. split; [eapply answered_trans; eauto|].
    intros it' fr'' Heq. destruct (Hfin' _ _ Heq) as [->|He]; [|now right].
    destruct Hfin as [->|He]; [now left|right].
    eapply hasEntry_grows; [exact He|]. eapply steps_grows; exact Hsteps.
  - intros [= <- <-]. split; [exact Hans|]. intros ? ? [= _ <-]. exact Hfin.
  - intros [= <- <-]. split; [exact Hans|]. discriminate.
Qed.

End Transcript.

(** *** Injected messages and the transcript *)

Section Injection.
Context {Ob : Type}.
Variable env : Env Ob.
Variable cfg : Config.
Variable callbacks : AgentCallbacks Ob.
Variable sid : string.
Hypothesis bound : sessionId cfg = Some sid.
Hypothesis onlyInjects : injectOnly env.

Lemma unstamp_stamp (m : LLMMessage) (now : Z) : unstamp (stamp m now) = m.
Proof. now destruct m. Qed.

Lemma accounted_refl (b : bool) (x : State Ob) : accounted sid b x x.
Proof.
  exists [], [], [], []. rewrite !app_nil_r. repeat split; try reflexivity. now destruct b.
Qed.

Lemma accounted_trans (b : bool) (x y z : State Ob) :
  accounted sid b x y -> accounted sid b y z -> accounted sid b x z.
Proof.
  intros (c1 & a1 & d1 & r1 & Hm1 & Ht1 & Hu1 & Hf1 & Hq1)
         (c2 & a2 & d2 & r2 & Hm2 & Ht2 & Hu2 & Hf2 & Hq2).
  exists (c1 ++ c2)%list, (a1 ++ a2)%list, (d1 ++ d2)%list, (r1 ++ r2)%list.
  split; [now rewrite Hm2, Hm1, app_assoc|].
  split; [now rewrite Ht2, Ht1, app_assoc|].
  split; [rewrite List.map_app, Hu1, Hu2; destruct b; [reflexivity|];
          now rewrite List.filter_app|].
  split; [now rewrite List.filter_app, Hf1, Hf2, List.map_app|].
  rewrite <- app_assoc, Hq2, app_assoc, Hq1, app_assoc. reflexivity.
Qed.

(** A change that touches neither conversation nor transcript and lets
    messages arrive. *)
Lemma accounted_idle (b : bool) (x y : State Ob) (arrived : list string) :
  messages y = messages x -> sm y = sm x ->
  injectedMessages y = (injectedMessages x ++ arrived)%list ->
  accounted sid b x y.
Proof.
  intros Hm Hs Hq. exists [], [], [], arrived. rewrite Hm, Hs, !app_nil_r.
  repeat split; try reflexivity; [now destruct b|exact Hq].
Qed.

Lemma record_transcript (m : LLMMessage) (x : State Ob) :
  loadTranscript sid (sm (record env cfg m x))
  = (loadTranscript sid (sm x) ++ [stamp m (clock env (tick x))])%list.
Proof.
  unfold record, persistMessage. rewrite bound. cbn [sm setSm pushMessage setMessages tick].
  rewrite loadTranscript_appendMessage. now rewrite decide_True.
Qed.

Lemma record_injected (m : LLMMessage) (x : State Ob) :
  injectedMessages (record env cfg m x) = injectedMessages x.
Proof. unfold record, persistMessage. now rewrite bound. Qed.

(** Recording a message that is not a user entry. *)
Lemma accounted_record (b : bool) (m : LLMMessage) (x : State Ob) :
  role m <> user -> accounted sid b x (record env cfg m x).
Proof.
  intros Hrole. exists [m], [stamp m (clock env (tick x))], [], [].
  assert (Hu : isUser m = false).
  { unfold isUser. destruct (role m); [reflexivity|now elim Hrole|reflexivity|reflexivity]. }
  rewrite record_messages, record_transcript, record_injected, app_nil_r.
  cbn [List.map List.filter]. rewrite unstamp_stamp, Hu.
  repeat split; try reflexivity. now destruct b.
Qed.

Lemma externals_onlyInjects (es : list External) (x : State Ob) :
  (forall e, In e es -> exists text, e = Inject text) ->
  sm (List.fold_left applyExternal es x) = sm x
  /\ exists arrived,
       injectedMessages (List.fold_left applyExternal es x)
       = (injectedMessages x ++ arrived)%list.
Proof.
  revert x. induction es as [|e es IH]; intros x Hes; simpl.
  - split; [reflexivity|]. exists []. now rewrite app_nil_r.
  - destruct (Hes e (or_introl eq_refl)) as [text ->].
    destruct (IH (applyExternal x (Inject text)) (fun e' H => Hes e' (or_intror H)))
      as [Hs [arrived Hq]].
    split; [now rewrite Hs|]. exists (text :: arrived). rewrite Hq. cbn.
    now rewrite <- app_assoc.
Qed.

Lemma accounted_suspend (b : bool) (x : State Ob) : accounted sid b x (suspend env x).
Proof.
  destruct (externals_onlyInjects (meanwhile env (tick x)) x (onlyInjects (tick x)))
    as [Hs [arrived Hq]].
  apply (accounted_idle b _ _ arrived); [apply suspend_messages|exact Hs|exact Hq].
Qed.

Lemma notify_injected (f : option (Ob -> Ob)) (x : State Ob) :
  injectedMessages (notify f x) = injectedMessages x.
Proof. now destruct f. Qed.

Lemma stream_injected (es : list LLM.StreamEvent) (x : State Ob) :
  injectedMessages (List.fold_left (streamCallback callbacks) es x) = injectedMessages x.
Proof.
  revert x. induction es as [|e es IH]; intros x; simpl; [reflexivity|].
  rewrite IH. destruct e; simpl; apply notify_injected.
Qed.

Lemma accounted_call (b : bool) (x : State Ob) :
  accounted sid b x (snd (callLLM env cfg callbacks x)).
Proof.
  unfold callLLM. destruct (chat env _ _ _) as [events outcome]. cbn [snd].
  eapply accounted_trans; [|apply accounted_suspend].
  apply (accounted_idle b _ _ []);
    [now rewrite stream_messages|now rewrite stream_sm
    |now rewrite stream_injected, app_nil_r].
Qed.

Lemma step_accounted (b : bool) (x y : State Ob) :
  step env cfg callbacks b x y -> accounted sid b x y.
Proof.
  destruct 1 as [x injected rest Hb Hq|x injected rest Hb Hq|x m Hrole|x|x|x t input
                |x name output].
  - subst b. exists [interruptMsg injected], [], [injected], [].
    rewrite Hq, !app_nil_r. repeat split; reflexivity.
  - subst b. exists [interruptMsg injected],
                    [stamp (interruptMsg injected) (clock env (tick x))], [injected], [].
    rewrite record_messages, record_transcript, record_injected, Hq, app_nil_r.
    repeat split; reflexivity.
  - now apply accounted_record.
  - apply accounted_call.
  - apply accounted_suspend.
  - apply (accounted_idle b _ _ []); [reflexivity|reflexivity|cbn; now rewrite app_nil_r].
  - apply (accounted_idle b _ _ []);
      [apply notify_messages|apply notify_sm|now rewrite notify_injected, app_nil_r].
Qed.

Lemma steps_accounted (b : bool) (x y : State Ob) :
  rtc (step env cfg callbacks b) x y -> accounted sid b x y.
Proof.
  apply steps_within; [apply accounted_refl|apply accounted_trans|apply step_accounted].
Qed.

Lemma finish_accounted (b : bool) (exit : LoopExit) (x : State Ob) :
  accounted sid b x (snd (finish callbacks exit x)).
Proof.
  apply (accounted_idle b _ _ []); [apply finish_state|apply finish_sm|].
  rewrite app_nil_r.
  destruct exit as [it fr|[|e]]; simpl; try reflexivity. now destruct (onComplete callbacks).
Qed.

End Injection.

(** The second loop has nothing to take when the main loop has run to
    its end: the main loop leaves at [break] only with an empty queue, and
    otherwise with the bound on [iterations] reached. *)
Lemma second_loop_after_main {Ob} (env : Env Ob) (cfg : Config) (callbacks : AgentCallbacks Ob)
    (fuel fuel' it er it' : nat) (fr fr' : string) (st mid : State Ob) :
  mainLoop env cfg callbacks fuel it er fr st = Some (Done it' fr', mid) ->
  drainLoop env cfg callbacks (S fuel') it' fr' mid = Some (Done it' fr', mid).
Proof.
  revert it er fr st. induction fuel as [|fuel IH]; intros it er fr st; [discriminate|].
  cbn [mainLoop]. destruct (Nat.ltb_spec it maxIterations) as [Hlt|Hge].
  - destruct (mainIteration env cfg callbacks er fr st) as [c st1] eqn:Hit.
    destruct c as [er1 fr1|fr1|r]; [apply IH| |discriminate].
    intros [= <- <- <-]. cbn [drainLoop].
    assert (Hq : injectedMessages st1 = []).
    { unfold mainIteration in Hit.
      destruct (callLLM env cfg callbacks (takeInjected st)) as [[response| |e] st2];
        try discriminate.
      destruct (LLM.toolCalls response);
        [|destruct (executeTools env cfg callbacks _ _) as [[r|] st3]; discriminate].
      destruct (JS.nonEmpty (LLM.content response)).
      - destruct (injectedMessages (record env cfg _ st2)) eqn:Hq; [|discriminate].
        injection Hit as _ <-. exact Hq.
      - destruct (er <? 2)%nat; [discriminate|].
        destruct (injectedMessages st2) eqn:Hq; [|discriminate].
        injection Hit as _ <-. exact Hq. }
    now rewrite Hq.
  - intros [= <- <- <-]. cbn [drainLoop]. destruct (injectedMessages st); [reflexivity|].
    destruct (Nat.ltb_spec it maxIterations); [lia|reflexivity].
Qed.

(** C9: in a run of a runner bound to a session, with no other task
    writing to the transcript, the main loop adds to the conversation an
    interrupt entry [[INTERRUPT] New message from user: <text>] for each
    message it takes from the head of the injected queue and nothing else
    that is a user entry, while the transcript receives exactly the other
    entries added to the conversation, none of the interrupt entries. The
    second loop, from whatever state it starts, persists all it adds to the
    conversation, its interrupt entries included. *)
Theorem C9_main_loop_does_not_persist_interrupts :
  forall (Ob : Type) (env : Env Ob) (cfg : Config) (callbacks : AgentCallbacks Ob)
         (userMessage : string) (source : Source) (st : State Ob) (sid : string),
    sessionId cfg = Some sid -> injectOnly env ->
    (exists exit mid result st',
        mainLoop env cfg callbacks (S maxIterations) 0 0 ""
                 (prepare env cfg userMessage source st) = Some (exit, mid)
        /\ accounted sid false (prepare env cfg userMessage source st) mid
        /\ run env cfg callbacks userMessage source st = Some (result, st')
        /\ accounted sid true mid st')
    /\ (forall (it : nat) (fr : string) (x : State Ob),
          exists exit y,
            drainLoop env cfg callbacks (S maxIterations) it fr x = Some (exit, y)
            /\ accounted sid true x y).
Proof.
  intros Ob env cfg callbacks userMessage source st sid Hsid Honly.
  assert (Hsecond : forall (it : nat) (fr : string) (x : State Ob),
            exists exit y,
              drainLoop env cfg callbacks (S maxIterations) it fr x = Some (exit, y)
              /\ accounted sid true x y).
  { intros it fr x.
    destruct (drainLoop_total env cfg callbacks (S maxIterations) it fr x)
      as (exit & y & Hdrain & _); [unfold maxIterations; lia|].
    exists exit, y. split; [exact Hdrain|].
    eapply steps_accounted; eauto. eapply drainLoop_steps; exact Hdrain. }
  split; [|exact Hsecond].
  unfold run. set (st0 := prepare env cfg userMessage source st).
  destruct (mainLoop_total env cfg callbacks (S maxIterations) 0 0 "" st0)
    as (exit & mid & Hmain & _); [unfold maxIterations; lia|].
  rewrite Hmain.
  assert (Hacc : accounted sid false st0 mid).
  { eapply steps_accounted; eauto. eapply mainLoop_steps; exact Hmain. }
  destruct exit as [it fr|r].
  - destruct (Hsecond it fr mid) as (exit2 & st2 & Hdrain & Hacc2). rewrite Hdrain.
    destruct (finish callbacks exit2 st2) as [result st3] eqn:Hfin.
    exists (Done it fr), mid, result, st3. repeat split; try assumption; try reflexivity.
    eapply accounted_trans; [exact Hacc2|].
    pose proof (finish_accounted callbacks sid true exit2 st2) as Hf.
    now rewrite Hfin in Hf.
  - destruct (finish callbacks (Rejected r) mid) as [result st3] eqn:Hfin.
    exists (Rejected r), mid, result, st3. repeat split; try assumption; try reflexivity.
    pose proof (finish_accounted callbacks sid true (Rejected r) mid) as Hf.
    now rewrite Hfin in Hf.
Qed.

(** The theorem at a run into which the user steers while a tool runs. *)
Lemma C9_witness :
  exists exit mid result st',
    mainLoop Scenarios.steerEnv Scenarios.plainConfig noCallbacks (S maxIterations) 0 0 ""
             (prepare Scenarios.steerEnv Scenarios.plainConfig "list files" FromUser
                      Scenarios.idle) = Some (exit, mid)
    /\ accounted "s1" false
         (prepare Scenarios.steerEnv Scenarios.plainConfig "list files" FromUser Scenarios.idle)
         mid
    /\ run Scenarios.steerEnv Scenarios.plainConfig noCallbacks "list files" FromUser
           Scenarios.idle = Some (result, st')
    /\ accounted "s1" true mid st'.
Proof.
  refine (proj1 (C9_main_loop_does_not_persist_interrupts unit Scenarios.steerEnv
                   Scenarios.plainConfig noCallbacks "list files" FromUser Scenarios.idle
                   "s1" eq_refl _)).
  intros n e. destruct n as [|[|n]]; simpl; intros H; try contradiction.
  destruct H as [<-|[]]. eauto.
Defined.

End RunnerFacts.

(** ** Gateway: what the completion callback sends *)

Module GatewayFacts.

Import Sessions Runner Gateway RunnerFacts.

Section Quiet.
Variable registered : gset string.
Variable env : Env Observer.
Variable cfg : Config.
Variable msg : Message.

Abbreviation cb := (callbacks registered msg).

Lemma persistMessage_obs (m : LLMMessage) (x : State Observer) :
  obs (persistMessage env cfg m x) = obs x.
Proof. unfold persistMessage. now destruct (Runner.sessionId cfg). Qed.

Lemma record_obs (m : LLMMessage) (x : State Observer) : obs (record env cfg m x) = obs x.
Proof. unfold record. now rewrite persistMessage_obs. Qed.

Lemma externals_obs (es : list External) (x : State Observer) :
  obs (List.fold_left applyExternal es x) = obs x.
Proof.
  revert x. induction es as [|e es IH]; intros x; simpl; [reflexivity|].
  rewrite IH. now destruct e.
Qed.

Lemma suspend_obs (x : State Observer) : obs (suspend env x) = obs x.
Proof. unfold suspend. simpl. apply externals_obs. Qed.

Lemma prepare_obs (userMessage : string) (source : Source) (x : State Observer) :
  obs (prepare env cfg userMessage source x) = obs x.
Proof.
  unfold prepare. rewrite record_obs.
  assert (Hs : forall y : State Observer, obs (syncTranscript cfg y) = obs y).
  { intros y. unfold syncTranscript. destruct (Runner.sessionId cfg); [|reflexivity].
    now destruct (_ <? _)%nat. }
  destruct (messages (syncTranscript cfg (setRunning true x)));
    [rewrite record_obs|]; now rewrite Hs.
Qed.

Lemma prepare_answered (sid : string) (userMessage : string) (source : Source)
    (x : State Observer) :
  answered sid x (prepare env cfg userMessage source x).
Proof.
  apply answered_quietly; [|apply prepare_llmCalls].
  unfold prepare. eapply grows_trans; [|apply record_grows].
  assert (Hs : forall y : State Observer, sm (syncTranscript cfg y) = sm y).
  { intros y. unfold syncTranscript. destruct (Runner.sessionId cfg); [|reflexivity].
    now destruct (_ <? _)%nat. }
  destruct (messages (syncTranscript cfg (setRunning true x))).
  - eapply grows_trans; [|apply record_grows]. apply grows_same. now rewrite Hs.
  - apply grows_same. now rewrite Hs.
Qed.

(** *** The calls made on channels while the loops run

    [P] holds of the streaming helpers and of whatever the tools of the
    environment add. *)
Section Added.
Variable P : ChannelOp -> Prop.
Hypothesis helpers : forall op, isChannelSend op = false -> P op.
Hypothesis tools :
  forall n t input ctx o, exists added,
    ops (snd (execute env n t input ctx o)) = (ops o ++ added)%list /\ List.Forall P added.

Lemma addedOnly_refl (x : State Observer) : addedOnly P x x.
Proof. exists []. split; [now rewrite app_nil_r|constructor]. Qed.

Lemma addedOnly_trans (x y z : State Observer) :
  addedOnly P x y -> addedOnly P y z -> addedOnly P x z.
Proof.
  intros (a & Ha & Hfa) (b & Hb & Hfb). exists (a ++ b)%list.
  split; [now rewrite Hb, Ha, app_assoc|]. apply List.Forall_app. now split.
Qed.

Lemma addedOnly_same (x y : State Observer) : ops (obs y) = ops (obs x) -> addedOnly P x y.
Proof. intros H. exists []. split; [now rewrite H, app_nil_r|constructor]. Qed.

Lemma addedOnly_helper (x y : State Observer) (op : ChannelOp) :
  isChannelSend op = false -> ops (obs y) = (ops (obs x) ++ [op])%list -> addedOnly P x y.
Proof. intros Hop H. exists [op]. split; [exact H|]. constructor; [now apply helpers|constructor]. Qed.

Lemma streamCallback_added (x : State Observer) (e : LLM.StreamEvent) :
  addedOnly P x (streamCallback cb x e).
Proof.
  destruct e as [text|name input]; cbn; destruct (isWebsocket msg).
  - eapply addedOnly_helper; [|reflexivity]. reflexivity.
  - now apply addedOnly_same.
  - eapply addedOnly_helper; [|reflexivity]. reflexivity.
  - now apply addedOnly_same.
Qed.

Lemma stream_added (es : list LLM.StreamEvent) (x : State Observer) :
  addedOnly P x (List.fold_left (streamCallback cb) es x).
Proof.
  revert x. induction es as [|e es IH]; intros x; simpl; [apply addedOnly_refl|].
  eapply addedOnly_trans; [apply streamCallback_added|apply IH].
Qed.

Lemma callLLM_added (x : State Observer) : addedOnly P x (snd (callLLM env cfg cb x)).
Proof.
  unfold callLLM. destruct (chat env _ _ _) as [events outcome]. cbn [snd].
  eapply addedOnly_trans; [|apply addedOnly_same; now rewrite suspend_obs].
  eapply addedOnly_trans; [|apply stream_added]. now apply addedOnly_same.
Qed.

Lemma step_added (b : bool) (x y : State Observer) : step env cfg cb b x y -> addedOnly P x y.
Proof.
  destruct 1 as [x injected rest Hb Hq|x injected rest Hb Hq|x m Hrole|x|x|x t input
                |x name output].
  - now apply addedOnly_same.
  - apply addedOnly_same. now rewrite record_obs.
  - apply addedOnly_same. now rewrite record_obs.
  - apply callLLM_added.
  - apply addedOnly_same. now rewrite suspend_obs.
  - destruct (tools (tick x) t input (toolContext cfg) (obs x)) as (added & Hops & Hall).
    exists added. split; [exact Hops|exact Hall].
  - cbn. destruct (isWebsocket msg); [|now apply addedOnly_same].
    eapply addedOnly_helper; [|reflexivity]. reflexivity.
Qed.

Lemma steps_added (b : bool) (x y : State Observer) :
  rtc (step env cfg cb b) x y -> addedOnly P x y.
Proof.
  apply steps_within; [apply addedOnly_refl|apply addedOnly_trans|apply step_added].
Qed.

(** From the start of a turn to the end of its last loop. *)
Lemma loops_added (st : State Observer) (exit1 exit2 : LoopExit)
    (mid last : State Observer) :
  mainLoop env cfg cb (S maxIterations) 0 0 ""
           (prepare env cfg (text msg) (sourceOf msg) (setObs (mkObserver [] (ops (obs st))) st))
  = Some (exit1, mid) ->
  ((exists it fr, exit1 = Done it fr
                  /\ drainLoop env cfg cb (S maxIterations) it fr mid = Some (exit2, last))
   \/ (exists r, exit1 = Rejected r /\ exit2 = Rejected r /\ last = mid)) ->
  addedOnly P st last.
Proof.
  intros Hmain Hsecond.
  set (st0 := setObs (mkObserver [] (ops (obs st))) st) in *.
  set (stp := prepare env cfg (text msg) (sourceOf msg) st0) in *.
  apply (addedOnly_trans _ stp); [apply addedOnly_same; subst stp; now rewrite prepare_obs|].
  apply (addedOnly_trans _ mid);
    [eapply steps_added; eapply mainLoop_steps; exact Hmain|].
  destruct Hsecond as [(it & fr & _ & Hdrain)|(r & _ & _ & ->)]; [|apply addedOnly_refl].
  eapply steps_added. eapply drainLoop_steps. exact Hdrain.
Qed.

End Added.

(** What [sendToSession] calls add: sends without tool calls. *)
Lemma deliver_ops (sends : list GatewaySend) (o : Observer) :
  exists added,
    ops (List.fold_left (fun o' s => deliver registered s o') sends o) = (ops o ++ added)%list
    /\ List.Forall (fun op => isToolSend op = true) added
    /\ collected (List.fold_left (fun o' s => deliver registered s o') sends o) = collected o.
Proof.
  revert o. induction sends as [|s sends IH]; intros o; cbn [List.fold_left].
  - exists []. split; [now rewrite app_nil_r|]. split; [constructor|reflexivity].
  - destruct (IH (deliver registered s o)) as (added & Hops & Hall & Hcol).
    unfold deliver, channelsSend in *. destruct (bool_decide _).
    + eexists (_ :: added). cbn [addOp ops collected] in *.
      split; [rewrite Hops, <- app_assoc; reflexivity|].
      split; [constructor; [reflexivity|exact Hall]|exact Hcol].
    + exists added. auto.
Qed.

(** With tools that reach the channels through the gateway reference,
    the loops make streaming calls and the sends of the tools only. *)
Lemma loops_onlyToolsSent (st : State Observer) (exit1 exit2 : LoopExit)
    (mid last : State Observer) :
  sendsThroughGateway registered env ->
  mainLoop env cfg cb (S maxIterations) 0 0 ""
           (prepare env cfg (text msg) (sourceOf msg) (setObs (mkObserver [] (ops (obs st))) st))
  = Some (exit1, mid) ->
  ((exists it fr, exit1 = Done it fr
                  /\ drainLoop env cfg cb (S maxIterations) it fr mid = Some (exit2, last))
   \/ (exists r, exit1 = Rejected r /\ exit2 = Rejected r /\ last = mid)) ->
  onlyToolsSent st last.
Proof.
  intros Hgate. apply loops_added; [now left|].
  intros n t input ctx o. destruct (Hgate n t input ctx o) as [sends Hs].
  destruct (deliver_ops sends o) as (added & Hops & Hall & _).
  exists added. rewrite Hs. split; [exact Hops|].
  eapply List.Forall_impl; [|exact Hall]. now right.
Qed.

(** With tools that send nothing, the loops call no [channel.send]. *)
Lemma loops_quiet (st : State Observer) (exit1 exit2 : LoopExit)
    (mid last : State Observer) :
  sendsNothing env ->
  mainLoop env cfg cb (S maxIterations) 0 0 ""
           (prepare env cfg (text msg) (sourceOf msg) (setObs (mkObserver [] (ops (obs st))) st))
  = Some (exit1, mid) ->
  ((exists it fr, exit1 = Done it fr
                  /\ drainLoop env cfg cb (S maxIterations) it fr mid = Some (exit2, last))
   \/ (exists r, exit1 = Rejected r /\ exit2 = Rejected r /\ last = mid)) ->
  quiet st last.
Proof.
  intros Hnone. apply loops_added; [auto|].
  intros n t input ctx o. exists []. rewrite Hnone, app_nil_r. split; [reflexivity|constructor].
Qed.

(** The completion callback sends nothing for a sentinel. *)
Lemma finish_sentinel (it : nat) (fr : string) (x : State Observer) (text : string)
    (y : State Observer) :
  finish cb (Done it fr) x = (Returned text, y) ->
  String.eqb (JS.trim text) "NO_REPLY" || String.eqb (JS.trim text) "(done)" = true ->
  obs y = obs x.
Proof.
  cbn [finish callbacks onComplete option_map notify]. intros [= <- <-] Hsup.
  cbn. now rewrite Hsup.
Qed.

End Quiet.

(** C8, as the code has it: the turn of a runner ends; when its final
    response, trimmed, is [NO_REPLY] or [(done)], the completion callback
    of the gateway calls no [channel.send]: completing with that response
    leaves the channels as they were at the end of the loops, whatever
    that state is; so with tools that reach the channels through
    [sendToSession], every [channel.send] of the turn is such a send of a
    tool (the other calls are streaming helpers of the websocket channel),
    and with tools that send nothing there is no [channel.send] in the
    turn at all. For a runner bound to a session,
    the transcript of the session holds, for every response of the model
    that carries text, an assistant entry with exactly that text; the final
    response itself is such an entry unless it is the fallback [(done)] or
    the mark [(aborted)]. *)
Theorem C8_sentinel_reply_is_not_sent :
  forall (registered : gset string) (env : Env Observer) (cfg : Config) (msg : Message)
         (st : State Observer),
    exists result st',
      run env cfg (callbacks registered msg) (text msg) (sourceOf msg)
          (setObs (mkObserver [] (ops (obs st))) st) = Some (result, st')
      /\ (forall final, result = Returned final ->
            processMessageRun registered env cfg msg st = Some st'
            /\ (String.eqb (JS.trim final) "NO_REPLY" || String.eqb (JS.trim final) "(done)"
                = true ->
                (forall (it : nat) (fr : string) (x y : State Observer),
                    finish (callbacks registered msg) (Done it fr) x = (Returned final, y) ->
                    obs y = obs x)
                /\ (sendsThroughGateway registered env -> onlyToolsSent st st')
                /\ (sendsNothing env -> quiet st st')))
      /\ (forall sid, Runner.sessionId cfg = Some sid ->
            (forall final, result = Returned final ->
               final = "(done)" \/ final = "(aborted)" \/ hasEntry sid final st')
            /\ exists new, llmCalls st' = (llmCalls st ++ new)%list
                           /\ List.Forall (answeredIn sid st') new).
Proof.
  intros registered env cfg msg st.
  set (cb := callbacks registered msg).
  set (st0 := setObs (mkObserver [] (ops (obs st))) st).
  destruct (run_phases env cfg cb (text msg) (sourceOf msg) st0)
    as (exit1 & mid & exit2 & last & Hmain & Hsecond & Hrun).
  set (stp := prepare env cfg (text msg) (sourceOf msg) st0) in *.
  destruct (finish cb exit2 last) as [result st3] eqn:Hfin.
  pose proof (finish_sm cb exit2 last) as Hsm. pose proof (finish_llmCalls cb exit2 last) as Hll.
  rewrite Hfin in Hsm, Hll. cbn [snd] in Hsm, Hll.
  exists result, st3. split; [exact Hrun|]. split.
  - intros final ->. split.
    + unfold processMessageRun. fold cb st0. now rewrite Hrun.
    + intros Hsup.
      assert (Hobs : ops (obs st3) = ops (obs last)).
      { destruct exit2 as [it fr|[|e]].
        - now rewrite (finish_sentinel registered msg it fr last final st3 Hfin Hsup).
        - cbn in Hfin. now injection Hfin as _ <-.
        - discriminate. }
      split; [|split].
      * intros it fr x y Hfinish.
        exact (finish_sentinel registered msg it fr x final y Hfinish Hsup).
      * intros Hgate.
        destruct (loops_onlyToolsSent registered env cfg msg st exit1 exit2 mid last Hgate
                    Hmain Hsecond) as (added & Hops & Hall).
        exists added. split; [now rewrite Hobs|exact Hall].
      * intros Hnone.
        destruct (loops_quiet registered env cfg msg st exit1 exit2 mid last Hnone
                    Hmain Hsecond) as (added & Hops & Hall).
        exists added. split; [now rewrite Hobs|exact Hall].
  - intros sid Hsid.
    destruct (mainLoop_answered env cfg cb sid Hsid _ _ _ _ _ _ _ Hmain) as [Ha1 Hf1].
    assert (Ha0 : answered sid st stp).
    { eapply answered_trans; [|apply prepare_answered].
      apply answered_quietly; [now apply grows_same|reflexivity]. }
    assert (H2 : answered sid mid last
                 /\ (forall it' fr', exit2 = Done it' fr' -> fr' = "" \/ hasEntry sid fr' last)).
    { destruct Hsecond as [(it & fr & -> & Hdrain)|(r & -> & -> & ->)].
      - destruct (drainLoop_answered env cfg cb sid Hsid _ _ _ _ _ _ Hdrain) as [Ha2 Hf2].
        split; [exact Ha2|]. intros it' fr' Heq.
        destruct (Hf2 _ _ Heq) as [->|He]; [|now right].
        destruct (Hf1 _ _ eq_refl) as [->|He]; [now left|right].
        eapply hasEntry_grows; [exact He|]. eapply steps_grows.
        eapply drainLoop_steps. exact Hdrain.
      - split; [apply answered_refl|discriminate]. }
    destruct H2 as [Ha2 Hf2]. split.
    + intros final ->. destruct exit2 as [it fr|[|e]].
      * cbn [finish] in Hfin. injection Hfin as Hfinal _.
        destruct (JS.nonEmpty (JS.trim fr)) eqn:Hne; [|now left].
        subst final. destruct (Hf2 _ _ eq_refl) as [->|He]; [discriminate|].
        right. right. destruct He as (e & Hin & He). exists e. now rewrite Hsm.
      * cbn in Hfin. injection Hfin as <- _. right. now left.
      * discriminate.
    + destruct (answered_trans _ _ _ _ Ha0 (answered_trans _ _ _ _ Ha1 Ha2))
        as [_ (new & Hc & Hfa)].
      exists new. split; [now rewrite Hll|].
      eapply List.Forall_impl; [|exact Hfa]. intros c Hc' r Hr Hne.
      destruct (Hc' r Hr Hne) as (e & Hin & He). exists e. now rewrite Hsm.
Qed.

(** The theorem at an announce trigger that the model answers with
    [NO_REPLY], a no-break space and a line break: nothing is sent, and
    the transcript holds the answer as it came. *)
Lemma C8_witness :
  exists st',
    processMessageRun Scenarios.registeredChannels Scenarios.noReplyEnv Scenarios.plainConfig
                      Scenarios.announceMessage Scenarios.gatewayIdle = Some st'
    /\ onlyToolsSent Scenarios.gatewayIdle st'
    /\ quiet Scenarios.gatewayIdle st'
    /\ obs (snd (finish (callbacks Scenarios.registeredChannels Scenarios.announceMessage)
                        (Done 1 ("NO_REPLY" ++ JS.nbsp ++ JS.nl)) Scenarios.gatewayIdle))
       = obs Scenarios.gatewayIdle
    /\ hasEntry "s1" ("NO_REPLY" ++ JS.nbsp ++ JS.nl) st'.
Proof.
  destruct (C8_sentinel_reply_is_not_sent Scenarios.registeredChannels Scenarios.noReplyEnv
              Scenarios.plainConfig Scenarios.announceMessage Scenarios.gatewayIdle)
    as (result & st' & Hrun & Hret & Hbound).
  assert (Hres : result = Returned ("NO_REPLY" ++ JS.nbsp ++ JS.nl)).
  { vm_compute in Hrun. injection Hrun as <- _. reflexivity. }
  destruct (Hret _ Hres) as (Hproc & Hsent).
  destruct (Hsent eq_refl) as (Hfinish & Htools & Hquiet).
  destruct (Hbound "s1" eq_refl) as (Hentry & _).
  exists st'. split; [exact Hproc|]. split; [|split; [|split]].
  - apply Htools. intros n t input ctx o. exists []. reflexivity.
  - apply Hquiet. intros n t input ctx o. reflexivity.
  - apply (Hfinish 1%nat ("NO_REPLY" ++ JS.nbsp ++ JS.nl) Scenarios.gatewayIdle). reflexivity.
  - destruct (Hentry _ Hres) as [H|[H|H]]; [discriminate H|discriminate H|exact H].
Defined.

(** The environment of the delivering turn does what the session_send
    tool does on the store with the web session: the tool appends its text
    to the transcript, [sendToSession] appends it once more, and the
    websocket channel receives it. *)
Lemma delivering_as_sessionSend (o : Observer) :
  SendTools.sessionSend (Some Scenarios.registeredChannels) Scenarios.deliveredText "s1"
                        1500 1501 Scenarios.webStore o
  = (SendTools.Sent "s1" (Some "Session 1"),
     sm (List.fold_left applyExternal (meanwhile Scenarios.deliveringEnv 1)
                        Scenarios.gatewayBound),
     snd (execute Scenarios.deliveringEnv 1 Tools.sessionSendTool Scenarios.deliveredInput
                  None o)).
Proof.
  assert (Hstore : fst (fst (SendTools.sessionSend (Some Scenarios.registeredChannels)
                               Scenarios.deliveredText "s1" 1500 1501 Scenarios.webStore o))
                   = SendTools.Sent "s1" (Some "Session 1")
                   /\ snd (fst (SendTools.sessionSend (Some Scenarios.registeredChannels)
                                  Scenarios.deliveredText "s1" 1500 1501 Scenarios.webStore o))
                      = sm (List.fold_left applyExternal (meanwhile Scenarios.deliveringEnv 1)
                                           Scenarios.gatewayBound)).
  { split; vm_compute; reflexivity. }
  destruct Hstore as [H1 H2].
  destruct (SendTools.sessionSend _ _ _ _ _ _ o) as [[r sm'] o'] eqn:Hsend.
  cbn [fst snd] in H1, H2. subst r sm'. f_equal.
  apply (f_equal snd) in Hsend. cbn [snd] in Hsend. rewrite <- Hsend. reflexivity.
Qed.

(** C8 fails as stated: a turn whose final response is [NO_REPLY] and in
    which [channel.send] is called. The model first asks for the
    session_send tool, the tool calls [sendToSession], which calls
    [channels.send] for the websocket channel, and the model then answers
    [NO_REPLY]: the completion callback sends nothing, and the channel has
    received the message of the tool. *)
Lemma C8_counterexample :
  exists st',
    run Scenarios.deliveringEnv Scenarios.plainConfig
        (callbacks Scenarios.registeredChannels Scenarios.announceMessage)
        (text Scenarios.announceMessage) (sourceOf Scenarios.announceMessage)
        Scenarios.gatewayBound = Some (Returned "NO_REPLY", st')
    /\ processMessageRun Scenarios.registeredChannels Scenarios.deliveringEnv
                         Scenarios.plainConfig Scenarios.announceMessage Scenarios.gatewayBound
       = Some st'
    /\ String.eqb (JS.trim "NO_REPLY") "NO_REPLY" = true
    /\ List.filter isChannelSend (ops (obs st'))
       = [ChannelSend "websocket" "websocket:abc" (mkReply Scenarios.deliveredText None)]
    /\ ~ quiet Scenarios.gatewayBound st'.
Proof.
  eexists. split; [vm_compute; reflexivity|].
  split; [vm_compute; reflexivity|].
  split; [reflexivity|].
  split; [vm_compute; reflexivity|].
  intros (added & Hops & Hall). vm_compute in Hops.
  destruct added as [|a1 [|a2 [|a3 [|a4 [|a5 rest]]]]]; try discriminate Hops.
  injection Hops as <- <- <- <-.
  apply List.Forall_cons_iff in Hall as [_ Hall].
  apply List.Forall_cons_iff in Hall as [H _]. discriminate H.
Qed.

End GatewayFacts.

(** ** Announce queue *)

Module AnnounceFacts.

Import Announce.

#[local] Arguments buildCollectedTriggerMessage : simpl never.
#[local] Arguments buildTriggerMessage : simpl never.

Lemma advance_none (fuel : nat) (duration : nat -> Z) (now : Z) (st : t) :
  earliest st = None -> advance fuel duration now st = st.
Proof. intros H. destruct fuel; simpl; [reflexivity|]. now rewrite H. Qed.

Lemma advance_due (fuel : nat) (duration : nat -> Z) (now : Z) (st : t) (p : Pending) :
  earliest st = Some p -> pendingTime p <= now ->
  advance (S fuel) duration now st = advance fuel duration now (runPending duration p st).
Proof.
  intros H Hle. simpl. rewrite H.
  destruct (Z.leb_spec (pendingTime p) now); [reflexivity|lia].
Qed.

Lemma advance_early (fuel : nat) (duration : nat -> Z) (now : Z) (st : t) (p : Pending) :
  earliest st = Some p -> now < pendingTime p -> advance fuel duration now st = st.
Proof.
  intros H Hlt. destruct fuel; simpl; [reflexivity|]. rewrite H.
  destruct (Z.leb_spec (pendingTime p) now); [lia|reflexivity].
Qed.

Lemma enqueue_first (now : Z) (p : AnnounceParams) (f : string) (h : nat)
    (trig : list TriggerCall) :
  enqueueAnnounce now p f (mkState ∅ [] h true trig [])
  = single (requesterSessionKey p) (mkQueue [mkQueued p f now] (Some h) false)
           [mkTimer h (now + DEBOUNCE_MS) (requesterSessionKey p) (requesterChannel p)]
           (S h) trig [].
Proof.
  unfold enqueueAnnounce, single. cbn [queues timers nextHandle hasGateway triggered inFlight].
  rewrite lookup_empty. cbn. now rewrite insert_empty.
Qed.

Lemma enqueue_more (now : Z) (p : AnnounceParams) (f : string) (q : AnnounceQueue)
    (tms : list Timer) (h : nat) (trig : list TriggerCall) (fl : list InFlight) :
  enqueueAnnounce now p f (single (requesterSessionKey p) q tms h trig fl)
  = single (requesterSessionKey p)
           (mkQueue (items q ++ [mkQueued p f now]) (Some h) (draining q))
           ((match debounceTimer q with Some h0 => clearTimeout h0 tms | None => tms end)
              ++ [mkTimer h (now + DEBOUNCE_MS) (requesterSessionKey p) (requesterChannel p)])
           (S h) trig fl.
Proof.
  unfold enqueueAnnounce, single. cbn [queues timers nextHandle hasGateway triggered inFlight].
  rewrite lookup_singleton_eq. cbn [default]. now rewrite insert_singleton_eq.
Qed.

Lemma drain_starts (now d : Z) (k ch : string) (first : QueuedAnnounce)
    (more : list QueuedAnnounce) (dt : option nat) (tms : list Timer) (h : nat)
    (trig : list TriggerCall) (fl : list InFlight) :
  drainQueue now d k ch (single k (mkQueue (first :: more) dt false) tms h trig fl)
  = single k (mkQueue [] None true) tms h
           (trig ++ [mkTrigger k ch
                       match more with
                       | [] => buildTriggerMessage (params first) (findings first)
                       | _ => buildCollectedTriggerMessage (first :: more)
                       end])
           (fl ++ [mkInFlight k (now + d)]).
Proof.
  unfold drainQueue, single. cbn [queues timers nextHandle hasGateway triggered inFlight].
  rewrite lookup_singleton_eq. cbn. now rewrite insert_singleton_eq.
Qed.

Lemma drain_skipped (now d : Z) (k ch : string) (l : list QueuedAnnounce) (dt : option nat)
    (tms : list Timer) (h : nat) (trig : list TriggerCall) (fl : list InFlight) :
  drainQueue now d k ch (single k (mkQueue l dt true) tms h trig fl)
  = single k (mkQueue l dt true) tms h trig fl.
Proof.
  unfold drainQueue, single. cbn [queues]. now rewrite lookup_singleton_eq.
Qed.

Lemma finally_removes (k : string) (dt : option nat) (dr : bool) (tms : list Timer) (h : nat)
    (trig : list TriggerCall) (fl : list InFlight) :
  drainFinally k (single k (mkQueue [] dt dr) tms h trig fl) = mkState ∅ tms h true trig fl.
Proof.
  unfold drainFinally, single. cbn [queues]. rewrite lookup_singleton_eq. cbn.
  now rewrite delete_singleton_eq.
Qed.

Lemma finally_keeps (k : string) (x : QueuedAnnounce) (l : list QueuedAnnounce)
    (dt : option nat) (dr : bool) (tms : list Timer) (h : nat)
    (trig : list TriggerCall) (fl : list InFlight) :
  drainFinally k (single k (mkQueue (x :: l) dt dr) tms h trig fl)
  = single k (mkQueue (x :: l) dt false) tms h trig fl.
Proof.
  unfold drainFinally, single, setQueue. cbn [queues]. rewrite lookup_singleton_eq. cbn.
  now rewrite insert_singleton_eq.
Qed.

Lemma triggered_advance_resume (fuel : nat) (duration : nat -> Z) (T : Z) (k : string)
    (q : AnnounceQueue) (h : nat) (trig : list TriggerCall) (at_ : Z) :
  triggered (advance fuel duration T (single k q [] h trig [mkInFlight k at_])) = trig.
Proof.
  destruct fuel as [|fuel]; [reflexivity|].
  destruct (Z.leb_spec at_ T) as [Hle|Hgt].
  - rewrite (advance_due _ _ _ _ (PResume (mkInFlight k at_))); [|reflexivity|exact Hle].
    cbn [runPending flightKey removeFlight List.filter queues timers nextHandle hasGateway
         triggered inFlight single]. rewrite String.eqb_refl. cbn [negb].
    fold (single k q [] h trig []).
    destruct q as [[|x l] dt dr].
    + rewrite finally_removes. now rewrite advance_none.
    + rewrite finally_keeps. now rewrite advance_none.
  - rewrite (advance_early _ _ _ _ (PResume (mkInFlight k at_))); [reflexivity|reflexivity|exact Hgt].
Qed.

(** After the first completion the queue holds one item and one timeout
    waits. *)
Lemma first_completion (duration : nat -> Z) (t1 : Z) (pA : AnnounceParams) (fA : string) :
  completionAt duration t1 pA fA (init true)
  = single (requesterSessionKey pA) (mkQueue [mkQueued pA fA t1] (Some 0%nat) false)
           [mkTimer 0 (t1 + DEBOUNCE_MS) (requesterSessionKey pA) (requesterChannel pA)]
           1 [] [].
Proof. unfold completionAt, advanceTo, init. cbn [timers inFlight length Nat.mul Nat.add advance]. apply enqueue_first. Qed.

(** A second completion inside the window joins the queue and replaces
    the timeout. *)
Lemma second_in_window (duration : nat -> Z) (t1 t2 : Z) (pA pB : AnnounceParams)
    (fA fB : string) :
  requesterSessionKey pA = requesterSessionKey pB -> t2 < t1 + DEBOUNCE_MS ->
  completionAt duration t2 pB fB
    (single (requesterSessionKey pA) (mkQueue [mkQueued pA fA t1] (Some 0%nat) false)
            [mkTimer 0 (t1 + DEBOUNCE_MS) (requesterSessionKey pA) (requesterChannel pA)]
            1 [] [])
  = single (requesterSessionKey pB)
           (mkQueue [mkQueued pA fA t1; mkQueued pB fB t2] (Some 1%nat) false)
           [mkTimer 1 (t2 + DEBOUNCE_MS) (requesterSessionKey pB) (requesterChannel pB)]
           2 [] [].
Proof.
  intros Hkey Hlt. unfold completionAt, advanceTo.
  rewrite (advance_early _ _ _ _
             (PTimer (mkTimer 0 (t1 + DEBOUNCE_MS) (requesterSessionKey pA)
                              (requesterChannel pA)))); [|reflexivity|cbn; lia].
  rewrite Hkey, enqueue_more. reflexivity.
Qed.

(** When the timeout of a queue fires, one call is made on the gateway,
    and nothing that follows adds another. *)
Lemma fire_then_rest (duration : nat -> Z) (T : Z) (k ch : string) (first : QueuedAnnounce)
    (more : list QueuedAnnounce) (dt : option nat) (hd h : nat) (due_ : Z)
    (trig : list TriggerCall) :
  due_ <= T ->
  triggered (advanceTo duration T
               (single k (mkQueue (first :: more) dt false) [mkTimer hd due_ k ch] h trig []))
  = (trig ++ [mkTrigger k ch
                match more with
                | [] => buildTriggerMessage (params first) (findings first)
                | _ => buildCollectedTriggerMessage (first :: more)
                end])%list.
Proof.
  intros Hdue. unfold advanceTo. cbn [single timers inFlight length Nat.mul Nat.add].
  rewrite (advance_due _ _ _ _ (PTimer (mkTimer hd due_ k ch))); [|reflexivity|exact Hdue].
  cbn [runPending handle due timerKey timerChannel queues timers nextHandle hasGateway triggered
       inFlight clearTimeout List.filter negb length single].
  rewrite Nat.eqb_refl. cbn [negb].
  fold (single k (mkQueue (first :: more) dt false) [] h trig []).
  rewrite drain_starts. cbn [app]. apply triggered_advance_resume.
Qed.

(** A lone completion is announced on its own when its timeout fires;
    the drain is over when the call on the gateway has settled. *)
Lemma lone_drain (duration : nat -> Z) (t1 t2 : Z) (pA : AnnounceParams) (fA : string) :
  t1 + DEBOUNCE_MS <= t2 ->
  advanceTo duration t2
    (single (requesterSessionKey pA) (mkQueue [mkQueued pA fA t1] (Some 0%nat) false)
            [mkTimer 0 (t1 + DEBOUNCE_MS) (requesterSessionKey pA) (requesterChannel pA)]
            1 [] [])
  = let call := mkTrigger (requesterSessionKey pA) (requesterChannel pA)
                          (buildTriggerMessage pA fA) in
    if t1 + DEBOUNCE_MS + duration 0%nat <=? t2
    then mkState ∅ [] 1 true [call] []
    else single (requesterSessionKey pA) (mkQueue [] None true) [] 1 [call]
                [mkInFlight (requesterSessionKey pA) (t1 + DEBOUNCE_MS + duration 0%nat)].
Proof.
  intros Hdue. unfold advanceTo. cbn [single timers inFlight length Nat.mul Nat.add].
  rewrite (advance_due _ _ _ _
             (PTimer (mkTimer 0 (t1 + DEBOUNCE_MS) (requesterSessionKey pA)
                              (requesterChannel pA)))); [|reflexivity|exact Hdue].
  cbn [runPending handle due timerKey timerChannel queues timers nextHandle hasGateway triggered
       inFlight clearTimeout List.filter negb length single Nat.eqb].
  fold (single (requesterSessionKey pA) (mkQueue [mkQueued pA fA t1] (Some 0%nat) false)
               [] 1 [] []).
  rewrite drain_starts. cbn [app params findings].
  destruct (Z.leb_spec (t1 + DEBOUNCE_MS + duration 0%nat) t2) as [Hle|Hgt].
  - rewrite (advance_due _ _ _ _
               (PResume (mkInFlight (requesterSessionKey pA)
                                    (t1 + DEBOUNCE_MS + duration 0%nat))));
      [|reflexivity|exact Hle].
    cbn [runPending flightKey removeFlight List.filter queues timers nextHandle hasGateway
         triggered inFlight single advance]. rewrite String.eqb_refl. cbn [negb].
    fold (single (requesterSessionKey pA) (mkQueue [] None true) [] 1
                 [mkTrigger (requesterSessionKey pA) (requesterChannel pA)
                            (buildTriggerMessage pA fA)] []).
    apply finally_removes.
  - apply (advance_early _ _ _ _
             (PResume (mkInFlight (requesterSessionKey pA)
                                  (t1 + DEBOUNCE_MS + duration 0%nat))));
      [reflexivity|exact Hgt].
Qed.

(** What the queue does when it works: two completions of one requester
    less than 2000 ms apart make the gateway receive exactly one call, with
    the collected message: the header [[2 background tasks completed]] and
    the two task blocks in the order of completion. Two completions more
    than 2000 ms apart make it receive two calls with the single-task
    message, provided the first call has settled before the timeout of the
    second completion fires. *)
Lemma debounce_collects_within_window :
  forall (duration : nat -> Z) (t1 t2 T : Z) (pA pB : AnnounceParams) (fA fB : string),
    requesterSessionKey pA = requesterSessionKey pB ->
    t2 + DEBOUNCE_MS <= T ->
    let key := requesterSessionKey pA in
    let itemA := mkQueued pA fA t1 in
    let itemB := mkQueued pB fB t2 in
    let calls :=
      triggered (advanceTo duration T
                   (completionAt duration t2 pB fB
                      (completionAt duration t1 pA fA (init true)))) in
    (t2 < t1 + DEBOUNCE_MS ->
       calls
       = [mkTrigger key (requesterChannel pB)
            (JS.join JS.nl
               (List.app
                  ["[2 background tasks completed]";
                   "";
                   "Below are the results from multiple parallel tasks. Summarize them together for the user.";
                   "Keep it concise and natural. Do not list them mechanically.";
                   ""]
                  (List.app (taskBlock 0 itemA)
                     (List.app (taskBlock 1 itemB)
                        ["Summarize all findings together in a natural, conversational way.";
                         "If user asked for a comparison table, create one."]))))])
    /\ (t1 + DEBOUNCE_MS < t2 ->
        t1 + DEBOUNCE_MS + duration 0%nat < t2 + DEBOUNCE_MS ->
        calls = [mkTrigger key (requesterChannel pA) (buildTriggerMessage pA fA);
                 mkTrigger key (requesterChannel pB) (buildTriggerMessage pB fB)]).
Proof.
  intros duration t1 t2 T pA pB fA fB Hkey HT key itemA itemB calls. subst calls.
  rewrite first_completion. split.
  - intros Hlt. rewrite (second_in_window _ _ _ _ _ _ _ Hkey Hlt).
    rewrite fire_then_rest by exact HT. subst key. now rewrite Hkey.
  - intros Hapart Hsettled. unfold completionAt.
    rewrite lone_drain by lia. cbv zeta.
    destruct (Z.leb_spec (t1 + DEBOUNCE_MS + duration 0%nat) t2) as [Hle|Hgt].
    + rewrite enqueue_first, fire_then_rest by exact HT. subst key. now rewrite Hkey.
    + rewrite Hkey, enqueue_more.
      cbn [items debounceTimer draining app].
      unfold advanceTo. cbn [single timers inFlight length Nat.mul Nat.add].
      rewrite (advance_due _ _ _ _
                 (PResume (mkInFlight (requesterSessionKey pB)
                                      (t1 + DEBOUNCE_MS + duration 0%nat)))).
      * cbn [runPending flightKey removeFlight List.filter queues timers nextHandle hasGateway
             triggered inFlight single]. rewrite String.eqb_refl. cbn [negb].
        fold (single (requesterSessionKey pB) (mkQueue [mkQueued pB fB t2] (Some 1%nat) true)
                     [mkTimer 1 (t2 + DEBOUNCE_MS) (requesterSessionKey pB)
                              (requesterChannel pB)] 2
                     [mkTrigger (requesterSessionKey pB) (requesterChannel pA)
                                (buildTriggerMessage pA fA)] []).
        rewrite finally_keeps.
        change (advance 2 duration T ?st) with (advanceTo duration T st).
        rewrite fire_then_rest by exact HT. subst key. now rewrite Hkey.
      * unfold earliest. cbn [single timers inFlight List.map app earliestOf pendingTime
                              due settlesAt].
        destruct (Z.ltb_spec (t2 + DEBOUNCE_MS) (t1 + DEBOUNCE_MS + duration 0%nat));
          [lia|reflexivity].
      * cbn [pendingTime settlesAt]. lia.
Qed.

(** C6, where the code departs from it: two completions of one
    requester 3000 ms apart, more than the window of 2000 ms, while the
    call of [triggerAgent] for the first result takes ten seconds, the turn
    of the parent agent it runs. The gateway receives one call, for the
    first result. The timeout of the second completion fires while the
    first drain still waits for the gateway, the guard on [draining]
    returns, and when the first drain is over its [finally] block sets no
    timeout: the second result stays in the queue with no timeout waiting
    and no drain suspended, and whatever time passes it is not announced. *)
Theorem C6_late_second_result_is_never_announced :
  0 + DEBOUNCE_MS < 3000
  /\ triggered Scenarios.lateSecond
     = [mkTrigger "websocket:abc" "websocket" (buildTriggerMessage Scenarios.paramsA "a-done")]
  /\ queues Scenarios.lateSecond !! "websocket:abc"
     = Some (mkQueue [mkQueued Scenarios.paramsB "b-done" 3000] (Some 1%nat) false)
  /\ timers Scenarios.lateSecond = []
  /\ inFlight Scenarios.lateSecond = []
  /\ forall T : Z,
       advanceTo Scenarios.slowTrigger T Scenarios.lateSecond = Scenarios.lateSecond.
Proof.
  assert (Ht : timers Scenarios.lateSecond = []) by (vm_compute; reflexivity).
  assert (Hf : inFlight Scenarios.lateSecond = []) by (vm_compute; reflexivity).
  split; [unfold DEBOUNCE_MS; lia|].
  split; [vm_compute; reflexivity|].
  split; [vm_compute; reflexivity|].
  split; [exact Ht|]. split; [exact Hf|].
  intros T. unfold advanceTo. rewrite Ht, Hf. reflexivity.
Qed.

End AnnounceFacts.

(** ** Subagent cleanup *)

Module SubagentFacts.

Import Sessions Runner Subagent RunnerFacts.

Lemma objSet_index {V} (f : V -> string) (k : string) (v v0 : V) (o : list (string * V)) :
  objGet k o = Some v0 -> f v = f v0 ->
  List.map (fun kv => (fst kv, f (snd kv))) (objSet k v o)
  = List.map (fun kv => (fst kv, f (snd kv))) o.
Proof.
  induction o as [|[k' v'] o IH]; simpl; [discriminate|].
  intros Hget Hf. destruct (String.eqb_spec k' k) as [->|Hne]; simpl.
  - injection Hget as ->. now rewrite Hf.
  - now rewrite IH.
Qed.

(** Appending to a transcript neither adds nor removes a session nor
    changes its key. *)
Lemma appendMessage_index (sid : string) (e : TranscriptMessage) (now : Z) (s : Sessions.t) :
  index (appendMessage sid e now s) = index s.
Proof.
  unfold appendMessage, index.
  destruct (objGet sid (sessions s)) as [x|] eqn:Hget; cbn [sessions]; [|reflexivity].
  now apply (objSet_index sessionKey sid _ x).
Qed.

Section RunKeepsSessions.
Context {Ob : Type}.
Variable env : Env Ob.
Variable cfg : Config.
Variable callbacks : AgentCallbacks Ob.

Lemma persistMessage_index (m : LLMMessage) (x : State Ob) :
  sameIndex x (persistMessage env cfg m x).
Proof.
  unfold sameIndex, persistMessage. destruct (sessionId cfg); [|reflexivity].
  apply appendMessage_index.
Qed.

Lemma record_index (m : LLMMessage) (x : State Ob) : sameIndex x (record env cfg m x).
Proof. unfold record. apply (persistMessage_index m (pushMessage m x)). Qed.

Lemma externals_index (es : list External) (x : State Ob) :
  sameIndex x (List.fold_left applyExternal es x).
Proof.
  unfold sameIndex. revert x. induction es as [|e es IH]; intros x; simpl; [reflexivity|].
  rewrite IH. destruct e; [reflexivity|apply appendMessage_index].
Qed.

Lemma step_index (b : bool) (x y : State Ob) :
  step env cfg callbacks b x y -> sameIndex x y.
Proof.
  destruct 1.
  - reflexivity.
  - apply (record_index _ (setInjected rest st)).
  - apply record_index.
  - unfold sameIndex, callLLM. destruct (chat env _ _ _) as [events outcome]. cbn [snd].
    unfold suspend. cbn [sm]. rewrite externals_index, stream_sm. reflexivity.
  - unfold sameIndex, suspend. cbn [sm]. apply externals_index.
  - reflexivity.
  - unfold sameIndex. now rewrite notify_sm.
Qed.

Lemma steps_index (b : bool) (x y : State Ob) :
  rtc (step env cfg callbacks b) x y -> sameIndex x y.
Proof.
  apply steps_within; [reflexivity| |apply step_index].
  unfold sameIndex. intros x' y' z' H1 H2. now rewrite H2.
Qed.

Lemma prepare_index (userMessage : string) (source : Source) (x : State Ob) :
  sameIndex x (prepare env cfg userMessage source x).
Proof.
  unfold prepare.
  assert (Hs : forall y : State Ob, sm (syncTranscript cfg y) = sm y).
  { intros y. unfold syncTranscript. destruct (sessionId cfg); [|reflexivity].
    now destruct (_ <? _)%nat. }
  unfold sameIndex. rewrite record_index.
  destruct (messages (syncTranscript cfg (setRunning true x)));
    [rewrite record_index|]; now rewrite Hs.
Qed.

(** [run] ends, and the sessions of the index are those it started with. *)
Lemma run_keeps_sessions (userMessage : string) (source : Source) (x : State Ob) :
  exists result y,
    run env cfg callbacks userMessage source x = Some (result, y) /\ sameIndex x y.
Proof.
  unfold run. pose proof (prepare_index userMessage source x) as Hp.
  destruct (mainLoop_total env cfg callbacks (S maxIterations) 0 0 ""
              (prepare env cfg userMessage source x))
    as (exit & st1 & Hmain & _ & Hd & _); [unfold maxIterations; lia|].
  rewrite Hmain.
  pose proof (steps_index _ _ _ (mainLoop_steps _ _ _ _ _ _ _ _ _ _ Hmain)) as H1.
  destruct exit as [it fr|r].
  - destruct (drainLoop_total env cfg callbacks (S maxIterations) it fr st1)
      as (exit2 & st2 & Hdrain & _).
    { destruct (Hd it fr eq_refl) as (_ & ? & _). unfold maxIterations in *. lia. }
    rewrite Hdrain.
    pose proof (steps_index _ _ _ (drainLoop_steps _ _ _ _ _ _ _ _ _ Hdrain)) as H2.
    destruct (finish callbacks exit2 st2) as [result st3] eqn:Hfin.
    exists result, st3. split; [reflexivity|].
    pose proof (finish_sm callbacks exit2 st2) as Hf. rewrite Hfin in Hf. cbn [snd] in Hf.
    unfold sameIndex in *. now rewrite Hf, H2, H1.
  - destruct (finish callbacks (Rejected r) st1) as [result st3] eqn:Hfin.
    exists result, st3. split; [reflexivity|].
    pose proof (finish_sm callbacks (Rejected r) st1) as Hf. rewrite Hfin in Hf.
    cbn [snd] in Hf. unfold sameIndex in *. now rewrite Hf, H1.
Qed.

End RunKeepsSessions.

(** What [finalizeCleanup] does to a record that is registered. *)
Lemma finalizeCleanup_delete (now : Z) (id : string) (b : bool) (reg : Registry)
    (r : SubagentRunRecord) :
  runs reg !! id = Some r -> cleanup r = Announce.CleanupDelete ->
  runs (finalizeCleanup now id b reg) !! id = None.
Proof.
  intros Hr Hc. unfold finalizeCleanup. rewrite Hr, Hc. cbn [runs]. apply lookup_delete_eq.
Qed.

Lemma finalizeCleanup_keep (now : Z) (id : string) (b : bool) (reg : Registry)
    (r : SubagentRunRecord) :
  runs reg !! id = Some r -> cleanup r = Announce.CleanupKeep ->
  exists r', runs (finalizeCleanup now id b reg) !! id = Some r'
             /\ archiveAtMs r' = archiveAtMs r /\ childSessionKey r' = childSessionKey r.
Proof.
  intros Hr Hc. unfold finalizeCleanup. rewrite Hr, Hc. cbn [runs].
  rewrite lookup_insert_eq. destruct b; eexists; (split; [reflexivity|split; reflexivity]).
Qed.

(** [register] without [archiveAfterMinutes] sets the archive time 60
    minutes after the registration and starts the sweeper. *)
Lemma register_default_archive (now : Z) (id child requester task : string)
    (label : option string) (c : Announce.Cleanup) (reg : Registry) :
  exists r,
    runs (register now (mkRegister id child requester task label c None) reg) !! id = Some r
    /\ archiveAtMs r = Some (now + 60 * 60000) /\ cleanup r = c.
Proof.
  unfold register. cbn. rewrite lookup_insert_eq. eexists. repeat split.
Qed.

(** The sweeper removes a record once its archive time is reached, and
    keeps it before. *)
Lemma sweep_removes (now : Z) (id : string) (reg : Registry) (r : SubagentRunRecord)
    (a : Z) :
  runs reg !! id = Some r -> archiveAtMs r = Some a -> a <> 0 -> a <= now ->
  runs (sweep now reg) !! id = None.
Proof.
  intros Hr Ha Hnz Hle. unfold sweep. cbn [runs].
  apply map_lookup_filter_None. right. intros r' Hr'. cbn.
  rewrite Hr in Hr'. injection Hr' as <-. unfold expired. rewrite Ha.
  destruct (Z.eqb_spec a 0); [contradiction|]. destruct (Z.leb_spec a now); [|lia].
  discriminate.
Qed.

Lemma sweep_keeps (now : Z) (id : string) (reg : Registry) (r : SubagentRunRecord) (a : Z) :
  runs reg !! id = Some r -> archiveAtMs r = Some a -> now < a ->
  runs (sweep now reg) !! id = Some r.
Proof.
  intros Hr Ha Hlt. unfold sweep. cbn [runs].
  apply map_lookup_filter_Some. split; [exact Hr|]. cbn. unfold expired. rewrite Ha.
  destruct (Z.leb_spec a now); [lia|]. now rewrite andb_false_r.
Qed.

(** C1, where the code departs from it: the background run of a
    subagent ends and leaves the sessions of the index as they were,
    whatever the cleanup mode; for a subagent spawned with [cleanup =
    delete], what [finalizeCleanup] deletes is the record of the registry,
    and the child session [subagent:<runId>] with its transcript is still
    in the session store after the run has been announced. *)
Theorem C1_delete_leaves_child_session :
  (forall (env : Env unit) (sp : Spawned) (task : string) (label : option string)
          (st : State unit) (w : World),
      exists st1 w1,
        runSubagentInBackground env sp task label st w = Some (st1, w1)
        /\ index (sm st1) = index (sm st))
  /\ (exists sp st w st1 w1 child,
        Scenarios.spawnedDelete = Some (sp, st, w)
        /\ spawnedCleanup sp = Announce.CleanupDelete
        /\ spawnedChildSessionKey sp = "subagent:run-1"
        /\ Scenarios.afterSubagent = Some (st1, w1)
        /\ runs (registry w1) !! "run-1" = None
        /\ findBySessionKey "subagent:run-1" (sm st1) = Some child
        /\ Sessions.sessionId child = "sess-1"
        /\ length (loadTranscript "sess-1" (sm st1)) = 3%nat
        /\ option_map (fun a => length (Announce.triggered a)) Scenarios.afterAnnounce
           = Some 1%nat).
Proof.
  split.
  - intros env sp task label st w. unfold runSubagentInBackground.
    destruct (run_keeps_sessions env (spawnedRunner sp)
                (mkCallbacks None (Some (fun _ _ (o : unit) => o)) None None) task FromUser st)
      as (result & st1 & Hrun & Hidx).
    rewrite Hrun. destruct (Announce.runAnnounceFlow _ _ _ _) as [ok ann1].
    eexists. eexists. split; [reflexivity|exact Hidx].
  - destruct Scenarios.spawnedDelete as [[[sp st] w]|] eqn:Hspawn; [|discriminate Hspawn].
    destruct Scenarios.afterSubagent as [[st1 w1]|] eqn:Hafter;
      [|vm_compute in Hafter; discriminate Hafter].
    exists sp, st, w, st1, w1.
    vm_compute in Hspawn. injection Hspawn as <- <- <-.
    vm_compute in Hafter. injection Hafter as <- <-.
    eexists. repeat split; vm_compute; reflexivity.
Qed.

End SubagentFacts.

(** ** Strings *)

Module StrFacts.

Import Str.

Lemma append_cons (c : ascii) (a b : string) : String c a ++ b = String c (a ++ b).
Proof. reflexivity. Qed.

Lemma length_append (a b : string) :
  String.length (a ++ b) = (String.length a + String.length b)%nat.
Proof.
  induction a as [|c a IH]; [reflexivity|]. rewrite append_cons. cbn. now rewrite IH.
Qed.

Lemma append_assoc (a b c : string) : (a ++ b) ++ c = a ++ (b ++ c).
Proof.
  induction a as [|d a IH]; [reflexivity|]. rewrite !append_cons. now rewrite IH.
Qed.

Lemma append_nil_r (a : string) : a ++ "" = a.
Proof. induction a as [|d a IH]; [reflexivity|]. rewrite append_cons. now rewrite IH. Qed.

Lemma chars_append (a b : string) : chars (a ++ b) = (chars a ++ chars b)%list.
Proof.
  induction a as [|c a IH]; [reflexivity|]. rewrite append_cons. unfold chars in *. cbn.
  now rewrite IH.
Qed.

Lemma allWhite_append (a b : string) :
  allWhite (a ++ b) = allWhite a && allWhite b.
Proof. unfold allWhite. now rewrite chars_append, forallb_app. Qed.

Lemma substring_0_length (k : nat) (s : string) :
  (k <= String.length s)%nat -> String.length (String.substring 0 k s) = k.
Proof.
  revert s. induction k as [|k IH]; intros [|c s] H; cbn in *; try reflexivity; try lia.
  rewrite IH; [reflexivity|lia].
Qed.

Lemma substring_take_drop (k : nat) (s : string) :
  (k <= String.length s)%nat ->
  String.substring 0 k s ++ String.substring k (String.length s - k) s = s.
Proof.
  revert s. induction k as [|k IH]; intros s H.
  - rewrite Nat.sub_0_r. clear H.
    assert (E : String.substring 0 0 s = "") by now destruct s.
    rewrite E. change ("" ++ String.substring 0 (String.length s) s)
      with (String.substring 0 (String.length s) s).
    induction s as [|c s IHs]; cbn; [reflexivity|].
    rewrite IHs; [reflexivity|now destruct s].
  - destruct s as [|c s]; cbn in H; [lia|]. cbn [String.substring String.length Nat.sub].
    rewrite append_cons, IH; [reflexivity|lia].
Qed.

Lemma substring_drop_length (k : nat) (s : string) :
  (k <= String.length s)%nat ->
  String.length (String.substring k (String.length s - k) s) = (String.length s - k)%nat.
Proof.
  intros H. pose proof (substring_take_drop k s H) as E.
  apply (f_equal String.length) in E. rewrite length_append, substring_0_length in E by exact H.
  lia.
Qed.

Lemma relIndex_inside (len k : Z) : 0 <= k <= len -> relIndex len k = k.
Proof. intros H. unfold relIndex. destruct (k <? 0) eqn:Hk; lia. Qed.

(** Inside the string, [slice(0, k)] and [slice(k)] cut it in two. *)
Lemma slice_cut (k : Z) (s : string) :
  0 <= k <= JS.len s ->
  slice 0 k s ++ sliceFrom k s = s
  /\ JS.len (slice 0 k s) = k
  /\ JS.len (sliceFrom k s) = JS.len s - k.
Proof.
  intros H. unfold sliceFrom, slice.
  rewrite !relIndex_inside by (unfold JS.len in *; lia).
  unfold JS.len in *. rewrite Z.sub_0_r. change (Z.to_nat 0) with 0%nat.
  replace (Z.to_nat (Z.of_nat (String.length s) - k))
    with (String.length s - Z.to_nat k)%nat by lia.
  assert (Hn : (Z.to_nat k <= String.length s)%nat) by lia.
  split; [now apply substring_take_drop|]. split.
  - rewrite substring_0_length by exact Hn. lia.
  - rewrite substring_drop_length by exact Hn. lia.
Qed.

Lemma lastIndexUpTo_bound (c : ascii) (start : nat) (s : string) (i : nat) :
  lastIndexUpTo c start s = Some i ->
  (i <= start)%nat /\ (i < String.length s)%nat /\ String.get i s = Some c.
Proof.
  revert start i. induction s as [|d s IH]; intros start i; [cbn; discriminate|].
  assert (Hhead : (if Ascii.eqb d c then Some 0%nat else None) = Some i ->
                  (i <= start)%nat /\ (i < String.length (String d s))%nat
                  /\ String.get i (String d s) = Some c).
  { destruct (Ascii.eqb d c) eqn:E; [|discriminate]. intros [= <-].
    apply Ascii.eqb_eq in E. subst. cbn. repeat split; lia. }
  destruct start as [|start]; cbn [lastIndexUpTo]; [exact Hhead|].
  destruct (lastIndexUpTo c start s) as [j|] eqn:Hj; [|exact Hhead].
  intros [= <-]. destruct (IH _ _ Hj) as (? & ? & ?). cbn. repeat split; try lia.
  assumption.
Qed.

Lemma lastIndexOf_range (c : ascii) (position : Z) (s : string) :
  0 <= position ->
  lastIndexOf c position s = -1
  \/ (0 <= lastIndexOf c position s <= position
      /\ lastIndexOf c position s < JS.len s).
Proof.
  intros Hp. unfold lastIndexOf, JS.len.
  destruct (lastIndexUpTo c (Z.to_nat position) s) as [i|] eqn:H; [|now left].
  right. destruct (lastIndexUpTo_bound _ _ _ _ H) as (? & ? & _). lia.
Qed.

(** What [trimStart] drops is white space. *)
Lemma trimStart_gap (s : string) :
  exists gap, allWhite gap = true /\ s = gap ++ JS.trimStart s.
Proof.
  induction s as [|c s (gap & Hw & Hs)]; cbn.
  - now exists "".
  - destruct (JS.isWhite c) eqn:Hc.
    + exists (String c gap). split; [unfold allWhite in *; cbn; now rewrite Hc|].
      rewrite append_cons. now rewrite <- Hs.
    + now exists "".
Qed.

Lemma trimStart_length (s : string) :
  (String.length (JS.trimStart s) <= String.length s)%nat.
Proof.
  induction s as [|c s IH]; cbn; [lia|]. destruct (JS.isWhite c); cbn; lia.
Qed.

End StrFacts.

(** ** Telegram channel *)

Module TelegramFacts.

Import Str Telegram StrFacts.

Lemma splitPoint_range (remaining : string) (maxLength : Z) :
  1 <= maxLength ->
  maxLength <= 2 * splitPoint remaining maxLength
  /\ splitPoint remaining maxLength <= maxLength.
Proof.
  intros H. unfold splitPoint.
  pose proof (lastIndexOf_range lf maxLength remaining ltac:(lia)) as Hn.
  pose proof (lastIndexOf_range space maxLength remaining ltac:(lia)) as Hs.
  repeat match goal with
  | |- context [if ?b then _ else _] => destruct b eqn:?
  end; lia.
Qed.

Lemma rebuilds_single (chunk : string) : rebuilds [chunk] chunk.
Proof.
  pose proof (rebuilds_chunk chunk "" "" [] eq_refl (rebuilds_end "" eq_refl)) as R.
  change (chunk ++ "" ++ "") with (chunk ++ "") in R. now rewrite append_nil_r in R.
Qed.

Lemma splitLoop_total (fuel : nat) (maxLength : Z) (remaining : string)
    (chunks : list string) :
  1 <= maxLength -> (String.length remaining < fuel)%nat ->
  exists added,
    splitLoop fuel maxLength remaining chunks = Some (chunks ++ added)%list
    /\ wellSplit maxLength remaining added.
Proof.
  intros Hmax. revert remaining chunks.
  induction fuel as [|fuel IH]; intros remaining chunks Hfuel; [lia|].
  cbn [splitLoop]. destruct (0 <? JS.len remaining) eqn:Hlen.
  - destruct (JS.len remaining <=? maxLength) eqn:Hfit.
    + exists [remaining]. split; [reflexivity|]. split; [|split].
      * constructor; [lia|constructor].
      * intros c [].
      * apply rebuilds_single.
    + pose proof (splitPoint_range remaining maxLength Hmax) as [Hlo Hhi].
      set (splitAt := splitPoint remaining maxLength) in *.
      destruct (slice_cut splitAt remaining ltac:(lia)) as (Hcut & Hl1 & Hl2).
      destruct (trimStart_gap (sliceFrom splitAt remaining)) as (gap & Hgap & Hrest).
      pose proof (trimStart_length (sliceFrom splitAt remaining)) as Htl.
      destruct (IH (JS.trimStart (sliceFrom splitAt remaining))
                   (chunks ++ [slice 0 splitAt remaining])%list) as (added & Hrun & Hf & Hh & Hr).
      { unfold JS.len in *. lia. }
      exists (slice 0 splitAt remaining :: added). split.
      { rewrite Hrun. now rewrite <- app_assoc. }
      split; [|split].
      * constructor; [lia|exact Hf].
      * intros c Hin. destruct added as [|a added]; [destruct Hin|].
        destruct Hin as [<-|Hin]; [lia|]. now apply Hh.
      * pose proof (rebuilds_chunk (slice 0 splitAt remaining) _ _ _ Hgap Hr) as R.
        rewrite <- Hrest in R. now rewrite Hcut in R.
  - exists []. split; [now rewrite app_nil_r|]. split; [constructor|]. split; [intros c []|].
    constructor. destruct remaining; [reflexivity|].
    exfalso. apply Z.ltb_ge in Hlen. unfold JS.len in Hlen. cbn [String.length] in Hlen. lia.
Qed.

(** X1: for a limit of at least one character, [splitMessage] returns,
    and it returns chunks that are each within the limit; for a text that is
    not empty no chunk is empty, and every chunk but the last is at least
    half the limit long. *)
Theorem X1_splitMessage_chunks_within_limit :
  forall (text : string) (maxLength : Z),
    1 <= maxLength ->
    exists chunks,
      splitMessage text maxLength = Some chunks
      /\ List.Forall (fun c => JS.len c <= maxLength) chunks
      /\ (text <> "" -> List.Forall (fun c => 1 <= JS.len c) chunks)
      /\ (forall c, In c (removelast chunks) -> maxLength <= 2 * JS.len c).
Proof.
  intros text maxLength Hmax. unfold splitMessage.
  destruct (JS.len text <=? maxLength) eqn:Hfit.
  - exists [text]. split; [reflexivity|]. split; [constructor; [lia|constructor]|].
    split; [|intros c []].
    intros Hne. constructor; [|constructor]. destruct text; [now elim Hne|].
    unfold JS.len. cbn [String.length]. lia.
  - destruct (splitLoop_total (S (String.length text)) maxLength text [] Hmax ltac:(lia))
      as (added & Hrun & Hf & Hh & _).
    exists added. split; [exact Hrun|]. split; [|split].
    + eapply List.Forall_impl; [|exact Hf]. cbn. intros; lia.
    + intros _. eapply List.Forall_impl; [|exact Hf]. cbn. intros; lia.
    + exact Hh.
Qed.

(** The theorem at a text of three words and a limit of five. *)
Lemma X1_witness :
  exists chunks,
    splitMessage "ab cd ef" 5 = Some chunks
    /\ List.Forall (fun c => JS.len c <= 5) chunks.
Proof.
  destruct (X1_splitMessage_chunks_within_limit "ab cd ef" 5 ltac:(lia))
    as (chunks & Hrun & Hf & _).
  exists chunks. now split.
Defined.

(** X2: for a limit of at least one character the chunks of
    [splitMessage], in order, are the text with white space dropped after
    chunks and nothing else: the text is the first chunk, a run of white
    space, the second chunk, a run of white space, and so on. *)
Theorem X2_splitMessage_drops_only_white_space :
  forall (text : string) (maxLength : Z),
    1 <= maxLength ->
    exists chunks,
      splitMessage text maxLength = Some chunks /\ rebuilds chunks text.
Proof.
  intros text maxLength Hmax. unfold splitMessage.
  destruct (JS.len text <=? maxLength) eqn:Hfit.
  - exists [text]. split; [reflexivity|].
    apply rebuilds_single.
  - destruct (splitLoop_total (S (String.length text)) maxLength text [] Hmax ltac:(lia))
      as (added & Hrun & _ & _ & Hr).
    exists added. now split.
Qed.

(** A no-break space after a cut is dropped as [trimStart] drops it. *)
Lemma splitMessage_no_break_space :
  splitMessage ("abc" ++ JS.nbsp ++ "def") 3 = Some ["abc"; "def"].
Proof. vm_compute. reflexivity. Qed.

(** The theorem at two words with a no-break space between them and a
    limit of three. *)
Lemma X2_witness :
  exists chunks,
    splitMessage ("abc" ++ JS.nbsp ++ "def") 3 = Some chunks
    /\ rebuilds chunks ("abc" ++ JS.nbsp ++ "def").
Proof.
  exact (X2_splitMessage_drops_only_white_space ("abc" ++ JS.nbsp ++ "def") 3 ltac:(lia)).
Defined.

End TelegramFacts.

(** ** Routing: what a route can be, and how maintenance changes it *)

Module BindingsFacts.

Import Routing Bindings RoutingFacts.

Lemma channelBindings_in (store : list Binding) (input : RouteInput) (b : Binding) :
  In b (List.filter (fun b => String.eqb (channel (match_ b)) (channel input))
                    (listBindings store)) ->
  In b store /\ channel (match_ b) = channel input.
Proof.
  intros H. apply filter_In in H as [Hin Hc]. split.
  - eapply Permutation_in; [apply listBindings_perm|exact Hin].
  - now apply String.eqb_eq.
Qed.

Lemma findIf_some {A} (guard : option A) (p : A -> Binding -> bool) (l : list Binding)
    (b : Binding) :
  findIf guard p l = Some b -> In b l /\ exists a, guard = Some a /\ p a b = true.
Proof.
  destruct guard as [a|]; [|discriminate]. cbn. intros H.
  apply find_some in H as [Hin Hp]. eauto.
Qed.

(** X3: a route never leaves the channel of its input and never invents
    a binding: when [resolveRoute] reports a binding, that binding is
    stored, is bound to the channel of the input, and its agent is the
    agent returned; when it reports none, the route is the default agent
    with [matchedBy = default]; and [matchedBy] is [default] in no other
    case. *)
Theorem X3_route_is_a_stored_binding_of_the_channel :
  forall (store : list Binding) (input : RouteInput) (defaultAgentId : string),
    match binding (resolveRoute store input defaultAgentId) with
    | Some b =>
        In b store
        /\ channel (match_ b) = channel input
        /\ resAgentId (resolveRoute store input defaultAgentId) = agentId b
        /\ matchedBy (resolveRoute store input defaultAgentId) <> ByDefault
    | None =>
        resolveRoute store input defaultAgentId = mkResult defaultAgentId ByDefault None
    end.
Proof.
  intros store input d. unfold resolveRoute.
  set (cb := List.filter _ (listBindings store)).
  assert (Hcb : forall b, In b cb -> In b store /\ channel (match_ b) = channel input)
    by apply channelBindings_in.
  repeat match goal with
  | |- context [match findIf ?g ?p cb with _ => _ end] =>
      let H := fresh "H" in
      destruct (findIf g p cb) as [?b|] eqn:H;
      [apply findIf_some in H as [H _]; destruct (Hcb _ H); cbn; repeat split; easy|]
  end.
  destruct (List.find channelPred cb) as [b|] eqn:Hfind; [|reflexivity].
  apply find_some in Hfind as [Hfind _]. destruct (Hcb _ Hfind). cbn. repeat split; easy.
Qed.

(** [resolveRoute] in the form of the tier rule. *)
Lemma resolveRoute_by_tiers (store : list Binding) (input : RouteInput) (d : string) :
  resolveRoute store input d
  = firstTier store input [ByPeer; ByGuild; ByTeam; ByAccount; ByChannel] d.
Proof.
  unfold resolveRoute, firstTier.
  rewrite (tierWinner_guarded input ByPeer (peer input) peerPred) by reflexivity.
  rewrite (tierWinner_guarded input ByGuild (JS.truthyStr (guildId input)) guildPred)
    by reflexivity.
  rewrite (tierWinner_guarded input ByTeam (JS.truthyStr (teamId input)) teamPred)
    by reflexivity.
  rewrite (tierWinner_guarded input ByAccount (JS.truthyStr (accountId input)) accountPred)
    by reflexivity.
  rewrite tier_find.
  change (lowest (List.filter (fun b => sameChannel input b && channelPred b) store))
    with (tierWinner store input ByChannel).
  destruct (tierWinner store input ByPeer); [reflexivity|].
  destruct (tierWinner store input ByGuild); [reflexivity|].
  destruct (tierWinner store input ByTeam); [reflexivity|].
  destruct (tierWinner store input ByAccount); [reflexivity|].
  destruct (tierWinner store input ByChannel); reflexivity.
Qed.

Lemma lowest_nil_iff (l : list Binding) : lowest l = None <-> l = [].
Proof.
  split; [|now intros ->]. destruct l as [|x l]; [reflexivity|]. cbn.
  destruct (lowest l) as [c|]; [|discriminate].
  now destruct (effPriority x <=? effPriority c).
Qed.

Lemma lowest_app (l1 l2 : list Binding) :
  lowest (l1 ++ l2) = lower (lowest l1) (lowest l2).
Proof.
  induction l1 as [|x l IH]; [reflexivity|].
  cbn [List.app lowest]. rewrite IH.
  destruct (lowest l) as [a|], (lowest l2) as [c|]; cbn [lower]; try reflexivity.
  - destruct (Z.leb_spec (effPriority a) (effPriority c)),
             (Z.leb_spec (effPriority x) (effPriority a));
      cbn [lower];
      try destruct (Z.leb_spec (effPriority x) (effPriority c));
      try destruct (Z.leb_spec (effPriority a) (effPriority c));
      try reflexivity; lia.
  - now destruct (effPriority x <=? effPriority a).
Qed.

Lemma tierWinner_app (l1 l2 : list Binding) (input : RouteInput) (t : MatchedBy) :
  tierWinner (l1 ++ l2) input t = lower (tierWinner l1 input t) (tierWinner l2 input t).
Proof. unfold tierWinner. rewrite List.filter_app. apply lowest_app. Qed.

Lemma tierWinner_single (x : Binding) (input : RouteInput) (t : MatchedBy) :
  tierWinner [x] input t = if tierQualifies input t x then Some x else None.
Proof. unfold tierWinner. cbn. now destruct (tierQualifies input t x). Qed.

(** Two stores whose tier winners differ only where the winner of the
    first is [x] route alike unless the first routes to [x]. *)
Lemma firstTier_local (A B : list Binding) (x : Binding) (input : RouteInput)
    (tiers : list MatchedBy) (d : string) :
  (forall t, tierWinner A input t = tierWinner B input t \/ tierWinner A input t = Some x) ->
  firstTier A input tiers d = firstTier B input tiers d
  \/ binding (firstTier A input tiers d) = Some x.
Proof.
  intros H. induction tiers as [|t tiers IH]; [now left|].
  cbn [firstTier]. destruct (H t) as [->| ->]; [|now right].
  destruct (tierWinner B input t); [now left|exact IH].
Qed.

Lemma findIndex_split (id : string) (store : list Binding) (index : nat) :
  findIndex id store = Some index ->
  exists l1 x l2,
    store = (l1 ++ x :: l2)%list /\ Routing.id x = id /\ removeAt index store = (l1 ++ l2)%list
    /\ List.nth_error store index = Some x
    /\ forall u, setAt index u store = (l1 ++ u :: l2)%list.
Proof.
  revert index. induction store as [|b rest IH]; intros index H; [discriminate|].
  cbn in H. destruct (String.eqb (Routing.id b) id) eqn:Hb.
  - injection H as <-. exists [], b, rest. apply String.eqb_eq in Hb. now repeat split.
  - destruct (findIndex id rest) as [i|] eqn:Hi; [|discriminate]. injection H as <-.
    destruct (IH i eq_refl) as (l1 & x & l2 & -> & Hx & Hr & Hn & Hs).
    exists (b :: l1), x, l2. cbn. rewrite Hr. repeat split; try assumption.
    intros u. now rewrite Hs.
Qed.

(** X4: a new binding changes no route except to itself: after
    [createBinding] every input is routed as before or to the binding just
    created. *)
Theorem X4_created_binding_only_takes_routes_for_itself :
  forall (store : list Binding) (agent : string) (m : BindingMatch) (p : option Z)
         (uuid : string) (now : Z) (input : RouteInput) (defaultAgentId : string),
    let created := createBinding agent m p uuid now store in
    resolveRoute (snd created) input defaultAgentId
    = resolveRoute store input defaultAgentId
    \/ binding (resolveRoute (snd created) input defaultAgentId) = Some (fst created).
Proof.
  intros store agent m p uuid now input d. cbn.
  rewrite !resolveRoute_by_tiers. apply firstTier_local. intros t.
  rewrite tierWinner_app, tierWinner_single.
  destruct (tierQualifies input t _); cbn [lower].
  - destruct (tierWinner store input t) as [a|]; cbn [lower]; [|now right].
    destruct (effPriority a <=? _); [now left|now right].
  - left. now destruct (tierWinner store input t).
Qed.

(** X5: deleting a binding changes only the routes it served: after a
    [deleteBinding] that found the id, every input is routed as before,
    unless it was routed to a binding with the deleted id. An unknown id is
    reported with [false] and leaves the store as it is. *)
Theorem X5_deleted_binding_only_frees_its_own_routes :
  forall (store : list Binding) (id : string),
    match deleteBinding id store with
    | (true, store') =>
        forall (input : RouteInput) (defaultAgentId : string),
          resolveRoute store' input defaultAgentId = resolveRoute store input defaultAgentId
          \/ exists b, binding (resolveRoute store input defaultAgentId) = Some b
                       /\ Routing.id b = id
    | (false, store') => store' = store /\ getBinding id store = None
    end.
Proof.
  intros store id. unfold deleteBinding.
  destruct (findIndex id store) as [index|] eqn:Hi.
  - destruct (findIndex_split _ _ _ Hi) as (l1 & x & l2 & -> & Hx & -> & _).
    intros input d. rewrite !resolveRoute_by_tiers.
    destruct (firstTier_local (l1 ++ x :: l2) (l1 ++ l2) x input
                [ByPeer; ByGuild; ByTeam; ByAccount; ByChannel] d) as [E|E].
    + intros t. rewrite !tierWinner_app.
      change (x :: l2) with ([x] ++ l2)%list. rewrite (tierWinner_app [x]).
      rewrite tierWinner_single.
      destruct (tierQualifies input t x); cbn [lower]; [|now left].
      destruct (tierWinner l1 input t) as [a|], (tierWinner l2 input t) as [c|];
        cbn [lower];
        repeat match goal with
        | |- context [?u <=? ?v] => destruct (Z.leb_spec u v); cbn [lower]
        end; try (now left); try (now right); lia.
    + left. now symmetry.
    + right. now exists x.
  - split; [reflexivity|]. unfold getBinding.
    clear - Hi. induction store as [|b rest IH]; [reflexivity|]. cbn in *.
    destruct (String.eqb (Routing.id b) id); [discriminate|].
    apply IH. now destruct (findIndex id rest).
Qed.

End BindingsFacts.

(** ** Gateway: routing of an incoming message *)

Module DispatchFacts.

Import Routing Gateway Dispatch StrFacts.

(** X6: the gateway routes by channel alone. For a message that arrives
    through [processMessage] the route is a channel default or the default
    agent: a binding that names a peer, a guild, a team or an account other
    than the wildcard is never used, whatever its priority. *)
Theorem X6_gateway_routes_by_channel_alone :
  forall (store : list Binding) (defaultAgentId : string) (msg : Message),
    match binding (routeOf store defaultAgentId msg) with
    | Some b =>
        matchedBy (routeOf store defaultAgentId msg) = ByChannel
        /\ In b store
        /\ Routing.channel (match_ b) = Gateway.channel msg
        /\ peer (match_ b) = None
        /\ JS.truthy (guildId (match_ b)) = false
        /\ JS.truthy (teamId (match_ b)) = false
        /\ (accountId (match_ b) = Some "*" \/ JS.truthy (accountId (match_ b)) = false)
    | None => routeOf store defaultAgentId msg = mkResult defaultAgentId ByDefault None
    end.
Proof.
  intros store d msg. unfold routeOf, resolveRoute, routeInputOf. cbn [findIf JS.truthyStr
    Routing.peer Routing.guildId Routing.teamId Routing.accountId Routing.channel].
  destruct (List.find channelPred _) as [b|] eqn:H; [|reflexivity].
  apply find_some in H as [Hin Hp]. cbn [binding hit matchedBy].
  apply (BindingsFacts.channelBindings_in store (routeInputOf msg)) in Hin as [Hin Hc].
  unfold channelPred, unconstrained in Hp.
  apply andb_prop in Hp as [Ha Hu]. apply andb_prop in Hu as [Hu Ht].
  apply andb_prop in Hu as [Hpe Hg].
  repeat split; try assumption.
  - destruct (peer (match_ b)); [discriminate|reflexivity].
  - now apply negb_true_iff in Hg.
  - now apply negb_true_iff in Ht.
  - apply orb_prop in Ha as [Ha|Ha]; [left|right; now apply negb_true_iff in Ha].
    unfold optStrEq in Ha. destruct (accountId (match_ b)) as [a|]; [|discriminate].
    apply String.eqb_eq in Ha. now subst.
Qed.

Lemma split_cons (c : ascii) (s : string) :
  exists first rest, Str.split c s = first :: rest.
Proof.
  destruct s as [|d s]; cbn; [eauto|].
  destruct (Ascii.eqb d c); [eauto|]. destruct (Str.split c s); eauto.
Qed.

Lemma join_split (c : ascii) (s : string) :
  JS.join (String c "") (Str.split c s) = s.
Proof.
  induction s as [|d s IH]; [reflexivity|]. cbn [Str.split].
  destruct (split_cons c s) as (first & rest & Hs). rewrite Hs in *.
  destruct (Ascii.eqb d c) eqn:E.
  - apply Ascii.eqb_eq in E. subst d.
    change (JS.join (String c "") ("" :: first :: rest))
      with ("" ++ String c "" ++ JS.join (String c "") (first :: rest)).
    now rewrite IH.
  - destruct rest as [|second rest].
    + cbn [JS.join] in *. now rewrite IH.
    + change (JS.join (String c "") (String d first :: second :: rest))
        with (String d first ++ String c "" ++ JS.join (String c "") (second :: rest)).
      change (JS.join (String c "") (first :: second :: rest))
        with (first ++ String c "" ++ JS.join (String c "") (second :: rest)) in IH.
      rewrite append_cons. now rewrite IH.
Qed.

Lemma substring_0_whole (n : nat) (s : string) :
  (String.length s <= n)%nat -> String.substring 0 n s = s.
Proof.
  revert n. induction s as [|c s IH]; intros [|n] H; cbn in *; try reflexivity; try lia.
  rewrite IH; [reflexivity|lia].
Qed.

(** X7: the chat of a Telegram session key is read back in full. For the
    key [handleMessage] builds from a chat id, the chat [send] addresses
    and the [to] that [processMessage] hands to the tools are both that
    chat id, also when it contains colons. *)
Theorem X7_telegram_session_key_round_trip :
  forall chatId : string,
    Telegram.chatIdOf (Telegram.sessionKeyOf chatId) = chatId
    /\ toOf (Telegram.sessionKeyOf chatId) = chatId.
Proof.
  intros chatId. split.
  - unfold Telegram.chatIdOf, Telegram.sessionKeyOf.
    change ("telegram:" ++ chatId)
      with (String "t" (String "e" (String "l" (String "e" (String "g" (String "r"
             (String "a" (String "m" (String ":" chatId))))))))).
    cbn. replace (String.prefix "" chatId) with true by now destruct chatId.
    apply substring_0_whole. lia.
  - unfold toOf, Telegram.sessionKeyOf.
    change ("telegram:" ++ chatId)
      with (String "t" (String "e" (String "l" (String "e" (String "g" (String "r"
             (String "a" (String "m" (String ":" chatId))))))))).
    cbn [Str.split Ascii.eqb Bool.eqb].
    destruct (split_cons ":" chatId) as (first & rest & Hs).
    pose proof (join_split ":" chatId) as J. rewrite Hs in *. exact J.
Qed.

End DispatchFacts.

(** ** Turns of the runner *)

Module TurnsFacts.

Import Sessions Runner Gateway Turns RunnerFacts GatewayFacts.

Section Turn.
Context {Ob : Type}.
Variable env : Env Ob.
Variable cfg : Config.
Variable callbacks : AgentCallbacks Ob.

Lemma persist_injected (m : LLMMessage) (x : State Ob) :
  injectedMessages (persistMessage env cfg m x) = injectedMessages x.
Proof. unfold persistMessage. now destruct (Runner.sessionId cfg). Qed.

Lemma recorded_injected (m : LLMMessage) (x : State Ob) :
  injectedMessages (record env cfg m x) = injectedMessages x.
Proof. unfold record. now rewrite persist_injected. Qed.

Lemma externals_notSteered (es : list External) (x : State Ob) :
  (forall text, ~ In (Inject text) es) ->
  injectedMessages (List.fold_left applyExternal es x) = injectedMessages x.
Proof.
  revert x. induction es as [|e es IH]; intros x H; [reflexivity|]. cbn [List.fold_left].
  rewrite IH by (intros text Hin; apply (H text); now right).
  destruct e as [text|sid entry]; [|reflexivity].
  exfalso. apply (H text). now left.
Qed.

Lemma suspend_notSteered (x : State Ob) :
  notSteered env -> injectedMessages (suspend env x) = injectedMessages x.
Proof. intros H. unfold suspend. cbn. apply externals_notSteered. apply H. Qed.

Lemma callLLM_notSteered (x : State Ob) :
  notSteered env ->
  injectedMessages (snd (callLLM env cfg callbacks x)) = injectedMessages x.
Proof.
  intros H. unfold callLLM. destruct (chat env _ _ _) as [events outcome]. cbn [snd].
  rewrite suspend_notSteered by exact H. now rewrite stream_injected.
Qed.

Lemma prepare_injected (userMessage : string) (source : Source) (x : State Ob) :
  injectedMessages (prepare env cfg userMessage source x) = injectedMessages x.
Proof.
  unfold prepare. rewrite recorded_injected.
  assert (Hs : forall y : State Ob, injectedMessages (syncTranscript cfg y) = injectedMessages y).
  { intros y. unfold syncTranscript. destruct (Runner.sessionId cfg); [|reflexivity].
    now destruct (_ <? _)%nat. }
  destruct (messages (syncTranscript cfg (setRunning true x)));
    [rewrite recorded_injected|]; now rewrite Hs.
Qed.

(** One pass of the main loop with a mute model and an empty queue. *)
Lemma mute_iteration (er : nat) (fr : string) (x : State Ob) :
  mute env -> notSteered env -> injectedMessages x = [] ->
  exists y,
    mainIteration env cfg callbacks er fr x
    = (if (er <? 2)%nat then Continue (S er) fr else Break fr, y)
    /\ injectedMessages y = []
    /\ length (llmCalls y) = S (length (llmCalls x)).
Proof.
  intros Hmute Hquiet Hq.
  destruct (mainIteration env cfg callbacks er fr x) as [c y] eqn:Hit.
  assert (Hlen : length (llmCalls y) = S (length (llmCalls x)))
    by (eapply mainIteration_llmCalls; exact Hit).
  exists y. revert Hit. unfold mainIteration, takeInjected. rewrite Hq.
  pose proof (callLLM_outcome env cfg callbacks x) as Ho.
  pose proof (callLLM_notSteered x Hquiet) as Hi.
  destruct (callLLM env cfg callbacks x) as [outcome x2]. cbn [fst snd] in *.
  destruct (Hmute (tick x) (messages x) (toolSchemas env cfg)) as (r & Hr & Hc & Ht).
  rewrite Hr in Ho. subst outcome. rewrite Hc, Ht. cbn [JS.nonEmpty].
  rewrite Hq in Hi. destruct (er <? 2)%nat.
  - intros [= <- <-]. repeat split; assumption.
  - rewrite Hi. intros [= <- <-]. repeat split; assumption.
Qed.

(** X8: a model that answers nothing is asked three times, no more: the
    first call and two retries. When every response is empty and no
    message is injected, [run] makes exactly three calls on the model and
    returns the fallback [(done)]. *)
Theorem X8_empty_responses_are_retried_twice :
  forall (userMessage : string) (source : Source) (st : State Ob),
    mute env -> notSteered env -> injectedMessages st = [] ->
    exists st',
      run env cfg callbacks userMessage source st = Some (Returned "(done)", st')
      /\ length (llmCalls st') = (length (llmCalls st) + 3)%nat.
Proof.
  intros userMessage source st Hmute Hquiet Hq. unfold run.
  set (st0 := prepare env cfg userMessage source st).
  assert (H0 : injectedMessages st0 = []) by (subst st0; now rewrite prepare_injected).
  assert (L0 : length (llmCalls st0) = length (llmCalls st))
    by (subst st0; now rewrite prepare_llmCalls).
  destruct (mute_iteration 0 "" st0 Hmute Hquiet H0) as (st1 & E1 & H1 & L1).
  destruct (mute_iteration 1 "" st1 Hmute Hquiet H1) as (st2 & E2 & H2 & L2).
  destruct (mute_iteration 2 "" st2 Hmute Hquiet H2) as (st3 & E3 & H3 & L3).
  cbn [Nat.ltb Nat.leb] in E1, E2, E3.
  cbn [mainLoop maxIterations Nat.ltb Nat.leb]. rewrite E1.
  cbn [mainLoop maxIterations Nat.ltb Nat.leb]. rewrite E2.
  cbn [mainLoop maxIterations Nat.ltb Nat.leb]. rewrite E3.
  cbn [drainLoop]. rewrite H3. cbn [finish JS.trim JS.trimStart JS.trimEnd JS.nonEmpty].
  eexists. split; [reflexivity|].
  cbn [llmCalls setRunning]. rewrite notify_llmCalls. lia.
Qed.

(** What the loop over the tool calls adds to the conversation: one tool
    message for each call it gets through, in the order of the calls; it
    gets through all of them unless a tool rejects. *)
Lemma executeTools_messages (calls : list Tools.ToolCall) (x : State Ob) :
  exists results answered rest,
    messages (snd (executeTools env cfg callbacks calls x)) = (messages x ++ results)%list
    /\ calls = (answered ++ rest)%list
    /\ List.Forall2 answersCall answered results
    /\ match rest with
       | [] => fst (executeTools env cfg callbacks calls x) = None
       | _ :: _ => exists r, fst (executeTools env cfg callbacks calls x) = Some r
       end.
Proof.
  revert x. induction calls as [|tc calls IH]; intros x; cbn [executeTools].
  - exists [], [], []. split; [now rewrite app_nil_r|]. repeat split. constructor.
  - destruct (Tools.getToolByName _ _) as [t|].
    + pose proof (steps_extends env cfg callbacks true _ _ (runTool_steps env cfg callbacks true t tc x))
        as [[ext Hext] _].
      assert (Hm : messages (snd (runTool env cfg t tc x)) = messages x).
      { unfold runTool. destruct (execute env _ _ _ _ _) as [settled o]. cbn [snd].
        now rewrite suspend_messages. }
      clear ext Hext.
      destruct (runTool env cfg t tc x) as [[output|r] x1]; cbn [snd] in Hm.
      * destruct (IH (record env cfg (toolResultMsg tc output)
                        (notify (option_map (fun f => f (Tools.callName tc) output)
                                            (onToolResult callbacks)) x1)))
          as (results & answered & rest & Hres & Hcalls & Hf & Hrest).
        eexists (_ :: results), (tc :: answered), rest. split; [|split; [|split]].
        -- rewrite Hres, record_messages, notify_messages, Hm, <- app_assoc. reflexivity.
        -- now rewrite Hcalls.
        -- constructor; [now repeat split|exact Hf].
        -- exact Hrest.
      * exists [], [], (tc :: calls). cbn [fst snd].
        split; [now rewrite Hm, app_nil_r|]. split; [reflexivity|].
        split; [constructor|eauto].
    + destruct (IH (record env cfg (unknownToolMsg tc) x))
        as (results & answered & rest & Hres & Hcalls & Hf & Hrest).
      eexists (_ :: results), (tc :: answered), rest. split; [|split; [|split]].
      * rewrite Hres, record_messages, <- app_assoc. reflexivity.
      * now rewrite Hcalls.
      * constructor; [now repeat split|exact Hf].
      * exact Hrest.
Qed.

(** X9: every tool call of a response that the loop gets through is
    answered in the conversation. When the model responds with tool
    calls, the pass of the main loop adds to the conversation the
    assistant message that declares the calls and then one tool message
    per call, in the order of the calls, each carrying the id of its
    call, whether the tool was found or not. The pass answers all the
    calls and goes on to the next iteration, unless a tool rejects: then
    the calls before that one are answered, the pass is left by the
    rejection and the call of that tool and those after it get no tool
    message. *)
Theorem X9_each_tool_call_gets_one_tool_message :
  forall (emptyRetries : nat) (finalResponse : string) (st : State Ob)
         (response : LLM.LLMResponse),
    fst (callLLM env cfg callbacks (takeInjected st)) = LLM.Responded response ->
    LLM.toolCalls response <> [] ->
    exists results answered rest,
      messages (snd (mainIteration env cfg callbacks emptyRetries finalResponse st))
      = (messages (takeInjected st) ++ assistantToolMsg response :: results)%list
      /\ LLM.toolCalls response = (answered ++ rest)%list
      /\ List.Forall2 answersCall answered results
      /\ match rest with
         | [] =>
             fst (mainIteration env cfg callbacks emptyRetries finalResponse st)
             = Continue emptyRetries
                 (if JS.nonEmpty (LLM.content response) then LLM.content response
                  else finalResponse)
         | _ :: _ =>
             exists r,
               fst (mainIteration env cfg callbacks emptyRetries finalResponse st) = Raise r
               /\ rejectedByTool env cfg r
         end
      /\ (toolsSettle env -> rest = []).
Proof.
  intros er fr st response Hr Htc. unfold mainIteration.
  pose proof (callLLM_messages env cfg callbacks (takeInjected st)) as Hm.
  destruct (callLLM env cfg callbacks (takeInjected st)) as [outcome st2].
  cbn [fst snd] in *. subst outcome.
  destruct (LLM.toolCalls response) as [|tc calls] eqn:Hcalls; [now elim Htc|].
  set (st3 := record env cfg (assistantToolMsg response) st2).
  destruct (executeTools_messages (tc :: calls) st3)
    as (results & answered & rest & Hres & Hsplit & Hf & Hrest).
  pose proof (executeTools_rejected env cfg callbacks (tc :: calls) st3) as Hrej.
  pose proof (executeTools_settle env cfg callbacks (tc :: calls) st3) as Hset.
  destruct (executeTools env cfg callbacks (tc :: calls) st3) as [rej st4].
  cbn [fst snd] in *.
  exists results, answered, rest. split; [|split; [exact Hsplit|split; [exact Hf|split]]].
  - destruct rej; cbn [snd]; subst st3;
      rewrite Hres, record_messages, Hm, <- app_assoc; reflexivity.
  - destruct rest as [|tc' rest'].
    + subst rej. reflexivity.
    + destruct Hrest as [r ->]. exists r. split; [reflexivity|]. now apply Hrej.
  - intros Hsettle. specialize (Hset Hsettle). subst rej.
    destruct rest as [|tc' rest']; [reflexivity|]. destruct Hrest as [r Hr]. discriminate.
Qed.

End Turn.

(** The theorem at the model that answers nothing. *)
Lemma X8_witness :
  exists st',
    run muteEnv Scenarios.plainConfig noCallbacks "hello" FromUser Scenarios.idle
    = Some (Returned "(done)", st')
    /\ length (llmCalls st') = 3%nat.
Proof.
  apply (X8_empty_responses_are_retried_twice muteEnv Scenarios.plainConfig noCallbacks
           "hello" FromUser Scenarios.idle).
  - intros n ms ts. eexists. repeat split; reflexivity.
  - intros n text [].
  - reflexivity.
Defined.

(** The theorem at the model that asks for the bash tool. *)
Lemma X9_witness :
  exists results,
    messages (snd (mainIteration Scenarios.loopingEnv Scenarios.plainConfig noCallbacks
                                 0 "" Scenarios.idle))
    = (messages (takeInjected Scenarios.idle)
       ++ assistantToolMsg (LLM.mkResponse "" [Tools.mkCall "call_0" "bash" "{}"] "tool_calls")
       :: results)%list
    /\ List.Forall2 answersCall [Tools.mkCall "call_0" "bash" "{}"] results.
Proof.
  destruct (X9_each_tool_call_gets_one_tool_message Scenarios.loopingEnv Scenarios.plainConfig
              noCallbacks 0 "" Scenarios.idle
              (LLM.mkResponse "" [Tools.mkCall "call_0" "bash" "{}"] "tool_calls")
              eq_refl ltac:(discriminate))
    as (results & answered & rest & Hm & Hsplit & Hf & _ & Hsettle).
  exists results. split; [exact Hm|].
  assert (Hrest : rest = []).
  { apply Hsettle. intros n t input ctx o. eexists. reflexivity. }
  rewrite Hrest, app_nil_r in Hsplit. cbn [LLM.toolCalls] in Hsplit.
  rewrite Hsplit. exact Hf.
Defined.

Section Replies.
Variable registered : gset string.
Variable env : Env Observer.
Variable cfg : Config.
Variable msg : Message.

Abbreviation cb := (callbacks registered msg).

(** X10: a turn answers once. When the model answers every call and no
    tool rejects, with tools that reach the channels through
    [sendToSession], the turn ends with a final response; the calls made
    on the channels until then are streaming helpers and the sends of
    tools, which carry no tool calls; and the turn closes with exactly one
    [channel.send] of the completion callback, the final response together
    with the tool calls collected, unless the response is a sentinel
    ([NO_REPLY] or [(done)] after trimming) or the channel of the message
    is not registered, in which cases the callback sends nothing. *)
Theorem X10_a_turn_replies_exactly_once :
  forall (st : State Observer),
    sendsThroughGateway registered env -> responds env -> toolsSettle env ->
    exists final st' during,
      processMessageRun registered env cfg msg st = Some st'
      /\ run env cfg cb (text msg) (sourceOf msg) (setObs (mkObserver [] (ops (obs st))) st)
         = Some (Returned final, st')
      /\ List.Forall (fun op => isChannelSend op = false \/ isToolSend op = true) during
      /\ ops (obs st')
         = (ops (obs st) ++ during
            ++ (if suppressed final then []
                else replyOps registered msg final (Some (collected (obs st')))))%list.
Proof.
  intros st Hgate Hresp Hsettle.
  destruct (run_phases env cfg cb (text msg) (sourceOf msg)
              (setObs (mkObserver [] (ops (obs st))) st))
    as (exit1 & mid & exit2 & last & Hmain & Hsecond & Hrun).
  destruct (loops_onlyToolsSent registered env cfg msg st exit1 exit2 mid last Hgate
              Hmain Hsecond) as (during & Hops & Hf).
  assert (Hdone : exists it fr, exit2 = Done it fr).
  { destruct (mainLoop_total env cfg cb (S maxIterations) 0 0 ""
                (prepare env cfg (text msg) (sourceOf msg)
                         (setObs (mkObserver [] (ops (obs st))) st)))
      as (e1 & m1 & Hm1 & _ & _ & Hr1 & _); [unfold maxIterations; lia|].
    rewrite Hmain in Hm1. injection Hm1 as <- <-.
    destruct Hsecond as [(it & fr & -> & Hdrain)|(r & -> & _)].
    - destruct (drainLoop_total env cfg cb (S maxIterations) it fr mid)
        as (e2 & m2 & Hm2 & _ & _ & Hr2 & _); [unfold maxIterations; lia|].
      rewrite Hdrain in Hm2. injection Hm2 as <- <-.
      destruct exit2 as [it2 fr2|r]; [eauto|].
      exfalso. exact (settle_not_rejected env cfg r Hsettle (Hr2 Hresp r eq_refl)).
    - exfalso. exact (settle_not_rejected env cfg r Hsettle (Hr1 Hresp r eq_refl)). }
  destruct Hdone as (it & fr & ->).
  set (final := if JS.nonEmpty (JS.trim fr) then fr else "(done)") in *.
  cbn [finish] in Hrun. fold final in Hrun.
  eexists final, _, during. split; [|split; [exact Hrun|split; [exact Hf|]]].
  - unfold processMessageRun. now rewrite Hrun.
  - cbn [callbacks onComplete option_map notify setRunning obs setObs].
    fold (suppressed final). destruct (suppressed final).
    + now rewrite Hops, app_nil_r.
    + unfold channelsSend, replyOps. destruct (bool_decide _).
      * cbn [addOp ops collected]. now rewrite Hops, app_assoc.
      * now rewrite Hops, app_nil_r.
Qed.


End Replies.


(** The gateway of the scenarios is how the tools of [deliveringEnv]
    reach the channels. *)
Lemma delivering_through_gateway :
  sendsThroughGateway Scenarios.registeredChannels Scenarios.deliveringEnv.
Proof.
  intros n t input ctx o. cbn [execute Scenarios.deliveringEnv].
  destruct (String.eqb (Tools.name t) "session_send").
  - exists [mkSend "websocket:abc" "websocket" Scenarios.deliveredText]. reflexivity.
  - exists []. reflexivity.
Qed.

(** The theorem at the turn that delivers through the session_send tool
    and then answers [NO_REPLY]. *)
Lemma X10_witness :
  exists final st' during,
    processMessageRun Scenarios.registeredChannels Scenarios.deliveringEnv
                      Scenarios.plainConfig Scenarios.announceMessage Scenarios.gatewayBound
    = Some st'
    /\ run Scenarios.deliveringEnv Scenarios.plainConfig
           (callbacks Scenarios.registeredChannels Scenarios.announceMessage)
           (text Scenarios.announceMessage) (sourceOf Scenarios.announceMessage)
           (setObs (mkObserver [] (ops (obs Scenarios.gatewayBound))) Scenarios.gatewayBound)
       = Some (Returned final, st')
    /\ List.Forall (fun op => isChannelSend op = false \/ isToolSend op = true) during
    /\ ops (obs st')
       = (ops (obs Scenarios.gatewayBound) ++ during
          ++ (if suppressed final then []
              else replyOps Scenarios.registeredChannels Scenarios.announceMessage final
                            (Some (collected (obs st')))))%list.
Proof.
  apply (X10_a_turn_replies_exactly_once Scenarios.registeredChannels Scenarios.deliveringEnv
           Scenarios.plainConfig Scenarios.announceMessage Scenarios.gatewayBound).
  - exact delivering_through_gateway.
  - intros n ms ts. destruct n; eexists; reflexivity.
  - intros n t input ctx o. cbn [execute Scenarios.deliveringEnv].
    destruct (String.eqb (Tools.name t) "session_send"); eexists; reflexivity.
Defined.

End TurnsFacts.

(** ** Tool registry *)

Module ToolsFacts.

Import Tools.

Lemma find_present {A} (p : A -> bool) (l : list A) (x : A) :
  In x l -> p x = true -> exists y, List.find p l = Some y /\ p y = true.
Proof.
  induction l as [|a l IH]; [intros []|]. intros [->|Hin] Hp; cbn.
  - rewrite Hp. eauto.
  - destruct (p a) eqn:Ha; [eauto|]. now apply IH.
Qed.

Lemma getAllTools_incl (composio : list Tool) (isSubagent : bool) (t : Tool) :
  In t (getAllTools composio isSubagent) -> In t (getAllTools composio false).
Proof.
  unfold getAllTools. destruct isSubagent; [|easy]. intros H. now apply filter_In in H.
Qed.

(** X12: a tool that is offered can be called. Every schema that
    [getToolSchemas] hands to the model, for a main agent or for a
    subagent, names a tool that [getToolByName] finds, and the tool found
    has that name: the runner never answers [Unknown tool] for a tool it
    offered. *)
Theorem X12_offered_tools_are_found_by_name :
  forall (composio : list Tool) (isSubagent : bool) (schema : ToolSchema),
    In schema (getToolSchemas composio isSubagent) ->
    exists t, getToolByName composio (fnName schema) = Some t
              /\ name t = fnName schema.
Proof.
  intros composio isSubagent schema H. unfold getToolSchemas in H.
  apply in_map_iff in H as (t & <- & Hin). apply getAllTools_incl in Hin.
  destruct (find_present (fun u => String.eqb (name u) (name t)) _ t Hin
              (String.eqb_refl _)) as (y & Hy & Hp).
  exists y. split; [exact Hy|]. now apply String.eqb_eq.
Qed.

Lemma X12_witness :
  exists t, getToolByName [mkTool "web_search"] "web_search" = Some t
            /\ name t = "web_search".
Proof.
  apply (X12_offered_tools_are_found_by_name [mkTool "web_search"] true
           (mkSchema "web_search")).
  vm_compute. tauto.
Defined.

End ToolsFacts.

(** ** Session files *)

Module BookkeepingFacts.

Import Sessions Bookkeeping RunnerFacts.

Lemma objGet_objSet {V} (k k' : string) (v : V) (o : list (string * V)) :
  objGet k' (objSet k v o) = if String.eqb k k' then Some v else objGet k' o.
Proof.
  induction o as [|[k0 v0] o IH]; cbn [objSet objGet]; [reflexivity|].
  destruct (String.eqb_spec k0 k) as [->|Hne]; cbn [objGet].
  - now destruct (String.eqb k k').
  - rewrite IH. destruct (String.eqb_spec k0 k') as [->|Hne']; [|reflexivity].
    destruct (String.eqb_spec k k'); [congruence|reflexivity].
Qed.

Lemma objGet_none_notin {V} (k : string) (o : list (string * V)) :
  objGet k o = None -> ~ In k (List.map fst o).
Proof.
  induction o as [|[k0 v0] o IH]; cbn; [tauto|].
  destruct (String.eqb_spec k0 k) as [->|Hne]; [discriminate|].
  intros H [Heq|Hin]; [congruence|]. now apply IH.
Qed.

Lemma objSet_keys {V} (k : string) (v : V) (o : list (string * V)) :
  List.map fst (objSet k v o)
  = match objGet k o with
    | Some _ => List.map fst o
    | None => (List.map fst o ++ [k])%list
    end.
Proof.
  induction o as [|[k0 v0] o IH]; cbn; [reflexivity|].
  destruct (String.eqb_spec k0 k) as [->|Hne]; cbn; [reflexivity|].
  rewrite IH. now destruct (objGet k o).
Qed.

Lemma objGet_objDelete {V} (k k' : string) (o : list (string * V)) :
  List.NoDup (List.map fst o) ->
  objGet k' (objDelete k o) = if String.eqb k k' then None else objGet k' o.
Proof.
  induction o as [|[k0 v0] o IH]; cbn; intros Hnd.
  - now destruct (String.eqb k k').
  - apply List.NoDup_cons_iff in Hnd as [Hnotin Hnd].
    destruct (String.eqb_spec k0 k) as [->|Hne]; cbn.
    + destruct (String.eqb_spec k k') as [<-|Hne']; [|reflexivity].
      destruct (objGet k o) eqn:Hg; [|reflexivity].
      exfalso. apply Hnotin. clear - Hg.
      induction o as [|[k1 v1] o IH]; cbn in *; [discriminate|].
      destruct (String.eqb_spec k1 k); [now left|right; now apply IH].
    + rewrite IH by exact Hnd. destruct (String.eqb_spec k0 k') as [->|Hne'].
      * destruct (String.eqb_spec k k'); [congruence|reflexivity].
      * reflexivity.
Qed.

Lemma objDelete_keys {V} (k : string) (o : list (string * V)) :
  List.NoDup (List.map fst o) -> List.NoDup (List.map fst (objDelete k o)).
Proof.
  induction o as [|[k0 v0] o IH]; cbn; intros Hnd; [constructor|].
  apply List.NoDup_cons_iff in Hnd as [Hnotin Hnd].
  destruct (String.eqb k0 k); cbn; [exact Hnd|].
  constructor; [|now apply IH].
  intros Hin. apply Hnotin. clear - Hin.
  induction o as [|[k1 v1] o IH]; cbn in *; [exact Hin|].
  destruct (String.eqb k1 k); cbn in *; [now right|].
  destruct Hin as [->|Hin]; [now left|right; now apply IH].
Qed.

Lemma createSession_tidy (key agent : string) (ti ch : option string) (uuid : string)
    (now : Z) (sm : t) :
  objGet uuid (sessions sm) = None -> transcripts sm !! uuid = None ->
  tidy sm -> tidy (snd (createSession key agent ti ch uuid now sm)).
Proof.
  intros Hget Hfile [Hc Hnd]. unfold createSession. cbn [snd]. split.
  - intros sid s. cbn [sessions]. rewrite objGet_objSet.
    destruct (String.eqb_spec uuid sid) as [<-|Hne].
    + intros [= <-]. cbn [messageCount]. unfold loadTranscript. cbn [transcripts].
      now rewrite Hfile.
    + intros H. now apply Hc.
  - cbn [sessions]. rewrite objSet_keys, Hget.
    apply List.NoDup_app; [exact Hnd|repeat constructor; intros []|].
    intros k Hin [<-|[]]. now apply (objGet_none_notin _ _ Hget).
Qed.

Lemma appendMessage_tidy (sid : string) (m : TranscriptMessage) (now : Z) (sm : t) :
  tidy sm -> tidy (appendMessage sid m now sm).
Proof.
  intros [Hc Hnd]. split.
  - intros sid' s'. rewrite loadTranscript_appendMessage. unfold appendMessage.
    destruct (objGet sid (sessions sm)) as [s|] eqn:Hget; cbn [sessions].
    + rewrite objGet_objSet. destruct (String.eqb_spec sid sid') as [<-|Hne].
      * intros [= <-]. cbn [messageCount]. rewrite decide_True by reflexivity.
        rewrite length_app. cbn [length]. rewrite (Hc _ _ Hget). lia.
      * intros H. rewrite decide_False by exact Hne. now apply Hc.
    + intros H. case_decide; [congruence|]. now apply Hc.
  - unfold appendMessage. destruct (objGet sid (sessions sm)) eqn:Hget; cbn [sessions];
      [|exact Hnd].
    now rewrite objSet_keys, Hget.
Qed.

Lemma deleteSession_tidy (sid : string) (sm : t) :
  tidy sm -> tidy (snd (deleteSession sid sm)).
Proof.
  intros [Hc Hnd]. unfold deleteSession.
  destruct (objGet sid (sessions sm)) eqn:Hget; cbn [snd]; [|now split].
  split; [|now apply objDelete_keys].
  intros sid' s'. cbn [sessions]. rewrite objGet_objDelete by exact Hnd.
  destruct (String.eqb_spec sid sid') as [<-|Hne]; [discriminate|].
  intros H. unfold loadTranscript. cbn [transcripts].
  rewrite lookup_delete_ne by exact Hne. now apply Hc.
Qed.

Lemma applyOp_tidy (sm : t) (op : Op) :
  drawsFreshId sm op = true -> tidy sm -> tidy (applyOp sm op).
Proof.
  destruct op; cbn [applyOp drawsFreshId]; intros Hfresh Ht.
  - unfold getOrCreate. destruct (findBySessionKey _ sm); [exact Ht|].
    destruct (objGet uuid (sessions sm)) eqn:Hg; [discriminate|].
    destruct (transcripts sm !! uuid) eqn:Hf; [discriminate|].
    now apply createSession_tidy.
  - destruct (objGet uuid (sessions sm)) eqn:Hg; [discriminate|].
    destruct (transcripts sm !! uuid) eqn:Hf; [discriminate|].
    now apply createSession_tidy.
  - now apply appendMessage_tidy.
  - now apply deleteSession_tidy.
Qed.

(** X14: the message count of a session is the length of its
    transcript. In every state the session files reach from the empty
    store by [getOrCreate], [createSession], [appendMessage] and
    [deleteSession], each new session drawing an id the store has not
    seen, the [messageCount] of every session equals the number of lines
    of its transcript. *)
Theorem X14_message_count_is_transcript_length :
  forall (ops : list Op),
    allDrawFresh empty ops = true ->
    countsMatch (List.fold_left applyOp ops empty).
Proof.
  intros ops. assert (H0 : tidy empty) by (split; [intros sid s; discriminate|constructor]).
  revert H0. generalize empty.
  induction ops as [|op ops IH]; intros sm Ht Hfresh; cbn in *; [apply Ht|].
  apply andb_true_iff in Hfresh as [Hop Hrest]. apply IH; [|exact Hrest].
  now apply applyOp_tidy.
Qed.

(** The theorem at a message on telegram, two lines, a cron fire and a
    deletion. *)
Lemma X14_witness :
  countsMatch
    (List.fold_left applyOp
       [GetOrCreate "telegram:7" "default" (Some "telegram") "u1" 10;
        AppendMessage "u1" (mkEntry user "hi" 11 None None) 11;
        AppendMessage "u1" (mkEntry assistant "hello" 12 None None) 12;
        CreateSession "cron:job1" "default" (Some "Cron: say hello") (Some "cron") "u2" 20;
        DeleteSession "u2"] empty).
Proof.
  apply (X14_message_count_is_transcript_length
           [GetOrCreate "telegram:7" "default" (Some "telegram") "u1" 10;
            AppendMessage "u1" (mkEntry user "hi" 11 None None) 11;
            AppendMessage "u1" (mkEntry assistant "hello" 12 None None) 12;
            CreateSession "cron:job1" "default" (Some "Cron: say hello") (Some "cron") "u2" 20;
            DeleteSession "u2"]).
  vm_compute. reflexivity.
Defined.

End BookkeepingFacts.

(** ** The session_send tool *)

Module SendToolsFacts.

Import Sessions Gateway SendTools RunnerFacts.

(** Appending a line changes neither the id nor the key of the session
    found under a key. *)
Lemma findBySessionKey_appendMessage (k sid : string) (m : TranscriptMessage) (now : Z)
    (sm : Sessions.t) :
  option_map Sessions.sessionId (findBySessionKey k (appendMessage sid m now sm))
  = option_map Sessions.sessionId (findBySessionKey k sm).
Proof.
  unfold appendMessage, findBySessionKey, objValues.
  destruct (objGet sid (sessions sm)) as [s|] eqn:Hget; cbn [sessions]; [|reflexivity].
  revert Hget. generalize (sessions sm). intros o.
  induction o as [|[k0 v0] o IH]; cbn; [discriminate|].
  destruct (String.eqb k0 sid); cbn.
  - intros [= ->]. now destruct (String.eqb (Sessions.sessionKey s) k).
  - intros H. destruct (String.eqb (Sessions.sessionKey v0) k); [reflexivity|]. now apply IH.
Qed.

(** X15: session_send writes its message twice. With a gateway
    reference set, a message sent to a session that is the one found under
    its own key lands in the transcript of that session twice: the tool
    appends it, and [sendToSession], which the tool then calls, appends it
    again; the tool reports one message sent. *)
Theorem X15_session_send_persists_the_message_twice :
  forall (registered : gset string) (text sid : string) (now later : Z)
         (sm : Sessions.t) (o : Observer) (session : SessionEntry),
    getSession sid sm = Some session ->
    Sessions.sessionId session = sid ->
    findBySessionKey (Sessions.sessionKey session) sm = Some session ->
    exists sm' o',
      sessionSend (Some registered) text sid now later sm o
      = (Sent sid (title session), sm', o')
      /\ loadTranscript sid sm'
         = (loadTranscript sid sm ++ [sentEntry text now; sentEntry text later])%list.
Proof.
  intros registered text sid now later sm o session Hget Hid Hkey.
  unfold sessionSend. rewrite Hget. unfold sendToSession.
  pose proof (findBySessionKey_appendMessage (Sessions.sessionKey session) sid
                (sentEntry text now) now sm) as Hfound.
  rewrite Hkey in Hfound. cbn [option_map] in Hfound.
  destruct (findBySessionKey _ (appendMessage sid _ now sm)) as [found|]; [|discriminate].
  injection Hfound as Hfound. rewrite Hfound, Hid.
  eexists _, _. split; [reflexivity|].
  rewrite !loadTranscript_appendMessage, !decide_True by reflexivity.
  now rewrite <- app_assoc.
Qed.

(** The theorem at a store with one web session. *)
Lemma X15_witness :
  exists sm' o',
    sessionSend (Some Scenarios.registeredChannels) "report" "s1" 200 201 oneWebSession
                (mkObserver [] [])
    = (Sent "s1" (Some "Session 1"), sm', o')
    /\ loadTranscript "s1" sm'
       = (loadTranscript "s1" oneWebSession
          ++ [sentEntry "report" 200; sentEntry "report" 201])%list.
Proof.
  apply (X15_session_send_persists_the_message_twice Scenarios.registeredChannels "report"
           "s1" 200 201 oneWebSession (mkObserver [] [])
           (mkSession "s1" "web:1" "default" (Some "Session 1") None None 100 100 0
                      (Some "web"))); reflexivity.
Defined.

End SendToolsFacts.

(** ** Cron service *)

Module CronFacts.

Import Gateway Cron.

Lemma omap_ext_in {A B} (f g : A -> option B) (l : list A) :
  (forall x, In x l -> f x = g x) -> omap f l = omap g l.
Proof.
  induction l as [|x l IH]; intros H; [reflexivity|].
  cbn. rewrite (H x (or_introl eq_refl)), IH; [reflexivity|].
  intros y Hy. apply H. now right.
Qed.

Lemma in_omap {A B} (f : A -> option B) (l : list A) (y : B) :
  In y (omap f l) <-> exists x, In x l /\ f x = Some y.
Proof.
  induction l as [|x l IH]; cbn.
  - split; [tauto|]. now intros (? & [] & _).
  - destruct (f x) as [b|] eqn:E; cbn; rewrite IH; split.
    + intros [<-|(z & Hz & Hf)]; eauto.
    + intros (z & [<-|Hz] & Hf); [left; congruence|right; eauto].
    + intros (z & Hz & Hf); eauto.
    + intros (z & [<-|Hz] & Hf); [congruence|eauto].
Qed.

Lemma find_ext {A} (p q : A -> bool) (l : list A) :
  (forall x, p x = q x) -> List.find p l = List.find q l.
Proof.
  intros H. induction l as [|x l IH]; [reflexivity|]. cbn. now rewrite H, IH.
Qed.

Lemma find_some (id : string) (st : t) (ref : nat) :
  find id st = Some ref ->
  In ref (jobs st) /\ exists job, heap st !! ref = Some job /\ jobId job = id.
Proof.
  unfold find. intros H. apply List.find_some in H as [Hin Hp]. split; [exact Hin|].
  unfold hasId in Hp. destruct (heap st !! ref) as [job|]; [|discriminate].
  apply String.eqb_eq in Hp. eauto.
Qed.

Lemma find_none (id : string) (st : t) : find id st = None -> ~ In id (ids st).
Proof.
  unfold find, ids, getAll. intros H Hin.
  apply List.in_map_iff in Hin as (job & Hid & Hin).
  apply in_omap in Hin as (ref & Hin & Hj).
  pose proof (List.find_none _ _ H ref Hin) as Hp. unfold hasId in Hp.
  rewrite Hj in Hp. apply String.eqb_neq in Hp. congruence.
Qed.

Lemma in_ids (st : t) (ref : nat) (job : CronJob) :
  In ref (jobs st) -> heap st !! ref = Some job -> In (jobId job) (ids st).
Proof.
  intros Hin Hj. unfold ids, getAll. apply List.in_map. apply in_omap. eauto.
Qed.

(** With distinct ids, a job is found under its id. *)
Lemma find_unique_list (h : gmap nat CronJob) (l : list nat) (ref : nat) (job : CronJob) :
  List.NoDup (List.map jobId (omap (fun r => h !! r) l)) ->
  In ref l -> h !! ref = Some job ->
  List.find (fun r => match h !! r with
                      | Some j => String.eqb (jobId j) (jobId job)
                      | None => false
                      end) l = Some ref.
Proof.
  induction l as [|r l IH]; intros Hnd Hin Hj; [destruct Hin|].
  cbn [List.find]. cbn in Hnd. destruct (h !! r) as [j|] eqn:Hr.
  - cbn in Hnd. apply List.NoDup_cons_iff in Hnd as [Hnot Hnd].
    destruct (String.eqb_spec (jobId j) (jobId job)) as [Heq|Hne].
    + destruct Hin as [->|Hin]; [reflexivity|]. exfalso. apply Hnot.
      rewrite Heq. apply List.in_map. apply in_omap. eauto.
    + destruct Hin as [->|Hin]; [congruence|]. now apply IH.
  - destruct Hin as [->|Hin]; [congruence|]. now apply IH.
Qed.

Lemma find_unique (st : t) (ref : nat) (job : CronJob) :
  List.NoDup (ids st) -> In ref (jobs st) -> heap st !! ref = Some job ->
  find (jobId job) st = Some ref.
Proof. intros Hnd Hin Hj. now apply find_unique_list. Qed.

Lemma ids_update (h : gmap nat CronJob) (l : list nat) (ref : nat) (job job' : CronJob) :
  h !! ref = Some job -> jobId job' = jobId job ->
  List.map jobId (omap (fun r => <[ref := job']> h !! r) l)
  = List.map jobId (omap (fun r => h !! r) l).
Proof.
  intros Hj Hid. induction l as [|r l IH]; [reflexivity|]. cbn.
  destruct (decide (ref = r)) as [<-|Hne].
  - rewrite lookup_insert_eq, Hj. cbn. now rewrite IH, Hid.
  - rewrite lookup_insert_ne by exact Hne. destruct (h !! r); cbn; now rewrite IH.
Qed.

Lemma removeFirst_in (p : nat -> bool) (l : list nat) (ref : nat) :
  In ref (removeFirst p l) -> In ref l.
Proof.
  induction l as [|r l IH]; [tauto|]. cbn. destruct (p r); cbn; tauto.
Qed.

Lemma removeFirst_keeps (p : nat -> bool) (l : list nat) (ref : nat) :
  In ref l -> p ref = false -> In ref (removeFirst p l).
Proof.
  induction l as [|r l IH]; [tauto|]. cbn. intros [->|Hin] Hp.
  - rewrite Hp. now left.
  - destruct (p r); [exact Hin|]. right. now apply IH.
Qed.

Lemma removeFirst_NoDup (p : nat -> bool) (l : list nat) :
  List.NoDup l -> List.NoDup (removeFirst p l).
Proof.
  induction l as [|r l IH]; [trivial|]. intros Hnd.
  apply List.NoDup_cons_iff in Hnd as [Hnot Hnd]. cbn. destruct (p r); [exact Hnd|].
  apply List.NoDup_cons; [|now apply IH]. intros Hin. apply Hnot.
  now apply removeFirst_in in Hin.
Qed.

Lemma removeFirst_ids (h : gmap nat CronJob) (p : nat -> bool) (l : list nat) :
  List.NoDup (List.map jobId (omap (fun r => h !! r) l)) ->
  List.NoDup (List.map jobId (omap (fun r => h !! r) (removeFirst p l))).
Proof.
  induction l as [|r l IH]; [trivial|]. cbn. destruct (p r).
  - destruct (h !! r); cbn; [|trivial]. intros Hnd.
    now apply List.NoDup_cons_iff in Hnd as [_ Hnd].
  - cbn. destruct (h !! r) as [j|]; cbn; [|exact IH]. intros Hnd.
    apply List.NoDup_cons_iff in Hnd as [Hnot Hnd].
    apply List.NoDup_cons; [|now apply IH]. intros Hin. apply Hnot.
    apply List.in_map_iff in Hin as (job & Hid & Hin). rewrite <- Hid.
    apply List.in_map. apply in_omap in Hin as (ref & Hin & Hj).
    apply in_omap. exists ref. split; [|exact Hj]. now apply removeFirst_in in Hin.
Qed.


Lemma sound_create : sound create.
Proof.
  constructor; cbn.
  - intros ref [].
  - intros ref [x Hx]. now rewrite lookup_empty in Hx.
  - constructor.
  - constructor.
  - intros h r Hr. now rewrite lookup_empty in Hr.
  - intros id h Hr. now rewrite lookup_empty in Hr.
  - intros h [x Hx]. now rewrite lookup_empty in Hx.
Qed.

Lemma sound_serves (st : t) : sound st -> runnersServeEnabledJobs st.
Proof.
  intros Hs h r Hr. destruct (tickingServes st Hs h r Hr) as (job & ? & ? & ? & ?).
  eauto.
Qed.

Lemma storeAdd_ids (job : CronJob) (st : t) :
  sound st -> ids (snd (storeAdd job st)) = (ids st ++ [jobId job])%list.
Proof.
  intros [A B C D E F G]. unfold ids, getAll. cbn.
  rewrite omap_app, List.map_app. cbn. rewrite lookup_insert_eq. cbn.
  f_equal. f_equal. apply omap_ext_in. intros ref Hin. apply lookup_insert_ne.
  intros Heq. specialize (B ref (A ref Hin)). lia.
Qed.

(** A new object does not disturb the rest. *)
Lemma storeAdd_sound (job : CronJob) (st : t) :
  sound st -> ~ In (jobId job) (ids st) -> sound (snd (storeAdd job st)).
Proof.
  intros [A B C D E F G] Hfresh.
  assert (Hnew : heap st !! nextRef st = None).
  { destruct (heap st !! nextRef st) eqn:Hn; [|reflexivity].
    specialize (B (nextRef st) (mk_is_Some _ _ Hn)). lia. }
  assert (Hold : forall ref, is_Some (heap st !! ref) -> ref <> nextRef st).
  { intros ref Href ->. rewrite Hnew in Href. now destruct Href. }
  pose proof (storeAdd_ids job st (mkSound st A B C D E F G)) as Hids.
  constructor; [| | |rewrite Hids|..]; cbn.
  - intros ref Hin. apply List.in_app_iff in Hin as [Hin|[<-|[]]].
    + rewrite lookup_insert_ne; [now apply A|]. intros <-. now apply (Hold _ (A _ Hin)).
    + rewrite lookup_insert_eq. eauto.
  - intros ref Href. destruct (decide (nextRef st = ref)) as [<-|Hne]; [lia|].
    rewrite lookup_insert_ne in Href by exact Hne. specialize (B _ Href). lia.
  - apply List.NoDup_app; [exact C|repeat constructor; intros []|].
    intros ref Hin [<-|[]]. now apply (Hold _ (A _ Hin)).
  - apply List.NoDup_app; [exact D|repeat constructor; intros []|].
    intros id Hin [<-|[]]. now apply Hfresh.
  - intros h r Hr. destruct (E h r Hr) as (j & Hj & Hin & Hen & Hreg).
    exists j. rewrite lookup_insert_ne by (intros Heq; apply (Hold _ (mk_is_Some _ _ Hj)); congruence).
    repeat split; trivial. apply List.in_app_iff. now left.
  - intros id h Hreg. destruct (F id h Hreg) as (r & j & Hr & Hj & Hid).
    exists r, j. rewrite lookup_insert_ne by (intros Heq; apply (Hold _ (mk_is_Some _ _ Hj)); congruence).
    now repeat split.
  - exact G.
Qed.

(** Stopping the runner of an id leaves none registered for it. *)
Lemma stopRunner_sound (id : string) (st : t) :
  sound st -> sound (stopRunner id st) /\ runners (stopRunner id st) !! id = None.
Proof.
  intros Hs. unfold stopRunner. destruct (runners st !! id) as [h|] eqn:Hreg; [|now split].
  destruct Hs as [A B C D E F G]. split; [|cbn; apply lookup_delete_eq].
  constructor; cbn; trivial.
  - intros h' r Hr. apply lookup_delete_Some in Hr as [Hne Hr].
    destruct (E h' r Hr) as (j & Hj & Hin & Hen & Hreg'). exists j. repeat split; trivial.
    rewrite lookup_delete_ne; [exact Hreg'|]. intros Heq. congruence.
  - intros id' h' Hreg'. apply lookup_delete_Some in Hreg' as [Hne Hreg'].
    destruct (F id' h' Hreg') as (r & j & Hr & Hj & Hid). exists r, j. repeat split; trivial.
    rewrite lookup_delete_ne; [exact Hr|]. intros Heq.
    destruct (F id h Hreg) as (r0 & j0 & Hr0 & Hj0 & Hid0). congruence.
  - intros h' [r Hr]. apply lookup_delete_Some in Hr as [_ Hr]. apply G. eauto.
Qed.

Lemma stopRunner_store (id : string) (st : t) :
  heap (stopRunner id st) = heap st /\ jobs (stopRunner id st) = jobs st.
Proof. unfold stopRunner. now destruct (runners st !! id). Qed.

Lemma find_stopRunner (id id' : string) (st : t) :
  find id (stopRunner id' st) = find id st.
Proof. unfold stopRunner. now destruct (runners st !! id'). Qed.

(** Removing a job that has no runner. *)
Lemma storeRemove_sound (id : string) (st : t) :
  sound st -> runners st !! id = None -> sound (snd (storeRemove id st)).
Proof.
  intros Hs Hnone. unfold storeRemove. destruct (find id st) as [ref|] eqn:Hf; [|exact Hs].
  destruct Hs as [A B C D E F G]. constructor; cbn; trivial.
  - intros r Hin. apply A. now apply removeFirst_in in Hin.
  - now apply removeFirst_NoDup.
  - now apply removeFirst_ids.
  - intros h r Hr. destruct (E h r Hr) as (j & Hj & Hin & Hen & Hreg).
    exists j. repeat split; trivial. apply removeFirst_keeps; [exact Hin|].
    unfold hasId. rewrite Hj. apply String.eqb_neq. intros Heq. congruence.
Qed.

(** An update that does not switch off a job with a runner. *)
Lemma storeUpdate_sound (id : string) (u : Updates) (st : t) :
  sound st -> runners st !! id = None \/ newEnabled u <> Some false ->
  sound (snd (storeUpdate id u st)).
Proof.
  intros Hs Hok. unfold storeUpdate. destruct (find id st) as [ref|] eqn:Hf; [|exact Hs].
  destruct (find_some _ _ _ Hf) as (Hin & job & Hj & Hid). rewrite Hj.
  destruct Hs as [A B C D E F G]. constructor; cbn; trivial.
  - intros r Hr. destruct (decide (ref = r)) as [<-|Hne].
    + rewrite lookup_insert_eq. eauto.
    + rewrite lookup_insert_ne by exact Hne. now apply A.
  - intros r Hr. destruct (decide (ref = r)) as [<-|Hne]; [apply B; eauto|].
    rewrite lookup_insert_ne in Hr by exact Hne. now apply B.
  - unfold ids, getAll. cbn. now rewrite (ids_update _ _ _ job).
  - intros h r Hr. destruct (E h r Hr) as (j & Hj' & Hin' & Hen & Hreg).
    destruct (decide (ref = jobRef r)) as [Heq|Hne].
    + rewrite <- Heq, lookup_insert_eq. exists (assign job u).
      rewrite <- Heq, Hj in Hj'. injection Hj' as <-.
      split; [reflexivity|]. split; [exact Hin|]. split; [|exact Hreg].
      cbn. destruct Hok as [Hnone|Hnot]; [congruence|].
      destruct (newEnabled u) as [[]|]; cbn; congruence.
    + rewrite lookup_insert_ne by exact Hne. eauto.
  - intros id' h Hreg. destruct (F id' h Hreg) as (r & j & Hr & Hj' & Hid').
    exists r. destruct (decide (ref = jobRef r)) as [Heq|Hne].
    + rewrite <- Heq, lookup_insert_eq. exists (assign job u).
      rewrite <- Heq, Hj in Hj'. injection Hj' as <-. now repeat split.
    + rewrite lookup_insert_ne by exact Hne. eauto.
Qed.

Lemma storeUpdate_runners (id : string) (u : Updates) (st : t) :
  runners (snd (storeUpdate id u st)) = runners st
  /\ ticking (snd (storeUpdate id u st)) = ticking st
  /\ nextRunner (snd (storeUpdate id u st)) = nextRunner st.
Proof.
  unfold storeUpdate. destruct (find id st); [|now repeat split].
  now destruct (heap st !! n).
Qed.

(** What an update that finds its job leaves in the store. *)
Lemma storeUpdate_found (id : string) (u : Updates) (st : t) (ref : nat) :
  find id st = Some ref ->
  exists job, heap st !! ref = Some job /\ jobId job = id
    /\ storeUpdate id u st
       = (true, mkService (<[ref := assign job u]> (heap st)) (jobs st) (nextRef st)
                          (ticking st) (nextRunner st) (runners st)).
Proof.
  intros Hf. destruct (find_some _ _ _ Hf) as (Hin & job & Hj & Hid).
  exists job. unfold storeUpdate. now rewrite Hf, Hj.
Qed.

Lemma find_after_update (id id' : string) (u : Updates) (st : t) :
  find id' (snd (storeUpdate id u st)) = find id' st.
Proof.
  unfold storeUpdate. destruct (find id st) as [ref|] eqn:Hf; [|reflexivity].
  destruct (find_some _ _ _ Hf) as (Hin & job & Hj & Hid). rewrite Hj. cbn.
  unfold find. cbn. apply find_ext. intros r. unfold hasId. cbn.
  destruct (decide (ref = r)) as [<-|Hne].
  - now rewrite lookup_insert_eq, Hj.
  - now rewrite lookup_insert_ne.
Qed.

Lemma stopRunner_storeUpdate (id id' : string) (u : Updates) (st : t) :
  stopRunner id' (snd (storeUpdate id u st)) = snd (storeUpdate id u (stopRunner id' st)).
Proof.
  unfold storeUpdate. rewrite find_stopRunner.
  destruct (find id st) as [ref|]; [|reflexivity].
  unfold stopRunner. destruct (runners st !! id') as [h|] eqn:Hreg; cbn;
    destruct (heap st !! ref); cbn; now rewrite ?Hreg.
Qed.

Section Service.

Variable validSchedule : string -> bool.

(** Starting a runner for an enabled job of the store that has none. *)
Lemma scheduleJob_sound (ref : nat) (job : CronJob) (st : t) :
  sound st -> In ref (jobs st) -> heap st !! ref = Some job -> enabled job = true ->
  runners st !! jobId job = None ->
  sound (scheduleJob validSchedule ref st).
Proof.
  intros Hs Hin Hj Hen Hnone. unfold scheduleJob. rewrite Hj.
  destruct (validSchedule (schedule job)); [|exact Hs].
  destruct Hs as [A B C D E F G]. constructor; cbn; trivial.
  - intros h r Hr. destruct (decide (nextRunner st = h)) as [<-|Hne].
    + rewrite lookup_insert_eq in Hr. injection Hr as <-. cbn. exists job.
      rewrite lookup_insert_eq. now repeat split.
    + rewrite lookup_insert_ne in Hr by exact Hne.
      destruct (E h r Hr) as (j & Hj' & Hin' & Hen' & Hreg). exists j.
      repeat split; trivial. rewrite lookup_insert_ne; [exact Hreg|]. congruence.
  - intros id h Hreg. destruct (decide (jobId job = id)) as [<-|Hne].
    + rewrite lookup_insert_eq in Hreg. injection Hreg as <-.
      exists (mkRunner (schedule job) ref), job. rewrite lookup_insert_eq. now repeat split.
    + rewrite lookup_insert_ne in Hreg by exact Hne.
      destruct (F id h Hreg) as (r & j & Hr & Hj' & Hid). exists r, j.
      repeat split; trivial. rewrite lookup_insert_ne; [exact Hr|].
      intros Heq. specialize (G _ (mk_is_Some _ _ Hr)). lia.
  - intros h [r Hr]. destruct (decide (nextRunner st = h)) as [<-|Hne]; [lia|].
    rewrite lookup_insert_ne in Hr by exact Hne. specialize (G h (mk_is_Some _ _ Hr)). lia.
Qed.

Lemma scheduleJob_store (ref : nat) (st : t) :
  heap (scheduleJob validSchedule ref st) = heap st
  /\ jobs (scheduleJob validSchedule ref st) = jobs st.
Proof.
  unfold scheduleJob. destruct (heap st !! ref) as [job|]; [|now split].
  now destruct (validSchedule (schedule job)).
Qed.

Lemma add_sound (s m : string) (o : Opts) (uuid : string) (now : Z) (st : t) :
  sound st -> ~ In (JS.slice0 8 uuid) (ids st) ->
  sound (snd (add validSchedule s m o uuid now st)).
Proof.
  intros Hs Hfresh. unfold add.
  set (job := mkJob _ _ _ _ _ _ _ _ _ _ _).
  pose proof (storeAdd_sound job st Hs Hfresh) as Hs1.
  cbn [storeAdd fst snd] in *. 
  apply (scheduleJob_sound _ job); trivial; cbn.
  - apply List.in_app_iff. right. now left.
  - apply lookup_insert_eq.
  - destruct (runners st !! JS.slice0 8 uuid) as [h|] eqn:Hreg; [|reflexivity].
    exfalso. apply Hfresh.
    destruct (registeredTicks st Hs _ _ Hreg) as (r & j & Hr & Hj & Hid).
    destruct (tickingServes st Hs _ _ Hr) as (j' & Hj' & Hin & _).
    rewrite <- Hid. apply (in_ids st (jobRef r)); congruence.
Qed.

Lemma remove_sound (id : string) (st : t) :
  sound st -> sound (snd (remove id st)).
Proof.
  intros Hs. unfold remove. destruct (stopRunner_sound id st Hs) as [Hs1 Hnone].
  now apply storeRemove_sound.
Qed.

Lemma update_sound (id : string) (u : Updates) (st : t) :
  sound st -> sound (snd (update validSchedule id u st)).
Proof.
  intros Hs. unfold update. destruct (find id st) as [ref|] eqn:Hf; [|exact Hs].
  destruct (get id st) as [job|] eqn:Hg; [|exact Hs].
  destruct (storeUpdate_found id u st ref Hf) as (job0 & Hj & Hid & Hup).
  pose proof (find_after_update id id u st) as Hf1.
  pose proof (stopRunner_storeUpdate id id u st) as Hcomm.
  pose proof (storeUpdate_sound id u st Hs) as Hs1.
  rewrite Hup in Hf1, Hcomm, Hs1 |- *. cbn [snd negb] in Hf1, Hcomm, Hs1 |- *.
  set (st1 := mkService _ _ _ _ _ _) in *.
  rewrite Hf1, Hf. unfold get. rewrite Hf1, Hf.
  replace (heap st1 !! ref) with (Some (assign job0 u)) by (symmetry; apply lookup_insert_eq).
  destruct (_ || _) eqn:Hre.
  - destruct (stopRunner_sound id st Hs) as [Hs0 Hnone].
    assert (Hs2 : sound (stopRunner id st1)).
    { rewrite Hcomm. apply storeUpdate_sound; [exact Hs0|now left]. }
    destruct (enabled (assign job0 u)) eqn:Hen; [|exact Hs2]. cbn [snd].
    destruct (stopRunner_store id st1) as [Hh Hjs].
    apply (scheduleJob_sound _ (assign job0 u)); trivial.
    + rewrite Hjs. cbn. now destruct (find_some _ _ _ Hf).
    + rewrite Hh. cbn. apply lookup_insert_eq.
    + cbn [jobId assign]. rewrite Hid, Hcomm.
      destruct (storeUpdate_runners id u (stopRunner id st)) as [-> _]. exact Hnone.
  - cbn [snd]. apply orb_false_iff in Hre as [_ Hno].
    apply Hs1. right. destruct (newEnabled u); [discriminate|congruence].
Qed.

Lemma enable_sound (id : string) (st : t) :
  sound st -> sound (snd (enable validSchedule id st)).
Proof.
  intros Hs. unfold enable. destruct (find id st) as [ref|] eqn:Hf; [|exact Hs].
  destruct (storeUpdate_found id (enabledOnly true) st ref Hf) as (job & Hj & Hid & Hup).
  pose proof (storeUpdate_sound id (enabledOnly true) st Hs
                (or_intror (fun H : Some true = Some false => ltac:(discriminate H)))) as Hs1.
  rewrite Hup in Hs1 |- *. cbn [snd runners] in Hs1 |- *.
  destruct (runners st !! id) eqn:Hreg; [exact Hs1|].
  apply (scheduleJob_sound _ (assign job (enabledOnly true))); trivial.
  - now destruct (find_some _ _ _ Hf).
  - apply lookup_insert_eq.
  - cbn [jobId assign]. now rewrite Hid.
Qed.

Lemma disable_sound (id : string) (st : t) :
  sound st -> sound (snd (disable id st)).
Proof.
  intros Hs. unfold disable. destruct (stopRunner_sound id st Hs) as [Hs1 Hnone].
  apply storeUpdate_sound; [exact Hs1|now left].
Qed.

Lemma tick_sound (h : nat) (now : Z) (st : t) :
  sound st -> sound (snd (tick h now st)).
Proof.
  intros Hs. unfold tick. destruct (ticking st !! h) as [r|]; [|exact Hs].
  destruct (heap st !! jobRef r) as [job|]; [|exact Hs]. cbn [snd].
  apply storeUpdate_sound; [exact Hs|]. right. discriminate.
Qed.

(** [stop()] stops every runner of the map. *)
Lemma stop_lookup (live : gmap nat Runner) (m : gmap string nat) (h : nat) (r : Runner) :
  map_fold (fun _ h live => delete h live) live m !! h = Some r ->
  live !! h = Some r /\ forall id, m !! id <> Some h.
Proof.
  revert h r. apply (map_fold_weak_ind (fun res m => forall h r, res !! h = Some r ->
    live !! h = Some r /\ forall id, m !! id <> Some h)).
  - intros h r Hr. split; [exact Hr|]. intros id. now rewrite lookup_empty.
  - intros id h0 m0 res Hnone IH h r Hr. apply lookup_delete_Some in Hr as [Hne Hr].
    destruct (IH h r Hr) as [Hl Hm]. split; [exact Hl|]. intros id'.
    destruct (decide (id = id')) as [<-|Hneq].
    + rewrite lookup_insert_eq. congruence.
    + rewrite lookup_insert_ne by exact Hneq. apply Hm.
Qed.

Lemma stop_sound (st : t) : sound st -> sound (stop st).
Proof.
  intros [A B C D E F G].
  assert (Hnone : forall h r,
            map_fold (fun _ h live => delete h live) (ticking st) (runners st) !! h = Some r ->
            False).
  { intros h r Hr. apply stop_lookup in Hr as [Hr Hm].
    destruct (E h r Hr) as (j & _ & _ & _ & Hreg). now apply (Hm (jobId j)). }
  constructor; cbn; trivial.
  - intros h r Hr. now destruct (Hnone h r Hr).
  - intros id h Hreg. now rewrite lookup_empty in Hreg.
  - intros h [r Hr]. now destruct (Hnone h r Hr).
Qed.

Lemma duplicate_sound (id uuid : string) (now : Z) (st : t) :
  sound st -> ~ In (JS.slice0 8 uuid) (ids st) ->
  sound (snd (duplicate validSchedule id uuid now st)).
Proof.
  intros Hs Hfresh. unfold duplicate. destruct (get id st) as [job|]; [|exact Hs].
  match goal with |- context [add ?v ?s ?m ?o ?u ?n ?x] =>
    pose proof (add_sound s m o u n x Hs Hfresh) as Hs1;
    destruct (add v s m o u n x) as [ref st1] end.
  exact Hs1.
Qed.

Lemma fresh_not_in (id : string) (l : list string) :
  negb (List.existsb (String.eqb id) l) = true -> ~ In id l.
Proof.
  intros H Hin. apply negb_true_iff in H.
  assert (Hex : List.existsb (String.eqb id) l = true).
  { apply List.existsb_exists. exists id. split; [exact Hin|apply String.eqb_refl]. }
  congruence.
Qed.

Lemma applyOp_sound (st : t) (op : Op) :
  sound st -> drawsFreshId st op = true -> sound (applyOp validSchedule st op).
Proof.
  intros Hs Hfresh. destruct op; cbn [applyOp drawsFreshId] in *.
  - apply add_sound; [exact Hs|now apply fresh_not_in].
  - now apply remove_sound.
  - now apply update_sound.
  - apply duplicate_sound; [exact Hs|now apply fresh_not_in].
  - now apply enable_sound.
  - now apply disable_sound.
  - now apply tick_sound.
  - now apply stop_sound.
Qed.

Lemma load_sound (parsed : list CronJob) (st : t) :
  sound st -> List.NoDup (ids st ++ List.map jobId parsed) ->
  sound (List.fold_left (fun s job => snd (storeAdd job s)) parsed st)
  /\ runners (List.fold_left (fun s job => snd (storeAdd job s)) parsed st) = runners st.
Proof.
  revert st. induction parsed as [|job rest IH]; intros st Hs Hnd; [now split|].
  cbn [List.fold_left List.map] in *.
  pose proof (List.NoDup_remove_2 _ _ _ Hnd) as Hnot.
  assert (Hfresh : ~ In (jobId job) (ids st)).
  { intros Hin. apply Hnot. apply List.in_app_iff. now left. }
  destruct (IH (snd (storeAdd job st))) as [Hs' Hr].
  - now apply storeAdd_sound.
  - rewrite storeAdd_ids by exact Hs. now rewrite <- List.app_assoc.
  - split; [exact Hs'|]. now rewrite Hr.
Qed.

Lemma scheduleIfEnabled_store (st : t) (ref : nat) :
  heap (scheduleIfEnabled validSchedule st ref) = heap st
  /\ jobs (scheduleIfEnabled validSchedule st ref) = jobs st.
Proof.
  unfold scheduleIfEnabled. destruct (heap st !! ref) as [job|]; [|now split].
  destruct (enabled job); [apply scheduleJob_store|now split].
Qed.

Lemma scheduleIfEnabled_runners (st : t) (ref : nat) (id : string) :
  runners st !! id = None ->
  (forall job, heap st !! ref = Some job -> jobId job <> id) ->
  runners (scheduleIfEnabled validSchedule st ref) !! id = None.
Proof.
  intros Hnone Hne. unfold scheduleIfEnabled, scheduleJob.
  destruct (heap st !! ref) as [job|]; [|exact Hnone].
  destruct (enabled job); [|exact Hnone].
  destruct (validSchedule (schedule job)); [|exact Hnone].
  cbn [runners]. rewrite lookup_insert_ne; [exact Hnone|]. now apply Hne.
Qed.

Lemma scheduleAll_sound (refs : list nat) (st : t) :
  sound st -> List.NoDup refs -> (forall ref, In ref refs -> In ref (jobs st)) ->
  (forall ref job, In ref refs -> heap st !! ref = Some job ->
                   runners st !! jobId job = None) ->
  sound (List.fold_left (scheduleIfEnabled validSchedule) refs st).
Proof.
  revert st. induction refs as [|ref rest IH]; intros st Hs Hnd Hin Hnone; [exact Hs|].
  cbn [List.fold_left]. apply List.NoDup_cons_iff in Hnd as [Hnot Hnd].
  destruct (scheduleIfEnabled_store st ref) as [Hh Hjs].
  apply IH; [|exact Hnd| |].
  - unfold scheduleIfEnabled. destruct (heap st !! ref) as [job|] eqn:Hj; [|exact Hs].
    destruct (enabled job) eqn:Hen; [|exact Hs].
    apply (scheduleJob_sound _ job); trivial.
    + apply Hin. now left.
    + apply (Hnone ref); [now left|exact Hj].
  - intros r Hr. rewrite Hjs. apply Hin. now right.
  - intros r job Hr Hj. rewrite Hh in Hj. apply scheduleIfEnabled_runners.
    + apply (Hnone r); [now right|exact Hj].
    + intros job0 Hj0 Heq.
      pose proof (find_unique st ref job0 (idsDistinct st Hs) (Hin ref (or_introl eq_refl)) Hj0)
        as H1.
      pose proof (find_unique st r job (idsDistinct st Hs) (Hin r (or_intror Hr)) Hj) as H2.
      rewrite Heq, H2 in H1. injection H1 as ->. contradiction.
Qed.

Lemma start_sound (content : option (list CronJob)) :
  List.NoDup (List.map jobId (default [] content)) ->
  sound (start validSchedule content create).
Proof.
  intros Hnd. unfold start, load. destruct content as [parsed|]; [|exact sound_create].
  cbn [default] in Hnd.
  destruct (load_sound parsed create sound_create Hnd) as [Hs Hr].
  change (mkService (heap create) [] (nextRef create) (ticking create) (nextRunner create)
                    (runners create)) with create.
  apply scheduleAll_sound; [exact Hs|exact (refsDistinct _ Hs)|trivial|].
  intros ref job _ _. rewrite Hr. apply lookup_empty.
Qed.

Lemma ops_sound (ops : list Op) (st : t) :
  sound st -> allDrawFresh validSchedule st ops = true ->
  sound (List.fold_left (applyOp validSchedule) ops st).
Proof.
  revert st. induction ops as [|op ops IH]; intros st Hs Hfresh; [exact Hs|].
  cbn in *. apply andb_true_iff in Hfresh as [H1 H2]. apply IH; [|exact H2].
  now apply applyOp_sound.
Qed.

Lemma same_id_same_ref (st : t) (ref ref' : nat) (job job' : CronJob) :
  sound st -> In ref (jobs st) -> In ref' (jobs st) ->
  heap st !! ref = Some job -> heap st !! ref' = Some job' -> jobId job = jobId job' ->
  ref = ref'.
Proof.
  intros Hs Hin Hin' Hj Hj' Hid.
  pose proof (find_unique st ref job (idsDistinct st Hs) Hin Hj) as H1.
  pose proof (find_unique st ref' job' (idsDistinct st Hs) Hin' Hj') as H2.
  rewrite Hid in H1. congruence.
Qed.

Lemma registered_serves (st : t) (h ref : nat) (job : CronJob) :
  sound st -> runners st !! jobId job = Some h -> In ref (jobs st) ->
  heap st !! ref = Some job -> served st ref job.
Proof.
  intros Hs Hreg Hin Hj.
  destruct (registeredTicks st Hs _ _ Hreg) as (r & job0 & Hr & Hj0 & Hid).
  destruct (tickingServes st Hs _ _ Hr) as (job1 & Hj1 & Hin1 & _ & _).
  exists h, r. repeat split; trivial.
  apply (same_id_same_ref st (jobRef r) ref job0 job); trivial.
Qed.

Lemma served_scheduleJob_other (st : t) (ref0 ref : nat) (job : CronJob) :
  sound st -> (forall job0, heap st !! ref0 = Some job0 -> jobId job0 <> jobId job) ->
  served st ref job -> served (scheduleJob validSchedule ref0 st) ref job.
Proof.
  intros Hs Hne (h & r & Hreg & Hr & Href). unfold scheduleJob.
  destruct (heap st !! ref0) as [job0|]; [|now exists h, r].
  destruct (validSchedule (schedule job0)); [|now exists h, r].
  exists h, r. cbn [runners ticking]. repeat split; trivial.
  - rewrite lookup_insert_ne; [exact Hreg|]. now apply Hne.
  - rewrite lookup_insert_ne; [exact Hr|]. intros Heq.
    pose proof (handlesBelow st Hs h (mk_is_Some _ _ Hr)). lia.
Qed.

Lemma served_scheduleJob_self (st : t) (ref : nat) (job : CronJob) :
  heap st !! ref = Some job -> validSchedule (schedule job) = true ->
  served (scheduleJob validSchedule ref st) ref job.
Proof.
  intros Hj Hv. unfold scheduleJob. rewrite Hj, Hv.
  exists (nextRunner st), (mkRunner (schedule job) ref). cbn [runners ticking].
  now rewrite !lookup_insert_eq.
Qed.

Lemma served_stopRunner_other (id : string) (st : t) (ref : nat) (job : CronJob) :
  sound st -> jobId job <> id -> served st ref job -> served (stopRunner id st) ref job.
Proof.
  intros Hs Hne (h & r & Hreg & Hr & Href). unfold stopRunner.
  destruct (runners st !! id) as [h0|] eqn:Hreg0; [|now exists h, r].
  exists h, r. cbn [runners ticking]. repeat split; trivial.
  - now rewrite lookup_delete_ne.
  - rewrite lookup_delete_ne; [exact Hr|]. intros Heq. subst h0.
    destruct (registeredTicks st Hs _ _ Hreg0) as (r0 & job0 & Hr0 & Hj0 & Hid0).
    destruct (registeredTicks st Hs _ _ Hreg) as (r1 & job1 & Hr1 & Hj1 & Hid1).
    congruence.
Qed.

Lemma served_storeUpdate (id : string) (u : Updates) (st : t) (ref : nat)
    (job job' : CronJob) :
  jobId job' = jobId job -> served st ref job ->
  served (snd (storeUpdate id u st)) ref job'.
Proof.
  intros Hid (h & r & Hreg & Hr & Href).
  destruct (storeUpdate_runners id u st) as (E1 & E2 & _).
  exists h, r. now rewrite E1, E2, Hid.
Qed.

Lemma removeFirst_drops (p : nat -> bool) (l : list nat) (x : nat) :
  List.NoDup l -> List.find p l = Some x -> ~ In x (removeFirst p l).
Proof.
  induction l as [|y l IH]; [discriminate|]. intros Hnd Hf Hin.
  apply List.NoDup_cons_iff in Hnd as [Hnot Hnd]. cbn in *. destruct (p y).
  - injection Hf as <-. contradiction.
  - destruct Hin as [->|Hin].
    + apply List.find_some in Hf as [Hf _]. contradiction.
    + now apply IH.
Qed.

(** What [update] amounts to for a job that is found. *)
Lemma update_found (id : string) (u : Updates) (st : t) (ref : nat) (job : CronJob) :
  find id st = Some ref -> heap st !! ref = Some job ->
  snd (update validSchedule id u st)
  = if reschedules job u
    then if enabled (assign job u)
         then scheduleJob validSchedule ref (stopRunner id (snd (storeUpdate id u st)))
         else stopRunner id (snd (storeUpdate id u st))
    else snd (storeUpdate id u st).
Proof.
  intros Hf Hj.
  destruct (storeUpdate_found id u st ref Hf) as (job0 & Hj0 & _ & Hup).
  assert (job0 = job) as -> by congruence.
  pose proof (find_after_update id id u st) as Hf1.
  unfold update, reschedules. unfold get at 1. rewrite Hf, Hj.
  rewrite Hup in Hf1 |- *. cbn [snd negb] in Hf1 |- *.
  set (st1 := mkService _ _ _ _ _ _) in *.
  rewrite Hf1, Hf. unfold get. rewrite Hf1, Hf.
  assert (Hj1 : heap st1 !! ref = Some (assign job u)) by apply lookup_insert_eq.
  rewrite Hj1. destruct (_ || _); [|reflexivity]. now destruct (enabled (assign job u)).
Qed.

Lemma update_missing (id : string) (u : Updates) (st : t) :
  find id st = None -> snd (update validSchedule id u st) = st.
Proof. intros Hf. unfold update. now rewrite Hf. Qed.

Section Served.

(** The library refuses the empty expression. *)
Hypothesis emptyRefused : validSchedule "" = false.

Lemma served_add (s m : string) (o : Opts) (uuid : string) (now : Z) (st : t) :
  sound st -> enabledJobsAreServed validSchedule st -> ~ In (JS.slice0 8 uuid) (ids st) ->
  enabledJobsAreServed validSchedule (snd (add validSchedule s m o uuid now st)).
Proof.
  intros Hs Hc Hfresh ref job Hin Hj Hen Hv. unfold add in *.
  set (job0 := mkJob _ _ _ _ _ _ _ _ _ _ _) in *.
  pose proof (storeAdd_sound job0 st Hs Hfresh) as Hs1.
  cbn [storeAdd fst snd] in *. set (st1 := mkService _ _ _ _ _ _) in *.
  destruct (scheduleJob_store (nextRef st) st1) as [Hh Hjs].
  rewrite Hh in Hj. rewrite Hjs in Hin. cbn [heap jobs st1] in Hj, Hin.
  destruct (decide (nextRef st = ref)) as [<-|Hne].
  - rewrite lookup_insert_eq in Hj. injection Hj as <-.
    apply served_scheduleJob_self; [apply lookup_insert_eq|exact Hv].
  - rewrite lookup_insert_ne in Hj by exact Hne.
    apply List.in_app_iff in Hin as [Hin|[Heq|[]]]; [|contradiction].
    apply served_scheduleJob_other; [exact Hs1| |].
    + intros j Hj0. cbn [heap st1] in Hj0. rewrite lookup_insert_eq in Hj0.
      injection Hj0 as <-. cbn [jobId job0]. intros Heq. apply Hfresh. rewrite Heq.
      now apply (in_ids st ref).
    + exact (Hc ref job Hin Hj Hen Hv).
Qed.

Lemma served_remove (id : string) (st : t) :
  sound st -> enabledJobsAreServed validSchedule st ->
  enabledJobsAreServed validSchedule (snd (remove id st)).
Proof.
  intros Hs Hc ref job Hin Hj Hen Hv. unfold remove, storeRemove in *.
  rewrite find_stopRunner in *. destruct (stopRunner_store id st) as [Hh Hjs].
  assert (Hkeep : In ref (jobs st) /\ heap st !! ref = Some job /\ jobId job <> id).
  { destruct (find id st) as [ref1|] eqn:Hf; cbn [snd heap jobs] in Hin, Hj.
    - rewrite Hh in Hj. rewrite Hjs in Hin. split; [now apply removeFirst_in in Hin|].
      split; [exact Hj|]. intros Hid.
      assert (ref1 = ref).
      { destruct (find_some _ _ _ Hf) as (Hin1 & job1 & Hj1 & Hid1).
        apply removeFirst_in in Hin as Hin0.
        apply (same_id_same_ref st ref1 ref job1 job); trivial. congruence. }
      subst ref1. revert Hin. apply removeFirst_drops; [exact (refsDistinct st Hs)|].
      unfold find in Hf. erewrite find_ext; [exact Hf|]. intros x. unfold hasId.
      now rewrite Hh.
    - rewrite Hh in Hj. rewrite Hjs in Hin. repeat split; trivial. intros Hid.
      apply (find_none _ _ Hf). rewrite <- Hid. now apply (in_ids st ref). }
  destruct Hkeep as (Hin0 & Hj0 & Hne).
  pose proof (served_stopRunner_other id st ref job Hs Hne (Hc ref job Hin0 Hj0 Hen Hv))
    as (h & r & Hreg & Hr & Href).
  exists h, r. destruct (find id st); cbn [snd runners ticking]; now repeat split.
Qed.

Lemma served_update (id : string) (u : Updates) (st : t) :
  sound st -> enabledJobsAreServed validSchedule st ->
  enabledJobsAreServed validSchedule (snd (update validSchedule id u st)).
Proof.
  intros Hs Hc. destruct (find id st) as [ref0|] eqn:Hf;
    [|now rewrite update_missing].
  destruct (storeUpdate_found id u st ref0 Hf) as (job0 & Hj0 & Hid0 & Hup).
  destruct (find_some _ _ _ Hf) as (Hin0 & _).
  rewrite (update_found id u st ref0 job0 Hf Hj0).
  pose proof (stopRunner_storeUpdate id id u st) as Hcomm.
  destruct (stopRunner_sound id st Hs) as [Hs0 Hnone].
  assert (Hs2 : sound (stopRunner id (snd (storeUpdate id u st)))).
  { rewrite Hcomm. apply storeUpdate_sound; [exact Hs0|now left]. }
  assert (Hother : forall ref job,
            In ref (jobs st) -> heap (snd (storeUpdate id u st)) !! ref = Some job ->
            ref <> ref0 -> heap st !! ref = Some job /\ jobId job <> id).
  { intros ref job Hin Hj Hne. rewrite Hup in Hj. cbn [snd heap] in Hj.
    rewrite lookup_insert_ne in Hj by congruence. split; [exact Hj|]. intros Hid.
    apply Hne. apply (same_id_same_ref st ref ref0 job job0); trivial. congruence. }
  assert (Hjobs : jobs (snd (storeUpdate id u st)) = jobs st) by now rewrite Hup.
  assert (Hself : heap (snd (storeUpdate id u st)) !! ref0 = Some (assign job0 u)).
  { rewrite Hup. cbn [snd heap]. apply lookup_insert_eq. }
  destruct (stopRunner_store id (snd (storeUpdate id u st))) as [Hh Hjs].
  destruct (reschedules job0 u) eqn:Hre.
  - destruct (enabled (assign job0 u)) eqn:Hen0.
    + intros ref job Hin Hj Hen Hv.
      destruct (scheduleJob_store ref0 (stopRunner id (snd (storeUpdate id u st))))
        as [Hh' Hjs'].
      rewrite Hh', Hh in Hj. rewrite Hjs', Hjs, Hjobs in Hin.
      destruct (decide (ref = ref0)) as [->|Hne].
      * assert (job = assign job0 u) as -> by congruence.
        apply served_scheduleJob_self; [now rewrite Hh|exact Hv].
      * destruct (Hother ref job Hin Hj Hne) as [Hj' Hid].
        apply served_scheduleJob_other; [exact Hs2| |].
        -- intros j Hj1. rewrite Hh, Hself in Hj1. injection Hj1 as <-.
           cbn [jobId assign]. rewrite Hid0. intros Heq. now apply Hid.
        -- apply served_stopRunner_other.
           ++ apply storeUpdate_sound; [exact Hs|].
              destruct (runners st !! id) eqn:Hreg; [|now left]. right.
              intros Hoff. unfold assign in Hen0. cbn [enabled] in Hen0.
              rewrite Hoff in Hen0. discriminate.
           ++ exact Hid.
           ++ apply (served_storeUpdate id u st ref job job eq_refl).
              exact (Hc ref job Hin Hj' Hen Hv).
    + intros ref job Hin Hj Hen Hv. rewrite Hh in Hj. rewrite Hjs, Hjobs in Hin.
      destruct (decide (ref = ref0)) as [->|Hne]; [congruence|].
      destruct (Hother ref job Hin Hj Hne) as [Hj' Hid].
      rewrite Hcomm. apply (served_storeUpdate id u _ ref job job eq_refl).
      apply served_stopRunner_other; trivial. exact (Hc ref job Hin Hj' Hen Hv).
  - intros ref job Hin Hj Hen Hv. rewrite Hjobs in Hin.
    destruct (decide (ref = ref0)) as [->|Hne].
    + assert (job = assign job0 u) as -> by congruence.
      apply (served_storeUpdate id u st ref0 job0 (assign job0 u) eq_refl).
      apply orb_false_iff in Hre as [Hsched Hnoen].
      assert (Hen' : enabled job0 = true).
      { unfold assign in Hen. cbn [enabled] in Hen.
        destruct (newEnabled u); [discriminate|exact Hen]. }
      apply (Hc ref0 job0 Hin0 Hj0 Hen'). unfold assign in Hv. cbn [schedule] in Hv.
      destruct (newSchedule u) as [s|]; [|exact Hv]. cbn in Hv.
      apply andb_false_iff in Hsched as [Hempty|Hsame].
      * destruct s; [congruence|discriminate].
      * apply negb_false_iff, String.eqb_eq in Hsame. congruence.
    + destruct (Hother ref job Hin Hj Hne) as [Hj' Hid].
      apply (served_storeUpdate id u st ref job job eq_refl).
      exact (Hc ref job Hin Hj' Hen Hv).
Qed.

Lemma served_enable (id : string) (st : t) :
  sound st -> enabledJobsAreServed validSchedule st ->
  enabledJobsAreServed validSchedule (snd (enable validSchedule id st)).
Proof.
  intros Hs Hc. unfold enable. destruct (find id st) as [ref0|] eqn:Hf; [|exact Hc].
  destruct (storeUpdate_found id (enabledOnly true) st ref0 Hf) as (job0 & Hj0 & Hid0 & Hup).
  destruct (find_some _ _ _ Hf) as (Hin0 & _).
  pose proof (storeUpdate_sound id (enabledOnly true) st Hs
                (or_intror (fun H : Some true = Some false => ltac:(discriminate H)))) as Hs1.
  rewrite Hup in Hs1 |- *. cbn [snd runners] in Hs1 |- *.
  set (st1 := mkService _ _ _ _ _ _) in *.
  assert (Hbase : forall ref job,
            In ref (jobs st) -> heap st1 !! ref = Some job -> enabled job = true ->
            validSchedule (schedule job) = true -> ref <> ref0 -> served st1 ref job).
  { intros ref job Hin Hj Hen Hv Hne. cbn [heap st1] in Hj.
    rewrite lookup_insert_ne in Hj by congruence.
    destruct (Hc ref job Hin Hj Hen Hv) as (h & r & Hreg & Hr & Href). now exists h, r. }
  destruct (runners st !! id) as [h0|] eqn:Hreg.
  - intros ref job Hin Hj Hen Hv. destruct (decide (ref = ref0)) as [->|Hne].
    + cbn [heap st1] in Hj. rewrite lookup_insert_eq in Hj. injection Hj as <-.
      apply (registered_serves st1 h0); trivial.
      * cbn [jobId assign runners st1]. now rewrite Hid0.
      * apply lookup_insert_eq.
    + now apply Hbase.
  - intros ref job Hin Hj Hen Hv.
    destruct (scheduleJob_store ref0 st1) as [Hh Hjs].
    rewrite Hh in Hj. rewrite Hjs in Hin. destruct (decide (ref = ref0)) as [->|Hne].
    + apply served_scheduleJob_self; trivial.
    + apply served_scheduleJob_other; [exact Hs1| |now apply Hbase].
      intros j Hj1. cbn [heap st1] in Hj1, Hj. rewrite lookup_insert_eq in Hj1.
      injection Hj1 as <-. cbn [jobId assign]. rewrite lookup_insert_ne in Hj by congruence.
      intros Heq. apply Hne. apply (same_id_same_ref st ref ref0 job job0); trivial.
      congruence.
Qed.

Lemma served_disable (id : string) (st : t) :
  sound st -> enabledJobsAreServed validSchedule st ->
  enabledJobsAreServed validSchedule (snd (disable id st)).
Proof.
  intros Hs Hc ref job Hin Hj Hen Hv. unfold disable in *.
  destruct (stopRunner_store id st) as [Hh Hjs].
  destruct (find id (stopRunner id st)) as [ref0|] eqn:Hf.
  - destruct (storeUpdate_found id (enabledOnly false) _ ref0 Hf) as (job0 & Hj0 & Hid0 & Hup).
    rewrite find_stopRunner in Hf. destruct (find_some _ _ _ Hf) as (Hin0 & _).
    rewrite Hup in Hin, Hj. cbn [snd heap jobs] in Hin, Hj. rewrite Hjs in Hin.
    rewrite Hh in Hj, Hj0. destruct (decide (ref0 = ref)) as [->|Hne].
    + rewrite lookup_insert_eq in Hj. injection Hj as <-. discriminate.
    + rewrite lookup_insert_ne in Hj by exact Hne.
      apply (served_storeUpdate id (enabledOnly false) _ ref job job eq_refl).
      apply served_stopRunner_other; [exact Hs| |exact (Hc ref job Hin Hj Hen Hv)].
      intros Hid. apply Hne. apply (same_id_same_ref st ref0 ref job0 job); trivial.
      congruence.
  - unfold storeUpdate in *. rewrite Hf in *. cbn [snd] in *.
    rewrite Hh in Hj. rewrite Hjs in Hin. rewrite find_stopRunner in Hf.
    apply served_stopRunner_other; [exact Hs| |exact (Hc ref job Hin Hj Hen Hv)].
    intros Hid. apply (find_none _ _ Hf). rewrite <- Hid. now apply (in_ids st ref).
Qed.

Lemma served_tick (h : nat) (now : Z) (st : t) :
  sound st -> enabledJobsAreServed validSchedule st ->
  enabledJobsAreServed validSchedule (snd (tick h now st)).
Proof.
  intros Hs Hc. unfold tick. destruct (ticking st !! h) as [r|] eqn:Hr; [|exact Hc].
  destruct (heap st !! jobRef r) as [job0|] eqn:Hj0; [|exact Hc]. cbn [snd].
  destruct (tickingServes st Hs h r Hr) as (job1 & Hj1 & Hin0 & _ & _).
  pose proof (find_unique st (jobRef r) job0 (idsDistinct st Hs) Hin0 Hj0) as Hf.
  destruct (storeUpdate_found _ (lastRunOnly now) st _ Hf) as (job2 & Hj2 & _ & Hup).
  assert (job2 = job0) as -> by congruence.
  intros ref job Hin Hj Hen Hv. rewrite Hup in Hin, Hj. cbn [snd heap jobs] in Hin, Hj.
  destruct (decide (jobRef r = ref)) as [<-|Hne].
  - rewrite lookup_insert_eq in Hj. injection Hj as <-.
    apply (served_storeUpdate _ (lastRunOnly now) st (jobRef r) job0 _ eq_refl).
    exact (Hc (jobRef r) job0 Hin0 Hj0 Hen Hv).
  - rewrite lookup_insert_ne in Hj by exact Hne.
    apply (served_storeUpdate _ (lastRunOnly now) st ref job job eq_refl).
    exact (Hc ref job Hin Hj Hen Hv).
Qed.

Lemma served_duplicate (id uuid : string) (now : Z) (st : t) :
  sound st -> enabledJobsAreServed validSchedule st -> ~ In (JS.slice0 8 uuid) (ids st) ->
  enabledJobsAreServed validSchedule (snd (duplicate validSchedule id uuid now st)).
Proof.
  intros Hs Hc Hfresh. unfold duplicate. destruct (get id st) as [job|]; [|exact Hc].
  match goal with |- context [add ?v ?s ?m ?o ?u ?n ?x] =>
    pose proof (served_add s m o u n x Hs Hc Hfresh) as Hc1;
    destruct (add v s m o u n x) as [ref st1] end.
  exact Hc1.
Qed.

Lemma served_applyOp (st : t) (op : Op) :
  sound st -> enabledJobsAreServed validSchedule st ->
  drawsFreshId st op = true -> isStop op = false ->
  enabledJobsAreServed validSchedule (applyOp validSchedule st op).
Proof.
  intros Hs Hc Hfresh Hstop. destruct op; cbn [applyOp drawsFreshId] in *.
  - apply served_add; trivial. now apply fresh_not_in.
  - now apply served_remove.
  - now apply served_update.
  - apply served_duplicate; trivial. now apply fresh_not_in.
  - now apply served_enable.
  - now apply served_disable.
  - now apply served_tick.
  - discriminate.
Qed.

Lemma served_ops (ops : list Op) (st : t) :
  sound st -> enabledJobsAreServed validSchedule st ->
  allDrawFresh validSchedule st ops = true -> List.existsb isStop ops = false ->
  enabledJobsAreServed validSchedule (List.fold_left (applyOp validSchedule) ops st).
Proof.
  revert st. induction ops as [|op ops IH]; intros st Hs Hc Hfresh Hstop; [exact Hc|].
  cbn in *. apply andb_true_iff in Hfresh as [H1 H2].
  apply orb_false_iff in Hstop as [H3 H4]. apply IH; trivial.
  - now apply applyOp_sound.
  - now apply served_applyOp.
Qed.

Lemma scheduleIfEnabled_step (st : t) (ref0 : nat) (rest : list nat) :
  sound st -> ~ In ref0 rest ->
  (forall r, In r (ref0 :: rest) -> In r (jobs st)) ->
  (forall r job, In r (ref0 :: rest) -> heap st !! r = Some job ->
                 runners st !! jobId job = None) ->
  sound (scheduleIfEnabled validSchedule st ref0)
  /\ (forall r, In r rest -> In r (jobs (scheduleIfEnabled validSchedule st ref0)))
  /\ (forall r job, In r rest ->
        heap (scheduleIfEnabled validSchedule st ref0) !! r = Some job ->
        runners (scheduleIfEnabled validSchedule st ref0) !! jobId job = None).
Proof.
  intros Hs Hnot Hin Hnone. destruct (scheduleIfEnabled_store st ref0) as [Hh Hjs].
  split; [|split].
  - unfold scheduleIfEnabled. destruct (heap st !! ref0) as [job|] eqn:Hj; [|exact Hs].
    destruct (enabled job) eqn:Hen; [|exact Hs].
    apply (scheduleJob_sound _ job); trivial.
    + apply Hin. now left.
    + apply (Hnone ref0); [now left|exact Hj].
  - intros r Hr. rewrite Hjs. apply Hin. now right.
  - intros r job Hr Hj. rewrite Hh in Hj. apply scheduleIfEnabled_runners.
    + apply (Hnone r); [now right|exact Hj].
    + intros job0 Hj0 Heq.
      assert (ref0 = r); [|subst; contradiction].
      apply (same_id_same_ref st ref0 r job0 job); trivial.
      * apply Hin. now left.
      * apply Hin. now right.
Qed.

Lemma served_scheduleIfEnabled_other (st : t) (ref0 ref : nat) (job : CronJob) :
  sound st -> (forall job0, heap st !! ref0 = Some job0 -> jobId job0 <> jobId job) ->
  served st ref job -> served (scheduleIfEnabled validSchedule st ref0) ref job.
Proof.
  intros Hs Hne Hserved. unfold scheduleIfEnabled.
  destruct (heap st !! ref0) as [job0|] eqn:Hj0; [|exact Hserved].
  destruct (enabled job0); [|exact Hserved].
  apply served_scheduleJob_other; trivial. now rewrite Hj0.
Qed.

Lemma served_scheduleAll_keeps (rest : list nat) (st : t) (ref : nat) (job : CronJob) :
  sound st -> List.NoDup rest ->
  (forall r, In r rest -> In r (jobs st)) ->
  (forall r job0, In r rest -> heap st !! r = Some job0 ->
                  runners st !! jobId job0 = None) ->
  (forall r job0, In r rest -> heap st !! r = Some job0 -> jobId job0 <> jobId job) ->
  served st ref job ->
  served (List.fold_left (scheduleIfEnabled validSchedule) rest st) ref job.
Proof.
  revert st. induction rest as [|ref0 rest IH]; intros st Hs Hnd Hin Hnone Hne Hserved;
    [exact Hserved|].
  cbn [List.fold_left]. apply List.NoDup_cons_iff in Hnd as [Hnot Hnd].
  destruct (scheduleIfEnabled_step st ref0 rest Hs Hnot Hin Hnone) as (Hs' & Hin' & Hnone').
  destruct (scheduleIfEnabled_store st ref0) as [Hh Hjs].
  apply IH; trivial.
  - intros r job0 Hr Hj0. rewrite Hh in Hj0. apply (Hne r); [now right|exact Hj0].
  - apply served_scheduleIfEnabled_other; trivial. intros job0 Hj0.
    apply (Hne ref0); [now left|exact Hj0].
Qed.

Lemma served_scheduleAll (refs : list nat) (st : t) (ref : nat) (job : CronJob) :
  sound st -> List.NoDup refs ->
  (forall r, In r refs -> In r (jobs st)) ->
  (forall r job0, In r refs -> heap st !! r = Some job0 ->
                  runners st !! jobId job0 = None) ->
  In ref refs -> heap st !! ref = Some job -> enabled job = true ->
  validSchedule (schedule job) = true ->
  served (List.fold_left (scheduleIfEnabled validSchedule) refs st) ref job.
Proof.
  revert st. induction refs as [|ref0 rest IH];
    intros st Hs Hnd Hin Hnone Href Hj Hen Hv; [destruct Href|].
  cbn [List.fold_left]. pose proof Hnd as Hnd0.
  apply List.NoDup_cons_iff in Hnd as [Hnot Hnd].
  destruct (scheduleIfEnabled_step st ref0 rest Hs Hnot Hin Hnone) as (Hs' & Hin' & Hnone').
  destruct (scheduleIfEnabled_store st ref0) as [Hh Hjs].
  destruct Href as [->|Href].
  - apply served_scheduleAll_keeps; trivial.
    + intros r job0 Hr Hj0 Heq. rewrite Hh in Hj0.
      assert (r = ref); [|subst; contradiction].
      apply (same_id_same_ref st r ref job0 job); trivial.
      * apply Hin. now right.
      * apply Hin. now left.
    + unfold scheduleIfEnabled. rewrite Hj, Hen. now apply served_scheduleJob_self.
  - apply IH; trivial. now rewrite Hh.
Qed.

Lemma scheduleAll_store (refs : list nat) (st : t) :
  heap (List.fold_left (scheduleIfEnabled validSchedule) refs st) = heap st
  /\ jobs (List.fold_left (scheduleIfEnabled validSchedule) refs st) = jobs st.
Proof.
  revert st. induction refs as [|ref refs IH]; intros st; [now split|].
  cbn [List.fold_left]. destruct (IH (scheduleIfEnabled validSchedule st ref)) as [-> ->].
  apply scheduleIfEnabled_store.
Qed.

Lemma start_served (content : option (list CronJob)) :
  List.NoDup (List.map jobId (default [] content)) ->
  enabledJobsAreServed validSchedule (start validSchedule content create).
Proof.
  intros Hnd. unfold start, load. destruct content as [parsed|].
  - cbn in Hnd. destruct (load_sound parsed create sound_create Hnd) as [Hs Hr].
    change (mkService (heap create) [] (nextRef create) (ticking create) (nextRunner create)
                      (runners create)) with create.
    set (st1 := List.fold_left _ parsed create) in *.
    intros ref job Hin Hj Hen Hv. destruct (scheduleAll_store (jobs st1) st1) as [Hh Hjs].
    rewrite Hh in Hj. rewrite Hjs in Hin.
    apply served_scheduleAll; trivial; [exact (refsDistinct _ Hs)|].
    intros r job0 _ _. rewrite Hr. apply lookup_empty.
  - intros ref job [].
Qed.

End Served.

(** X16 (cron/service.ts, CronService). A service is started on a store
    file whose jobs have distinct ids, or on none, and then takes any
    calls of [add], [remove], [update], [duplicate], [enable] and
    [disable], any ticks of its runners and [stop], where each new job
    draws an id no stored job has. Then every runner that has been started
    and not stopped belongs to a job that is still in the store and is
    enabled: no removed and no disabled job ever fires. *)
Theorem X16_only_stored_enabled_jobs_have_a_runner (content : option (list CronJob))
    (ops : list Op) :
  List.NoDup (List.map jobId (default [] content)) ->
  allDrawFresh validSchedule (start validSchedule content create) ops = true ->
  runnersServeEnabledJobs
    (List.fold_left (applyOp validSchedule) ops (start validSchedule content create)).
Proof.
  intros Hnd Hfresh. apply sound_serves. apply ops_sound; [|exact Hfresh].
  now apply start_sound.
Qed.

(** X17 (cron/service.ts, update and scheduleJob). An update that leaves
    the schedule and the enabled flag alone does not restart the runner
    of the job, and still reaches it: the runner closes over the job
    object that the store updates in place, so its next tick hands the
    handler the job with the updated fields (and the time of the run). *)
Theorem X17_update_reaches_the_running_job (content : option (list CronJob))
    (ops : list Op) (h : nat) (r : Runner) (job : CronJob) (u : Updates) (now : Z) :
  List.NoDup (List.map jobId (default [] content)) ->
  allDrawFresh validSchedule (start validSchedule content create) ops = true ->
  ticking (List.fold_left (applyOp validSchedule) ops (start validSchedule content create))
    !! h = Some r ->
  heap (List.fold_left (applyOp validSchedule) ops (start validSchedule content create))
    !! jobRef r = Some job ->
  newSchedule u = None -> newEnabled u = None ->
  let st' := snd (update validSchedule (jobId job) u
                    (List.fold_left (applyOp validSchedule) ops
                                    (start validSchedule content create))) in
  ticking st' !! h = Some r
  /\ handed h now st' = Some (assign (assign job u) (lastRunOnly now)).
Proof.
  intros Hnd Hfresh.
  set (st := List.fold_left (applyOp validSchedule) ops (start validSchedule content create)).
  assert (Hs : sound st) by (apply ops_sound; [now apply start_sound|exact Hfresh]).
  clearbody st. intros Hr Hj Hsched Hen.
  destruct (tickingServes st Hs h r Hr) as (job' & Hj' & Hin & _ & _).
  assert (job' = job) as -> by congruence.
  pose proof (find_unique st (jobRef r) job (idsDistinct st Hs) Hin Hj) as Hf.
  destruct (storeUpdate_found (jobId job) u st (jobRef r) Hf) as (job0 & Hj0 & _ & Hup).
  assert (job0 = job) as -> by congruence.
  pose proof (find_after_update (jobId job) (jobId job) u st) as Hf1.
  unfold update. rewrite Hf. unfold get at 1. rewrite Hf, Hj.
  rewrite Hup in Hf1 |- *. cbn [snd negb] in Hf1 |- *.
  set (st1 := mkService _ _ _ _ _ _) in *.
  rewrite Hf1, Hf. unfold get. rewrite Hf1, Hf.
  assert (Hj1 : heap st1 !! jobRef r = Some (assign job u)) by apply lookup_insert_eq.
  rewrite Hj1, Hsched, Hen, ?Hj. cbn [orb Routing.isSome snd]. split; [exact Hr|].
  unfold handed, tick. change (ticking st1) with (ticking st). rewrite Hr, Hj1.
  assert (Hf2 : find (jobId (assign job u)) st1 = Some (jobRef r)) by now rewrite <- Hf.
  destruct (storeUpdate_found _ (lastRunOnly now) st1 _ Hf2) as (job2 & Hj2 & _ & Hup2).
  assert (job2 = assign job u) as -> by congruence.
  rewrite Hup2. cbn [snd heap]. apply lookup_insert_eq.
Qed.

(** X28 (cron/service.ts, CronService). The other way round: as long as
    [stop] is not called, and given that the cron library refuses the
    empty expression, every job of the store that is enabled and whose
    schedule the library accepts has a runner, registered under its id
    and closing over the job object of the store. *)
Theorem X28_enabled_jobs_with_an_accepted_schedule_have_a_runner
    (content : option (list CronJob)) (ops : list Op) :
  validSchedule "" = false ->
  List.NoDup (List.map jobId (default [] content)) ->
  allDrawFresh validSchedule (start validSchedule content create) ops = true ->
  List.existsb isStop ops = false ->
  enabledJobsAreServed validSchedule
    (List.fold_left (applyOp validSchedule) ops (start validSchedule content create)).
Proof.
  intros Hempty Hnd Hfresh Hstop. apply served_ops; trivial.
  - now apply start_sound.
  - now apply start_served.
Qed.

End Service.

Lemma X28_witness :
  enabledJobsAreServed anySchedule
    (List.fold_left (applyOp anySchedule)
       [Enable "job-b"; Update "job-a" (mkUpdates (Some "*/10 * * * *") None None None None
                                                  None None None None);
        Disable "job-a"; Enable "job-a"]
       (start anySchedule (Some [hourly; paused]) create)).
Proof.
  apply (X28_enabled_jobs_with_an_accepted_schedule_have_a_runner anySchedule
           (Some [hourly; paused])).
  - reflexivity.
  - cbn. repeat constructor; cbn; intuition discriminate.
  - vm_compute. reflexivity.
  - reflexivity.
Defined.

Lemma X16_witness :
  runnersServeEnabledJobs
    (List.fold_left (applyOp anySchedule)
       [Disable "job-a"; Enable "job-b"; Add "*/5 * * * *" "ping" (mkOpts None None None None None) "0123456789" 30; Remove "job-b"]
       (start anySchedule (Some [hourly; paused]) create)).
Proof.
  apply (X16_only_stored_enabled_jobs_have_a_runner anySchedule (Some [hourly; paused])).
  - cbn. repeat constructor; cbn; intuition discriminate.
  - vm_compute. reflexivity.
Defined.

Lemma X17_witness :
  let st' := snd (update anySchedule "job-a" (messageOnly "check the mail")
                    (List.fold_left (applyOp anySchedule) [Enable "job-b"]
                       (start anySchedule (Some [hourly; paused]) create))) in
  ticking st' !! 0%nat = Some (mkRunner "0 * * * *" 0)
  /\ handed 0 77 st'
     = Some (assign (assign hourly (messageOnly "check the mail")) (lastRunOnly 77)).
Proof.
  apply (X17_update_reaches_the_running_job anySchedule (Some [hourly; paused])
           [Enable "job-b"] 0%nat (mkRunner "0 * * * *" 0) hourly
           (messageOnly "check the mail") 77).
  - cbn. repeat constructor; cbn; intuition discriminate.
  - vm_compute. reflexivity.
  - vm_compute. reflexivity.
  - vm_compute. reflexivity.
  - reflexivity.
  - reflexivity.
Defined.

End CronFacts.

(** ** Announce queues: one debounce timer per requester *)

Module DebounceFacts.

Import Announce Debounce.

Lemma ofKey_in (k : string) (l : list Timer) (tm : Timer) :
  In tm (ofKey k l) <-> In tm l /\ timerKey tm = k.
Proof.
  unfold ofKey. rewrite List.filter_In. now rewrite String.eqb_eq.
Qed.

Lemma at_most_one {A} (l : list A) (a b : A) :
  (length l <= 1)%nat -> In a l -> In b l -> a = b.
Proof.
  destruct l as [|x [|y l]]; cbn; [tauto| |lia].
  intros _ [<-|[]] [<-|[]]. reflexivity.
Qed.

Lemma filter_length_le {A} (p : A -> bool) (l : list A) :
  (length (List.filter p l) <= length l)%nat.
Proof.
  induction l as [|x l IH]; [reflexivity|]. cbn. destruct (p x); cbn; lia.
Qed.

Lemma ofKey_clearTimeout (k : string) (h : nat) (l : list Timer) :
  ofKey k (clearTimeout h l) = clearTimeout h (ofKey k l).
Proof.
  unfold ofKey, clearTimeout. induction l as [|x l IH]; [reflexivity|]. cbn.
  destruct (negb (handle x =? h)%nat) eqn:E1, (String.eqb (timerKey x) k) eqn:E2;
    cbn; rewrite ?E1, ?E2, IH; reflexivity.
Qed.

Lemma ofKey_snoc (k : string) (l : list Timer) (x : Timer) :
  ofKey k (l ++ [x])
  = (ofKey k l ++ if String.eqb (timerKey x) k then [x] else [])%list.
Proof. unfold ofKey. now rewrite List.filter_app. Qed.

Lemma clearTimeout_in (h : nat) (l : list Timer) (tm : Timer) :
  In tm (clearTimeout h l) <-> In tm l /\ handle tm <> h.
Proof.
  unfold clearTimeout. rewrite List.filter_In, negb_true_iff, Nat.eqb_neq. reflexivity.
Qed.

Lemma drainQueue_timers (now d : Z) (k ch : string) (st : t) :
  timers (drainQueue now d k ch st) = timers st.
Proof.
  unfold drainQueue. destruct (queues st !! k) as [q|]; [|reflexivity].
  destruct (draining q); [reflexivity|]. destruct (items q); [reflexivity|].
  now destruct (negb (hasGateway st)).
Qed.

Lemma drainQueue_others (now d : Z) (k ch k' : string) (st : t) :
  k' <> k -> queues (drainQueue now d k ch st) !! k' = queues st !! k'.
Proof.
  intros Hne. unfold drainQueue. destruct (queues st !! k) as [q|]; [|reflexivity].
  destruct (draining q); [reflexivity|]. destruct (items q); [reflexivity|].
  destruct (negb (hasGateway st)); cbn; now rewrite lookup_insert_ne.
Qed.

Lemma oneTimerEach_init (g : bool) : oneTimerEach (init g).
Proof. intros k. cbn. split; [lia|]. intros tm []. Qed.

Lemma enqueue_keeps (now : Z) (p : AnnounceParams) (f : string) (st : t) :
  oneTimerEach st -> oneTimerEach (enqueueAnnounce now p f st).
Proof.
  intros Hinv k. unfold enqueueAnnounce.
  set (key := requesterSessionKey p).
  set (queue := default (mkQueue [] None false) (queues st !! key)).
  set (timers1 := match debounceTimer queue with
                  | Some h => clearTimeout h (timers st)
                  | None => timers st
                  end).
  cbn [timers queues].
  assert (Hsub : forall tm, In tm timers1 -> In tm (timers st)).
  { intros tm. unfold timers1. destruct (debounceTimer queue); [|trivial].
    intros Hin. now apply clearTimeout_in in Hin. }
  assert (Hlen : (length (ofKey k timers1) <= length (ofKey k (timers st)))%nat).
  { unfold timers1. destruct (debounceTimer queue); [|reflexivity].
    rewrite ofKey_clearTimeout. apply filter_length_le. }
  rewrite ofKey_snoc. cbn [timerKey].
  destruct (String.eqb_spec key k) as [<-|Hne].
  - assert (Hnone : ofKey key timers1 = []).
    { destruct (ofKey key timers1) as [|tm rest] eqn:E; [reflexivity|]. exfalso.
      assert (Hin : In tm (ofKey key timers1)) by (rewrite E; now left).
      apply ofKey_in in Hin as [Hin Hk].
      destruct (proj2 (Hinv key) tm) as (q & Hq & Hdt & _).
      { apply ofKey_in. split; [now apply Hsub|exact Hk]. }
      assert (Hqueue : queue = q) by (unfold queue; now rewrite Hq).
      unfold timers1 in Hin. rewrite Hqueue, Hdt in Hin.
      apply clearTimeout_in in Hin as [_ Hneq]. now apply Hneq. }
    rewrite Hnone. cbn. split; [lia|]. intros tm [<-|[]].
    eexists. rewrite lookup_insert_eq. split; [reflexivity|]. cbn. split; [reflexivity|].
    now destruct (items queue).
  - rewrite List.app_nil_r. destruct (Hinv k) as [H1 H2]. split; [lia|].
    intros tm Hin. rewrite lookup_insert_ne by exact Hne. apply H2.
    apply ofKey_in in Hin as [Hin Hk]. apply ofKey_in. split; [now apply Hsub|exact Hk].
Qed.

Lemma fires_keeps (duration : nat -> Z) (tm : Timer) (st : t) :
  oneTimerEach st -> In tm (timers st) -> oneTimerEach (runPending duration (PTimer tm) st).
Proof.
  intros Hinv Htm k. cbn [runPending]. rewrite drainQueue_timers. cbn [timers].
  destruct (Hinv k) as [H1 H2]. rewrite ofKey_clearTimeout. split.
  - pose proof (filter_length_le (fun x => negb (handle x =? handle tm)%nat)
                                 (ofKey k (timers st))) as Hle.
    unfold clearTimeout. lia.
  - intros tm' Hin. apply clearTimeout_in in Hin as [Hin Hneq].
    destruct (String.eqb_spec k (timerKey tm)) as [->|Hne].
    + exfalso. apply Hneq. f_equal.
      apply (at_most_one _ _ _ H1 Hin). apply ofKey_in. now split.
    + rewrite drainQueue_others by exact Hne. cbn [queues]. now apply H2.
Qed.

Lemma settles_keeps (duration : nat -> Z) (fl : InFlight) (st : t) :
  oneTimerEach st -> oneTimerEach (runPending duration (PResume fl) st).
Proof.
  intros Hinv k. cbn [runPending]. unfold drainFinally. cbn [queues].
  destruct (queues st !! flightKey fl) as [q|] eqn:Hq; [|exact (Hinv k)].
  destruct (Hinv k) as [H1 H2].
  destruct (items q) as [|x rest] eqn:Hitems; cbn [timers queues setQueue].
  - split; [exact H1|]. intros tm Hin. destruct (H2 tm Hin) as (q' & Hq' & Hdt & Hne).
    destruct (String.eqb_spec k (flightKey fl)) as [->|Hk].
    + congruence.
    + rewrite lookup_delete_ne by congruence. eauto.
  - split; [exact H1|]. intros tm Hin. destruct (H2 tm Hin) as (q' & Hq' & Hdt & Hne).
    destruct (String.eqb_spec k (flightKey fl)) as [->|Hk].
    + rewrite lookup_insert_eq. eexists. split; [reflexivity|]. cbn.
      split; [congruence|discriminate].
    + rewrite lookup_insert_ne by congruence. eauto.
Qed.

(** X18 (subagent/announce.ts, enqueueAnnounce and drainQueue). Whatever
    completions are enqueued, whichever timeouts fire and whichever
    drains resume, in any order: a requester never has more than one
    debounce timeout waiting, and a timeout that waits is the one its
    queue remembers, so that the next completion cancels it; the queue
    it waits for holds items. *)
Theorem X18_one_debounce_timer_per_requester (hasGateway : bool) (duration : nat -> Z)
    (events : list Event) :
  allPossible duration (init hasGateway) events ->
  oneTimerEach (List.fold_left (happen duration) events (init hasGateway)).
Proof.
  pose proof (oneTimerEach_init hasGateway) as Hinv. revert Hinv.
  generalize (init hasGateway) as st. induction events as [|e rest IH]; intros st Hinv Hall.
  - exact Hinv.
  - destruct Hall as [Hp Hall]. cbn [List.fold_left]. apply IH; [|exact Hall].
    destruct e as [now p f|tm|fl]; cbn [happen possible] in *.
    + now apply enqueue_keeps.
    + now apply fires_keeps.
    + now apply settles_keeps.
Qed.

Lemma X18_witness :
  oneTimerEach
    (List.fold_left (happen (fun _ => 700))
       [Completion 0 Scenarios.paramsA "a"; Completion 500 Scenarios.paramsB "b";
        Fires (mkTimer 1 2500 "websocket:abc" "websocket");
        Completion 2600 Scenarios.paramsA "c"]
       (init true)).
Proof.
  apply (X18_one_debounce_timer_per_requester true (fun _ => 700)).
  cbn. repeat split. now left.
Defined.

End DebounceFacts.

(** ** Agent manager *)

Module AgentsFacts.

Import Agents.

Lemma agents_kept_new (envModel : option string) (created updated : Z) :
  kept (ensureDirs envModel created updated None).
Proof.
  split; cbn.
  - intros id a Ha. apply lookup_singleton_Some in Ha as [<- <-]. now split.
  - exists "default". split; [reflexivity|]. rewrite lookup_singleton_eq. eauto.
Qed.

Lemma agents_kept_applyOp (store : AgentStore) (op : Op) :
  kept store -> plainCall op = true -> kept (applyOp store op).
Proof.
  intros [Hown (d & Hd & Hstored)] Hplain. unfold kept. destruct op as [config uuid now|id|id u now|id]; cbn [applyOp plainCall] in *.
  - apply andb_true_iff in Hplain as [Hne _]. unfold createAgent. split; cbn [snd agents defaultAgentId].
    + intros id a Ha. destruct (decide (JS.slice0 8 uuid = id)) as [<-|Hneq].
      * rewrite lookup_insert_eq in Ha. injection Ha as <-. now split.
      * rewrite lookup_insert_ne in Ha by exact Hneq. now apply Hown.
    + exists d. split; [exact Hd|]. destruct (decide (JS.slice0 8 uuid = d)) as [<-|Hneq].
      * rewrite lookup_insert_eq. eauto.
      * now rewrite lookup_insert_ne.
  - unfold setDefaultAgent. destruct (agents store !! id) as [a|] eqn:Ha; cbn [snd agents defaultAgentId].
    + split; [exact Hown|]. exists id. rewrite Ha. eauto.
    + split; [exact Hown|]. eauto.
  - unfold updateAgent. destruct (agents store !! id) as [a|] eqn:Ha; cbn [snd agents defaultAgentId].
    + destruct (Hown id a Ha) as [Hid Hne]. split.
      * intros id' a' Ha'. destruct (decide (id = id')) as [<-|Hneq].
        -- rewrite lookup_insert_eq in Ha'. injection Ha' as <-. now split.
        -- rewrite lookup_insert_ne in Ha' by exact Hneq. now apply Hown.
      * exists d. split; [exact Hd|]. destruct (decide (id = d)) as [<-|Hneq].
        -- rewrite lookup_insert_eq. eauto.
        -- now rewrite lookup_insert_ne.
    + split; [exact Hown|]. eauto.
  - unfold deleteAgent. destruct (agents store !! id) as [a|] eqn:Ha; cbn [snd agents defaultAgentId].
    + case_bool_decide as Hdef; cbn [snd agents defaultAgentId].
      * split; [exact Hown|]. eauto.
      * split.
        -- intros id' a' Ha'. apply lookup_delete_Some in Ha' as [_ Ha']. now apply Hown.
        -- exists d. split; [exact Hd|]. rewrite lookup_delete_ne; [exact Hstored|].
           congruence.
    + split; [exact Hown|]. eauto.
Qed.

Lemma agents_kept_ops (ops : list Op) (store : AgentStore) :
  kept store -> List.forallb plainCall ops = true -> kept (List.fold_left applyOp ops store).
Proof.
  revert store. induction ops as [|op ops IH]; intros store Hk Hp; [exact Hk|].
  cbn in *. apply andb_true_iff in Hp as [H1 H2]. apply IH; [|exact H2].
  now apply agents_kept_applyOp.
Qed.

(** X19 (AgentManager). A manager that found no store and wrote the
    default one, after any calls of [createAgent], [setDefaultAgent],
    [updateAgent] and [deleteAgent] with plain ids: [getDefaultAgent()]
    returns an agent, which is stored under its own id, so that the
    fallback ['default'] of [getDefaultAgent()?.agentId || 'default'] is
    never what names the agent. *)
Theorem X19_default_agent_always_exists (envModel : option string) (created updated : Z)
    (ops : list Op) :
  List.forallb plainCall ops = true ->
  exists a,
    getDefaultAgent (List.fold_left applyOp ops (ensureDirs envModel created updated None))
    = Some a
    /\ getAgent (agentId a)
                (List.fold_left applyOp ops (ensureDirs envModel created updated None))
       = Some a
    /\ fallbackAgentId (List.fold_left applyOp ops (ensureDirs envModel created updated None))
       = agentId a.
Proof.
  intros Hp.
  destruct (agents_kept_ops ops _ (agents_kept_new envModel created updated) Hp)
    as [Hown (d & Hd & [a Ha])].
  set (store := List.fold_left applyOp ops _) in *.
  destruct (Hown d a Ha) as [Hid Hne].
  assert (Hdef : getDefaultAgent store = Some a).
  { unfold getDefaultAgent. rewrite Hd. cbn. now rewrite Hne. }
  exists a. split; [exact Hdef|]. split.
  - unfold getAgent. now rewrite Hid.
  - unfold fallbackAgentId. rewrite Hdef. cbn. now rewrite Hid, Hne.
Qed.

Lemma X19_witness :
  exists a,
    getDefaultAgent
      (List.fold_left applyOp
         [Create researcher "9f3c2a7e-1b" 50; SetDefault "9f3c2a7e"; Delete "default";
          Delete "9f3c2a7e"]
         (ensureDirs None 1 1 None))
    = Some a
    /\ getAgent (agentId a)
         (List.fold_left applyOp
            [Create researcher "9f3c2a7e-1b" 50; SetDefault "9f3c2a7e"; Delete "default";
             Delete "9f3c2a7e"]
            (ensureDirs None 1 1 None))
       = Some a
    /\ fallbackAgentId
         (List.fold_left applyOp
            [Create researcher "9f3c2a7e-1b" 50; SetDefault "9f3c2a7e"; Delete "default";
             Delete "9f3c2a7e"]
            (ensureDirs None 1 1 None))
       = agentId a.
Proof.
  apply (X19_default_agent_always_exists None 1 1
           [Create researcher "9f3c2a7e-1b" 50; SetDefault "9f3c2a7e"; Delete "default";
            Delete "9f3c2a7e"]).
  vm_compute. reflexivity.
Defined.

End AgentsFacts.

(** ** Config manager *)

Module ProvidersFacts.

Import Providers.

Lemma providers_kept_load (st : t) : keptAll st -> kept (fst (load st)).
Proof.
  intros [Hs Hf]. unfold load. destruct (file st) as [[store|]|]; cbn; auto.
Qed.

Lemma providers_kept_save (store : ProviderStore) (isShared : bool) (st : t) :
  keptAll st -> kept store -> keptAll (save store isShared st).
Proof.
  intros [Hs Hf] Hk. split; cbn.
  - now destruct isShared.
  - intros s [= <-]. exact Hk.
Qed.

Lemma providers_kept_insert (store : ProviderStore) (key : string) (p : ProviderConfig) :
  kept store -> JS.nonEmpty key = true -> providers store <> ∅ ->
  kept (mkStore (<[key := p]> (providers store)) (defaultProviderId store)).
Proof.
  intros [Hne Hdef] Hkey Hsome. split; cbn.
  - intros k q Hq. destruct (decide (key = k)) as [<-|Hneq]; [exact Hkey|].
    rewrite lookup_insert_ne in Hq by exact Hneq. now apply (Hne k q).
  - intros _. destruct (Hdef Hsome) as (d & Hd & Hstored). exists d. split; [exact Hd|].
    destruct (decide (key = d)) as [<-|Hneq].
    + rewrite lookup_insert_eq. eauto.
    + now rewrite lookup_insert_ne.
Qed.

Lemma providers_kept_first (store : ProviderStore) (key : string) (p : ProviderConfig) :
  kept store -> JS.nonEmpty key = true ->
  kept (mkStore (<[key := p]> (providers store)) (Some key)).
Proof.
  intros [Hne Hdef] Hkey. split; cbn.
  - intros k q Hq. destruct (decide (key = k)) as [<-|Hneq]; [exact Hkey|].
    rewrite lookup_insert_ne in Hq by exact Hneq. now apply (Hne k q).
  - intros _. exists key. split; [reflexivity|]. rewrite lookup_insert_eq. eauto.
Qed.

Lemma providers_kept_applyOp (st : t) (op : Op) :
  keptAll st -> plainCall op = true -> keptAll (applyOp st op).
Proof.
  intros Hall Hplain. pose proof (providers_kept_load st Hall) as Hk.
  destruct op as [provider now|key u now|key|key|provider now]; cbn [applyOp plainCall] in *.
  - apply andb_true_iff in Hplain as [Hkey _]. unfold addProvider.
    destruct (load st) as [store isShared]. cbn [fst] in Hk.
    destruct (size _ =? 1)%nat eqn:Hsize; cbn [snd]; apply providers_kept_save; trivial.
    + now apply providers_kept_first.
    + apply providers_kept_insert; trivial. intros Hempty. rewrite Hempty in Hsize.
      rewrite insert_empty, map_size_singleton in Hsize. discriminate.
  - unfold updateProvider. destruct (load st) as [store isShared]. cbn [fst] in Hk.
    destruct (providers store !! key) as [p|] eqn:Hp; cbn [snd]; [|exact Hall].
    apply providers_kept_save; [exact Hall|]. apply providers_kept_insert; trivial.
    + destruct Hk as [Hne _]. now apply (Hne key p).
    + intros Hempty. rewrite Hempty in Hp. now rewrite lookup_empty in Hp.
  - unfold deleteProvider. destruct (load st) as [store isShared]. cbn [fst] in Hk.
    destruct (providers store !! key) as [p|] eqn:Hp; cbn [snd]; [|exact Hall].
    case_bool_decide as Hdef; cbn [snd]; [exact Hall|].
    apply providers_kept_save; [exact Hall|]. destruct Hk as [Hne Hd]. split; cbn.
    + intros k q Hq. apply lookup_delete_Some in Hq as [_ Hq]. now apply (Hne k q).
    + intros _. destruct Hd as (d & Hd & Hstored).
      { intros Hempty. rewrite Hempty in Hp. now rewrite lookup_empty in Hp. }
      exists d. split; [exact Hd|]. rewrite lookup_delete_ne; [exact Hstored|]. congruence.
  - unfold setDefaultProvider. destruct (load st) as [store isShared]. cbn [fst] in Hk.
    destruct (providers store !! key) as [p|] eqn:Hp; cbn [snd]; [|exact Hall].
    apply providers_kept_save; [exact Hall|]. destruct Hk as [Hne Hd]. split; cbn; [exact Hne|].
    intros _. exists key. rewrite Hp. eauto.
  - unfold init. destruct Hall as [Hs Hf]. destruct provider as [o|].
    + apply providers_kept_save; [now split|]. now apply providers_kept_first.
    + apply providers_kept_save; [now split|exact Hs].
Qed.

Lemma providers_kept_fresh : keptAll fresh.
Proof.
  split; cbn.
  - split; cbn; [intros key p Hp; now rewrite lookup_empty in Hp|]. now intros [].
  - discriminate.
Qed.

Lemma providers_kept_ops (ops : list Op) (st : t) :
  keptAll st -> List.forallb plainCall ops = true -> keptAll (List.fold_left applyOp ops st).
Proof.
  revert st. induction ops as [|op ops IH]; intros st Hk Hp; [exact Hk|].
  cbn in *. apply andb_true_iff in Hp as [H1 H2]. apply IH; [|exact H2].
  now apply providers_kept_applyOp.
Qed.

(** X20 (ConfigManager, providers). Starting without a config file,
    after any calls of [addProvider], [updateProvider], [deleteProvider],
    [setDefaultProvider] and [init] with plain ids: as soon as the config
    holds a provider, [getDefaultProvider()] returns one, marked as the
    default. The first provider added becomes the default, and the
    default can only be replaced, not deleted. *)
Theorem X20_a_stored_provider_means_a_default_provider (ops : list Op) (key : string)
    (p : ProviderConfig) :
  List.forallb plainCall ops = true ->
  providers (fst (load (List.fold_left applyOp ops fresh))) !! key = Some p ->
  exists d,
    getDefaultProvider (List.fold_left applyOp ops fresh) = Some d
    /\ isDefault d = Some true.
Proof.
  intros Hplain Hp.
  pose proof (providers_kept_load _ (providers_kept_ops ops fresh providers_kept_fresh Hplain)) as [Hne Hdef].
  unfold getDefaultProvider. set (store := fst (load _)) in *.
  destruct Hdef as (d & Hd & [q Hq]).
  { intros Hempty. rewrite Hempty in Hp. now rewrite lookup_empty in Hp. }
  rewrite Hd. cbn [JS.truthyStr]. rewrite (Hne d q Hq), Hq. eauto.
Qed.

Lemma X20_witness :
  exists d,
    getDefaultProvider
      (List.fold_left applyOp
         [Add local 10; Add hosted 20; SetDefault "e5f6a7b8"; Delete "a1b2c3d4";
          Delete "e5f6a7b8"]
         fresh)
    = Some d
    /\ isDefault d = Some true.
Proof.
  apply (X20_a_stored_provider_means_a_default_provider
           [Add local 10; Add hosted 20; SetDefault "e5f6a7b8"; Delete "a1b2c3d4";
            Delete "e5f6a7b8"]
           "e5f6a7b8"
           (mkProvider "e5f6a7b8" "Hosted" "https://api.example.com/v1" "sk-1" claude
                       ["claude-3"] None 20 20)).
  - vm_compute. reflexivity.
  - vm_compute. reflexivity.
Defined.

End ProvidersFacts.

(** ** Followup queue *)

Module FollowupFacts.

Import Gateway Followup.

Lemma enqueue_collect_mode (msg : Message) (q : t) :
  mode q = collect -> mode (fst (enqueue msg q)) = collect.
Proof. intros H. unfold enqueue. now rewrite H. Qed.

Lemma peek_enqueue (msg : Message) (k : string) (q : t) :
  mode q = collect ->
  peek k (fst (enqueue msg q))
  = (peek k q ++ if String.eqb (sessionKey msg) k then [queuedOf msg] else [])%list.
Proof.
  intros H. unfold enqueue, peek. rewrite H. cbn [fst queues].
  destruct (String.eqb_spec (sessionKey msg) k) as [<-|Hne].
  - now rewrite lookup_insert_eq.
  - rewrite lookup_insert_ne by exact Hne. now rewrite List.app_nil_r.
Qed.

Lemma peek_enqueueAll (msgs : list Message) (k : string) (q : t) :
  mode q = collect ->
  peek k (enqueueAll msgs q) = (peek k q ++ forSession k msgs)%list.
Proof.
  revert q. induction msgs as [|msg msgs IH]; intros q H.
  - cbn. now rewrite List.app_nil_r.
  - unfold enqueueAll in *. cbn [List.fold_left].
    rewrite IH by now apply enqueue_collect_mode. rewrite peek_enqueue by exact H.
    rewrite <- List.app_assoc. f_equal. unfold forSession. cbn [List.filter].
    now destruct (String.eqb (sessionKey msg) k).
Qed.

(** X21 (FollowupQueue). In collect mode the queue keeps the messages of
    each session in the order they arrived: [drain] returns those of its
    session, after what the session held before, and leaves nothing for
    a second [drain], while the messages of every other session stay. *)
Theorem X21_collect_mode_drains_in_arrival_order (msgs : list Message) (k : string)
    (q : t) :
  mode q = collect ->
  fst (drain k (enqueueAll msgs q)) = (peek k q ++ forSession k msgs)%list
  /\ fst (drain k (snd (drain k (enqueueAll msgs q)))) = []
  /\ forall k', k' <> k ->
       peek k' (snd (drain k (enqueueAll msgs q))) = (peek k' q ++ forSession k' msgs)%list.
Proof.
  intros H. repeat split.
  - now apply peek_enqueueAll.
  - cbn. now rewrite lookup_delete_eq.
  - intros k' Hne. rewrite <- (peek_enqueueAll msgs k' q H).
    unfold peek, drain. cbn. now rewrite lookup_delete_ne.
Qed.

Lemma X21_witness :
  fst (drain "web:1"
         (enqueueAll [mkMessage "m1" "websocket" "u" "first" 1 "web:1" None None;
                      mkMessage "m2" "websocket" "v" "other" 2 "web:2" None None;
                      mkMessage "m3" "websocket" "u" "second" 3 "web:1" None None]
                     (setMode collect create)))
  = (peek "web:1" (setMode collect create)
     ++ forSession "web:1"
          [mkMessage "m1" "websocket" "u" "first" 1 "web:1" None None;
           mkMessage "m2" "websocket" "v" "other" 2 "web:2" None None;
           mkMessage "m3" "websocket" "u" "second" 3 "web:1" None None])%list.
Proof.
  apply (X21_collect_mode_drains_in_arrival_order
           [mkMessage "m1" "websocket" "u" "first" 1 "web:1" None None;
            mkMessage "m2" "websocket" "v" "other" 2 "web:2" None None;
            mkMessage "m3" "websocket" "u" "second" 3 "web:1" None None]
           "web:1" (setMode collect create)).
  reflexivity.
Defined.

End FollowupFacts.

(** ** Skills prompt: escaping *)

Module XmlFacts.

Import Str StrFacts Xml.

Lemma replaceAll_app (c : ascii) (r a b : string) :
  replaceAll c r (a ++ b) = replaceAll c r a ++ replaceAll c r b.
Proof.
  induction a as [|x a IH]; [reflexivity|].
  rewrite append_cons. cbn [replaceAll]. now rewrite IH, append_assoc.
Qed.

Lemma escapeXml_app (a b : string) : escapeXml (a ++ b) = escapeXml a ++ escapeXml b.
Proof. unfold escapeXml. now rewrite !replaceAll_app. Qed.

Lemma replaceAll_other (c x : ascii) (r : string) :
  Ascii.eqb x c = false -> replaceAll c r (String x "") = String x "".
Proof. intros H. cbn [replaceAll]. now rewrite H. Qed.

(** What one character becomes. *)
Lemma escapeChar_cases (c : ascii) :
  (c = "&"%char /\ Skills.escapeChar c = "&amp;")
  \/ (c = "<"%char /\ Skills.escapeChar c = "&lt;")
  \/ (c = ">"%char /\ Skills.escapeChar c = "&gt;")
  \/ (c = ascii_of_nat 34 /\ Skills.escapeChar c = "&quot;")
  \/ (c = "'"%char /\ Skills.escapeChar c = "&apos;")
  \/ (Ascii.eqb c "&" = false /\ Ascii.eqb c "<" = false /\ Ascii.eqb c ">" = false
      /\ Ascii.eqb c (ascii_of_nat 34) = false /\ Ascii.eqb c "'" = false
      /\ Skills.escapeChar c = String c "").
Proof.
  unfold Skills.escapeChar.
  destruct (Ascii.eqb_spec c "&") as [->|H1]; [now left|].
  destruct (Ascii.eqb_spec c "<") as [->|H2]; [right; now left|].
  destruct (Ascii.eqb_spec c ">") as [->|H3]; [right; right; now left|].
  destruct (Ascii.eqb_spec c (ascii_of_nat 34)) as [->|H4]; [right; right; right; now left|].
  destruct (Ascii.eqb_spec c "'") as [->|H5]; [right; right; right; right; now left|].
  right. right. right. right. right. now repeat split.
Qed.

Lemma escapeXml_char (c : ascii) : escapeXml (String c "") = Skills.escapeChar c.
Proof.
  destruct (escapeChar_cases c)
    as [[-> ->]|[[-> ->]|[[-> ->]|[[-> ->]|[[-> ->]|(H1 & H2 & H3 & H4 & H5 & ->)]]]]];
    try reflexivity.
  unfold escapeXml. now rewrite !replaceAll_other.
Qed.

(** X22 (skills/loader, escapeXml). The five passes of [escapeXml]
    amount to replacing each character on its own: [&] is replaced first,
    so that the [&] of an entity written by a later pass is never escaped
    again. *)
Theorem X22_escapeXml_escapes_each_character_once (s : string) :
  escapeXml s = Skills.escapeXml s.
Proof.
  induction s as [|c s IH]; [reflexivity|].
  change (String c s) with (String c "" ++ s) at 1.
  rewrite escapeXml_app, escapeXml_char, IH. reflexivity.
Qed.

Lemma escapeXml_no_markup (s : string) :
  List.Forall (fun c => markup c = false) (chars (Skills.escapeXml s)).
Proof.
  induction s as [|c s IH]; [constructor|].
  cbn [Skills.escapeXml]. rewrite chars_append. apply List.Forall_app. split; [|exact IH].
  destruct (escapeChar_cases c)
    as [[-> ->]|[[-> ->]|[[-> ->]|[[-> ->]|[[-> ->]|(H1 & H2 & H3 & H4 & H5 & ->)]]]]];
    try (repeat constructor).
  unfold markup. now rewrite H2, H3, H4, H5.
Qed.

Lemma append_nil_l (s : string) : "" ++ s = s.
Proof. reflexivity. Qed.

Lemma escapeXml_injective (s1 s2 : string) :
  Skills.escapeXml s1 = Skills.escapeXml s2 -> s1 = s2.
Proof.
  revert s2. induction s1 as [|c1 s1 IH]; intros [|c2 s2] H; cbn [Skills.escapeXml] in H.
  - reflexivity.
  - exfalso.
    destruct (escapeChar_cases c2)
      as [[-> E]|[[-> E]|[[-> E]|[[-> E]|[[-> E]|(_ & _ & _ & _ & _ & E)]]]]];
      rewrite E, append_cons in H; discriminate.
  - exfalso.
    destruct (escapeChar_cases c1)
      as [[-> E]|[[-> E]|[[-> E]|[[-> E]|[[-> E]|(_ & _ & _ & _ & _ & E)]]]]];
      rewrite E, append_cons in H; discriminate.
  - destruct (escapeChar_cases c1)
      as [[-> E1]|[[-> E1]|[[-> E1]|[[-> E1]|[[-> E1]|(A1 & _ & _ & _ & _ & E1)]]]]];
    destruct (escapeChar_cases c2)
      as [[-> E2]|[[-> E2]|[[-> E2]|[[-> E2]|[[-> E2]|(A2 & _ & _ & _ & _ & E2)]]]]];
    rewrite ?E1, ?E2 in H; rewrite ?append_cons, ?append_nil_l in H;
    try discriminate;
    try (f_equal; apply IH; congruence).
    + exfalso. injection H as Hc _. rewrite <- Hc in A2. discriminate.
    + exfalso. injection H as Hc _. rewrite <- Hc in A2. discriminate.
    + exfalso. injection H as Hc _. rewrite <- Hc in A2. discriminate.
    + exfalso. injection H as Hc _. rewrite <- Hc in A2. discriminate.
    + exfalso. injection H as Hc _. rewrite <- Hc in A2. discriminate.
    + exfalso. injection H as Hc _. rewrite Hc in A1. discriminate.
    + exfalso. injection H as Hc _. rewrite Hc in A1. discriminate.
    + exfalso. injection H as Hc _. rewrite Hc in A1. discriminate.
    + exfalso. injection H as Hc _. rewrite Hc in A1. discriminate.
    + exfalso. injection H as Hc _. rewrite Hc in A1. discriminate.
    + injection H as -> H. f_equal. now apply IH.
Qed.

(** X23 (skills/loader, escapeXml and buildSkillsPrompt). A name, a
    description or keywords written into the skills prompt cannot open or
    close a tag: the escaped text holds none of the characters [<], [>],
    the double quote and the apostrophe; and nothing is lost, two texts
    with the same escaped text are the same. *)
Theorem X23_escaped_text_is_inert_and_faithful (s : string) :
  List.Forall (fun c => markup c = false) (chars (Skills.escapeXml s))
  /\ forall s', Skills.escapeXml s' = Skills.escapeXml s -> s' = s.
Proof.
  split; [apply escapeXml_no_markup|].
  intros s' H. now apply escapeXml_injective.
Qed.

End XmlFacts.

(** ** WebSocket channel *)

Module WebSocketFacts.

Import Gateway WebSocket.

Lemma subscribersOnly_create : subscribersOnly create.
Proof.
  split; cbn.
  - intros k n H. now rewrite lookup_empty in H.
  - intros n [c H]. now rewrite lookup_empty in H.
Qed.

Lemma subscribersOnly_happen (st : t) (e : Event) :
  subscribersOnly st -> possible st e = true -> subscribersOnly (happen st e).
Proof.
  intros [Hsub Hbelow] Hp.
  destruct e as [uuid|n data uuid now|n|n|]; cbn [happen possible] in *.
  - unfold connect. split; cbn [clients connections nextConnection].
    + intros k m Hk. destruct (decide (uuid = k)) as [<-|Hne].
      * rewrite lookup_insert_eq in Hk. injection Hk as <-. rewrite lookup_insert_eq.
        eexists. split; [reflexivity|]. cbn. split; [set_solver|reflexivity].
      * rewrite lookup_insert_ne in Hk by exact Hne.
        destruct (Hsub k m Hk) as (c & Hc & Hin & Hopen).
        exists c. rewrite lookup_insert_ne; [now repeat split|].
        intros Heq. specialize (Hbelow m (mk_is_Some _ _ Hc)). lia.
    + intros m Hm. destruct (decide (nextConnection st = m)) as [<-|Hne]; [lia|].
      rewrite lookup_insert_ne in Hm by exact Hne. specialize (Hbelow m Hm). lia.
  - unfold receive. destruct (connections st !! n) as [c|] eqn:Hc; [|discriminate].
    destruct data as [key|text sid aid|]; cbn [fst].
    + destruct (JS.nonEmpty key); cbn [fst]; [|now split].
      split; cbn [clients connections nextConnection].
      * intros k m Hk. destruct (decide (key = k)) as [<-|Hne].
        -- rewrite lookup_insert_eq in Hk. injection Hk as <-. rewrite lookup_insert_eq.
           eexists. split; [reflexivity|]. cbn. split; [set_solver|].
           now apply negb_true_iff in Hp.
        -- rewrite lookup_insert_ne in Hk by exact Hne.
           destruct (Hsub k m Hk) as (c' & Hc' & Hin & Hopen).
           destruct (decide (n = m)) as [<-|Hnm].
           ++ rewrite lookup_insert_eq. eexists. split; [reflexivity|]. cbn.
              assert (c' = c) as -> by congruence. split; [set_solver|exact Hopen].
           ++ rewrite lookup_insert_ne by exact Hnm. eauto.
      * intros m Hm. destruct (decide (n = m)) as [<-|Hnm]; [apply Hbelow; eauto|].
        rewrite lookup_insert_ne in Hm by exact Hnm. now apply Hbelow.
    + destruct (JS.nonEmpty text); now split.
    + now split.
  - unfold closing. destruct (connections st !! n) as [c|] eqn:Hc; [|discriminate].
    split; cbn [clients connections nextConnection].
    + intros k m Hk. destruct (Hsub k m Hk) as (c' & Hc' & Hin & Hopen).
      destruct (decide (n = m)) as [<-|Hnm].
      * rewrite lookup_insert_eq. eexists. split; [reflexivity|]. cbn.
        assert (c' = c) as -> by congruence. now split.
      * rewrite lookup_insert_ne by exact Hnm. eauto.
    + intros m Hm. destruct (decide (n = m)) as [<-|Hnm]; [apply Hbelow; eauto|].
      rewrite lookup_insert_ne in Hm by exact Hnm. now apply Hbelow.
  - unfold close. destruct (connections st !! n) as [c|] eqn:Hc; [|discriminate].
    split; cbn [clients connections nextConnection].
    + intros k m Hk. apply map_lookup_filter_Some in Hk as [Hk Hnot]. cbn in Hnot.
      destruct (Hsub k m Hk) as (c' & Hc' & Hin & Hopen).
      destruct (decide (n = m)) as [<-|Hnm].
      * exfalso. assert (c' = c) as -> by congruence. now apply Hnot.
      * rewrite lookup_insert_ne by exact Hnm. eauto.
    + intros m Hm. destruct (decide (n = m)) as [<-|Hnm]; [apply Hbelow; eauto|].
      rewrite lookup_insert_ne in Hm by exact Hnm. now apply Hbelow.
  - unfold stop. split; cbn [clients connections nextConnection]; [|exact Hbelow].
    intros k m Hk. now rewrite lookup_empty in Hk.
Qed.

Lemma subscribersOnly_events (es : list Event) (st : t) :
  subscribersOnly st -> allPossible st es = true ->
  subscribersOnly (List.fold_left happen es st).
Proof.
  revert st. induction es as [|e es IH]; intros st Hs Hp; [exact Hs|].
  cbn in *. apply andb_true_iff in Hp as [H1 H2]. apply IH; [|exact H2].
  now apply subscribersOnly_happen.
Qed.

Lemma isOpen_spec (st : t) (n : nat) :
  isOpen st n = true <-> exists c, connections st !! n = Some c /\ readyState c = OPEN.
Proof.
  unfold isOpen. destruct (connections st !! n) as [c|].
  - destruct (readyState c) eqn:E; split; try discriminate; eauto.
    + intros (c' & [= <-] & H). congruence.
    + intros (c' & [= <-] & H). congruence.
  - split; [discriminate|]. now intros (c & H & _).
Qed.

(** X24 (WebSocketChannel). After any connections, session switches,
    messages, closings and stops: a reply for a session key goes only to
    connections that are open and have subscribed to that key, by
    connecting under it or by switching to it, and if there is such a
    connection registered it goes to that one alone; only a reply for
    the key ['broadcast'] that finds no open connection of its own goes
    to other open connections. *)
Theorem X24_replies_reach_only_open_subscribers (events : list Event) (sessionKey : string)
    (n : nat) :
  allPossible create events = true ->
  In n (send sessionKey (List.fold_left happen events create)) ->
  exists c,
    connections (List.fold_left happen events create) !! n = Some c
    /\ readyState c = OPEN
    /\ closeHandled c = false
    /\ (sessionKey ∈ subscribedKeys c
        /\ send sessionKey (List.fold_left happen events create) = [n]
        \/ sessionKey = "broadcast").
Proof.
  intros Hp. pose proof (subscribersOnly_events events create subscribersOnly_create Hp)
    as [Hsub _].
  set (st := List.fold_left happen events create) in *. clearbody st.
  assert (Hall : forall m,
            In m (List.filter (isOpen st) (List.map snd (map_to_list (clients st)))) ->
            exists c, connections st !! m = Some c /\ readyState c = OPEN
                      /\ closeHandled c = false).
  { intros m Hin. apply List.filter_In in Hin as [Hin Hopen].
    apply List.in_map_iff in Hin as ([k m'] & Heq & Hin). cbn in Heq. subst m'.
    apply list_elem_of_In, elem_of_map_to_list in Hin.
    destruct (Hsub k m Hin) as (c & Hc & _ & Hnot).
    apply isOpen_spec in Hopen as (c' & Hc' & Hready).
    assert (c' = c) as -> by congruence. eauto. }
  unfold send. destruct (clients st !! sessionKey) as [m|] eqn:Hk.
  - destruct (isOpen st m) eqn:Hopen.
    + intros [<-|[]]. destruct (Hsub sessionKey m Hk) as (c & Hc & Hin & Hnot).
      apply isOpen_spec in Hopen as (c' & Hc' & Hready).
      assert (c' = c) as -> by congruence. exists c. repeat split; trivial. now left.
    + destruct (String.eqb_spec sessionKey "broadcast") as [->|Hne]; [|intros []].
      intros Hin. destruct (Hall n Hin) as (c & Hc & Hready & Hnot).
      exists c. repeat split; trivial. now right.
  - destruct (String.eqb_spec sessionKey "broadcast") as [->|Hne]; [|intros []].
    intros Hin. destruct (Hall n Hin) as (c & Hc & Hready & Hnot).
    exists c. repeat split; trivial. now right.
Qed.

Lemma X24_witness :
  exists c,
    connections
      (List.fold_left happen
         [Connects "c-1"; Connects "c-2"; Receives 1 (SwitchSession "web:7") "m" 5;
          Receives 0 (SwitchSession "web:7") "m" 6; Closes 1]
         create) !! 0%nat = Some c
    /\ readyState c = OPEN
    /\ closeHandled c = false
    /\ ("c-1" ∈ subscribedKeys c
        /\ send "c-1"
             (List.fold_left happen
                [Connects "c-1"; Connects "c-2"; Receives 1 (SwitchSession "web:7") "m" 5;
                 Receives 0 (SwitchSession "web:7") "m" 6; Closes 1]
                create) = [0%nat]
        \/ "c-1" = "broadcast").
Proof.
  apply (X24_replies_reach_only_open_subscribers
           [Connects "c-1"; Connects "c-2"; Receives 1 (SwitchSession "web:7") "m" 5;
            Receives 0 (SwitchSession "web:7") "m" 6; Closes 1]
           "c-1" 0%nat).
  - vm_compute. reflexivity.
  - vm_compute. now left.
Defined.

End WebSocketFacts.

(** ** Model client: reading an OpenAI stream *)

Module StreamFacts.

Import Tools LLM Str StrFacts Stream.

Lemma split_nonempty (c : ascii) (s : string) :
  exists first rest, split c s = first :: rest.
Proof.
  destruct s as [|d s]; cbn; [eauto|].
  destruct (Ascii.eqb d c); [eauto|]. destruct (split c s); eauto.
Qed.

(** Splitting at a separator splits the list of lines. *)
Lemma split_at_separator (c : ascii) (a b : string) :
  split c (a ++ String c b) = (split c a ++ split c b)%list.
Proof.
  induction a as [|d a IH].
  - change ("" ++ String c b) with (String c b). cbn [split]. now rewrite Ascii.eqb_refl.
  - rewrite append_cons. cbn [split]. rewrite IH.
    destruct (Ascii.eqb d c); [reflexivity|].
    destruct (split_nonempty c a) as (first & rest & ->). reflexivity.
Qed.

Lemma dataLines_empty : dataLines "" = [].
Proof. reflexivity. Qed.

Lemma dataLines_whole (body rest : string) :
  dataLines ((body ++ String lf "") ++ rest)
  = (dataLines (body ++ String lf "") ++ dataLines rest)%list.
Proof.
  unfold dataLines. rewrite append_assoc. change (String lf "" ++ rest) with (String lf rest).
  rewrite !split_at_separator, !List.filter_app, !List.map_app.
  cbn [split List.filter String.prefix List.map]. now rewrite List.app_nil_r.
Qed.

Section Parse.

Variable parse : string -> option Delta.
Variable parseArgs : string -> option Json.

Lemma onRead_whole (acc : Acc) (body rest : string) :
  onRead parse acc ((body ++ String lf "") ++ rest)
  = onRead parse (onRead parse acc (body ++ String lf "")) rest.
Proof. unfold onRead. now rewrite dataLines_whole, List.fold_left_app. Qed.

Lemma reads_as_one (reads : list string) (acc : Acc) :
  List.Forall wholeLines reads ->
  List.fold_left (onRead parse) reads acc = onRead parse acc (String.concat "" reads).
Proof.
  intros Hall. revert acc. induction Hall as [|read reads [body ->] Hall IH]; intros acc.
  - reflexivity.
  - cbn [List.fold_left]. rewrite IH. destruct reads as [|next reads].
    + cbn [String.concat]. reflexivity.
    + cbn [String.concat]. change ("" ++ String.concat "" (next :: reads))
        with (String.concat "" (next :: reads)).
      now rewrite onRead_whole.
Qed.

(** X25 (llm-client.ts, parseOpenAIStream). When every read of the body
    ends with a line end, how the lines are grouped into reads does not
    matter: the response and the calls on the callbacks are those of the
    whole body arriving in one read. *)
Theorem X25_whole_lines_may_arrive_in_any_grouping (reads : list string) :
  List.Forall wholeLines reads ->
  parseOpenAIStream parse parseArgs reads
  = parseOpenAIStream parse parseArgs [String.concat "" reads].
Proof.
  intros Hall. unfold parseOpenAIStream. cbn [List.fold_left].
  now rewrite (reads_as_one reads start Hall).
Qed.

Lemma concat_chunks_app (l1 l2 : list string) :
  String.concat "" (l1 ++ l2) = String.concat "" l1 ++ String.concat "" l2.
Proof.
  induction l1 as [|x l1 IH]; [reflexivity|].
  destruct l1 as [|y l1].
  - cbn [List.app String.concat]. destruct l2 as [|z l2].
    + now rewrite append_nil_r.
    + reflexivity.
  - change ((x :: y :: l1) ++ l2)%list with (x :: (y :: l1) ++ l2)%list.
    change (String.concat "" (x :: (y :: l1) ++ l2))
      with (x ++ "" ++ String.concat "" ((y :: l1) ++ l2)).
    rewrite IH. change (String.concat "" (x :: y :: l1))
      with (x ++ "" ++ String.concat "" (y :: l1)).
    change ("" ++ String.concat "" (y :: l1) ++ String.concat "" l2)
      with (String.concat "" (y :: l1) ++ String.concat "" l2).
    change ("" ++ String.concat "" (y :: l1)) with (String.concat "" (y :: l1)).
    now rewrite append_assoc.
Qed.

Lemma streamed_onData (acc : Acc) (data : string) :
  streamed acc -> streamed (onData parse acc data).
Proof.
  intros Hs. unfold onData. destruct (String.eqb data "[DONE]"); [exact Hs|].
  destruct (parse data) as [d|]; [|exact Hs].
  destruct Hs as (texts & Hrep & Hcontent & Hne).
  unfold JS.truthyStr. destruct (deltaContent d) as [text|]; [|now exists texts].
  destruct (JS.nonEmpty text) eqn:Htext; [|now exists texts].
  exists (texts ++ [text])%list. cbn [reported accContent]. repeat split.
  - now rewrite Hrep, List.map_app.
  - rewrite concat_chunks_app, Hcontent. cbn [String.concat]. reflexivity.
  - apply List.Forall_app. split; [exact Hne|]. now repeat constructor.
Qed.

Lemma streamed_reads (reads : list string) (acc : Acc) :
  streamed acc -> streamed (List.fold_left (onRead parse) reads acc).
Proof.
  revert acc. induction reads as [|read reads IH]; intros acc Hs; [exact Hs|].
  cbn [List.fold_left]. apply IH. unfold onRead.
  generalize (dataLines read) as lines. intros lines. revert acc Hs.
  induction lines as [|line lines IHl]; intros acc Hs; [exact Hs|].
  cbn [List.fold_left]. apply IHl. now apply streamed_onData.
Qed.

Lemma chunksOf_chunks (texts : list string) (calls : list ToolCall) :
  chunksOf (List.map Chunk texts
            ++ List.map (fun c => ToolCallAssembled (callName c) (input c)) calls)
  = texts.
Proof.
  induction texts as [|text texts IH]; cbn.
  - induction calls as [|c calls IHc]; [reflexivity|exact IHc].
  - unfold chunksOf in IH. now rewrite IH.
Qed.

Lemma callsOf_calls (texts : list string) (calls : list ToolCall) :
  callsOf (List.map Chunk texts
           ++ List.map (fun c => ToolCallAssembled (callName c) (input c)) calls)
  = List.map (fun c => (callName c, input c)) calls.
Proof.
  induction texts as [|text texts IH]; cbn.
  - induction calls as [|c calls IHc]; [reflexivity|]. cbn. unfold callsOf in IHc.
    now rewrite IHc.
  - exact IH.
Qed.

(** X26 (llm-client.ts, parseOpenAIStream). What is streamed is what is
    returned: the [content] of the response is the texts handed to
    [onChunk] put together in order, none of them empty, and the tool
    calls of the response are those handed to [onToolCall], in order. *)
Theorem X26_streamed_chunks_add_up_to_the_content (reads : list string) :
  content (fst (parseOpenAIStream parse parseArgs reads))
  = String.concat "" (chunksOf (snd (parseOpenAIStream parse parseArgs reads)))
  /\ List.Forall (fun text => JS.nonEmpty text = true)
                 (chunksOf (snd (parseOpenAIStream parse parseArgs reads)))
  /\ List.map (fun c => (callName c, input c))
              (toolCalls (fst (parseOpenAIStream parse parseArgs reads)))
     = callsOf (snd (parseOpenAIStream parse parseArgs reads)).
Proof.
  unfold parseOpenAIStream. cbn [fst snd content toolCalls].
  assert (Hstart : streamed start) by (exists []; now repeat split).
  destruct (streamed_reads reads start Hstart) as (texts & Hrep & Hcontent & Hne).
  rewrite Hrep, chunksOf_chunks, callsOf_calls. now repeat split.
Qed.

End Parse.

Lemma X25_witness :
  parseOpenAIStream textOnly (fun _ => None)
    ["data: Hel" ++ String lf ""; "data: lo" ++ String lf "" ++ "data: [DONE]" ++ String lf ""]
  = parseOpenAIStream textOnly (fun _ => None)
      [String.concat ""
         ["data: Hel" ++ String lf "";
          "data: lo" ++ String lf "" ++ "data: [DONE]" ++ String lf ""]].
Proof.
  apply (X25_whole_lines_may_arrive_in_any_grouping textOnly (fun _ => None)).
  repeat constructor.
  - exists "data: Hel". reflexivity.
  - exists ("data: lo" ++ String lf "" ++ "data: [DONE]"). reflexivity.
Defined.

End StreamFacts.

(** ** Subagent registry *)

Module LifecycleFacts.

Import Subagent Lifecycle.

Lemma swept_restore (content : option (gmap string SubagentRunRecord)) :
  swept (restore content).
Proof.
  destruct content as [data|]; intros id r Hr Ha; cbn in *.
  - apply List.existsb_exists. exists (id, r). split; [|exact Ha].
    apply list_elem_of_In. now apply elem_of_map_to_list.
  - now rewrite lookup_empty in Hr.
Qed.

Lemma swept_applyOp (reg : Registry) (op : Op) : swept reg -> swept (applyOp reg op).
Proof.
  intros Hs. destruct op as [now p|now id|now id o|now id b|id|now]; cbn [applyOp].
  - intros id r Hr Ha. unfold register in *. cbn [runs sweeper] in *.
    destruct (decide (regRunId p = id)) as [<-|Hne].
    + rewrite lookup_insert_eq in Hr. injection Hr as <-. cbn [archiveAtMs] in Ha.
      rewrite Ha. reflexivity.
    + rewrite lookup_insert_ne in Hr by exact Hne. rewrite (Hs id r Hr Ha).
      match goal with |- (if ?b then _ else _) = _ => destruct b; reflexivity end.
  - intros id' r Hr Ha. unfold markStarted in *.
    destruct (runs reg !! id) as [r0|] eqn:Hr0; [|now apply (Hs id' r)].
    cbn [runs sweeper] in *. destruct (decide (id = id')) as [<-|Hne].
    + rewrite lookup_insert_eq in Hr. injection Hr as <-. now apply (Hs id r0).
    + rewrite lookup_insert_ne in Hr by exact Hne. now apply (Hs id' r).
  - intros id' r Hr Ha. unfold markCompleted in *.
    destruct (runs reg !! id) as [r0|] eqn:Hr0; [|now apply (Hs id' r)].
    cbn [runs sweeper] in *. destruct (decide (id = id')) as [<-|Hne].
    + rewrite lookup_insert_eq in Hr. injection Hr as <-. now apply (Hs id r0).
    + rewrite lookup_insert_ne in Hr by exact Hne. now apply (Hs id' r).
  - intros id' r Hr Ha. unfold finalizeCleanup in *.
    destruct (runs reg !! id) as [r0|] eqn:Hr0; [|now apply (Hs id' r)].
    destruct (cleanup r0); cbn [runs sweeper] in *.
    + apply lookup_delete_Some in Hr as [_ Hr]. now apply (Hs id' r).
    + destruct (decide (id = id')) as [<-|Hne].
      * rewrite lookup_insert_eq in Hr. injection Hr as <-.
        apply (Hs id r0 Hr0). now destruct b.
      * rewrite lookup_insert_ne in Hr by exact Hne. now apply (Hs id' r).
  - intros id' r Hr Ha. unfold delete in *.
    destruct (runs reg !! id) as [r0|] eqn:Hr0; cbn [snd runs sweeper] in *.
    + apply lookup_delete_Some in Hr as [_ Hr]. now apply (Hs id' r).
    + now apply (Hs id' r).
  - intros id r Hr Ha. unfold sweep in *. cbn [runs sweeper] in *.
    case_bool_decide as Hsize.
    + apply map_size_empty_inv in Hsize. rewrite Hsize in Hr.
      now rewrite lookup_empty in Hr.
    + apply map_lookup_filter_Some in Hr as [Hr _]. now apply (Hs id r).
Qed.

Lemma swept_ops (ops : list Op) (reg : Registry) :
  swept reg -> swept (List.fold_left applyOp ops reg).
Proof.
  revert reg. induction ops as [|op ops IH]; intros reg Hs; [exact Hs|].
  cbn [List.fold_left]. apply IH. now apply swept_applyOp.
Qed.

(** X27 (subagent/registry.ts). Whatever the registry restores from its
    file and whatever runs are registered, started, completed, finalized
    and deleted and whenever the sweeper has run: a record that carries
    an archive time has the sweeper set, and the sweep that runs at or
    after that time removes the record. *)
Theorem X27_records_to_archive_have_a_sweeper
    (content : option (gmap string SubagentRunRecord)) (ops : list Op) (id : string)
    (r : SubagentRunRecord) (a : Z) :
  runs (List.fold_left applyOp ops (restore content)) !! id = Some r ->
  archiveAtMs r = Some a -> a <> 0 ->
  sweeper (List.fold_left applyOp ops (restore content)) = true
  /\ forall now, a <= now ->
       runs (sweep now (List.fold_left applyOp ops (restore content))) !! id = None.
Proof.
  intros Hr Ha Hnz. split.
  - apply (swept_ops ops (restore content) (swept_restore content) id r Hr).
    unfold JS.truthyNum. rewrite Ha. now destruct (Z.eqb_spec a 0).
  - intros now Hle. now apply (SubagentFacts.sweep_removes now id _ r a).
Qed.

Lemma X27_witness :
  sweeper (List.fold_left applyOp
             [Registers 1000 research; Starts 1001 "run-1";
              Completes 5000 "run-1" (mkOutcome ok None); Finalizes 5001 "run-1" true;
              Sweeps 60000]
             (restore None)) = true
  /\ forall now, 3601000 <= now ->
       runs (sweep now
               (List.fold_left applyOp
                  [Registers 1000 research; Starts 1001 "run-1";
                   Completes 5000 "run-1" (mkOutcome ok None); Finalizes 5001 "run-1" true;
                   Sweeps 60000]
                  (restore None))) !! "run-1" = None.
Proof.
  apply (X27_records_to_archive_have_a_sweeper None
           [Registers 1000 research; Starts 1001 "run-1";
            Completes 5000 "run-1" (mkOutcome ok None); Finalizes 5001 "run-1" true;
            Sweeps 60000]
           "run-1"
           (mkRecord "run-1" "subagent:run-1" "websocket:abc" "look it up" None
                     Announce.CleanupKeep 1000 (Some 1001) (Some 5000)
                     (Some (mkOutcome ok None)) (Some 3601000) (Some 5001) (Some false))
           3601000).
  - vm_compute. reflexivity.
  - reflexivity.
  - lia.
Defined.

End LifecycleFacts.
